(** * Decaf bytecode toolchain: resolver, compiler, container, disassembler, VM

    A shallow embedding of the Python package [decaf] (semantic.py,
    compiler.py, chunk.py, disasm.py, vm.py, opcodes.py, ast.py) and the
    properties of it that the specification states.

    Conventions of the embedding
    - Python [int] is [Z] (unbounded); Python lists are Rocq lists in the
      same order (so [append] adds at the right end and [pop] removes the
      last element); indexing follows Python, negative indices included.
    - Python exceptions are values of [exn]; code that can raise returns
      in an error monad.  The VM's monad keeps the machine state when an
      exception is raised, as the mutations made before a [raise] stay.
    - [id(node)] of an AST node is an explicit field [nid] of the nodes
      that the resolver's side tables are keyed by; a source span is
      reduced to its [start.line], the only part the back end reads. *)

From stdpp Require Import gmap strings list pretty.
From Stdlib Require Import ZArith Lia Ascii QArith Qround.

Open Scope Z_scope.
Set Warnings "-register-all".

(** ** Python exceptions *)

(** The messages of [SemanticError] (semantic.py). *)
Inductive semantic_msg :=
| DuplicateDeclaration (name : string)
| UndeclaredVariable (name : string)
| ImmutableAssignment (name : string)
| UnknownFunction (name : string)
| ArityMismatch (callee : string) (expected got : Z)
| MissingReturn (name : string).

(** The messages of [VMRuntimeError] (vm.py). *)
Inductive vm_msg :=
| IpOutOfBounds
| UnknownOpcode
| CallTargetOutOfRange (func_index : Z)
| CallArityMismatch (fname : string) (expected got : Z)
| CallStackUnderflow
| ReturnEmptyCallStack
| LocalStoreOutOfRange
| LocalLoadOutOfRange
| GlobalStoreOutOfRange
| DivisionByZero.

(** The messages of the plain [RuntimeError]s of compiler.py. *)
Inductive rt_msg :=
| MissingMain
| NoBinding (nid : N).

Inductive exn :=
| SemanticError (m : semantic_msg)
| VMRuntimeError (m : vm_msg)
| RuntimeError (m : rt_msg)
| AssertionError
| IndexError
| KeyError
| TypeError
| ValueError.

(** ** Computations that raise and mutate

    A computation over a mutable object of type [S]: a result or an
    exception, and the object as the computation left it (what was
    mutated before a [raise] stays mutated). *)
Definition M (S A : Type) : Type := S -> (exn + A) * S.

Definition ret {S A} (a : A) : M S A := fun s => (inr a, s).
Definition raise {S A} (e : exn) : M S A := fun s => (inl e, s).
Definition bind {S A B} (m : M S A) (k : A -> M S B) : M S B :=
  fun s => match m s with
           | (inl e, s') => (inl e, s')
           | (inr a, s') => k a s'
           end.
Definition lift {S A} (r : exn + A) : M S A := fun s => (r, s).
Definition get {S} : M S S := fun s => (inr s, s).
Definition put {S} (s : S) : M S unit := fun _ => (inr tt, s).

Notation "'let*' x ':=' m 'in' k" := (bind m (fun x => k))
  (at level 10, x name, m at level 100, k at level 200).

(** ** Python list primitives *)

Definition len {A} (l : list A) : Z := Z.of_nat (length l).

(** Position denoted by the index [i] in [l], Python style: [-1] is the
    last element; [None] when the access raises [IndexError]. *)
Definition py_pos {A} (l : list A) (i : Z) : option nat :=
  if 0 <=? i then (if i <? len l then Some (Z.to_nat i) else None)
  else if - len l <=? i then Some (Z.to_nat (len l + i)) else None.

(** [l[i]] *)
Definition py_get {A} (l : list A) (i : Z) : exn + A :=
  match py_pos l i with
  | Some n => match l !! n with Some x => inr x | None => inl IndexError end
  | None => inl IndexError
  end.

(** [l[i] = x] *)
Definition py_set {A} (l : list A) (i : Z) (x : A) : exn + list A :=
  match py_pos l i with
  | Some n => inr (<[n:=x]> l)
  | None => inl IndexError
  end.

(** [l.pop()] *)
Definition py_pop {A} (l : list A) : exn + (A * list A) :=
  match last l with
  | Some x => inr (x, removelast l)
  | None => inl IndexError
  end.

(** [del l[k:]] *)
Definition py_del_from {A} (l : list A) (k : Z) : list A :=
  if 0 <=? k then take (Z.to_nat k) l else take (Z.to_nat (len l + k)) l.

(** ** opcodes.py *)

Inductive OpCode :=
| PUSH_CONST | LOAD_LOCAL | STORE_LOCAL | LOAD_GLOBAL | STORE_GLOBAL
| ADD | SUB | MUL | DIV | JMP | JMP_IF_FALSE | CALL | RET | PRINT | POP | HALT.

(** [int(opcode)] *)
Definition OpCode_value (o : OpCode) : Z :=
  match o with
  | PUSH_CONST => 0 | LOAD_LOCAL => 1 | STORE_LOCAL => 2 | LOAD_GLOBAL => 3
  | STORE_GLOBAL => 4 | ADD => 5 | SUB => 6 | MUL => 7 | DIV => 8 | JMP => 9
  | JMP_IF_FALSE => 10 | CALL => 11 | RET => 12 | PRINT => 13 | POP => 14
  | HALT => 15
  end.

(** [OpCode(v)]: the enum constructor raises [ValueError] on a value that
    is not a member. *)
Definition OpCode_of (v : Z) : exn + OpCode :=
  match v with
  | 0 => inr PUSH_CONST | 1 => inr LOAD_LOCAL | 2 => inr STORE_LOCAL
  | 3 => inr LOAD_GLOBAL | 4 => inr STORE_GLOBAL | 5 => inr ADD
  | 6 => inr SUB | 7 => inr MUL | 8 => inr DIV | 9 => inr JMP
  | 10 => inr JMP_IF_FALSE | 11 => inr CALL | 12 => inr RET
  | 13 => inr PRINT | 14 => inr POP | 15 => inr HALT
  | _ => inl ValueError
  end.

(** [opcode.name] *)
Definition OpCode_name (o : OpCode) : string :=
  match o with
  | PUSH_CONST => "PUSH_CONST" | LOAD_LOCAL => "LOAD_LOCAL"
  | STORE_LOCAL => "STORE_LOCAL" | LOAD_GLOBAL => "LOAD_GLOBAL"
  | STORE_GLOBAL => "STORE_GLOBAL" | ADD => "ADD" | SUB => "SUB"
  | MUL => "MUL" | DIV => "DIV" | JMP => "JMP"
  | JMP_IF_FALSE => "JMP_IF_FALSE" | CALL => "CALL" | RET => "RET"
  | PRINT => "PRINT" | POP => "POP" | HALT => "HALT"
  end.

(** ** chunk.py: the bytecode container *)

Record Chunk := mkChunk {
  code : list Z;
  lines : list Z;
  constants : list Z }.

Record BytecodeFunction := mkBytecodeFunction {
  name : string;
  chunk : Chunk;
  arity : Z;
  num_locals : Z }.

Record BytecodeProgram := mkBytecodeProgram {
  functions : list BytecodeFunction;
  globals : list Z;
  entry_index : Z }.

Definition empty_chunk : Chunk := mkChunk [] [] [].

(** [Chunk.add_constant]: returns the new chunk and the index. *)
Definition add_constant (c : Chunk) (value : Z) : Chunk * Z :=
  let cs := constants c ++ [value] in
  (mkChunk (code c) (lines c) cs, len cs - 1).

(** [Chunk.write] *)
Definition write (c : Chunk) (byte line : Z) : Chunk :=
  mkChunk (code c ++ [byte]) (lines c ++ [line]) (constants c).

(** [Chunk.write_u16] *)
Definition write_u16 (c : Chunk) (value line : Z) : Chunk :=
  write (write c (Z.land (Z.shiftr value 8) 255) line) (Z.land value 255) line.

(** [Chunk.patch_u16] *)
Definition patch_u16 (c : Chunk) (offset value : Z) : exn + Chunk :=
  match py_set (code c) offset (Z.land (Z.shiftr value 8) 255) with
  | inl e => inl e
  | inr code1 =>
      match py_set code1 (offset + 1) (Z.land value 255) with
      | inl e => inl e
      | inr code2 => inr (mkChunk code2 (lines c) (constants c))
      end
  end.

(** ** vm.py: the virtual machine *)

Record CallFrame := mkCallFrame {
  function : BytecodeFunction;
  ip : Z;
  stack_base : Z }.

(** The fields of a [VM] object.  [program] is the caller's object
    ([self.program = program] stores a reference); [vm_globals] is the
    VM's own list [self.globals]. *)
Record VM := mkVM {
  program : BytecodeProgram;
  stack : list Z;
  frames : list CallFrame;
  vm_globals : list Z;
  output : list string }.

(** [VM.__init__]: [list(program.globals)] makes a fresh list with the
    same elements. *)
Definition VM_init (p : BytecodeProgram) : VM :=
  mkVM p [] [] (globals p) [].

(** Computations of the VM. *)
Definition vmM : Type -> Type := M VM.

Definition set_stack (s : list Z) : vmM unit :=
  fun vm => (inr tt, mkVM (program vm) s (frames vm) (vm_globals vm) (output vm)).
Definition set_frames (fs : list CallFrame) : vmM unit :=
  fun vm => (inr tt, mkVM (program vm) (stack vm) fs (vm_globals vm) (output vm)).
Definition set_globals (g : list Z) : vmM unit :=
  fun vm => (inr tt, mkVM (program vm) (stack vm) (frames vm) g (output vm)).
Definition set_output (o : list string) : vmM unit :=
  fun vm => (inr tt, mkVM (program vm) (stack vm) (frames vm) (vm_globals vm) o).

(** [self.stack.append(v)] and [self.stack.pop()] *)
Definition push (v : Z) : vmM unit :=
  let* vm := get in set_stack (stack vm ++ [v]).
Definition pop : vmM Z :=
  let* vm := get in
  let* r := lift (py_pop (stack vm)) in
  let* _ := set_stack (snd r) in
  ret (fst r).

(** The local [frame] of [run] is [self.frames[-1]]: the object on top
    of the frame stack.  Every read and write of [frame.ip] happens
    while it is on top. *)
Definition cur_frame : vmM CallFrame :=
  let* vm := get in lift (py_get (frames vm) (-1)).

(** [frame.ip = v] *)
Definition set_ip (v : Z) : vmM unit :=
  let* vm := get in
  let* r := lift (py_pop (frames vm)) in
  set_frames (snd r ++ [mkCallFrame (function (fst r)) v (stack_base (fst r))]).

(** [VM._read_u16] *)
Definition read_u16 : vmM Z :=
  let* frame := cur_frame in
  let* hi := lift (py_get (code (chunk (function frame))) (ip frame)) in
  let* lo := lift (py_get (code (chunk (function frame))) (ip frame + 1)) in
  let* _ := set_ip (ip frame + 2) in
  ret (Z.lor (Z.shiftl hi 8) lo).

(** [VM._read_byte] *)
Definition read_byte : vmM Z :=
  let* frame := cur_frame in
  let* value := lift (py_get (code (chunk (function frame))) (ip frame)) in
  let* _ := set_ip (ip frame + 1) in
  ret value.

(** [VM._binary] *)
Definition binary (op : Z -> Z -> exn + Z) : vmM unit :=
  let* b := pop in
  let* a := pop in
  let* r := lift (op a b) in
  push r.

(** [VM._safe_div]; Python's [//] on integers is floor division, as is
    [Z.div]. *)
Definition safe_div (a b : Z) : exn + Z :=
  if b =? 0 then inl (VMRuntimeError DivisionByZero) else inr (a / b).

(** [VM._call_function].  The padding loop
    [while len(self.stack) < needed: self.stack.append(0)] appends
    [needed - len(self.stack)] zeros when that is positive. *)
Definition call_function (func_index argc : Z) : vmM unit :=
  let* vm := get in
  if (func_index <? 0) || (len (functions (program vm)) <=? func_index)
  then raise (VMRuntimeError (CallTargetOutOfRange func_index))
  else
    let* fn := lift (py_get (functions (program vm)) func_index) in
    if negb (argc =? arity fn)
    then raise (VMRuntimeError (CallArityMismatch (name fn) (arity fn) argc))
    else
      let base := len (stack vm) - argc in
      if base <? 0 then raise (VMRuntimeError CallStackUnderflow)
      else
        let needed := base + num_locals fn in
        let* _ := set_stack (stack vm ++ replicate (Z.to_nat (needed - len (stack vm))) 0) in
        let* vm' := get in
        set_frames (frames vm' ++ [mkCallFrame fn 0 base]).

(** [VM._return] *)
Definition do_return : vmM unit :=
  let* vm := get in
  match frames vm with
  | [] => raise (VMRuntimeError ReturnEmptyCallStack)
  | _ =>
      let* r := lift (py_pop (frames vm)) in
      let* _ := set_frames (snd r) in
      let* value := pop in
      let* vm1 := get in
      let* _ := set_stack (py_del_from (stack vm1) (stack_base (fst r))) in
      let* _ := push value in
      let* vm2 := get in
      match frames vm2 with
      | [] => set_stack []
      | _ => ret tt
      end
  end.

(** [VM._store_local] *)
Definition store_local (frame : CallFrame) (index : Z) : vmM unit :=
  let* value := pop in
  let* vm := get in
  let slot := stack_base frame + index in
  if len (stack vm) <=? slot then raise (VMRuntimeError LocalStoreOutOfRange)
  else
    let* s := lift (py_set (stack vm) slot value) in
    set_stack s.

(** [VM._load_local] *)
Definition load_local (frame : CallFrame) (index : Z) : vmM Z :=
  let* vm := get in
  let slot := stack_base frame + index in
  if len (stack vm) <=? slot then raise (VMRuntimeError LocalLoadOutOfRange)
  else lift (py_get (stack vm) slot).

(** [VM._store_global] *)
Definition store_global (index : Z) : vmM unit :=
  let* value := pop in
  let* vm := get in
  if len (vm_globals vm) <=? index then raise (VMRuntimeError GlobalStoreOutOfRange)
  else
    let* g := lift (py_set (vm_globals vm) index value) in
    set_globals g.

(** [str(value)] *)
Definition str (v : Z) : string := pretty v.

(** The branch of [run]'s dispatch for one decoded opcode.  The enum is
    closed, so the final [else] of the source (unknown opcode) has no
    opcode left to take it. *)
Definition exec (chunk0 : Chunk) (opcode : OpCode) : vmM unit :=
  match opcode with
  | PUSH_CONST =>
      let* const_index := read_u16 in
      let* value := lift (py_get (constants chunk0) const_index) in
      push value
  | LOAD_LOCAL =>
      let* index := read_u16 in
      let* frame := cur_frame in
      let* v := load_local frame index in
      push v
  | STORE_LOCAL =>
      let* index := read_u16 in
      let* frame := cur_frame in
      store_local frame index
  | LOAD_GLOBAL =>
      let* index := read_u16 in
      let* vm := get in
      let* v := lift (py_get (vm_globals vm) index) in
      push v
  | STORE_GLOBAL =>
      let* index := read_u16 in
      store_global index
  | ADD => binary (fun a b => inr (a + b))
  | SUB => binary (fun a b => inr (a - b))
  | MUL => binary (fun a b => inr (a * b))
  | DIV => binary safe_div
  | JMP =>
      let* target := read_u16 in
      set_ip target
  | JMP_IF_FALSE =>
      let* target := read_u16 in
      let* value := pop in
      if value =? 0 then set_ip target else ret tt
  | CALL =>
      let* func_index := read_u16 in
      let* argc := read_byte in
      call_function func_index argc
  | RET => do_return
  | PRINT =>
      let* value := pop in
      let* vm := get in
      set_output (output vm ++ [str value])
  | POP => let* _ := pop in ret tt
  | HALT => set_frames []
  end.

(** One iteration of the [while self.frames] loop of [run] (with
    [trace=False]; tracing only prints to the console). *)
Definition step : vmM unit :=
  let* frame := cur_frame in
  let chunk0 := chunk (function frame) in
  if len (code chunk0) <=? ip frame
  then raise (VMRuntimeError IpOutOfBounds)
  else
    let* byte := lift (py_get (code chunk0) (ip frame)) in
    let* opcode := lift (OpCode_of byte) in
    let* _ := set_ip (ip frame + 1) in
    exec chunk0 opcode.

(** How a call of [run] ends, as far as [fuel] iterations show. *)
Inductive outcome :=
| Returned (out : list string)
| Raised (e : exn)
| Timeout.

Fixpoint run_loop (fuel : nat) (vm : VM) : outcome * VM :=
  match frames vm with
  | [] => (Returned (output vm), vm)
  | _ :: _ =>
      match fuel with
      | O => (Timeout, vm)
      | S fuel' =>
          match step vm with
          | (inl e, vm') => (Raised e, vm')
          | (inr _, vm') => run_loop fuel' vm'
          end
      end
  end.

(** [VM.run] *)
Definition run (fuel : nat) (vm : VM) : outcome * VM :=
  match call_function (entry_index (program vm)) 0 vm with
  | (inl e, vm') => (Raised e, vm')
  | (inr _, vm') => run_loop fuel vm'
  end.

(** [VM(program).run()] *)
Definition run_program (fuel : nat) (p : BytecodeProgram) : outcome * VM :=
  run fuel (VM_init p).

(** ** Loops *)

Section Loops.
Context {S A : Type}.

  (** [for x in l: f(x)] *)
Definition for_each (f : A -> M S unit) : list A -> M S unit :=
    fix go (l : list A) : M S unit :=
      match l with
      | [] => ret tt
      | x :: l' => let* _ := f x in go l'
      end.

  (** [for x in l: f(x, c)], where [f] updates the object [c] it is
      handed. *)
Definition for_each_with {C : Type} (f : A -> C -> M S C) : list A -> C -> M S C :=
    fix go (l : list A) (c : C) : M S C :=
      match l with
      | [] => ret c
      | x :: l' => let* c' := f x c in go l' c'
      end.
End Loops.

(** ** ast.py: the syntax tree

    [nid] is [id(node)]; [line] is [node.span.start.line].  Only the
    node classes that key a side table of the resolver carry a [nid]. *)

Inductive Expr :=
| IntLiteral (line : Z) (value : Z)
| VarExpr (nid : N) (line : Z) (vname : string)
| AssignExpr (nid : N) (line : Z) (vname : string) (value : Expr)
| BinaryExpr (line : Z) (left : Expr) (operator : string) (right : Expr)
| CallExpr (nid : N) (line : Z) (callee : string) (arguments : list Expr).

Record VarDecl := mkVarDecl {
  vd_nid : N;
  vd_line : Z;
  vd_name : string;
  vd_mutable : bool;
  initializer : Expr }.

Inductive Stmt :=
| SVarDecl (d : VarDecl)
| BlockStmt (statements : list Stmt)
| ExprStmt (line : Z) (expr : Expr)
| PrintStmt (line : Z) (expr : Expr)
| IfStmt (line : Z) (condition : Expr) (then_branch : Stmt) (else_branch : option Stmt)
| WhileStmt (line : Z) (condition : Expr) (body : Stmt)
| ReturnStmt (line : Z) (value : Expr).

(** Induction over expressions and statements that reaches the
    arguments of a call, the statements of a block and the [else]
    branch. *)
Section NestedInduction.
Variable P : Expr -> Prop.
Hypothesis P_int : forall line value, P (IntLiteral line value).
Hypothesis P_var : forall nid line vname, P (VarExpr nid line vname).
Hypothesis P_assign : forall nid line vname value,
      P value -> P (AssignExpr nid line vname value).
Hypothesis P_binary : forall line lhs operator rhs,
      P lhs -> P rhs -> P (BinaryExpr line lhs operator rhs).
Hypothesis P_call : forall nid line callee arguments,
      Forall P arguments -> P (CallExpr nid line callee arguments).

Fixpoint Expr_nested_ind (e : Expr) : P e :=
    match e with
    | IntLiteral line value => P_int line value
    | VarExpr nid line vname => P_var nid line vname
    | AssignExpr nid line vname value =>
        P_assign nid line vname value (Expr_nested_ind value)
    | BinaryExpr line lhs operator rhs =>
        P_binary line lhs operator rhs (Expr_nested_ind lhs) (Expr_nested_ind rhs)
    | CallExpr nid line callee arguments =>
        P_call nid line callee arguments
          ((fix go (l : list Expr) : Forall P l :=
              match l with
              | [] => @List.Forall_nil _ P
              | a :: l' => @List.Forall_cons _ P a l' (Expr_nested_ind a) (go l')
              end) arguments)
    end.

Variable Q : Stmt -> Prop.
Hypothesis Q_decl : forall d, Q (SVarDecl d).
Hypothesis Q_block : forall statements, Forall Q statements -> Q (BlockStmt statements).
Hypothesis Q_expr : forall line expr, Q (ExprStmt line expr).
Hypothesis Q_print : forall line expr, Q (PrintStmt line expr).
Hypothesis Q_if : forall line condition then_branch else_branch,
      Q then_branch -> (forall e, else_branch = Some e -> Q e) ->
      Q (IfStmt line condition then_branch else_branch).
Hypothesis Q_while : forall line condition body,
      Q body -> Q (WhileStmt line condition body).
Hypothesis Q_return : forall line value, Q (ReturnStmt line value).

Fixpoint Stmt_nested_ind (s : Stmt) : Q s :=
    match s with
    | SVarDecl d => Q_decl d
    | BlockStmt statements =>
        Q_block statements
          ((fix go (l : list Stmt) : Forall Q l :=
              match l with
              | [] => @List.Forall_nil _ Q
              | a :: l' => @List.Forall_cons _ Q a l' (Stmt_nested_ind a) (go l')
              end) statements)
    | ExprStmt line expr => Q_expr line expr
    | PrintStmt line expr => Q_print line expr
    | IfStmt line condition then_branch else_branch =>
        Q_if line condition then_branch else_branch (Stmt_nested_ind then_branch)
          (match else_branch as o return (forall e, o = Some e -> Q e) with
           | Some e0 => fun e H =>
               match H in (_ = y) return (match y with Some e' => Q e' | None => True end) with
               | eq_refl => Stmt_nested_ind e0
               end
           | None => fun e H =>
               match H in (_ = y) return (match y with Some e' => Q e' | None => True end) with
               | eq_refl => I
               end
           end)
    | WhileStmt line condition body => Q_while line condition body (Stmt_nested_ind body)
    | ReturnStmt line value => Q_return line value
    end.
End NestedInduction.

Record Param := mkParam { param_name : string }.

(** [fd_body] is [decl.body.statements]: the parser always builds the
    body as a block. *)
Record FunctionDecl := mkFunctionDecl {
  fd_line : Z;
  fd_name : string;
  params : list Param;
  fd_body : list Stmt }.

Inductive Declaration :=
| DVar (d : VarDecl)
| DFun (d : FunctionDecl).

Record Program := mkProgram { declarations : list Declaration }.

(** ** semantic.py: resolution *)

(** The fields shared by [GlobalBinding] and [LocalBinding]. *)
Record Binding := mkBinding {
  b_name : string;
  b_mutable : bool;
  b_index : Z }.

Inductive VarBinding :=
| GlobalBinding (b : Binding)
| LocalBinding (b : Binding).

Definition vb_mutable (v : VarBinding) : bool :=
  match v with GlobalBinding b | LocalBinding b => b_mutable b end.

Record FunctionSymbol := mkFunctionSymbol {
  fs_name : string;
  fs_index : Z;
  fs_arity : Z;
  fs_decl : FunctionDecl;
  locals : list Binding;
  max_locals : Z }.

Record GlobalVariable := mkGlobalVariable {
  gv_decl : VarDecl;
  binding : Binding }.

(** A reference to a [FunctionSymbol] object.  The symbols are created
    by [_declare_function] only, which appends them to [_functions];
    the reference is the position in that list.  [_functions_by_name],
    [_call_targets] and [_FunctionContext.function] hold references to
    these same objects. *)
Definition fref := nat.

Record ResolvedProgram := mkResolvedProgram {
  rp_program : Program;
  rp_globals : list GlobalVariable;
  rp_functions : list FunctionSymbol;
  var_bindings : gmap N VarBinding;
  call_targets : gmap N fref }.

Record FunctionContext := mkFunctionContext {
  fc_function : fref;
  next_local_index : Z }.

(** The resolver object.  A [_Scope] is its [bindings] dictionary.
    [_scopes] starts as [[self._global_scope]]; the global scope is not
    written to after [_declare_top_level] ([_declare_local] writes to
    the scope pushed by [_resolve_function] or [_resolve_block]), so
    its entry in [_scopes] is kept as a value. *)
Record Resolver := mkResolver {
  _global_scope : gmap string VarBinding;
  _globals : list GlobalVariable;
  _functions : list FunctionSymbol;
  _functions_by_name : gmap string fref;
  _var_bindings : gmap N VarBinding;
  _call_targets : gmap N fref;
  _scopes : list (gmap string VarBinding) }.

Definition resM : Type -> Type := M Resolver.

(** [Resolver.__init__] *)
Definition Resolver_init : Resolver :=
  mkResolver ∅ [] [] ∅ ∅ ∅ [].

Definition set_global_scope (g : gmap string VarBinding) : resM unit :=
  fun r => (inr tt, mkResolver g (_globals r) (_functions r) (_functions_by_name r)
                      (_var_bindings r) (_call_targets r) (_scopes r)).
Definition set_r_globals (g : list GlobalVariable) : resM unit :=
  fun r => (inr tt, mkResolver (_global_scope r) g (_functions r) (_functions_by_name r)
                      (_var_bindings r) (_call_targets r) (_scopes r)).
Definition set_functions (f : list FunctionSymbol) : resM unit :=
  fun r => (inr tt, mkResolver (_global_scope r) (_globals r) f (_functions_by_name r)
                      (_var_bindings r) (_call_targets r) (_scopes r)).
Definition set_functions_by_name (m : gmap string fref) : resM unit :=
  fun r => (inr tt, mkResolver (_global_scope r) (_globals r) (_functions r) m
                      (_var_bindings r) (_call_targets r) (_scopes r)).
Definition set_var_bindings (m : gmap N VarBinding) : resM unit :=
  fun r => (inr tt, mkResolver (_global_scope r) (_globals r) (_functions r)
                      (_functions_by_name r) m (_call_targets r) (_scopes r)).
Definition set_call_targets (m : gmap N fref) : resM unit :=
  fun r => (inr tt, mkResolver (_global_scope r) (_globals r) (_functions r)
                      (_functions_by_name r) (_var_bindings r) m (_scopes r)).
Definition set_scopes (s : list (gmap string VarBinding)) : resM unit :=
  fun r => (inr tt, mkResolver (_global_scope r) (_globals r) (_functions r)
                      (_functions_by_name r) (_var_bindings r) (_call_targets r) s).

(** The symbol object behind a reference. *)
Definition deref (f : fref) : resM FunctionSymbol :=
  let* r := get in
  match _functions r !! f with
  | Some s => ret s
  | None => raise IndexError
  end.

(** [self._var_bindings[id(node)] = binding] *)
Definition record_binding (nid : N) (b : VarBinding) : resM unit :=
  let* r := get in set_var_bindings (<[nid:=b]> (_var_bindings r)).

(** [Resolver._declare_global] *)
Definition declare_global (decl : VarDecl) : resM unit :=
  let* r := get in
  if bool_decide (is_Some (_global_scope r !! vd_name decl))
     || bool_decide (is_Some (_functions_by_name r !! vd_name decl))
  then raise (SemanticError (DuplicateDeclaration (vd_name decl)))
  else
    let index := len (_globals r) in
    let b := mkBinding (vd_name decl) (vd_mutable decl) index in
    let* _ := set_global_scope (<[vd_name decl := GlobalBinding b]> (_global_scope r)) in
    let* _ := set_r_globals (_globals r ++ [mkGlobalVariable decl b]) in
    record_binding (vd_nid decl) (GlobalBinding b).

(** [Resolver._declare_function] *)
Definition declare_function (decl : FunctionDecl) : resM unit :=
  let* r := get in
  if bool_decide (is_Some (_functions_by_name r !! fd_name decl))
     || bool_decide (is_Some (_global_scope r !! fd_name decl))
  then raise (SemanticError (DuplicateDeclaration (fd_name decl)))
  else
    let index := len (_functions r) in
    let symbol := mkFunctionSymbol (fd_name decl) index (len (params decl)) decl [] 0 in
    let* _ := set_functions (_functions r ++ [symbol]) in
    set_functions_by_name (<[fd_name decl := length (_functions r)]> (_functions_by_name r)).

(** [Resolver._declare_top_level] *)
Definition declare_top_level (p : Program) : resM unit :=
  for_each (fun decl => match decl with
                        | DVar d => declare_global d
                        | DFun d => declare_function d
                        end) (declarations p).

(** [Resolver._push_scope], [Resolver._pop_scope] *)
Definition push_scope : resM unit :=
  let* r := get in set_scopes (_scopes r ++ [∅]).
Definition pop_scope : resM unit :=
  let* r := get in
  let* p := lift (py_pop (_scopes r)) in
  set_scopes (snd p).

(** [Resolver._declare_local]: [self._scopes[-1].bindings[name] = binding] *)
Definition declare_local (b : Binding) : resM unit :=
  let* r := get in
  let* p := lift (py_pop (_scopes r)) in
  set_scopes (snd p ++ [<[b_name b := LocalBinding b]> (fst p)]).

(** [function.locals.append(binding)] on the symbol object [f]. *)
Definition append_local (f : fref) (b : Binding) : resM unit :=
  let* r := get in
  let* s := deref f in
  set_functions (<[f := mkFunctionSymbol (fs_name s) (fs_index s) (fs_arity s) (fs_decl s)
                          (locals s ++ [b]) (max_locals s)]> (_functions r)).

(** [function.max_locals = v] on the symbol object [f]. *)
Definition set_max_locals (f : fref) (v : Z) : resM unit :=
  let* r := get in
  let* s := deref f in
  set_functions (<[f := mkFunctionSymbol (fs_name s) (fs_index s) (fs_arity s) (fs_decl s)
                          (locals s) v]> (_functions r)).

(** The loop of [Resolver._lookup] over [reversed(self._scopes)]; the
    argument is the reversed list. *)
Fixpoint lookup_scopes (name : string) (rev_scopes : list (gmap string VarBinding))
  : option VarBinding :=
  match rev_scopes with
  | [] => None
  | scope :: rest =>
      match scope !! name with
      | Some b => Some b
      | None => lookup_scopes name rest
      end
  end.

(** [Resolver._lookup] *)
Definition lookup_name (name : string) : resM (option VarBinding) :=
  let* r := get in
  match lookup_scopes name (rev (_scopes r)) with
  | Some b => ret (Some b)
  | None => ret (_global_scope r !! name)
  end.

(** [Resolver._resolve_expr] *)
Fixpoint resolve_expr (expr : Expr) (context : option FunctionContext) : resM unit :=
  match expr with
  | IntLiteral _ _ => ret tt
  | VarExpr nid _ vname =>
      let* b := lookup_name vname in
      match b with
      | None => raise (SemanticError (UndeclaredVariable vname))
      | Some b => record_binding nid b
      end
  | AssignExpr nid _ vname value =>
      let* b := lookup_name vname in
      match b with
      | None => raise (SemanticError (UndeclaredVariable vname))
      | Some b =>
          if negb (vb_mutable b)
          then raise (SemanticError (ImmutableAssignment vname))
          else
            let* _ := resolve_expr value context in
            record_binding nid b
      end
  | BinaryExpr _ lhs _ rhs =>
      let* _ := resolve_expr lhs context in
      resolve_expr rhs context
  | CallExpr nid _ callee arguments =>
      let* r := get in
      match _functions_by_name r !! callee with
      | None => raise (SemanticError (UnknownFunction callee))
      | Some f =>
          let* symbol := deref f in
          if negb (len arguments =? fs_arity symbol)
          then raise (SemanticError (ArityMismatch callee (fs_arity symbol) (len arguments)))
          else
            let* _ := for_each (fun argument => resolve_expr argument context) arguments in
            let* r' := get in
            set_call_targets (<[nid := f]> (_call_targets r'))
      end
  end.

(** [Resolver._resolve_local_var] *)
Definition resolve_local_var (decl : VarDecl) (context : FunctionContext)
  : resM FunctionContext :=
  let* _ := resolve_expr (initializer decl) (Some context) in
  let index := next_local_index context in
  let context' := mkFunctionContext (fc_function context) (next_local_index context + 1) in
  let b := mkBinding (vd_name decl) (vd_mutable decl) index in
  let* _ := declare_local b in
  let* _ := record_binding (vd_nid decl) (LocalBinding b) in
  let* _ := append_local (fc_function context') b in
  ret context'.

(** [Resolver._resolve_stmt], with [_resolve_block], [_resolve_if] and
    [_resolve_while] in their branches.  The context object is updated
    in place by the source; here the updated context is returned. *)
Fixpoint resolve_stmt (stmt : Stmt) (context : FunctionContext) : resM FunctionContext :=
  match stmt with
  | SVarDecl d => resolve_local_var d context
  | BlockStmt statements =>
      let* _ := push_scope in
      let* context' := for_each_with resolve_stmt statements context in
      let* _ := pop_scope in
      ret context'
  | ExprStmt _ expr =>
      let* _ := resolve_expr expr (Some context) in ret context
  | PrintStmt _ expr =>
      let* _ := resolve_expr expr (Some context) in ret context
  | IfStmt _ condition then_branch else_branch =>
      let* _ := resolve_expr condition (Some context) in
      let* context' := resolve_stmt then_branch context in
      match else_branch with
      | Some s => resolve_stmt s context'
      | None => ret context'
      end
  | WhileStmt _ condition body =>
      let* _ := resolve_expr condition (Some context) in
      resolve_stmt body context
  | ReturnStmt _ value =>
      let* _ := resolve_expr value (Some context) in ret context
  end.

(** [Resolver._resolve_block] *)
Definition resolve_block (statements : list Stmt) (context : FunctionContext)
  : resM FunctionContext :=
  let* _ := push_scope in
  let* context' := for_each_with resolve_stmt statements context in
  let* _ := pop_scope in
  ret context'.

(** [Resolver._stmt_guarantees_return] *)
Fixpoint stmt_guarantees_return (stmt : Stmt) : bool :=
  match stmt with
  | ReturnStmt _ _ => true
  | BlockStmt statements =>
      (fix last_guarantees (l : list Stmt) : bool :=
         match l with
         | [] => false
         | [s] => stmt_guarantees_return s
         | _ :: l' => last_guarantees l'
         end) statements
  | IfStmt _ _ then_branch else_branch =>
      match else_branch with
      | None => false
      | Some e => stmt_guarantees_return then_branch && stmt_guarantees_return e
      end
  | _ => false
  end.

(** [Resolver._guarantees_return] *)
Definition guarantees_return (statements : list Stmt) : bool :=
  match last statements with
  | None => false
  | Some s => stmt_guarantees_return s
  end.

(** [max(xs, default=d)] *)
Definition py_max (xs : list Z) (d : Z) : Z :=
  match xs with
  | [] => d
  | x :: xs' => fold_left Z.max xs' x
  end.

(** The parameter loop of [_resolve_function]:
    [for position, param in enumerate(function.decl.params)]. *)
Definition declare_params (f : fref) (ps : list Param) : resM unit :=
  for_each (fun pp : nat * Param =>
              let b := mkBinding (param_name (snd pp)) true (Z.of_nat (fst pp)) in
              let* _ := declare_local b in
              append_local f b)
           (imap (fun i p => (i, p)) ps).

(** [Resolver._resolve_function] up to the assignment of
    [function.max_locals]: the scope walk of the parameters and the
    body. *)
Definition resolve_function_walk (f : fref) (function : FunctionSymbol) : resM unit :=
  let context := mkFunctionContext f (len (params (fs_decl function))) in
  let* r := get in
  let* _ := set_scopes [_global_scope r] in
  let* _ := push_scope in
  let* _ := declare_params f (params (fs_decl function)) in
  let* _ := resolve_block (fd_body (fs_decl function)) context in
  let* _ := pop_scope in
  let* function' := deref f in
  set_max_locals f (py_max (map b_index (locals function')) (-1) + 1).

(** [Resolver._resolve_function]: the walk, then the return-path
    check. *)
Definition resolve_function (f : fref) : resM unit :=
  let* function := deref f in
  let* _ := resolve_function_walk f function in
  if negb (guarantees_return (fd_body (fs_decl function)))
  then raise (SemanticError (MissingReturn (fs_name function)))
  else ret tt.

(** [Resolver.resolve] *)
Definition resolve_m (p : Program) : resM ResolvedProgram :=
  let* _ := declare_top_level p in
  let* r := get in
  let* _ := set_scopes [_global_scope r] in
  let* _ := for_each (fun g => resolve_expr (initializer (gv_decl g)) None) (_globals r) in
  let* _ := for_each resolve_function (seq 0 (length (_functions r))) in
  let* r' := get in
  ret (mkResolvedProgram p (_globals r') (_functions r') (_var_bindings r') (_call_targets r')).

(** [Resolver(program).resolve()] *)
Definition resolve (p : Program) : exn + ResolvedProgram :=
  fst (resolve_m p Resolver_init).

(** ** compiler.py: lowering to bytecode

    The state of the computations is the chunk object
    [self._current_chunk]. *)

Definition compM : Type -> Type := M Chunk.

(** [Compiler._current_offset] *)
Definition current_offset : compM Z :=
  let* c := get in ret (len (code c)).

(** [self._current_chunk.write(byte, line)] *)
Definition emit_byte (byte line : Z) : compM unit :=
  let* c := get in put (write c byte line).

(** [Compiler._emit]: [Chunk.write] stores [int(opcode)]. *)
Definition emit (opcode : OpCode) (line : Z) : compM unit :=
  emit_byte (OpCode_value opcode) line.

(** [Compiler._emit_u16] *)
Definition emit_u16 (value line : Z) : compM unit :=
  let* c := get in put (write_u16 c value line).

Definition emit_load_local (index line : Z) : compM unit :=
  let* _ := emit LOAD_LOCAL line in emit_u16 index line.
Definition emit_store_local (index line : Z) : compM unit :=
  let* _ := emit STORE_LOCAL line in emit_u16 index line.
Definition emit_load_global (index line : Z) : compM unit :=
  let* _ := emit LOAD_GLOBAL line in emit_u16 index line.
Definition emit_store_global (index line : Z) : compM unit :=
  let* _ := emit STORE_GLOBAL line in emit_u16 index line.

(** [Compiler._emit_call] *)
Definition emit_call (func_index argc line : Z) : compM unit :=
  let* _ := emit CALL line in
  let* _ := emit_u16 func_index line in
  emit_byte argc line.

(** [Compiler._emit_jump] *)
Definition emit_jump (opcode : OpCode) (line : Z) : compM Z :=
  let* _ := emit opcode line in
  let* offset := current_offset in
  let* _ := emit_byte 0 line in
  let* _ := emit_byte 0 line in
  ret offset.

(** [Compiler._patch_jump] *)
Definition patch_jump (offset : Z) : compM unit :=
  let* c := get in
  let jump_target := len (code c) in
  let* c' := lift (patch_u16 c offset jump_target) in
  put c'.

(** [Compiler._emit_loop] *)
Definition emit_loop (loop_start line : Z) : compM unit :=
  let* _ := emit JMP line in emit_u16 loop_start line.

(** [Compiler._binding_for_node] *)
Definition binding_for_node (rp : ResolvedProgram) (nid : N) : compM VarBinding :=
  match var_bindings rp !! nid with
  | None => raise (RuntimeError (NoBinding nid))
  | Some b => ret b
  end.

(** [op_map.get(expr.operator.lexeme)] *)
Definition op_map (lexeme : string) : option OpCode :=
  if String.eqb lexeme "+" then Some ADD
  else if String.eqb lexeme "-" then Some SUB
  else if String.eqb lexeme "*" then Some MUL
  else if String.eqb lexeme "/" then Some DIV
  else None.

(** [Compiler._compile_expr] *)
Fixpoint compile_expr (rp : ResolvedProgram) (expr : Expr) : compM unit :=
  match expr with
  | IntLiteral line value =>
      let* c := get in
      let* _ := put (fst (add_constant c value)) in
      let index := snd (add_constant c value) in
      let* _ := emit PUSH_CONST line in
      emit_u16 index line
  | VarExpr nid line _ =>
      let* b := binding_for_node rp nid in
      match b with
      | LocalBinding b => emit_load_local (b_index b) line
      | GlobalBinding b => emit_load_global (b_index b) line
      end
  | AssignExpr nid line _ value =>
      let* b := binding_for_node rp nid in
      let* _ := compile_expr rp value in
      match b with
      | LocalBinding b =>
          let* _ := emit_store_local (b_index b) line in
          emit_load_local (b_index b) line
      | GlobalBinding b =>
          let* _ := emit_store_global (b_index b) line in
          emit_load_global (b_index b) line
      end
  | BinaryExpr line lhs operator rhs =>
      let* _ := compile_expr rp lhs in
      let* _ := compile_expr rp rhs in
      match op_map operator with
      | None => raise AssertionError
      | Some opcode => emit opcode line
      end
  | CallExpr nid line _ arguments =>
      match call_targets rp !! nid with
      | None => raise KeyError
      | Some f =>
          match rp_functions rp !! f with
          | None => raise KeyError
          | Some symbol =>
              let* _ := for_each (compile_expr rp) arguments in
              emit_call (fs_index symbol) (len arguments) line
          end
      end
  end.

(** [Compiler._compile_var_decl] *)
Definition compile_var_decl (rp : ResolvedProgram) (decl : VarDecl) : compM unit :=
  let* b := binding_for_node rp (vd_nid decl) in
  let* _ := compile_expr rp (initializer decl) in
  let line := vd_line decl in
  match b with
  | LocalBinding b => emit_store_local (b_index b) line
  | GlobalBinding b => emit_store_global (b_index b) line
  end.

(** [Compiler._compile_stmt], with [_compile_block], [_compile_if] and
    [_compile_while] in their branches. *)
Fixpoint compile_stmt (rp : ResolvedProgram) (stmt : Stmt) : compM unit :=
  match stmt with
  | SVarDecl d => compile_var_decl rp d
  | BlockStmt statements => for_each (compile_stmt rp) statements
  | ExprStmt line expr =>
      let* _ := compile_expr rp expr in emit POP line
  | PrintStmt line expr =>
      let* _ := compile_expr rp expr in emit PRINT line
  | IfStmt line condition then_branch else_branch =>
      let* _ := compile_expr rp condition in
      let* jump_else := emit_jump JMP_IF_FALSE line in
      let* _ := compile_stmt rp then_branch in
      match else_branch with
      | Some e =>
          let* jump_end := emit_jump JMP line in
          let* _ := patch_jump jump_else in
          let* _ := compile_stmt rp e in
          patch_jump jump_end
      | None => patch_jump jump_else
      end
  | WhileStmt line condition body =>
      let* loop_start := current_offset in
      let* _ := compile_expr rp condition in
      let* exit_jump := emit_jump JMP_IF_FALSE line in
      let* _ := compile_stmt rp body in
      let* _ := emit_loop loop_start line in
      patch_jump exit_jump
  | ReturnStmt line value =>
      let* _ := compile_expr rp value in emit RET line
  end.

(** [Compiler._compile_block] *)
Definition compile_block (rp : ResolvedProgram) (statements : list Stmt) : compM unit :=
  for_each (compile_stmt rp) statements.

(** The chunk a computation builds from a fresh [Chunk()]. *)
Definition build_chunk (m : compM unit) : exn + Chunk :=
  match m empty_chunk with
  | (inl e, _) => inl e
  | (inr _, c) => inr c
  end.

(** [Compiler._compile_function] *)
Definition compile_function (rp : ResolvedProgram) (symbol : FunctionSymbol)
  : exn + BytecodeFunction :=
  match build_chunk (compile_block rp (fd_body (fs_decl symbol))) with
  | inl e => inl e
  | inr c => inr (mkBytecodeFunction (fs_name symbol) c (fs_arity symbol) (max_locals symbol))
  end.

(** The body of [_compile_entry_function] between the creation of the
    chunk and the construction of the result. *)
Definition compile_entry_body (rp : ResolvedProgram) : compM unit :=
  let* _ := for_each (fun global_var =>
                        let* _ := compile_expr rp (initializer (gv_decl global_var)) in
                        emit_store_global (b_index (binding global_var))
                                          (vd_line (gv_decl global_var)))
                     (rp_globals rp) in
  match find (fun fn => String.eqb (fs_name fn) "main") (rp_functions rp) with
  | None => raise (RuntimeError MissingMain)
  | Some main_symbol =>
      let line := fd_line (fs_decl main_symbol) in
      let* _ := emit_call (fs_index main_symbol) (len (params (fs_decl main_symbol))) line in
      let* _ := emit POP line in
      emit HALT line
  end.

(** [Compiler._compile_entry_function] *)
Definition compile_entry_function (rp : ResolvedProgram) : exn + BytecodeFunction :=
  match build_chunk (compile_entry_body rp) with
  | inl e => inl e
  | inr c => inr (mkBytecodeFunction "<entry>" c 0 0)
  end.

(** The first loop of [Compiler.compile]; the state is the list
    [self.functions]. *)
Definition compile_functions (rp : ResolvedProgram)
  : M (list (option BytecodeFunction)) unit :=
  for_each (fun symbol =>
              let* compiled := lift (compile_function rp symbol) in
              let* fns := get in
              let* fns' := lift (py_set fns (fs_index symbol) (Some compiled)) in
              put fns')
           (rp_functions rp).

(** [Compiler.compile] *)
Definition compile (rp : ResolvedProgram) : exn + BytecodeProgram :=
  match compile_functions rp (replicate (length (rp_functions rp)) None) with
  | (inl e, _) => inl e
  | (inr _, self_functions) =>
      match compile_entry_function rp with
      | inl e => inl e
      | inr entry_fn =>
          let fns := omap id self_functions in
          let entry_index := len fns in
          inr (mkBytecodeProgram (fns ++ [entry_fn])
                                 (map (fun _ => 0) (rp_globals rp))
                                 entry_index)
      end
  end.

(** [Compiler.from_program], the pipeline after parsing. *)
Definition compile_program (p : Program) : exn + BytecodeProgram :=
  match resolve p with
  | inl e => inl e
  | inr rp => compile rp
  end.

(** ** disasm.py: the disassembler *)

Notation "'let+' x ':=' m 'in' k" :=
  (match m with inl e => inl e | inr x => k end)
  (at level 10, x name, m at level 100, k at level 200).

Fixpoint str_repeat (c : ascii) (n : nat) : string :=
  match n with
  | O => EmptyString
  | S n' => String c (str_repeat c n')
  end.

(** [f"{s:>w}"] and [f"{s:<w}"] on a string. *)
Definition pad_left (c : ascii) (w : nat) (s : string) : string :=
  (str_repeat c (w - String.length s) +:+ s)%string.
Definition pad_right (c : ascii) (w : nat) (s : string) : string :=
  (s +:+ str_repeat c (w - String.length s))%string.

(** [f"{z:04}"]: zero fill is sign aware. *)
Definition fmt_04 (z : Z) : string :=
  if z <? 0 then ("-" +:+ pad_left "0"%char 3 (str (- z)))%string
  else pad_left "0"%char 4 (str z).

(** [f"{z:>3}"] *)
Definition fmt_r3 (z : Z) : string := pad_left " "%char 3 (str z).

(** [f"{opcode.name:<13}"] *)
Definition fmt_name (o : OpCode) : string := pad_right " "%char 13 (OpCode_name o).

(** [disasm._read_u16] *)
Definition dis_read_u16 (c : Chunk) (offset : Z) : exn + (Z * Z) :=
  let+ hi := py_get (code c) offset in
  let+ lo := py_get (code c) (offset + 1) in
  inr (Z.lor (Z.shiftl hi 8) lo, offset + 2).

(** The common prefix of the listing lines:
    [f"{start:04} line {line:>3} "]. *)
Definition line_prefix (start line : Z) : string :=
  (fmt_04 start +:+ " line " +:+ fmt_r3 line +:+ " ")%string.

(** The body of the [while] loop of [_disassemble_function]: the text
    appended to [lines] and the new [offset]. *)
Definition disassemble_instr (c : Chunk) (p : BytecodeProgram) (offset0 : Z)
  : exn + (string * Z) :=
  let+ line := py_get (lines c) offset0 in
  let+ byte := py_get (code c) offset0 in
  let+ opcode := OpCode_of byte in
  let offset := offset0 + 1 in
  match opcode with
  | PUSH_CONST =>
      let+ r := dis_read_u16 c offset in
      let const_index := fst r in
      let offset := snd r in
      let+ value := py_get (constants c) const_index in
      inr ((line_prefix (offset - 3) line +:+ fmt_name opcode +:+ " #" +:+ str const_index
              +:+ " (" +:+ str value +:+ ")")%string, offset)
  | LOAD_LOCAL | STORE_LOCAL | LOAD_GLOBAL | STORE_GLOBAL =>
      let+ r := dis_read_u16 c offset in
      let index := fst r in
      let offset := snd r in
      inr ((line_prefix (offset - 3) line +:+ fmt_name opcode +:+ " " +:+ str index)%string,
           offset)
  | CALL =>
      let+ r := dis_read_u16 c offset in
      let func_index := fst r in
      let offset := snd r in
      let+ argc := py_get (code c) offset in
      let offset := offset + 1 in
      let+ fname :=
        (if (0 <=? func_index) && (func_index <? len (functions p))
         then let+ fn := py_get (functions p) func_index in inr (name fn)
         else inr "<invalid>"%string) in
      inr ((line_prefix (offset - 4) line +:+ "CALL           " +:+ str func_index +:+ " "
              +:+ fname +:+ " argc=" +:+ str argc)%string, offset)
  | JMP | JMP_IF_FALSE =>
      let+ r := dis_read_u16 c offset in
      let target := fst r in
      let offset := snd r in
      inr ((line_prefix (offset - 3) line +:+ fmt_name opcode +:+ " -> " +:+ fmt_04 target)%string,
           offset)
  | _ =>
      inr ((line_prefix (offset - 1) line +:+ OpCode_name opcode)%string, offset)
  end.

(** The [while offset < len(chunk.code)] loop, [fuel] iterations at
    most; [None] when they do not suffice. *)
Fixpoint disassemble_loop (fuel : nat) (c : Chunk) (p : BytecodeProgram)
    (offset : Z) (acc : list string) : option (exn + list string) :=
  if len (code c) <=? offset then Some (inr acc)
  else
    match fuel with
    | O => None
    | S fuel' =>
        match disassemble_instr c p offset with
        | inl e => Some (inl e)
        | inr (text, offset') => disassemble_loop fuel' c p offset' (acc ++ [text])
        end
    end.

(** [disasm._disassemble_function].  Every iteration advances [offset]
    by one at least, so [len(chunk.code)] iterations suffice
    ([disassemble_loop_total] below) and the default is never taken. *)
Definition disassemble_function (f : BytecodeFunction) (p : BytecodeProgram)
  : exn + list string :=
  match disassemble_loop (length (code (chunk f))) (chunk f) p 0 [] with
  | Some r => r
  | None => inr []
  end.

Definition newline : string := String (ascii_of_nat 10) EmptyString.

(** ["\n".join(lines)] *)
Fixpoint join_lines (l : list string) : string :=
  match l with
  | [] => EmptyString
  | [s] => s
  | s :: l' => (s +:+ newline +:+ join_lines l')%string
  end.

(** The loop of [disassemble_program] from position [index] on. *)
Fixpoint disassemble_functions (p : BytecodeProgram) (index : nat)
    (fs : list BytecodeFunction) : exn + list string :=
  match fs with
  | [] => inr []
  | f :: fs' =>
      let header := ("== fn " +:+ str (Z.of_nat index) +:+ " " +:+ name f +:+ " ==")%string in
      let+ body := disassemble_function f p in
      let+ rest := disassemble_functions p (S index) fs' in
      inr (header :: body ++ rest)
  end.

(** [disasm.disassemble_program] *)
Definition disassemble_program (p : BytecodeProgram) : exn + string :=
  let+ ls := disassemble_functions p 0 (functions p) in
  inr (join_lines ls).

(** ** chunk.py: serialisation

    The values that [to_dict] builds and [from_dict] reads: integers,
    strings, lists and dictionaries with string keys (in insertion
    order). *)
Inductive pyval :=
| PInt (z : Z)
| PStr (s : string)
| PList (l : list pyval)
| PDict (d : list (string * pyval)).

(** [data[key]] *)
Fixpoint dict_get (d : list (string * pyval)) (key : string) : exn + pyval :=
  match d with
  | [] => inl KeyError
  | (k, v) :: d' => if String.eqb k key then inr v else dict_get d' key
  end.

Definition subscript (data : pyval) (key : string) : exn + pyval :=
  match data with
  | PDict d => dict_get d key
  | _ => inl TypeError
  end.

(** [int(x)] on an integer.  (On a string Python parses it; the
    encoder never puts a string where an integer is read.) *)
Definition py_int (v : pyval) : exn + Z :=
  match v with
  | PInt z => inr z
  | _ => inl TypeError
  end.

(** [[int(x) for x in v]] *)
Fixpoint int_items (l : list pyval) : exn + list Z :=
  match l with
  | [] => inr []
  | v :: l' =>
      let+ z := py_int v in
      let+ zs := int_items l' in
      inr (z :: zs)
  end.

Definition int_list (v : pyval) : exn + list Z :=
  match v with
  | PList l => int_items l
  | _ => inl TypeError
  end.

(** [Chunk.to_dict] *)
Definition Chunk_to_dict (c : Chunk) : pyval :=
  PDict [("code"%string, PList (map PInt (code c)));
         ("lines"%string, PList (map PInt (lines c)));
         ("constants"%string, PList (map PInt (constants c)))].

(** [Chunk.from_dict] *)
Definition Chunk_from_dict (data : pyval) : exn + Chunk :=
  let+ v1 := subscript data "code" in
  let+ code := int_list v1 in
  let+ v2 := subscript data "lines" in
  let+ lines := int_list v2 in
  let+ v3 := subscript data "constants" in
  let+ constants := int_list v3 in
  inr (mkChunk code lines constants).

(** [BytecodeFunction.to_dict] *)
Definition BytecodeFunction_to_dict (f : BytecodeFunction) : pyval :=
  PDict [("name"%string, PStr (name f));
         ("chunk"%string, Chunk_to_dict (chunk f));
         ("arity"%string, PInt (arity f));
         ("num_locals"%string, PInt (num_locals f))].

(** [BytecodeFunction.from_dict]; the name is taken as it is, and is a
    string in a [BytecodeFunction]. *)
Definition BytecodeFunction_from_dict (data : pyval) : exn + BytecodeFunction :=
  let+ v1 := subscript data "name" in
  let+ name := match v1 with PStr s => inr s | _ => inl TypeError end in
  let+ v2 := subscript data "chunk" in
  let+ chunk := Chunk_from_dict v2 in
  let+ v3 := subscript data "arity" in
  let+ arity := py_int v3 in
  let+ v4 := subscript data "num_locals" in
  let+ num_locals := py_int v4 in
  inr (mkBytecodeFunction name chunk arity num_locals).

(** [[BytecodeFunction.from_dict(fn) for fn in v]] *)
Fixpoint function_items (l : list pyval) : exn + list BytecodeFunction :=
  match l with
  | [] => inr []
  | v :: l' =>
      let+ f := BytecodeFunction_from_dict v in
      let+ fs := function_items l' in
      inr (f :: fs)
  end.

(** [BytecodeProgram.to_dict] *)
Definition to_dict (p : BytecodeProgram) : pyval :=
  PDict [("functions"%string, PList (map BytecodeFunction_to_dict (functions p)));
         ("globals"%string, PList (map PInt (globals p)));
         ("entry_index"%string, PInt (entry_index p))].

(** [BytecodeProgram.from_dict] *)
Definition from_dict (data : pyval) : exn + BytecodeProgram :=
  let+ v1 := subscript data "functions" in
  let+ functions := match v1 with PList l => function_items l | _ => inl TypeError end in
  let+ v2 := subscript data "globals" in
  let+ globals := int_list v2 in
  let+ v3 := subscript data "entry_index" in
  let+ entry_index := py_int v3 in
  inr (mkBytecodeProgram functions globals entry_index).

(** ** Vocabulary of the statements about the VM *)

(** The machine with its operand stack replaced. *)
Definition with_stack (vm : VM) (s : list Z) : VM :=
  mkVM (program vm) s (frames vm) (vm_globals vm) (output vm).

(** The machine with the instruction pointer of its top frame moved by
    [k] (no change when there is no frame). *)
Definition advance (vm : VM) (k : Z) : VM :=
  match last (frames vm) with
  | Some fr =>
      mkVM (program vm) (stack vm)
           (removelast (frames vm) ++ [mkCallFrame (function fr) (ip fr + k) (stack_base fr)])
           (vm_globals vm) (output vm)
  | None => vm
  end.

(** The byte of the current chunk at distance [k] from the instruction
    pointer of the top frame, when that position is inside the code. *)
Definition code_at (vm : VM) (k : Z) : option Z :=
  match last (frames vm) with
  | Some fr =>
      if (0 <=? ip fr + k) && (ip fr + k <? len (code (chunk (function fr))))
      then code (chunk (function fr)) !! Z.to_nat (ip fr + k)
      else None
  | None => None
  end.

(** The next iteration of [run] fetches opcode [o]. *)
Definition at_opcode (vm : VM) (o : OpCode) : bool :=
  match code_at vm 0 with
  | Some b => b =? OpCode_value o
  | None => false
  end.

(** The chunk of the top frame. *)
Definition cur_chunk (vm : VM) : Chunk :=
  match last (frames vm) with
  | Some fr => chunk (function fr)
  | None => empty_chunk
  end.

(** [w]-bit two's-complement wrap-around of an integer. *)
Definition wrap (w : Z) (x : Z) : Z :=
  (x + 2 ^ (w - 1)) mod 2 ^ w - 2 ^ (w - 1).

(** A machine about to execute the single instruction [o] on the
    stack [s]. *)
Definition one_op_vm (o : OpCode) (s : list Z) : VM :=
  let f := mkBytecodeFunction "f" (mkChunk [OpCode_value o] [1] []) 0 0 in
  mkVM (mkBytecodeProgram [f] [] 0) s [mkCallFrame f 0 0] [] [].

(** A computation of the VM leaves the program object as it found it. *)
Definition preserves_program {A} (m : vmM A) : Prop :=
  forall vm, program (snd (m vm)) = program vm.

(** An entry function that loads global 0 of a program without
    globals, and one that stores to it. *)
Definition load_global_oob : BytecodeProgram :=
  mkBytecodeProgram
    [mkBytecodeFunction "<entry>" (mkChunk [3; 0; 0; 15] [1; 1; 1; 1] []) 0 0] [] 0.

Definition store_global_oob : BytecodeProgram :=
  mkBytecodeProgram
    [mkBytecodeFunction "<entry>" (mkChunk [0; 0; 0; 4; 0; 0; 15] [1; 1; 1; 1; 1; 1; 1] [7]) 0 0]
    [] 0.

(** ** Vocabulary of the statements about resolution *)

(** The return-path rule in the words of the specification: a
    statement guarantees return when it is a return, a block whose
    last statement guarantees return, or an [if] with both branches
    present and each guaranteeing return. *)
Inductive GuaranteesReturn : Stmt -> Prop :=
| GR_return line value : GuaranteesReturn (ReturnStmt line value)
| GR_block statements s :
    last statements = Some s -> GuaranteesReturn s ->
    GuaranteesReturn (BlockStmt statements)
| GR_if line condition then_branch e :
    GuaranteesReturn then_branch -> GuaranteesReturn e ->
    GuaranteesReturn (IfStmt line condition then_branch (Some e)).

(** A function body guarantees return when its last statement does. *)
Definition BodyGuaranteesReturn (body : list Stmt) : Prop :=
  exists s, last body = Some s /\ GuaranteesReturn s.

(** The variable declarations of a statement in the order in which
    the resolver meets them: source order, nested blocks included. *)
Fixpoint stmt_decls (s : Stmt) : list VarDecl :=
  match s with
  | SVarDecl d => [d]
  | BlockStmt statements => flat_map stmt_decls statements
  | IfStmt _ _ then_branch else_branch =>
      stmt_decls then_branch
      ++ match else_branch with Some e => stmt_decls e | None => [] end
  | WhileStmt _ _ body => stmt_decls body
  | _ => []
  end.

Definition block_decls (statements : list Stmt) : list VarDecl :=
  flat_map stmt_decls statements.

(** The top-level variable and function declarations of a program, in
    source order. *)
Definition var_decls (p : Program) : list VarDecl :=
  omap (fun d => match d with DVar v => Some v | DFun _ => None end) (declarations p).
Definition function_decls (p : Program) : list FunctionDecl :=
  omap (fun d => match d with DFun f => Some f | DVar _ => None end) (declarations p).

(** Bindings with consecutive indices from [start] on for the
    declarations [ds], and for the parameters [ps] from 0 on. *)
Definition bindings_from (start : Z) (ds : list VarDecl) : list Binding :=
  imap (fun i d => mkBinding (vd_name d) (vd_mutable d) (start + Z.of_nat i)) ds.
Definition param_bindings (ps : list Param) : list Binding :=
  imap (fun i p => mkBinding (param_name p) true (Z.of_nat i)) ps.

(** The local bindings of a function: its parameters, then the
    declarations of its body. *)
Definition function_locals (d : FunctionDecl) : list Binding :=
  param_bindings (params d) ++ bindings_from (len (params d)) (block_decls (fd_body d)).

(** The symbol object with [bs] appended to its [locals], and with
    [max_locals] set. *)
Definition add_locals (bs : list Binding) (s : FunctionSymbol) : FunctionSymbol :=
  mkFunctionSymbol (fs_name s) (fs_index s) (fs_arity s) (fs_decl s) (locals s ++ bs)
                   (max_locals s).
Definition with_max_locals (v : Z) (s : FunctionSymbol) : FunctionSymbol :=
  mkFunctionSymbol (fs_name s) (fs_index s) (fs_arity s) (fs_decl s) (locals s) v.

(** The symbol of the [i]-th function declaration as
    [_declare_function] creates it, and as resolution leaves it. *)
Definition declared_symbol (i : nat) (d : FunctionDecl) : FunctionSymbol :=
  mkFunctionSymbol (fd_name d) (Z.of_nat i) (len (params d)) d [] 0.
Definition resolved_symbol (i : nat) (d : FunctionDecl) : FunctionSymbol :=
  mkFunctionSymbol (fd_name d) (Z.of_nat i) (len (params d)) d (function_locals d)
                   (len (function_locals d)).

(** The [i]-th global variable as [_declare_global] creates it. *)
Definition declared_global (i : nat) (d : VarDecl) : GlobalVariable :=
  mkGlobalVariable d (mkBinding (vd_name d) (vd_mutable d) (Z.of_nat i)).

(** A computation of the resolver leaves the symbol objects and the
    global list as it found them. *)
Definition keeps_symbols {A} (m : resM A) : Prop :=
  forall r, _functions (snd (m r)) = _functions r /\ _globals (snd (m r)) = _globals r.

(** What a successful walk of a statement does: the declarations [ds]
    of the statement are appended, with consecutive indices from the
    context's next index on, to the locals of the context's function;
    nothing else changes among the symbols and globals. *)
Definition walk_spec (ds : list VarDecl) (ctx ctx' : FunctionContext) (r r' : Resolver) : Prop :=
  _functions r' = alter (add_locals (bindings_from (next_local_index ctx) ds))
                        (fc_function ctx) (_functions r)
  /\ _globals r' = _globals r
  /\ ctx' = mkFunctionContext (fc_function ctx) (next_local_index ctx + len ds).

(** The symbol list while the function loop of [resolve] runs: the
    first [k] symbols are resolved, the others are as declared. *)
Definition partly_resolved (k : nat) (fds : list FunctionDecl) : list FunctionSymbol :=
  imap (fun i d => if decide (i < k)%nat then resolved_symbol i d else declared_symbol i d) fds.

(** ** Vocabulary of the statements about compiled chunks *)

(** The line array has one entry for each byte of the code array. *)
Definition chunk_parallel (c : Chunk) : Prop :=
  length (lines c) = length (code c).

Definition keeps_parallel {A} (m : compM A) : Prop :=
  forall c, chunk_parallel c -> chunk_parallel (snd (m c)).

(** The chunk [c] after [write]s of the bytes [bs], all on [line]. *)
Definition emitted (c : Chunk) (bs : list Z) (line : Z) : Chunk :=
  mkChunk (code c ++ bs) (lines c ++ map (fun _ => line) bs) (constants c).

(** The two bytes [write_u16] stores for [v], and the value that
    [_read_u16] decodes from two bytes. *)
Definition hi_byte (v : Z) : Z := Z.land (Z.shiftr v 8) 255.
Definition lo_byte (v : Z) : Z := Z.land v 255.
Definition u16 (hi lo : Z) : Z := Z.lor (Z.shiftl hi 8) lo.

(** The bytes of the current chunk from the instruction pointer of the
    top frame on are [bs]. *)
Fixpoint code_from (vm : VM) (k : Z) (bs : list Z) : bool :=
  match bs with
  | [] => true
  | b :: bs' =>
      match code_at vm k with
      | Some b' => (b' =? b) && code_from vm (k + 1) bs'
      | None => false
      end
  end.
Definition at_code (vm : VM) (bs : list Z) : bool := code_from vm 0 bs.

(** Two iterations of the loop of [run]. *)
Definition two_steps : vmM unit := let* _ := step in step.

(** The base of the top frame. *)
Definition cur_base (vm : VM) : Z :=
  match last (frames vm) with
  | Some fr => stack_base fr
  | None => 0
  end.

(** The machine with its global array replaced. *)
Definition with_globals (vm : VM) (g : list Z) : VM :=
  mkVM (program vm) (stack vm) (frames vm) g (output vm).

(** ** Programs used as instances *)

(** [fn main() { return 0; }] *)
Definition prog_return : Program :=
  mkProgram [DFun (mkFunctionDecl 1 "main" [] [ReturnStmt 1 (IntLiteral 1 0)])].

(** [fn main(a) { return 0; }] *)
Definition prog_main_param : Program :=
  mkProgram [DFun (mkFunctionDecl 1 "main" [mkParam "a"] [ReturnStmt 1 (IntLiteral 1 0)])].

(** [fn main() { var x = 0; print (x = 5); return 0; }] *)
Definition prog_print_assign : Program :=
  mkProgram [DFun (mkFunctionDecl 1 "main" []
    [SVarDecl (mkVarDecl 1 1 "x" true (IntLiteral 1 0));
     PrintStmt 1 (AssignExpr 2 1 "x" (IntLiteral 1 5));
     ReturnStmt 1 (IntLiteral 1 0)])].

(** [var g = 10;
     fn main() { var i = 0; while (i - 3) { g = g + i; i = i + 1; }
                 print g; return g; }] *)
Definition prog_loop : Program :=
  mkProgram [
    DVar (mkVarDecl 1 1 "g" true (IntLiteral 1 10));
    DFun (mkFunctionDecl 2 "main" []
      [SVarDecl (mkVarDecl 2 3 "i" true (IntLiteral 3 0));
       WhileStmt 4 (BinaryExpr 4 (VarExpr 3 4 "i") "-" (IntLiteral 4 3))
         (BlockStmt
            [ExprStmt 5 (AssignExpr 4 5 "g"
                           (BinaryExpr 5 (VarExpr 5 5 "g") "+" (VarExpr 6 5 "i")));
             ExprStmt 6 (AssignExpr 7 6 "i"
                           (BinaryExpr 6 (VarExpr 8 6 "i") "+" (IntLiteral 6 1)))]);
       PrintStmt 7 (VarExpr 9 7 "g");
       ReturnStmt 8 (VarExpr 10 8 "g")])].

(** [fn main() { while (1) { return 0; } }] *)
Definition prog_while_return : Program :=
  mkProgram [DFun (mkFunctionDecl 1 "main" []
    [WhileStmt 1 (IntLiteral 1 1) (BlockStmt [ReturnStmt 1 (IntLiteral 1 0)])])].

(** An entry function whose only byte is not an opcode. *)
Definition unknown_opcode_prog : BytecodeProgram :=
  mkBytecodeProgram [mkBytecodeFunction "<entry>" (mkChunk [99] [1] []) 0 0] [] 0.

(** The value of a computation that is known not to raise. *)
Definition from_inr {A} (d : A) (r : exn + A) : A :=
  match r with inr a => a | inl _ => d end.

(** The number of operand bytes that follow an opcode. *)
Definition operand_bytes (o : OpCode) : nat :=
  match o with
  | PUSH_CONST | LOAD_LOCAL | STORE_LOCAL | LOAD_GLOBAL | STORE_GLOBAL
  | JMP | JMP_IF_FALSE => 2
  | CALL => 3
  | _ => 0
  end.

(** The byte offsets of the opcodes of the instructions of [code],
    from the instruction at [offset] on, [fuel] instructions at most:
    an instruction is an opcode byte and the operand bytes that follow
    it, and the next one starts right after. *)
Fixpoint opcode_offsets (fuel : nat) (code : list Z) (offset : Z) : list Z :=
  if len code <=? offset then []
  else
    match fuel with
    | O => []
    | S fuel' =>
        match (let+ byte := py_get code offset in OpCode_of byte) with
        | inr o =>
            offset :: opcode_offsets fuel' code (offset + 1 + Z.of_nat (operand_bytes o))
        | inl _ => []
        end
    end.

(** The offsets of the opcodes of the instructions of a chunk, in
    order; an instruction has one byte at least, so [len (code c)]
    instructions suffice. *)
Definition instruction_offsets (c : Chunk) : list Z :=
  opcode_offsets (length (code c)) (code c) 0.

(** A line of the listing reports the instruction at [offset]: it
    shows [offset], then the entry of the line array at [offset], then
    the name of the opcode that is the byte of the code at [offset]. *)
Definition reports_line_at (c : Chunk) (offset : Z) (text : string) : Prop :=
  exists (line : Z) (o : OpCode) (tail : string),
    py_get (lines c) offset = inr line
    /\ py_get (code c) offset = inr (OpCode_value o)
    /\ text = (line_prefix offset line +:+ OpCode_name o +:+ tail)%string.

(** A frame with its instruction pointer moved by [k]. *)
Definition moved (k : Z) (fr : CallFrame) : CallFrame :=
  mkCallFrame (function fr) (ip fr + k) (stack_base fr).

(** The global-initialisation loop of [_compile_entry_function]. *)
Definition compile_global_inits (rp : ResolvedProgram) : compM unit :=
  for_each (fun global_var =>
              let* _ := compile_expr rp (initializer (gv_decl global_var)) in
              emit_store_global (b_index (binding global_var))
                                (vd_line (gv_decl global_var)))
           (rp_globals rp).

(** The body of the function loop of [Compiler.compile]. *)
Definition compile_one (rp : ResolvedProgram) (symbol : FunctionSymbol)
  : M (list (option BytecodeFunction)) unit :=
  let* compiled := lift (compile_function rp symbol) in
  let* fns := get in
  let* fns' := lift (py_set fns (fs_index symbol) (Some compiled)) in
  put fns'.

(** [main], as [_compile_entry_function] looks it up. *)
Definition find_main (rp : ResolvedProgram) : option FunctionSymbol :=
  find (fun fn => String.eqb (fs_name fn) "main") (rp_functions rp).

(** ** opcodes.py: the stack-effect table *)

(** [STACK_EFFECT[opcode]]: a number for every opcode but [CALL], whose
    entry is a function of the argument count. *)
Definition STACK_EFFECT (o : OpCode) : Z + (Z -> Z) :=
  match o with
  | PUSH_CONST => inl 1
  | LOAD_LOCAL => inl 1
  | STORE_LOCAL => inl (-1)
  | LOAD_GLOBAL => inl 1
  | STORE_GLOBAL => inl (-1)
  | ADD => inl (-1)
  | SUB => inl (-1)
  | MUL => inl (-1)
  | DIV => inl (-1)
  | JMP => inl 0
  | JMP_IF_FALSE => inl (-1)
  | CALL => inr (fun argc => - argc + 1)
  | RET => inl (-1)
  | PRINT => inl (-1)
  | POP => inl (-1)
  | HALT => inl 0
  end.

(** ** errors.py: source spans *)

Record SourceLocation := mkSourceLocation {
  sl_line : Z;
  sl_column : Z }.

Record SourceSpan := mkSourceSpan {
  span_start : SourceLocation;
  span_end : SourceLocation }.

(** [(a.line, a.column) <= (b.line, b.column)]: tuples compare
    lexicographically. *)
Definition loc_le (a b : SourceLocation) : bool :=
  (sl_line a <? sl_line b) || ((sl_line a =? sl_line b) && (sl_column a <=? sl_column b)).

(** [SourceSpan.merge]; [x >= y] on tuples is [y <= x]. *)
Definition merge (self other : SourceSpan) : SourceSpan :=
  let start := if loc_le (span_start self) (span_start other)
               then span_start self else span_start other in
  let end_ := if loc_le (span_end other) (span_end self)
              then span_end self else span_end other in
  mkSourceSpan start end_.

(** ** More vocabulary of the statements about the VM *)

(** The machine with the instruction pointer of its top frame set to
    [target]. *)
Definition jump_to (vm : VM) (target : Z) : VM :=
  match last (frames vm) with
  | Some fr =>
      mkVM (program vm) (stack vm)
           (removelast (frames vm) ++ [mkCallFrame (function fr) target (stack_base fr)])
           (vm_globals vm) (output vm)
  | None => vm
  end.

(** Every state that the computation [m] can leave is related by [R]
    to the state it started from, whether [m] returns or raises. *)
Definition vm_keeps {A} (R : VM -> VM -> Prop) (m : vmM A) : Prop :=
  forall vm, R vm (snd (m vm)).

(** The output of [vm'] is the output of [vm] with more lines after it. *)
Definition output_grows (vm vm' : VM) : Prop :=
  exists suffix, output vm' = output vm ++ suffix.

(** The two machines have as many globals. *)
Definition same_globals_size (vm vm' : VM) : Prop :=
  len (vm_globals vm') = len (vm_globals vm).

(** Every frame runs a function of the program from a base that is
    not negative. *)
Definition frame_ok (p : BytecodeProgram) (fr : CallFrame) : Prop :=
  function fr ∈ functions p /\ 0 <= stack_base fr.
Definition frames_ok (vm : VM) : Prop :=
  Forall (frame_ok (program vm)) (frames vm).
Definition frames_stay_ok (vm vm' : VM) : Prop :=
  frames_ok vm -> frames_ok vm'.

(** When [m] returns, the stack is [d] values longer than it was. *)
Definition stack_delta {A} (d : Z) (m : vmM A) : Prop :=
  forall vm x vm', m vm = (inr x, vm') -> len (stack vm') = len (stack vm) + d.

(** ** More vocabulary of the statements about compiled chunks *)

(** The integer literals of an expression and of a statement, in
    source order. *)
Fixpoint expr_literals (e : Expr) : list Z :=
  match e with
  | IntLiteral _ value => [value]
  | VarExpr _ _ _ => []
  | AssignExpr _ _ _ value => expr_literals value
  | BinaryExpr _ lhs _ rhs => expr_literals lhs ++ expr_literals rhs
  | CallExpr _ _ _ arguments => flat_map expr_literals arguments
  end.

Fixpoint stmt_literals (s : Stmt) : list Z :=
  match s with
  | SVarDecl d => expr_literals (initializer d)
  | BlockStmt statements => flat_map stmt_literals statements
  | ExprStmt _ expr => expr_literals expr
  | PrintStmt _ expr => expr_literals expr
  | IfStmt _ condition then_branch else_branch =>
      expr_literals condition ++ stmt_literals then_branch
      ++ match else_branch with Some e => stmt_literals e | None => [] end
  | WhileStmt _ condition body => expr_literals condition ++ stmt_literals body
  | ReturnStmt _ value => expr_literals value
  end.

(** The chunk [c'] is the chunk [c] with more bytes, lines and
    constants after it: what [c] held is still there, in place. *)
Definition chunk_extends (c c' : Chunk) : Prop :=
  (exists bs, code c' = code c ++ bs)
  /\ (exists ls, lines c' = lines c ++ ls)
  /\ (exists ks, constants c' = constants c ++ ks).

(** The name that a top-level declaration declares, and the names of
    a program in source order. *)
Definition decl_name (d : Declaration) : string :=
  match d with DVar v => vd_name v | DFun f => fd_name f end.
Definition declared_names (p : Program) : list string :=
  map decl_name (declarations p).

(** The body of the loop of [_declare_top_level]. *)
Definition declare_one (decl : Declaration) : resM unit :=
  match decl with
  | DVar d => declare_global d
  | DFun d => declare_function d
  end.

(** The names that the resolver holds as declared at top level are
    [names]. *)
Definition top_level_names (r : Resolver) (names : list string) : Prop :=
  forall n, n ∈ names <->
            is_Some (_global_scope r !! n) \/ is_Some (_functions_by_name r !! n).

(** The scope stacks [l] and [l'] differ in their innermost scope at
    most. *)
Definition same_below {A} (l l' : list A) : Prop :=
  removelast l = removelast l' /\ length l = length l'.

(** A run of [m] that returns leaves what the chunk held in place and
    adds exactly the constants [ks] to the pool. *)
Definition emits {A} (ks : list Z) (m : compM A) : Prop :=
  forall c x c', m c = (inr x, c') -> chunk_extends c c' /\ constants c' = constants c ++ ks.

(** A computation of the resolver leaves the part [proj] of the
    resolver as it found it, whether it returns or raises. *)
Definition res_keeps {A T} (proj : Resolver -> T) (m : resM A) : Prop :=
  forall r, proj (snd (m r)) = proj r.

(** The scope stack and the global scope. *)
Definition scoping (r : Resolver) : list (gmap string VarBinding) * gmap string VarBinding :=
  (_scopes r, _global_scope r).

(** ** Vocabulary of the statement that resolved programs compile *)

(** The operators of the binary expressions are among the four in
    [op_map]; the parser builds no others. *)
Fixpoint expr_ops_ok (e : Expr) : bool :=
  match e with
  | IntLiteral _ _ => true
  | VarExpr _ _ _ => true
  | AssignExpr _ _ _ value => expr_ops_ok value
  | BinaryExpr _ lhs operator rhs =>
      expr_ops_ok lhs
      && match op_map operator with Some _ => true | None => false end
      && expr_ops_ok rhs
  | CallExpr _ _ _ arguments => forallb expr_ops_ok arguments
  end.

Fixpoint stmt_ops_ok (s : Stmt) : bool :=
  match s with
  | SVarDecl d => expr_ops_ok (initializer d)
  | BlockStmt statements => forallb stmt_ops_ok statements
  | ExprStmt _ expr => expr_ops_ok expr
  | PrintStmt _ expr => expr_ops_ok expr
  | IfStmt _ condition then_branch else_branch =>
      expr_ops_ok condition && stmt_ops_ok then_branch
      && match else_branch with Some e => stmt_ops_ok e | None => true end
  | WhileStmt _ condition body => expr_ops_ok condition && stmt_ops_ok body
  | ReturnStmt _ value => expr_ops_ok value
  end.

Definition program_ops_ok (p : Program) : bool :=
  forallb (fun d => match d with
                    | DVar v => expr_ops_ok (initializer v)
                    | DFun f => forallb stmt_ops_ok (fd_body f)
                    end) (declarations p).

(** The node [nid] has a binding in [vb]; it has a target in [ct]
    that is one of the first [nf] function symbols. *)
Definition bound (vb : gmap N VarBinding) (nid : N) : bool :=
  match vb !! nid with Some _ => true | None => false end.
Definition target_ok (ct : gmap N fref) (nf : nat) (nid : N) : bool :=
  match ct !! nid with Some f => (f <? nf)%nat | None => false end.

(** Every variable, assignment and call node of the expression, and
    every declaration of the statement, is in the side tables. *)
Fixpoint expr_recorded (vb : gmap N VarBinding) (ct : gmap N fref) (nf : nat) (e : Expr)
  : bool :=
  match e with
  | IntLiteral _ _ => true
  | VarExpr nid _ _ => bound vb nid
  | AssignExpr nid _ _ value => bound vb nid && expr_recorded vb ct nf value
  | BinaryExpr _ lhs _ rhs => expr_recorded vb ct nf lhs && expr_recorded vb ct nf rhs
  | CallExpr nid _ _ arguments =>
      target_ok ct nf nid && forallb (expr_recorded vb ct nf) arguments
  end.

Fixpoint stmt_recorded (vb : gmap N VarBinding) (ct : gmap N fref) (nf : nat) (s : Stmt)
  : bool :=
  match s with
  | SVarDecl d => bound vb (vd_nid d) && expr_recorded vb ct nf (initializer d)
  | BlockStmt statements => forallb (stmt_recorded vb ct nf) statements
  | ExprStmt _ expr => expr_recorded vb ct nf expr
  | PrintStmt _ expr => expr_recorded vb ct nf expr
  | IfStmt _ condition then_branch else_branch =>
      expr_recorded vb ct nf condition && stmt_recorded vb ct nf then_branch
      && match else_branch with Some e => stmt_recorded vb ct nf e | None => true end
  | WhileStmt _ condition body =>
      expr_recorded vb ct nf condition && stmt_recorded vb ct nf body
  | ReturnStmt _ value => expr_recorded vb ct nf value
  end.

(** From [r] to [r'] the side tables have only gained entries, and
    the function table has kept its names and its length. *)
Definition grows (nf : nat) (r r' : Resolver) : Prop :=
  (forall nid, bound (_var_bindings r) nid = true -> bound (_var_bindings r') nid = true)
  /\ (forall nid, target_ok (_call_targets r) nf nid = true ->
                  target_ok (_call_targets r') nf nid = true)
  /\ _functions_by_name r' = _functions_by_name r
  /\ length (_functions r') = length (_functions r).

(** The references in [_functions_by_name] are below [nf]. *)
Definition names_bound (nf : nat) (r : Resolver) : Prop :=
  forall n f, _functions_by_name r !! n = Some f -> (f < nf)%nat.

(** A run of [m] that returns, from a resolver whose references are
    below [nf], lets the tables grow. *)
Definition res_grows {A} (nf : nat) (m : resM A) : Prop :=
  forall r a r', names_bound nf r -> m r = (inr a, r') -> grows nf r r'.

(** ** Vocabulary of the statement that compiled code disassembles *)

(** A byte list that is a sequence of whole instructions, in which
    the operand of every [PUSH_CONST] is an index into a pool of [n]
    constants. *)
Inductive instructions (n : Z) : list Z -> Prop :=
| instructions_nil : instructions n []
| instructions_cons (o : OpCode) (operands rest : list Z) :
    length operands = operand_bytes o ->
    (forall hi lo, o = PUSH_CONST -> operands = [hi; lo] -> 0 <= u16 hi lo < n) ->
    instructions n rest ->
    instructions n (OpCode_value o :: operands ++ rest).

(** The integers that Python converts to a decimal string: those of
    4300 digits at most.  On them [str] above is Python's [str]; on
    the others the conversion, and an f-string that formats one,
    raises [ValueError]. *)
Definition printable (v : Z) : bool := Z.abs v <? 10 ^ 4300.

(** The constants and the line entries of the chunks of a program are
    printable. *)
Definition chunk_printable (c : Chunk) : bool :=
  forallb printable (constants c) && forallb printable (lines c).
Definition program_printable (p : BytecodeProgram) : bool :=
  forallb (fun f => chunk_printable (chunk f)) (functions p).

(** A run of [m] that returns has appended whole instructions to the
    code, and constants to the pool. *)
Definition emits_instructions {A} (m : compM A) : Prop :=
  forall c x c', m c = (inr x, c') ->
    (exists ks, constants c' = constants c ++ ks)
    /\ exists bs, code c' = code c ++ bs /\ instructions (len (constants c')) bs.

(** ** vm.py, with the lists of globals as objects

    In Python [program.globals] and [self.globals] are references to
    list objects, and an assignment [l[i] = v] is seen through every
    reference to the list [l].  The machine below keeps these lists
    in a store of list objects, so that a copy and an alias differ.
    The rest of the state is as above: [self.stack], [self.frames]
    and [self.output] are lists that [VM.__init__] makes itself, and
    the VM has no assignment to a field of [self.program], of a
    function or of a chunk. *)

(** A reference is a positive number; a store, of type
    [gmap positive (list Z)], maps the references in use to the
    elements of their lists. *)

(** The list a reference stands for. *)
Definition list_at (h : gmap positive (list Z)) (l : positive) : list Z :=
  default [] (h !! l).

(** A [BytecodeProgram] object; its field [globals] is a reference. *)
Record ProgramObject := mkProgramObject {
  po_functions : list BytecodeFunction;
  po_globals : positive;
  po_entry_index : Z }.

(** The program as a value: its list of globals with the elements it
    has in the store [h]. *)
Definition program_value (p : ProgramObject) (h : gmap positive (list Z)) : BytecodeProgram :=
  mkBytecodeProgram (po_functions p) (list_at h (po_globals p)) (po_entry_index p).

(** A [VM] object, and the store of list objects it runs in:
    [vo_program] is [self.program], [vo_globals] is the reference
    [self.globals]. *)
Record VMObject := mkVMObject {
  vo_program : ProgramObject;
  vo_stack : list Z;
  vo_frames : list CallFrame;
  vo_globals : positive;
  vo_output : list string;
  vo_lists : gmap positive (list Z) }.

(** The fields of the VM as values. *)
Definition vm_value (s : VMObject) : VM :=
  mkVM (program_value (vo_program s) (vo_lists s)) (vo_stack s) (vo_frames s)
       (list_at (vo_lists s) (vo_globals s)) (vo_output s).

(** [list(l)]: a new list object with the elements of [l]. *)
Definition list_copy (h : gmap positive (list Z)) (l : positive)
  : gmap positive (list Z) * positive :=
  let l' := fresh (dom h) in
  (<[l' := list_at h l]> h, l').

(** [VM.__init__], run in the store [h]:
    [self.globals = list(program.globals)]. *)
Definition VM_init_obj (h : gmap positive (list Z)) (p : ProgramObject) : VMObject :=
  let r := list_copy h (po_globals p) in
  mkVMObject p [] [] (snd r) [] (fst r).

Definition vmoM : Type -> Type := M VMObject.

(** A computation of the VM that writes [self.stack], [self.frames]
    and [self.output] at most, run on the VM object. *)
Definition on_vm {A} (m : vmM A) : vmoM A :=
  fun s =>
    let r := m (vm_value s) in
    (fst r,
     mkVMObject (vo_program s) (stack (snd r)) (frames (snd r)) (vo_globals s)
                (output (snd r)) (vo_lists s)).

(** The write of the list object at [l]. *)
Definition set_list (l : positive) (v : list Z) : vmoM unit :=
  fun s =>
    (inr tt,
     mkVMObject (vo_program s) (vo_stack s) (vo_frames s) (vo_globals s) (vo_output s)
                (<[l := v]> (vo_lists s))).

(** [VM._store_global]: [self.globals[index] = value] writes the list
    object that [self.globals] refers to. *)
Definition store_global_obj (index : Z) : vmoM unit :=
  let* value := on_vm pop in
  let* s := get in
  let g := list_at (vo_lists s) (vo_globals s) in
  if len g <=? index then raise (VMRuntimeError GlobalStoreOutOfRange)
  else
    let* g' := lift (py_set g index value) in
    set_list (vo_globals s) g'.

(** The dispatch of [run]: the two branches that use [self.globals]
    go through the reference. *)
Definition exec_obj (chunk0 : Chunk) (opcode : OpCode) : vmoM unit :=
  match opcode with
  | LOAD_GLOBAL =>
      let* index := on_vm read_u16 in
      let* s := get in
      let* v := lift (py_get (list_at (vo_lists s) (vo_globals s)) index) in
      on_vm (push v)
  | STORE_GLOBAL =>
      let* index := on_vm read_u16 in
      store_global_obj index
  | _ => on_vm (exec chunk0 opcode)
  end.

(** One iteration of the loop of [run]. *)
Definition step_obj : vmoM unit :=
  let* frame := on_vm cur_frame in
  let chunk0 := chunk (function frame) in
  if len (code chunk0) <=? ip frame
  then raise (VMRuntimeError IpOutOfBounds)
  else
    let* byte := lift (py_get (code chunk0) (ip frame)) in
    let* opcode := lift (OpCode_of byte) in
    let* _ := on_vm (set_ip (ip frame + 1)) in
    exec_obj chunk0 opcode.

Fixpoint run_loop_obj (fuel : nat) (s : VMObject) : outcome * VMObject :=
  match vo_frames s with
  | [] => (Returned (vo_output s), s)
  | _ :: _ =>
      match fuel with
      | O => (Timeout, s)
      | S fuel' =>
          match step_obj s with
          | (inl e, s') => (Raised e, s')
          | (inr _, s') => run_loop_obj fuel' s'
          end
      end
  end.

(** [VM.run] *)
Definition run_obj (fuel : nat) (s : VMObject) : outcome * VMObject :=
  match on_vm (call_function (po_entry_index (vo_program s)) 0) s with
  | (inl e, s') => (Raised e, s')
  | (inr _, s') => run_loop_obj fuel s'
  end.

(** [VM(program).run()], in the store [h]. *)
Definition run_program_obj (fuel : nat) (h : gmap positive (list Z)) (p : ProgramObject)
  : outcome * VMObject :=
  run_obj fuel (VM_init_obj h p).

(** What a step of [s] to [s'] may change of the objects: the fields
    of the program object and the reference [self.globals] are kept,
    and every list object other than the VM's own has its elements. *)
Definition writes_own_list (s s' : VMObject) : Prop :=
  vo_program s' = vo_program s
  /\ vo_globals s' = vo_globals s
  /\ forall l, l <> vo_globals s -> vo_lists s' !! l = vo_lists s !! l.

Definition own {A} (m : vmoM A) : Prop :=
  forall s, writes_own_list s (snd (m s)).

(** [m] leaves [self.globals] as it is. *)
Definition preserves_globals {A} (m : vmM A) : Prop :=
  forall vm, vm_globals (snd (m vm)) = vm_globals vm.

(** The computation [mo] on the VM object does what [m] does on the
    values, as long as [self.globals] is not the program's list. *)
Definition agree {A} (m : vmM A) (mo : vmoM A) : Prop :=
  forall s, vo_globals s <> po_globals (vo_program s) ->
            m (vm_value s) = (fst (mo s), vm_value (snd (mo s))).

(** The VM with an alias for a copy:
    [self.globals = program.globals]. *)
Definition VM_init_alias (h : gmap positive (list Z)) (p : ProgramObject) : VMObject :=
  mkVMObject p [] [] (po_globals p) [] h.

(** * Properties *)

(** ** Python lists and the fetch of an opcode *)

Lemma py_pop_snoc {A} (l : list A) (x : A) : py_pop (l ++ [x]) = inr (x, l).
Proof. unfold py_pop. by rewrite last_snoc, removelast_last. Qed.

Lemma py_pop_nil {A} : py_pop (@nil A) = inl IndexError.
Proof. reflexivity. Qed.

Lemma len_app {A} (l1 l2 : list A) : len (l1 ++ l2) = len l1 + len l2.
Proof. unfold len. rewrite length_app. lia. Qed.

Lemma len_nonneg {A} (l : list A) : 0 <= len l.
Proof. unfold len. lia. Qed.

Lemma py_get_nonneg {A} (l : list A) (i : Z) (x : A) :
  0 <= i -> l !! Z.to_nat i = Some x -> py_get l i = inr x.
Proof.
  intros Hi Hx. unfold py_get, py_pos.
  assert (i < len l) by (apply lookup_lt_Some in Hx; unfold len; lia).
  destruct (Z.leb_spec 0 i); [|lia].
  destruct (Z.ltb_spec i (len l)); [|lia].
  by rewrite Hx.
Qed.

Lemma py_get_ge {A} (l : list A) (i : Z) :
  len l <= i -> py_get l i = inl IndexError.
Proof.
  intros Hi. unfold py_get, py_pos. pose proof (len_nonneg l).
  destruct (Z.leb_spec 0 i); [|lia].
  destruct (Z.ltb_spec i (len l)); [lia|]. reflexivity.
Qed.

Lemma py_get_last {A} (l : list A) (x : A) : py_get (l ++ [x]) (-1) = inr x.
Proof.
  unfold py_get, py_pos. rewrite len_app. change (len [x]) with 1.
  pose proof (len_nonneg l).
  destruct (Z.leb_spec 0 (-1)); [lia|].
  destruct (Z.leb_spec (- (len l + 1)) (-1)); [|lia].
  replace (Z.to_nat (len l + 1 + -1)) with (length l) by (unfold len; lia).
  by rewrite list_lookup_middle.
Qed.

Lemma last_Some_snoc {A} (l : list A) (x : A) :
  last l = Some x -> l = removelast l ++ [x].
Proof.
  intros H. apply last_Some in H as [l' ->]. by rewrite removelast_last.
Qed.

Lemma cur_frame_top vm fs fr :
  frames vm = fs ++ [fr] -> cur_frame vm = (inr fr, vm).
Proof.
  intros H. unfold cur_frame, bind, get, lift. by rewrite H, py_get_last.
Qed.

Lemma set_ip_top vm fs fr v :
  frames vm = fs ++ [fr] ->
  set_ip v vm = (inr tt, mkVM (program vm) (stack vm)
                   (fs ++ [mkCallFrame (function fr) v (stack_base fr)])
                   (vm_globals vm) (output vm)).
Proof.
  intros H. unfold set_ip, bind, get, lift. rewrite H, py_pop_snoc. reflexivity.
Qed.

Lemma OpCode_of_value o : OpCode_of (OpCode_value o) = inr o.
Proof. by destruct o. Qed.

(** Fetching: when the top frame points at the byte of [o], an
    iteration of the loop runs the branch of [o] with the instruction
    pointer moved past the opcode. *)
Lemma step_fetch vm o :
  at_opcode vm o = true -> step vm = exec (cur_chunk vm) o (advance vm 1).
Proof.
  unfold at_opcode, code_at, cur_chunk, advance.
  destruct (last (frames vm)) as [fr|] eqn:Hl; [|done].
  apply last_Some_snoc in Hl. set (fs := removelast (frames vm)) in *.
  rewrite Z.add_0_r.
  destruct (Z.leb_spec 0 (ip fr)); [|done].
  destruct (Z.ltb_spec (ip fr) (len (code (chunk (function fr))))); [|done].
  simpl. destruct (code (chunk (function fr)) !! Z.to_nat (ip fr)) as [b|] eqn:Hb; [|done].
  intros Hv%Z.eqb_eq. subst b.
  unfold step, bind at 1. rewrite (cur_frame_top _ _ _ Hl).
  destruct (Z.leb_spec (len (code (chunk (function fr)))) (ip fr)); [lia|].
  unfold bind, lift. rewrite (py_get_nonneg _ _ _ ltac:(done) Hb), OpCode_of_value.
  by rewrite (set_ip_top _ _ _ _ Hl).
Qed.

Lemma pop_snoc vm s v :
  stack vm = s ++ [v] -> pop vm = (inr v, with_stack vm s).
Proof.
  intros H. unfold pop, bind, get, lift, set_stack. rewrite H, py_pop_snoc. reflexivity.
Qed.

Lemma pop_empty vm :
  stack vm = [] -> pop vm = (inl IndexError, vm).
Proof. intros H. unfold pop, bind, get, lift. by rewrite H. Qed.

Lemma push_eq vm v : push v vm = (inr tt, with_stack vm (stack vm ++ [v])).
Proof. reflexivity. Qed.

Lemma binary_two vm rest a b op :
  stack vm = rest ++ [a; b] ->
  binary op vm =
    match op a b with
    | inl e => (inl e, with_stack vm rest)
    | inr r => (inr tt, with_stack vm (rest ++ [r]))
    end.
Proof.
  intros H. unfold binary, bind.
  rewrite (pop_snoc vm (rest ++ [a]) b) by (by rewrite H, <- app_assoc).
  rewrite (pop_snoc _ rest a) by done.
  unfold lift. destruct (op a b); reflexivity.
Qed.

Lemma Qfloor_div (a b : Z) : b <> 0 -> Qfloor (inject_Z a / inject_Z b) = a / b.
Proof.
  intros Hb. unfold Qdiv, Qmult, Qinv, inject_Z, Qfloor. simpl.
  destruct b as [|p|p]; [done| |]; simpl.
  - by rewrite Z.mul_1_r.
  - rewrite <- (Z.div_opp_opp a (Z.neg p)) by done. simpl.
    f_equal. lia.
Qed.

(** ** The arithmetic opcodes *)

Lemma at_opcode_frames vm o : at_opcode vm o = true -> frames vm <> [].
Proof.
  unfold at_opcode, code_at. destruct (frames vm); [done|]. done.
Qed.

Lemma run_loop_raises vm e vm' fuel :
  frames vm <> [] -> step vm = (inl e, vm') ->
  run_loop (S fuel) vm = (Raised e, vm').
Proof.
  intros Hf Hs. simpl. destruct (frames vm); [done|]. by rewrite Hs.
Qed.

Lemma stack_advance vm k : stack (advance vm k) = stack vm.
Proof. unfold advance. by destruct (last (frames vm)). Qed.

Lemma with_stack_advance vm k s :
  with_stack (advance vm k) s = advance (with_stack vm s) k.
Proof. unfold advance, with_stack. simpl. by destruct (last (frames vm)). Qed.

Lemma step_binary vm o op rest a b :
  exec (cur_chunk vm) o (advance vm 1) = binary op (advance vm 1) ->
  at_opcode vm o = true ->
  stack vm = rest ++ [a; b] ->
  step vm = match op a b with
            | inl e => (inl e, with_stack (advance vm 1) rest)
            | inr r => (inr tt, with_stack (advance vm 1) (rest ++ [r]))
            end.
Proof.
  intros Hex Hop Hst. rewrite (step_fetch _ _ Hop), Hex.
  apply binary_two. by rewrite stack_advance.
Qed.

(** C4: [DIV] pops [b] then [a] and pushes the floor of the rational
    [a / b]; when [b] is zero the iteration raises the VM's runtime
    error with both operands popped and nothing pushed, and [run]
    ends there. *)
Theorem div_pushes_floor_or_aborts (vm : VM) (rest : list Z) (a b : Z) :
  at_opcode vm DIV = true ->
  stack vm = rest ++ [a; b] ->
  (b <> 0 ->
   step vm = (inr tt, with_stack (advance vm 1)
                        (rest ++ [Qfloor (inject_Z a / inject_Z b)])))
  /\ (b = 0 ->
      step vm = (inl (VMRuntimeError DivisionByZero), with_stack (advance vm 1) rest)
      /\ forall fuel,
          run_loop (S fuel) vm
          = (Raised (VMRuntimeError DivisionByZero), with_stack (advance vm 1) rest)).
Proof.
  intros Hop Hst.
  pose proof (step_binary vm DIV safe_div rest a b eq_refl Hop Hst) as Hstep.
  unfold safe_div in Hstep. split.
  - intros Hb. rewrite Qfloor_div by done.
    destruct (Z.eqb_spec b 0); [done|]. exact Hstep.
  - intros ->. simpl in Hstep. split; [exact Hstep|].
    intros fuel. apply run_loop_raises; [by eapply at_opcode_frames | exact Hstep].
Qed.

(** C9 (as the code has it): [ADD], [SUB] and [MUL] pop [b] then [a]
    and push the exact integer sum, difference and product; the
    integers are unbounded and nothing wraps around. *)
Theorem arith_ops_exact (vm : VM) (rest : list Z) (a b : Z) :
  stack vm = rest ++ [a; b] ->
  (at_opcode vm ADD = true ->
   step vm = (inr tt, with_stack (advance vm 1) (rest ++ [a + b])))
  /\ (at_opcode vm SUB = true ->
      step vm = (inr tt, with_stack (advance vm 1) (rest ++ [a - b])))
  /\ (at_opcode vm MUL = true ->
      step vm = (inr tt, with_stack (advance vm 1) (rest ++ [a * b]))).
Proof.
  intros Hst. split; [|split]; intros Hop.
  - exact (step_binary vm ADD (fun x y => inr (x + y)) rest a b eq_refl Hop Hst).
  - exact (step_binary vm SUB (fun x y => inr (x - y)) rest a b eq_refl Hop Hst).
  - exact (step_binary vm MUL (fun x y => inr (x * y)) rest a b eq_refl Hop Hst).
Qed.

Lemma wrap_half (w : Z) : 0 < w -> wrap w (2 ^ (w - 1)) = - 2 ^ (w - 1).
Proof.
  intros Hw. unfold wrap.
  replace (2 ^ (w - 1) + 2 ^ (w - 1)) with (2 ^ w).
  - rewrite Z.mod_same by (apply Z.pow_nonzero; lia). lia.
  - replace w with (Z.succ (w - 1)) at 1 by lia. rewrite Z.pow_succ_r by lia. lia.
Qed.

(** C9, as stated, fails: for no width [w] does [ADD] push the [w]-bit
    two's-complement sum of its operands.  On the operands
    [2^(w-1) - 1] and [1] it pushes [2^(w-1)], which [w] bits wrap to
    [-2^(w-1)]. *)
Lemma add_does_not_wrap :
  ~ exists w, 0 < w /\
      forall (vm : VM) (rest : list Z) (a b : Z),
        at_opcode vm ADD = true ->
        stack vm = rest ++ [a; b] ->
        step vm = (inr tt, with_stack (advance vm 1) (rest ++ [wrap w (a + b)])).
Proof.
  intros (w & Hw & H).
  specialize (H (one_op_vm ADD [2 ^ (w - 1) - 1; 1]) [] (2 ^ (w - 1) - 1) 1
                eq_refl eq_refl).
  rewrite (step_binary (one_op_vm ADD [2 ^ (w - 1) - 1; 1]) ADD
             (fun x y => inr (x + y)) [] (2 ^ (w - 1) - 1) 1
             eq_refl eq_refl eq_refl) in H.
  replace (2 ^ (w - 1) - 1 + 1) with (2 ^ (w - 1)) in H by lia.
  rewrite wrap_half in H by done.
  assert (0 < 2 ^ (w - 1)) by (apply Z.pow_pos_nonneg; lia).
  injection H as H. lia.
Qed.

(** ** The program object is never written to *)

Section PreservesProgram.
Local Hint Unfold preserves_program : core.

Lemma pp_ret {A} (a : A) : preserves_program (ret a).
  Proof. done. Qed.

Lemma pp_raise {A} e : preserves_program (@raise VM A e).
  Proof. done. Qed.

Lemma pp_lift {A} (r : exn + A) : preserves_program (lift r).
  Proof. done. Qed.

Lemma pp_get : preserves_program get.
  Proof. done. Qed.

Lemma pp_bind {A B} (m : vmM A) (k : A -> vmM B) :
    preserves_program m -> (forall a, preserves_program (k a)) ->
    preserves_program (bind m k).
  Proof.
    intros Hm Hk vm. unfold bind. specialize (Hm vm).
    destruct (m vm) as [[e|a] vm']; simpl in *; [done|].
    by rewrite Hk.
  Qed.

Lemma pp_set_stack s : preserves_program (set_stack s).
  Proof. done. Qed.
Lemma pp_set_frames s : preserves_program (set_frames s).
  Proof. done. Qed.
Lemma pp_set_globals s : preserves_program (set_globals s).
  Proof. done. Qed.
Lemma pp_set_output s : preserves_program (set_output s).
  Proof. done. Qed.

Lemma pp_if {A} (c : bool) (m1 m2 : vmM A) :
    preserves_program m1 -> preserves_program m2 ->
    preserves_program (if c then m1 else m2).
  Proof. by destruct c. Qed.
End PreservesProgram.

Create HintDb preserves discriminated.

Ltac pp_step :=
  first [ solve [auto 1 with preserves nocore]
        | apply pp_bind; [|intros ?]
        | apply pp_ret | apply pp_raise | apply pp_lift | apply pp_get
        | apply pp_set_stack | apply pp_set_frames | apply pp_set_globals
        | apply pp_set_output | apply pp_if ].
Ltac pp := repeat pp_step.

Lemma pp_push v : preserves_program (push v).
Proof. unfold push. pp. Qed.
Lemma pp_pop : preserves_program pop.
Proof. unfold pop. pp. Qed.
Lemma pp_cur_frame : preserves_program cur_frame.
Proof. unfold cur_frame. pp. Qed.
Lemma pp_set_ip v : preserves_program (set_ip v).
Proof. unfold set_ip. pp. Qed.
#[export] Hint Resolve pp_push pp_pop pp_cur_frame pp_set_ip : preserves.

Lemma pp_read_u16 : preserves_program read_u16.
Proof. unfold read_u16. pp. Qed.
Lemma pp_read_byte : preserves_program read_byte.
Proof. unfold read_byte. pp. Qed.
Lemma pp_binary op : preserves_program (binary op).
Proof. unfold binary. pp. Qed.
Lemma pp_call_function i n : preserves_program (call_function i n).
Proof. unfold call_function. pp. Qed.
Lemma pp_do_return : preserves_program do_return.
Proof.
  unfold do_return. pp. destruct (frames _); pp.
  destruct (frames _); pp.
Qed.
Lemma pp_store_local f i : preserves_program (store_local f i).
Proof. unfold store_local. pp. Qed.
Lemma pp_load_local f i : preserves_program (load_local f i).
Proof. unfold load_local. pp. Qed.
Lemma pp_store_global i : preserves_program (store_global i).
Proof. unfold store_global. pp. Qed.
#[export] Hint Resolve pp_read_u16 pp_read_byte pp_binary pp_call_function pp_do_return
  pp_store_local pp_load_local pp_store_global : preserves.

Lemma pp_exec c o : preserves_program (exec c o).
Proof.
  destruct o; simpl; pp.
Qed.

Lemma pp_step_loop : preserves_program step.
Proof. unfold step. pp; apply pp_exec. Qed.

Lemma run_loop_program fuel vm : program (snd (run_loop fuel vm)) = program vm.
Proof.
  revert vm. induction fuel as [|fuel IH]; intros vm; simpl.
  - by destruct (frames vm).
  - destruct (frames vm); [done|].
    pose proof (pp_step_loop vm) as Hs.
    destruct (step vm) as [[e|[]] vm']; simpl in *; [done|].
    by rewrite IH.
Qed.

Lemma run_program_unchanged fuel vm : program (snd (run fuel vm)) = program vm.
Proof.
  unfold run. pose proof (pp_call_function (entry_index (program vm)) 0 vm) as Hc.
  destruct (call_function _ _ vm) as [[e|[]] vm']; simpl in *; [done|].
  by rewrite run_loop_program.
Qed.

(** ** The program object and the VM's own list of globals *)

Lemma writes_own_list_refl s : writes_own_list s s.
Proof. done. Qed.

Lemma writes_own_list_trans s1 s2 s3 :
  writes_own_list s1 s2 -> writes_own_list s2 s3 -> writes_own_list s1 s3.
Proof.
  intros (Hp1 & Hg1 & Hl1) (Hp2 & Hg2 & Hl2). split; [congruence|].
  split; [congruence|]. intros l Hl. rewrite Hl2, Hl1; congruence.
Qed.

Lemma own_ret {A} (a : A) : own (ret a).
Proof. intros s. apply writes_own_list_refl. Qed.

Lemma own_raise {A} e : own (@raise VMObject A e).
Proof. intros s. apply writes_own_list_refl. Qed.

Lemma own_lift {A} (r : exn + A) : own (lift r).
Proof. intros s. apply writes_own_list_refl. Qed.

Lemma own_get : own get.
Proof. intros s. apply writes_own_list_refl. Qed.

Lemma own_bind {A B} (m : vmoM A) (k : A -> vmoM B) :
  own m -> (forall a, own (k a)) -> own (bind m k).
Proof.
  intros Hm Hk s. unfold bind. specialize (Hm s).
  destruct (m s) as [[e|a] s1]; simpl in *; [done|].
  eapply writes_own_list_trans; [exact Hm|apply Hk].
Qed.

Lemma own_on_vm {A} (m : vmM A) : own (on_vm m).
Proof. intros s. done. Qed.

(** A global store writes the list object of the VM. *)
Lemma own_store_global_obj index : own (store_global_obj index).
Proof.
  intros s. unfold store_global_obj, bind, get.
  pose proof (own_on_vm pop s) as Hp.
  destruct (on_vm pop s) as [[e|value] s1]; simpl in *; [done|].
  destruct (_ <=? _); [done|]. unfold lift.
  destruct (py_set _ index value) as [e|g']; [done|].
  eapply writes_own_list_trans; [exact Hp|].
  unfold set_list, writes_own_list. simpl.
  split; [done|]. split; [done|]. intros l Hl.
  by rewrite lookup_insert_ne.
Qed.

Lemma own_exec_obj c o : own (exec_obj c o).
Proof.
  destruct o; try apply own_on_vm; simpl.
  - apply own_bind; [apply own_on_vm|intros index].
    apply own_bind; [apply own_get|intros s].
    apply own_bind; [apply own_lift|intros v]. apply own_on_vm.
  - apply own_bind; [apply own_on_vm|intros index].
    apply own_store_global_obj.
Qed.

Lemma own_step_obj : own step_obj.
Proof.
  unfold step_obj. apply own_bind; [apply own_on_vm|intros frame].
  destruct (_ <=? _); [apply own_raise|].
  apply own_bind; [apply own_lift|intros byte].
  apply own_bind; [apply own_lift|intros opcode].
  apply own_bind; [apply own_on_vm|intros _]. apply own_exec_obj.
Qed.

Lemma run_loop_obj_own fuel : forall s, writes_own_list s (snd (run_loop_obj fuel s)).
Proof.
  induction fuel as [|fuel IH]; intros s; simpl.
  - destruct (vo_frames s); apply writes_own_list_refl.
  - destruct (vo_frames s); [apply writes_own_list_refl|].
    pose proof (own_step_obj s) as Hs.
    destruct (step_obj s) as [[e|[]] s']; simpl in *; [done|].
    eapply writes_own_list_trans; [exact Hs|apply IH].
Qed.

Lemma run_obj_own fuel s : writes_own_list s (snd (run_obj fuel s)).
Proof.
  unfold run_obj.
  pose proof (own_on_vm (call_function (po_entry_index (vo_program s)) 0) s) as Hc.
  destruct (on_vm _ s) as [[e|[]] s']; simpl in *; [done|].
  eapply writes_own_list_trans; [exact Hc|apply run_loop_obj_own].
Qed.

(** *** The machine over the store and the machine over values *)

Section PreservesGlobals.
Local Hint Unfold preserves_globals : core.

Lemma pg_ret {A} (a : A) : preserves_globals (ret a).
  Proof. done. Qed.
Lemma pg_raise {A} e : preserves_globals (@raise VM A e).
  Proof. done. Qed.
Lemma pg_lift {A} (r : exn + A) : preserves_globals (lift r).
  Proof. done. Qed.
Lemma pg_get : preserves_globals get.
  Proof. done. Qed.

Lemma pg_bind {A B} (m : vmM A) (k : A -> vmM B) :
    preserves_globals m -> (forall a, preserves_globals (k a)) ->
    preserves_globals (bind m k).
  Proof.
    intros Hm Hk vm. unfold bind. specialize (Hm vm).
    destruct (m vm) as [[e|a] vm']; simpl in *; [done|].
    by rewrite Hk.
  Qed.

Lemma pg_set_stack s : preserves_globals (set_stack s).
  Proof. done. Qed.
Lemma pg_set_frames s : preserves_globals (set_frames s).
  Proof. done. Qed.
Lemma pg_set_output s : preserves_globals (set_output s).
  Proof. done. Qed.

Lemma pg_if {A} (c : bool) (m1 m2 : vmM A) :
    preserves_globals m1 -> preserves_globals m2 ->
    preserves_globals (if c then m1 else m2).
  Proof. by destruct c. Qed.
End PreservesGlobals.

Create HintDb preserves_globals discriminated.

Ltac pg_step :=
  first [ solve [auto 1 with preserves_globals nocore]
        | apply pg_bind; [|intros ?]
        | apply pg_ret | apply pg_raise | apply pg_lift | apply pg_get
        | apply pg_set_stack | apply pg_set_frames
        | apply pg_set_output | apply pg_if ].
Ltac pg := repeat pg_step.

Lemma pg_push v : preserves_globals (push v).
Proof. unfold push. pg. Qed.
Lemma pg_pop : preserves_globals pop.
Proof. unfold pop. pg. Qed.
Lemma pg_cur_frame : preserves_globals cur_frame.
Proof. unfold cur_frame. pg. Qed.
Lemma pg_set_ip v : preserves_globals (set_ip v).
Proof. unfold set_ip. pg. Qed.
#[export] Hint Resolve pg_push pg_pop pg_cur_frame pg_set_ip : preserves_globals.

Lemma pg_read_u16 : preserves_globals read_u16.
Proof. unfold read_u16. pg. Qed.
Lemma pg_read_byte : preserves_globals read_byte.
Proof. unfold read_byte. pg. Qed.
Lemma pg_binary op : preserves_globals (binary op).
Proof. unfold binary. pg. Qed.
Lemma pg_call_function i n : preserves_globals (call_function i n).
Proof. unfold call_function. pg. Qed.
Lemma pg_do_return : preserves_globals do_return.
Proof.
  unfold do_return. pg. destruct (frames _); pg.
  destruct (frames _); pg.
Qed.
Lemma pg_store_local f i : preserves_globals (store_local f i).
Proof. unfold store_local. pg. Qed.
Lemma pg_load_local f i : preserves_globals (load_local f i).
Proof. unfold load_local. pg. Qed.
#[export] Hint Resolve pg_read_u16 pg_read_byte pg_binary pg_call_function pg_do_return
  pg_store_local pg_load_local : preserves_globals.

(** Every branch of the dispatch but [STORE_GLOBAL] leaves
    [self.globals] as it is. *)
Lemma pg_exec c o : o <> STORE_GLOBAL -> preserves_globals (exec c o).
Proof.
  destruct o; try done; intros _; simpl; pg.
Qed.

Lemma agree_on_vm {A} (m : vmM A) :
  preserves_program m -> preserves_globals m -> agree m (on_vm m).
Proof.
  intros Hp Hg s _. unfold on_vm. simpl.
  specialize (Hp (vm_value s)). specialize (Hg (vm_value s)).
  destruct (m (vm_value s)) as [r vm']. simpl in *.
  f_equal. destruct vm'. simpl in *. by subst.
Qed.

Lemma agree_ret {A} (a : A) : agree (ret a) (ret a).
Proof. by intros s _. Qed.

Lemma agree_raise {A} e : agree (@raise VM A e) (raise e).
Proof. by intros s _. Qed.

Lemma agree_lift {A} (r : exn + A) : agree (lift r) (lift r).
Proof. by intros s _. Qed.

Lemma agree_bind {A B} (m : vmM A) (mo : vmoM A) (k : A -> vmM B) (ko : A -> vmoM B) :
  agree m mo -> own mo -> (forall a, agree (k a) (ko a)) ->
  agree (bind m k) (bind mo ko).
Proof.
  intros Hm Ho Hk s Hs. unfold bind. rewrite (Hm s Hs).
  destruct (Ho s) as (Hp & Hg & _).
  destruct (mo s) as [[e|a] s1]; simpl in *; [done|].
  apply Hk. congruence.
Qed.

Lemma list_at_insert h l v : list_at (<[l := v]> h) l = v.
Proof. unfold list_at. by rewrite lookup_insert_eq. Qed.

Lemma list_at_insert_ne h l l' v : l <> l' -> list_at (<[l := v]> h) l' = list_at h l'.
Proof. intros. unfold list_at. by rewrite lookup_insert_ne. Qed.

Lemma agree_store_global index : agree (store_global index) (store_global_obj index).
Proof.
  intros s Hs. unfold store_global, store_global_obj, bind.
  rewrite (agree_on_vm pop pp_pop pg_pop s Hs).
  destruct (own_on_vm pop s) as (Hp & Hg & _).
  destruct (on_vm pop s) as [[e|value] s1]; simpl in *; [done|].
  destruct (_ <=? _); [done|]. unfold lift.
  destruct (py_set _ index value) as [e|g']; [done|].
  unfold set_globals, set_list, vm_value, program_value. simpl.
  rewrite list_at_insert, list_at_insert_ne; [done|congruence].
Qed.

Lemma agree_exec c o : agree (exec c o) (exec_obj c o).
Proof.
  destruct o;
    try (apply agree_on_vm; [apply pp_exec|by apply pg_exec]).
  - simpl. apply agree_bind;
      [apply agree_on_vm; [apply pp_read_u16|apply pg_read_u16]|apply own_on_vm|].
    intros index s Hs. unfold bind, get, lift. simpl.
    destruct (py_get _ index) as [e|v]; [done|].
    apply (agree_on_vm (push v) (pp_push v) (pg_push v) s Hs).
  - simpl. apply agree_bind;
      [apply agree_on_vm; [apply pp_read_u16|apply pg_read_u16]|apply own_on_vm|].
    intros index. apply agree_store_global.
Qed.

Lemma agree_step : agree step step_obj.
Proof.
  unfold step, step_obj.
  apply agree_bind;
    [apply agree_on_vm; [apply pp_cur_frame|apply pg_cur_frame]|apply own_on_vm|].
  intros frame. destruct (_ <=? _); [apply agree_raise|].
  apply agree_bind; [apply agree_lift|apply own_lift|intros byte].
  apply agree_bind; [apply agree_lift|apply own_lift|intros opcode].
  apply agree_bind;
    [apply agree_on_vm; [apply pp_set_ip|apply pg_set_ip]|apply own_on_vm|].
  intros _. apply agree_exec.
Qed.

Lemma run_loop_agrees fuel : forall s,
  vo_globals s <> po_globals (vo_program s) ->
  run_loop fuel (vm_value s)
  = (fst (run_loop_obj fuel s), vm_value (snd (run_loop_obj fuel s))).
Proof.
  induction fuel as [|fuel IH]; intros s Hs; simpl.
  - by destruct (vo_frames s).
  - destruct (vo_frames s) eqn:Hf; [done|].
    rewrite (agree_step s Hs).
    destruct (own_step_obj s) as (Hp & Hg & _).
    destruct (step_obj s) as [[e|[]] s']; simpl in *; [done|].
    apply IH. congruence.
Qed.

Lemma run_agrees fuel s :
  vo_globals s <> po_globals (vo_program s) ->
  run fuel (vm_value s) = (fst (run_obj fuel s), vm_value (snd (run_obj fuel s))).
Proof.
  intros Hs. unfold run, run_obj.
  pose proof (agree_on_vm _ (pp_call_function (po_entry_index (vo_program s)) 0)
                (pg_call_function (po_entry_index (vo_program s)) 0) s Hs) as Hc.
  change (entry_index (program (vm_value s))) with (po_entry_index (vo_program s)).
  rewrite Hc.
  destruct (own_on_vm (call_function (po_entry_index (vo_program s)) 0) s) as (Hp & Hg & _).
  destruct (on_vm _ s) as [[e|[]] s']; simpl in *; [done|].
  apply run_loop_agrees. congruence.
Qed.

(** [list(l)] makes a list object that the store did not have. *)
Lemma list_copy_fresh h l : h !! snd (list_copy h l) = None.
Proof. unfold list_copy. simpl. apply not_elem_of_dom, is_fresh. Qed.

(** C10: run in any store of list objects in which the program's list
    of globals exists, [VM.__init__] makes a list object for
    [self.globals] that the store did not have, so not the program's,
    with the elements of the program's; a global store changes no list
    object but the one [self.globals] refers to; and however [run]
    ends (it returns, it raises, or it is still running after [fuel]
    iterations) the fields of the program object are the ones it had,
    every list object of the store it was given has its elements, and
    so the program has the functions, the globals and the entry index
    that it had. *)
Theorem run_never_mutates_program (h : gmap positive (list Z)) (p : ProgramObject) (g : list Z) :
  h !! po_globals p = Some g ->
  let vm := VM_init_obj h p in
  (h !! vo_globals vm = None
   /\ vo_globals vm <> po_globals p
   /\ vo_lists vm !! vo_globals vm = Some g
   /\ vo_lists vm !! po_globals p = Some g)
  /\ (forall index s l,
        l <> vo_globals s ->
        vo_lists (snd (store_global_obj index s)) !! l = vo_lists s !! l)
  /\ forall fuel,
      let vm' := snd (run_program_obj fuel h p) in
      vo_program vm' = p
      /\ (forall l, is_Some (h !! l) -> vo_lists vm' !! l = h !! l)
      /\ vo_lists vm' !! po_globals p = Some g
      /\ program_value (vo_program vm') (vo_lists vm') = program_value p h.
Proof.
  intros Hg vm.
  assert (Hfresh : h !! vo_globals vm = None) by apply list_copy_fresh.
  assert (Hne : vo_globals vm <> po_globals p) by congruence.
  assert (Hvm : forall l, is_Some (h !! l) -> vo_lists vm !! l = h !! l).
  { intros l [x Hl]. unfold vm, VM_init_obj, list_copy. simpl.
    rewrite lookup_insert_ne; [done|]. intros <-. fold (list_copy h (po_globals p)) in *.
    unfold vm, VM_init_obj, list_copy in Hfresh. simpl in Hfresh. congruence. }
  split; [|split].
  - split; [done|]. split; [done|]. split.
    + unfold vm, VM_init_obj, list_copy. simpl.
      rewrite lookup_insert_eq. unfold list_at. by rewrite Hg.
    + by rewrite Hvm.
  - intros index s l Hl. by apply own_store_global_obj.
  - intros fuel vm'. subst vm'. unfold run_program_obj. fold vm.
    destruct (run_obj_own fuel vm) as (Hp & Hr & Hl).
    set (vm' := snd (run_obj fuel vm)) in *.
    assert (Hkeep : forall l, is_Some (h !! l) -> vo_lists vm' !! l = h !! l).
    { intros l Hs. rewrite Hl, Hvm; [done..|]. intros ->.
      rewrite Hfresh in Hs. by destruct Hs. }
    split; [done|]. split; [done|].
    assert (Hg' : vo_lists vm' !! po_globals p = Some g) by (by rewrite Hkeep).
    split; [done|].
    rewrite Hp. unfold program_value, list_at. simpl. by rewrite Hg', Hg.
Qed.

(** The run over the store ends as the run over values does, and in
    the same state: [run_program] on the program with the elements its
    list of globals has in the store. *)
Lemma run_program_obj_agrees fuel (h : gmap positive (list Z)) (p : ProgramObject) (g : list Z) :
  h !! po_globals p = Some g ->
  run_program fuel (program_value p h)
  = (fst (run_program_obj fuel h p), vm_value (snd (run_program_obj fuel h p))).
Proof.
  intros Hg. unfold run_program, run_program_obj.
  assert (Hne : vo_globals (VM_init_obj h p) <> po_globals p).
  { pose proof (list_copy_fresh h (po_globals p)) as Hf.
    unfold VM_init_obj. simpl in *. congruence. }
  rewrite <- run_agrees by done. f_equal.
  unfold VM_init, VM_init_obj, vm_value, program_value, list_copy in *. simpl in *.
  by rewrite list_at_insert, list_at_insert_ne.
Qed.

(** A store with one list object, the globals of the program
    [PUSH_CONST 0; STORE_GLOBAL 0; HALT] with the constant 7. *)
Lemma run_never_mutates_program_witness :
  let h : gmap positive (list Z) := {[ 1%positive := [0] ]} in
  let f := mkBytecodeFunction "<entry>"
             (mkChunk [0; 0; 0; 4; 0; 0; 15] [1; 1; 1; 1; 1; 1; 1] [7]) 0 0 in
  let p := mkProgramObject [f] 1%positive 0 in
  h !! po_globals p = Some [0]
  /\ forall fuel,
      vo_lists (snd (run_program_obj fuel h p)) !! po_globals p = Some [0].
Proof.
  intros h f p.
  assert (Hg : h !! po_globals p = Some [0]) by reflexivity.
  split; [exact Hg|]. intros fuel.
  exact (proj1 (proj2 (proj2 (proj2 (proj2 (run_never_mutates_program h p _ Hg)) fuel)))).
Defined.

(** Were [self.globals] the program's list and not a copy of it, a
    global store would write the program's list: the run of
    [PUSH_CONST 0; STORE_GLOBAL 0; HALT] with the constant 7. *)
Lemma alias_would_mutate_program :
  let h : gmap positive (list Z) := {[ 1%positive := [0] ]} in
  let f := mkBytecodeFunction "<entry>"
             (mkChunk [0; 0; 0; 4; 0; 0; 15] [1; 1; 1; 1; 1; 1; 1] [7]) 0 0 in
  let p := mkProgramObject [f] 1%positive 0 in
  vo_lists (snd (run_obj 3 (VM_init_alias h p))) !! po_globals p = Some [7]
  /\ vo_lists (snd (run_obj 3 (VM_init_obj h p))) !! po_globals p = Some [0]
  /\ fst (run_obj 3 (VM_init_obj h p)) = Returned [].
Proof. intros h f p. split; [|split]; vm_compute; reflexivity. Qed.

(** ** Bounds checks of slot accesses *)

(** C5, at the failing input: a [LOAD_GLOBAL] whose index is outside
    the global array ends [run] with Python's [IndexError], which is
    not the VM's runtime error; the same access through [STORE_GLOBAL]
    ends with the VM's runtime error.  A byte that is no opcode ends
    [run] with the [ValueError] of the enum constructor. *)
Theorem load_global_out_of_range_is_IndexError :
  forall fuel,
    fst (run_program (S fuel) load_global_oob) = Raised IndexError
    /\ fst (run_program (S (S fuel)) store_global_oob)
       = Raised (VMRuntimeError GlobalStoreOutOfRange)
    /\ fst (run_program (S fuel) unknown_opcode_prog) = Raised ValueError.
Proof. intros fuel. repeat split; reflexivity. Qed.

(** ** Decoding operands *)

Lemma last_frames_advance vm k :
  last (frames (advance vm k)) = moved k <$> last (frames vm).
Proof.
  unfold advance. destruct (last (frames vm)) as [fr|] eqn:H; simpl.
  - by rewrite last_snoc.
  - by rewrite H.
Qed.

Lemma advance_0 vm : advance vm 0 = vm.
Proof.
  unfold advance. destruct (last (frames vm)) as [fr|] eqn:H; [|done].
  destruct vm as [p s fs g o]. simpl in *. f_equal.
  rewrite Z.add_0_r. destruct fr. simpl. symmetry. by apply last_Some_snoc.
Qed.

Lemma advance_advance vm a b : advance (advance vm a) b = advance vm (a + b).
Proof.
  unfold advance at 1 3. rewrite last_frames_advance.
  destruct (last (frames vm)) as [fr|] eqn:H; simpl.
  - unfold advance. rewrite H. simpl. by rewrite removelast_last, Z.add_assoc.
  - unfold advance. by rewrite H.
Qed.

Lemma code_at_advance vm k j : code_at (advance vm k) j = code_at vm (k + j).
Proof.
  unfold code_at. rewrite last_frames_advance.
  destruct (last (frames vm)) as [fr|]; [|done]. simpl.
  by rewrite !Z.add_assoc.
Qed.

Lemma cur_frame_last vm fr : last (frames vm) = Some fr -> cur_frame vm = (inr fr, vm).
Proof. intros H. apply last_Some_snoc in H. by eapply cur_frame_top. Qed.

Lemma set_ip_advance vm fr k :
  last (frames vm) = Some fr -> set_ip (ip fr + k) vm = (inr tt, advance vm k).
Proof.
  intros H. unfold advance. rewrite H.
  apply last_Some_snoc in H. by rewrite (set_ip_top _ _ _ _ H).
Qed.

Lemma code_at_py_get vm fr k b :
  last (frames vm) = Some fr -> code_at vm k = Some b ->
  py_get (code (chunk (function fr))) (ip fr + k) = inr b.
Proof.
  intros Hl. unfold code_at. rewrite Hl.
  destruct (Z.leb_spec 0 (ip fr + k)); [|done].
  destruct (Z.ltb_spec (ip fr + k) (len (code (chunk (function fr))))); [|done].
  simpl. intros Hb. by apply py_get_nonneg.
Qed.

Lemma code_at_last vm k b : code_at vm k = Some b -> exists fr, last (frames vm) = Some fr.
Proof. unfold code_at. destruct (last (frames vm)); [eauto|done]. Qed.

Lemma read_u16_at vm hi lo :
  code_at vm 0 = Some hi -> code_at vm 1 = Some lo ->
  read_u16 vm = (inr (u16 hi lo), advance vm 2).
Proof.
  intros H0 H1. destruct (code_at_last _ _ _ H0) as [fr Hl].
  unfold read_u16, bind. rewrite (cur_frame_last _ _ Hl). unfold lift.
  pose proof (code_at_py_get _ _ _ _ Hl H0) as G0. rewrite Z.add_0_r in G0. rewrite G0.
  rewrite (code_at_py_get _ _ _ _ Hl H1).
  by rewrite (set_ip_advance _ _ _ Hl).
Qed.

Lemma read_byte_at vm b :
  code_at vm 0 = Some b -> read_byte vm = (inr b, advance vm 1).
Proof.
  intros H0. destruct (code_at_last _ _ _ H0) as [fr Hl].
  unfold read_byte, bind. rewrite (cur_frame_last _ _ Hl). unfold lift.
  pose proof (code_at_py_get _ _ _ _ Hl H0) as G0. rewrite Z.add_0_r in G0. rewrite G0.
  by rewrite (set_ip_advance _ _ _ Hl).
Qed.

Lemma code_from_cons vm k b bs :
  code_from vm k (b :: bs) = true -> code_at vm k = Some b /\ code_from vm (k + 1) bs = true.
Proof.
  simpl. destruct (code_at vm k) as [b'|]; [|done].
  intros [->%Z.eqb_eq ?]%andb_true_iff. done.
Qed.

Lemma at_code_opcode vm o bs : at_code vm (OpCode_value o :: bs) = true -> at_opcode vm o = true.
Proof.
  unfold at_code, at_opcode. intros [-> _]%code_from_cons. apply Z.eqb_refl.
Qed.

Lemma py_get_insert (s : list Z) slot v :
  0 <= slot < len s -> py_get (<[Z.to_nat slot := v]> s) slot = inr v.
Proof.
  intros H. apply py_get_nonneg; [lia|].
  apply list_lookup_insert_eq. unfold len in H. lia.
Qed.

Lemma py_set_nonneg {A} (s : list A) slot v :
  0 <= slot < len s -> py_set s slot v = inr (<[Z.to_nat slot := v]> s).
Proof.
  intros H. unfold py_set, py_pos.
  destruct (Z.leb_spec 0 slot); [|lia]. destruct (Z.ltb_spec slot (len s)); [|lia]. done.
Qed.

Lemma len_insert {A} (s : list A) i v : len (<[i := v]> s) = len s.
Proof. unfold len. by rewrite length_insert. Qed.

(** The two instructions of a compiled assignment to a local slot. *)
Lemma store_load_local_steps vm s v hi lo :
  at_code vm [2; hi; lo; 1; hi; lo] = true ->
  stack vm = s ++ [v] ->
  0 <= cur_base vm + u16 hi lo < len s ->
  two_steps vm
  = (inr tt, with_stack (advance vm 6)
               (<[Z.to_nat (cur_base vm + u16 hi lo) := v]> s ++ [v])).
Proof.
  intros Hcode Hst Hslot.
  pose proof (at_code_opcode vm STORE_LOCAL _ Hcode) as Hop.
  unfold at_code in Hcode.
  apply code_from_cons in Hcode as [C0 Hcode]. apply code_from_cons in Hcode as [C1 Hcode].
  apply code_from_cons in Hcode as [C2 Hcode]. apply code_from_cons in Hcode as [C3 Hcode].
  apply code_from_cons in Hcode as [C4 Hcode]. apply code_from_cons in Hcode as [C5 _].
  change (0 + 1) with 1 in *. change (1 + 1) with 2 in *. change (2 + 1) with 3 in *.
  change (3 + 1) with 4 in *. change (4 + 1) with 5 in *.
  destruct (code_at_last _ _ _ C0) as [fr Hl].
  unfold cur_base in *. rewrite Hl in Hslot |- *.
  unfold two_steps, bind at 1. rewrite (step_fetch _ _ Hop).
  (* STORE_LOCAL *)
  cbn [exec]. unfold bind at 1.
  rewrite (read_u16_at (advance vm 1) hi lo) by (by rewrite code_at_advance).
  rewrite advance_advance. change (1 + 2) with 3.
  unfold bind at 1.
  rewrite (cur_frame_last _ (moved 3 fr)) by (by rewrite last_frames_advance, Hl).
  unfold store_local, bind at 1.
  rewrite (pop_snoc _ s v) by (by rewrite stack_advance).
  unfold bind at 1, get. cbn [moved stack_base with_stack stack].
  destruct (Z.leb_spec (len s) (stack_base fr + u16 hi lo)); [lia|].
  unfold bind at 1, lift. rewrite py_set_nonneg by done.
  cbn [set_stack program frames vm_globals output].
  (* LOAD_LOCAL *)
  set (s' := <[Z.to_nat (stack_base fr + u16 hi lo) := v]> s).
  set (vm1 := mkVM _ s' _ _ _).
  assert (Hvm1 : vm1 = with_stack (advance vm 3) s') by done.
  assert (Hop1 : at_opcode vm1 LOAD_LOCAL = true).
  { unfold at_opcode. rewrite Hvm1.
    change (code_at (with_stack (advance vm 3) s') 0) with (code_at (advance vm 3) 0).
    rewrite code_at_advance. change (3 + 0) with 3. rewrite C3. done. }
  rewrite (step_fetch _ _ Hop1). cbn [exec]. unfold bind at 1.
  assert (Hadv : forall k, advance vm1 k = with_stack (advance vm (3 + k)) s').
  { intros k. rewrite Hvm1, <- with_stack_advance, advance_advance. done. }
  rewrite (read_u16_at (advance vm1 1) hi lo); cycle 1.
  { rewrite Hadv. change (code_at (with_stack ?x _) ?k) with (code_at x k).
    by rewrite code_at_advance. }
  { rewrite Hadv. change (code_at (with_stack ?x _) ?k) with (code_at x k).
    by rewrite code_at_advance. }
  rewrite advance_advance, Hadv. change (3 + (1 + 2)) with 6.
  unfold bind at 1.
  rewrite (cur_frame_last _ (moved 6 fr))
    by (change (frames (with_stack ?x _)) with (frames x); by rewrite last_frames_advance, Hl).
  unfold bind at 1, load_local, bind at 1, get.
  cbn [moved stack_base with_stack stack].
  assert (Hlen : len s' = len s) by apply len_insert.
  destruct (Z.leb_spec (len s') (stack_base fr + u16 hi lo)); [lia|].
  unfold lift. unfold s' at 1. rewrite py_get_insert by done.
  reflexivity.
Qed.

(** The two instructions of a compiled assignment to a global slot. *)
Lemma store_load_global_steps vm s v hi lo :
  at_code vm [4; hi; lo; 3; hi; lo] = true ->
  stack vm = s ++ [v] ->
  0 <= u16 hi lo < len (vm_globals vm) ->
  two_steps vm
  = (inr tt, with_globals (with_stack (advance vm 6) (s ++ [v]))
               (<[Z.to_nat (u16 hi lo) := v]> (vm_globals vm))).
Proof.
  intros Hcode Hst Hslot.
  pose proof (at_code_opcode vm STORE_GLOBAL _ Hcode) as Hop.
  unfold at_code in Hcode.
  apply code_from_cons in Hcode as [C0 Hcode]. apply code_from_cons in Hcode as [C1 Hcode].
  apply code_from_cons in Hcode as [C2 Hcode]. apply code_from_cons in Hcode as [C3 Hcode].
  apply code_from_cons in Hcode as [C4 Hcode]. apply code_from_cons in Hcode as [C5 _].
  change (0 + 1) with 1 in *. change (1 + 1) with 2 in *. change (2 + 1) with 3 in *.
  change (3 + 1) with 4 in *. change (4 + 1) with 5 in *.
  destruct (code_at_last _ _ _ C0) as [fr Hl].
  unfold two_steps, bind at 1. rewrite (step_fetch _ _ Hop).
  (* STORE_GLOBAL *)
  cbn [exec]. unfold bind at 1.
  rewrite (read_u16_at (advance vm 1) hi lo) by (by rewrite code_at_advance).
  rewrite advance_advance. change (1 + 2) with 3.
  unfold store_global, bind at 1.
  rewrite (pop_snoc _ s v) by (by rewrite stack_advance).
  unfold bind at 1, get. cbn [with_stack vm_globals].
  assert (Hg : forall k, vm_globals (advance vm k) = vm_globals vm).
  { intros k. unfold advance. by destruct (last (frames vm)). }
  rewrite !Hg.
  destruct (Z.leb_spec (len (vm_globals vm)) (u16 hi lo)); [lia|].
  unfold bind at 1, lift. rewrite py_set_nonneg by done.
  cbn [set_globals program frames stack output].
  (* LOAD_GLOBAL *)
  set (g' := <[Z.to_nat (u16 hi lo) := v]> (vm_globals vm)).
  set (vm1 := mkVM _ _ _ g' _).
  assert (Hvm1 : vm1 = with_globals (with_stack (advance vm 3) s) g') by done.
  assert (Hca : forall k j, code_at (advance vm1 k) j = code_at vm (3 + k + j)).
  { intros k j. rewrite <- code_at_advance, <- advance_advance. rewrite Hvm1.
    unfold code_at. rewrite !last_frames_advance.
    change (frames (with_globals (with_stack (advance vm 3) s) g')) with (frames (advance vm 3)).
    by rewrite last_frames_advance. }
  assert (Hop1 : at_opcode vm1 LOAD_GLOBAL = true).
  { unfold at_opcode. rewrite <- (advance_0 vm1), Hca. change (3 + 0 + 0) with 3.
    by rewrite C3. }
  rewrite (step_fetch _ _ Hop1). cbn [exec]. unfold bind at 1.
  rewrite (read_u16_at (advance vm1 1) hi lo) by (by rewrite Hca).
  rewrite advance_advance. change (1 + 2) with 3.
  unfold bind at 1, get.
  assert (Hg1 : vm_globals (advance vm1 3) = g').
  { unfold advance. by destruct (last (frames vm1)). }
  rewrite Hg1. unfold bind at 1, lift. unfold g' at 1. rewrite py_get_insert by done.
  rewrite push_eq. f_equal.
  assert (Hadv : advance vm1 3 = with_globals (with_stack (advance vm 6) s) g').
  { rewrite Hvm1. change 6 with (3 + 3). rewrite <- advance_advance.
    generalize (advance vm 3). intros x. unfold advance, with_globals, with_stack. simpl.
    by destruct (last (frames x)). }
  by rewrite Hadv.
Qed.

(** ** Serialisation *)

Lemma int_items_PInt (l : list Z) : int_items (map PInt l) = inr l.
Proof. induction l as [|z l IH]; simpl; [done|]. by rewrite IH. Qed.

Lemma Chunk_round_trip (c : Chunk) : Chunk_from_dict (Chunk_to_dict c) = inr c.
Proof.
  destruct c as [co li cs]. unfold Chunk_from_dict, Chunk_to_dict. simpl.
  by rewrite !int_items_PInt.
Qed.

Lemma BytecodeFunction_round_trip (f : BytecodeFunction) :
  BytecodeFunction_from_dict (BytecodeFunction_to_dict f) = inr f.
Proof.
  destruct f as [n c a k].
  unfold BytecodeFunction_from_dict, BytecodeFunction_to_dict.
  cbn [subscript dict_get String.eqb Ascii.eqb Bool.eqb name chunk arity num_locals py_int].
  by rewrite Chunk_round_trip.
Qed.

Lemma function_items_round_trip (fs : list BytecodeFunction) :
  function_items (map BytecodeFunction_to_dict fs) = inr fs.
Proof.
  induction fs as [|f fs IH]; [done|].
  cbn [map function_items]. by rewrite BytecodeFunction_round_trip, IH.
Qed.

Lemma from_dict_to_dict (p : BytecodeProgram) : from_dict (to_dict p) = inr p.
Proof.
  destruct p as [fs gs e]. unfold from_dict, to_dict.
  cbn [subscript dict_get String.eqb Ascii.eqb Bool.eqb functions globals entry_index
       py_int int_list].
  by rewrite function_items_round_trip, int_items_PInt.
Qed.

(** C2: decoding the encoding of a program succeeds and gives a
    program with the same code bytes, line tables and constant pools
    (function by function, entry by entry, duplicates and order
    included), the same global initial values and the same entry
    index; encoding it again gives the same encoding, and its
    disassembly is the disassembly of the original. *)
Theorem serialization_round_trip (p : BytecodeProgram) :
  exists p',
    from_dict (to_dict p) = inr p'
    /\ map (fun f => code (chunk f)) (functions p') = map (fun f => code (chunk f)) (functions p)
    /\ map (fun f => lines (chunk f)) (functions p') = map (fun f => lines (chunk f)) (functions p)
    /\ map (fun f => constants (chunk f)) (functions p')
       = map (fun f => constants (chunk f)) (functions p)
    /\ globals p' = globals p
    /\ entry_index p' = entry_index p
    /\ p' = p
    /\ to_dict p' = to_dict p
    /\ disassemble_program p' = disassemble_program p.
Proof. exists p. rewrite from_dict_to_dict. by repeat split. Qed.

(** ** Return-path analysis *)

Lemma block_last_guarantees (f : Stmt -> bool) (l : list Stmt) :
  (fix last_guarantees (l : list Stmt) : bool :=
     match l with
     | [] => false
     | [s] => f s
     | _ :: l' => last_guarantees l'
     end) l
  = match last l with Some s => f s | None => false end.
Proof.
  induction l as [|a l IH]; [done|].
  destruct l as [|b l]; [done|]. rewrite IH. done.
Qed.

Lemma stmt_guarantees_return_block (statements : list Stmt) :
  stmt_guarantees_return (BlockStmt statements) = guarantees_return statements.
Proof. unfold guarantees_return. simpl. apply block_last_guarantees. Qed.

Lemma stmt_guarantees_return_spec (s : Stmt) :
  stmt_guarantees_return s = true <-> GuaranteesReturn s.
Proof.
  induction s as [d|statements IH|line expr|line expr|line c t e IHt IHe|line c b IHb|line v]
    using Stmt_nested_ind;
    try (split; [discriminate | inversion 1]).
  - rewrite stmt_guarantees_return_block. unfold guarantees_return.
    destruct (last statements) as [s|] eqn:Hl.
    + assert (Hs : stmt_guarantees_return s = true <-> GuaranteesReturn s).
      { apply last_Some in Hl as [l' ->]. rewrite Forall_app, Forall_singleton in IH.
        by destruct IH. }
      rewrite Hs. split; [by econstructor|].
      inversion 1; subst. congruence.
    + split; [discriminate|]. inversion 1; subst. congruence.
  - destruct e as [e|]; simpl.
    + rewrite andb_true_iff, IHt, (IHe e eq_refl).
      split; [intros []; by constructor | by inversion 1].
    + split; [discriminate | inversion 1].
  - split; [constructor | done].
Qed.

Lemma guarantees_return_spec (body : list Stmt) :
  guarantees_return body = true <-> BodyGuaranteesReturn body.
Proof.
  unfold guarantees_return, BodyGuaranteesReturn.
  destruct (last body) as [s|].
  - rewrite stmt_guarantees_return_spec. split; [eauto|]. by intros (s' & [= <-] & H).
  - split; [discriminate|]. by intros (s' & [=] & _).
Qed.

(** C3: the return-path analysis of the resolver accepts a body
    exactly when the body has the shape the rule describes; a function
    whose walk raised nothing is then accepted when its body has that
    shape and is rejected with the missing-return semantic error when
    it has any other shape.  A [while] statement and an [if] without
    [else] never have the shape, whatever they contain. *)
Theorem return_path_analysis (f : fref) (function : FunctionSymbol) (r r' : Resolver) :
  _functions r !! f = Some function ->
  resolve_function_walk f function r = (inr tt, r') ->
  let body := fd_body (fs_decl function) in
  (guarantees_return body = true <-> BodyGuaranteesReturn body)
  /\ (BodyGuaranteesReturn body -> resolve_function f r = (inr tt, r'))
  /\ (~ BodyGuaranteesReturn body ->
      resolve_function f r = (inl (SemanticError (MissingReturn (fs_name function))), r'))
  /\ (forall line condition b, ~ GuaranteesReturn (WhileStmt line condition b))
  /\ (forall line condition t, ~ GuaranteesReturn (IfStmt line condition t None)).
Proof.
  intros Hf Hwalk body.
  assert (Hres : resolve_function f r
                 = (if negb (guarantees_return body)
                    then raise (SemanticError (MissingReturn (fs_name function)))
                    else ret tt) r').
  { unfold resolve_function, bind at 1. unfold deref, bind at 1, get. rewrite Hf.
    unfold ret at 1. unfold bind. rewrite Hwalk. done. }
  split; [apply guarantees_return_spec|].
  split; [|split; [|split]].
  - intros H%guarantees_return_spec. rewrite Hres. fold body in H. by rewrite H.
  - intros H. rewrite Hres.
    destruct (guarantees_return body) eqn:Hg; [|done].
    by apply guarantees_return_spec in Hg.
  - intros line c b H. inversion H.
  - intros line c t H. inversion H.
Qed.

(** ** Resolution: what the walk does to the symbol objects *)

Lemma bind_inr {S A B} (m : M S A) (k : A -> M S B) s b s' :
  bind m k s = (inr b, s') ->
  exists a s1, m s = (inr a, s1) /\ k a s1 = (inr b, s').
Proof.
  unfold bind. destruct (m s) as [[e|a] s1]; [done|]. eauto.
Qed.

Lemma for_each_nil {S A} (f : A -> M S unit) : for_each f [] = ret tt.
Proof. done. Qed.

Lemma for_each_cons {S A} (f : A -> M S unit) x l :
  for_each f (x :: l) = bind (f x) (fun _ => for_each f l).
Proof. done. Qed.

Lemma for_each_app {S A} (f : A -> M S unit) l1 l2 s :
  for_each f (l1 ++ l2) s = bind (for_each f l1) (fun _ => for_each f l2) s.
Proof.
  revert s. induction l1 as [|x l1 IH]; intros s; [done|].
  rewrite <- app_comm_cons, !for_each_cons. specialize (IH).
  unfold bind in *. destruct (f x s) as [[e|[]] s1]; [done|]. apply IH.
Qed.

Lemma for_each_with_cons {S A C} (f : A -> C -> M S C) x l c :
  for_each_with f (x :: l) c = bind (f x c) (fun c' => for_each_with f l c').
Proof. done. Qed.

(** Destructs a successful run of a sequence of binds. *)
Ltac bind_inv H :=
  let a := fresh "a" in
  let s := fresh "r" in
  let H1 := fresh "H" in
  apply bind_inr in H as (a & s & H1 & H).

Section KeepsSymbols.
Lemma ks_ret {A} (a : A) : keeps_symbols (ret a).
  Proof. done. Qed.
Lemma ks_raise {A} e : keeps_symbols (@raise Resolver A e).
  Proof. done. Qed.
Lemma ks_lift {A} (x : exn + A) : keeps_symbols (lift x).
  Proof. done. Qed.
Lemma ks_get : keeps_symbols get.
  Proof. done. Qed.
Lemma ks_bind {A B} (m : resM A) (k : A -> resM B) :
    keeps_symbols m -> (forall a, keeps_symbols (k a)) -> keeps_symbols (bind m k).
  Proof.
    intros Hm Hk r. unfold bind. specialize (Hm r).
    destruct (m r) as [[e|a] r1]; simpl in *; [done|].
    destruct (Hk a r1) as [-> ->]. done.
  Qed.
Lemma ks_if {A} (c : bool) (m1 m2 : resM A) :
    keeps_symbols m1 -> keeps_symbols m2 -> keeps_symbols (if c then m1 else m2).
  Proof. by destruct c. Qed.
Lemma ks_set_var_bindings m : keeps_symbols (set_var_bindings m).
  Proof. done. Qed.
Lemma ks_set_call_targets m : keeps_symbols (set_call_targets m).
  Proof. done. Qed.
Lemma ks_set_scopes m : keeps_symbols (set_scopes m).
  Proof. done. Qed.
Lemma ks_for_each {A} (f : A -> resM unit) (l : list A) :
    Forall (fun a => keeps_symbols (f a)) l -> keeps_symbols (for_each f l).
  Proof.
    induction 1 as [|a l Ha _ IH]; [apply ks_ret|].
    rewrite for_each_cons. by apply ks_bind.
  Qed.
End KeepsSymbols.

Create HintDb keeps discriminated.

Ltac ks_step :=
  first [ solve [auto 1 with keeps nocore]
        | apply ks_bind; [|intros ?]
        | apply ks_ret | apply ks_raise | apply ks_lift | apply ks_get
        | apply ks_set_var_bindings | apply ks_set_call_targets | apply ks_set_scopes
        | apply ks_if ].
Ltac ks := repeat ks_step.

Lemma ks_deref f : keeps_symbols (deref f).
Proof. unfold deref. ks. destruct (_ !! _); ks. Qed.
Lemma ks_record_binding nid b : keeps_symbols (record_binding nid b).
Proof. unfold record_binding. ks. Qed.
Lemma ks_lookup_name n : keeps_symbols (lookup_name n).
Proof. unfold lookup_name. ks. destruct (lookup_scopes _ _); ks. Qed.
Lemma ks_push_scope : keeps_symbols push_scope.
Proof. unfold push_scope. ks. Qed.
Lemma ks_pop_scope : keeps_symbols pop_scope.
Proof. unfold pop_scope. ks. Qed.
Lemma ks_declare_local b : keeps_symbols (declare_local b).
Proof. unfold declare_local. ks. Qed.
#[export] Hint Resolve ks_deref ks_record_binding ks_lookup_name ks_push_scope ks_pop_scope
  ks_declare_local : keeps.

Lemma ks_resolve_expr e ctx : keeps_symbols (resolve_expr e ctx).
Proof.
  induction e as [line v|nid line n|nid line n v IH|line l op r IHl IHr|nid line c args IH]
    using Expr_nested_ind; simpl.
  - ks.
  - ks. destruct a; ks.
  - ks. destruct a; ks.
  - ks.
  - ks. destruct (_ !! _); ks. by apply ks_for_each.
Qed.
#[export] Hint Resolve ks_resolve_expr : keeps.

Lemma keeps_symbols_inr {A} (m : resM A) r a r' :
  keeps_symbols m -> m r = (inr a, r') ->
  _functions r' = _functions r /\ _globals r' = _globals r.
Proof. intros H Hm. specialize (H r). by rewrite Hm in H. Qed.

Lemma add_locals_nil s : add_locals [] s = s.
Proof. destruct s. unfold add_locals. simpl. by rewrite app_nil_r. Qed.

Lemma add_locals_app b1 b2 s : add_locals b2 (add_locals b1 s) = add_locals (b1 ++ b2) s.
Proof. unfold add_locals. simpl. by rewrite app_assoc. Qed.

Lemma alter_add_locals_nil f (l : list FunctionSymbol) : alter (add_locals []) f l = l.
Proof. apply list_alter_id, add_locals_nil. Qed.

Lemma alter_add_locals_app b1 b2 f (l : list FunctionSymbol) :
  alter (add_locals b2) f (alter (add_locals b1) f l) = alter (add_locals (b1 ++ b2)) f l.
Proof.
  rewrite list_alter_alter_eq. apply list_alter_ext; [|done].
  intros x _. apply add_locals_app.
Qed.

Lemma get_inr {S} (s s' x : S) : get s = (inr x, s') -> x = s /\ s' = s.
Proof. by intros [= <- <-]. Qed.

Lemma deref_inr f r s r' :
  deref f r = (inr s, r') -> r' = r /\ _functions r !! f = Some s.
Proof.
  unfold deref, bind, get. destruct (_functions r !! f); [|done].
  by intros [= <- <-].
Qed.

Lemma append_local_spec f b r r' :
  append_local f b r = (inr tt, r') ->
  _functions r' = alter (add_locals [b]) f (_functions r) /\ _globals r' = _globals r.
Proof.
  unfold append_local. intros H.
  apply bind_inr in H as (r1 & r2 & [-> ->]%get_inr & H).
  apply bind_inr in H as (s & r3 & [-> Hs]%deref_inr & H).
  injection H as <-. split; [|done].
  cbn [_functions]. rewrite list_insert_alter. apply list_alter_ext; [|done].
  intros x Hx. pose proof (eq_trans (eq_sym Hs) Hx) as [= <-]. done.
Qed.

Lemma bindings_from_app n d1 d2 :
  bindings_from n (d1 ++ d2) = bindings_from n d1 ++ bindings_from (n + len d1) d2.
Proof.
  unfold bindings_from. rewrite imap_app. f_equal.
  apply imap_ext. intros i d _. simpl. f_equal. unfold len. lia.
Qed.

Lemma len_bindings_from n ds : len (bindings_from n ds) = len ds.
Proof. unfold bindings_from, len. by rewrite length_imap. Qed.

Lemma walk_spec_nil ctx r r' :
  _functions r' = _functions r -> _globals r' = _globals r -> walk_spec [] ctx ctx r r'.
Proof.
  intros Hf Hg. split; [|split]; [|done|].
  - by rewrite Hf, alter_add_locals_nil.
  - destruct ctx. simpl. f_equal. unfold len. simpl. lia.
Qed.

Lemma walk_spec_app d1 d2 c0 c1 c2 r0 r1 r2 :
  walk_spec d1 c0 c1 r0 r1 -> walk_spec d2 c1 c2 r1 r2 -> walk_spec (d1 ++ d2) c0 c2 r0 r2.
Proof.
  intros (Hf1 & Hg1 & ->) (Hf2 & Hg2 & ->). simpl in *.
  split; [|split].
  - rewrite Hf2, Hf1, alter_add_locals_app. by rewrite bindings_from_app.
  - congruence.
  - f_equal. rewrite len_app. lia.
Qed.

Lemma walk_spec_frame ds c0 c1 r0 r1 r1' :
  walk_spec ds c0 c1 r0 r1 ->
  _functions r1' = _functions r1 -> _globals r1' = _globals r1 ->
  walk_spec ds c0 c1 r0 r1'.
Proof. intros (Hf & Hg & Hc) Hf' Hg'. split; [|split]; congruence. Qed.

Lemma walk_spec_frame_l ds c0 c1 r0 r0' r1 :
  walk_spec ds c0 c1 r0' r1 ->
  _functions r0' = _functions r0 -> _globals r0' = _globals r0 ->
  walk_spec ds c0 c1 r0 r1.
Proof. intros (Hf & Hg & Hc) Hf' Hg'. split; [|split]; congruence. Qed.

Ltac ks_inv H Hf Hg :=
  match type of H with
  | ?m ?r = (inr _, _) =>
      let K := fresh in
      assert (K : keeps_symbols m) by ks;
      apply (keeps_symbols_inr _ _ _ _ K) in H as [Hf Hg]; clear K
  end.

Lemma resolve_local_var_spec d ctx ctx' r r' :
  resolve_local_var d ctx r = (inr ctx', r') -> walk_spec [d] ctx ctx' r r'.
Proof.
  unfold resolve_local_var. intros H.
  apply bind_inr in H as (? & r1 & H1 & H). ks_inv H1 Hf1 Hg1.
  apply bind_inr in H as (? & r2 & H2 & H). ks_inv H2 Hf2 Hg2.
  apply bind_inr in H as (? & r3 & H3 & H). ks_inv H3 Hf3 Hg3.
  apply bind_inr in H as ([] & r4 & H4 & H). apply append_local_spec in H4 as [Hf4 Hg4].
  injection H as <- <-. simpl in *.
  split; [|split].
  - rewrite Hf4, Hf3, Hf2, Hf1. unfold bindings_from. simpl. by rewrite Z.add_0_r.
  - congruence.
  - done.
Qed.

Lemma resolve_stmt_spec s : forall ctx ctx' r r',
  resolve_stmt s ctx r = (inr ctx', r') -> walk_spec (stmt_decls s) ctx ctx' r r'.
Proof.
  induction s as [d|statements IH|line expr|line expr|line c t e IHt IHe|line c b IHb|line v]
    using Stmt_nested_ind; intros ctx ctx' r r' H; simpl in H.
  - by apply resolve_local_var_spec.
  - apply bind_inr in H as (? & r1 & H1 & H). ks_inv H1 Hf1 Hg1.
    apply bind_inr in H as (c1 & r2 & H2 & H).
    apply bind_inr in H as (? & r3 & H3 & H). ks_inv H3 Hf3 Hg3.
    injection H as <- <-.
    eapply walk_spec_frame; [|exact Hf3|exact Hg3].
    eapply walk_spec_frame_l; [|exact Hf1|exact Hg1].
    clear -IH H2. simpl. revert ctx r1 H2.
    induction IH as [|s l Hs _ IHl]; intros ctx r1 H2.
    + injection H2 as <- <-. by apply walk_spec_nil.
    + rewrite for_each_with_cons in H2.
      apply bind_inr in H2 as (c2 & r2' & H2a & H2). simpl.
      eapply walk_spec_app; [by apply Hs | by apply IHl].
  - apply bind_inr in H as (? & r1 & H1 & H). ks_inv H1 Hf1 Hg1.
    injection H as <- <-. by apply walk_spec_nil.
  - apply bind_inr in H as (? & r1 & H1 & H). ks_inv H1 Hf1 Hg1.
    injection H as <- <-. by apply walk_spec_nil.
  - apply bind_inr in H as (? & r1 & H1 & H). ks_inv H1 Hf1 Hg1.
    apply bind_inr in H as (c1 & r2 & H2 & H). apply IHt in H2.
    eapply walk_spec_frame_l; [|exact Hf1|exact Hg1].
    eapply walk_spec_app; [exact H2|].
    destruct e as [e|].
    + by apply (IHe e eq_refl).
    + injection H as <- <-. by apply walk_spec_nil.
  - apply bind_inr in H as (? & r1 & H1 & H). ks_inv H1 Hf1 Hg1.
    eapply walk_spec_frame_l; [|exact Hf1|exact Hg1]. by apply IHb.
  - apply bind_inr in H as (? & r1 & H1 & H). ks_inv H1 Hf1 Hg1.
    injection H as <- <-. by apply walk_spec_nil.
Qed.

Lemma resolve_block_spec statements ctx ctx' r r' :
  resolve_block statements ctx r = (inr ctx', r') ->
  walk_spec (block_decls statements) ctx ctx' r r'.
Proof. apply (resolve_stmt_spec (BlockStmt statements)). Qed.

Lemma declare_params_pairs_spec f (l : list (nat * Param)) r r' :
  for_each (fun pp : nat * Param =>
              let b := mkBinding (param_name (snd pp)) true (Z.of_nat (fst pp)) in
              let* _ := declare_local b in
              append_local f b) l r = (inr tt, r') ->
  _functions r' = alter (add_locals (map (fun pp : nat * Param =>
                           mkBinding (param_name (snd pp)) true (Z.of_nat (fst pp))) l))
                        f (_functions r)
  /\ _globals r' = _globals r.
Proof.
  revert r. induction l as [|pp l IH]; intros r H.
  - injection H as <-. by rewrite alter_add_locals_nil.
  - rewrite for_each_cons in H.
    apply bind_inr in H as ([] & r1 & H1 & H).
    apply bind_inr in H1 as (? & r2 & H2 & H1). ks_inv H2 Hf2 Hg2.
    apply append_local_spec in H1 as [Hf1 Hg1].
    apply IH in H as [Hf Hg]. split; [|congruence].
    rewrite Hf, Hf1, Hf2, alter_add_locals_app. done.
Qed.

Lemma declare_params_spec f ps r r' :
  declare_params f ps r = (inr tt, r') ->
  _functions r' = alter (add_locals (param_bindings ps)) f (_functions r)
  /\ _globals r' = _globals r.
Proof.
  unfold declare_params. intros H. apply declare_params_pairs_spec in H as [Hf Hg].
  split; [|done]. rewrite Hf. unfold param_bindings. by rewrite fmap_imap.
Qed.

Lemma set_max_locals_spec f v r r' :
  set_max_locals f v r = (inr tt, r') ->
  _functions r' = alter (with_max_locals v) f (_functions r) /\ _globals r' = _globals r.
Proof.
  unfold set_max_locals. intros H.
  apply bind_inr in H as (r1 & r2 & [-> ->]%get_inr & H).
  apply bind_inr in H as (s & r3 & [-> Hs]%deref_inr & H).
  injection H as <-. split; [|done].
  cbn [_functions]. rewrite list_insert_alter. apply list_alter_ext; [|done].
  intros x Hx. pose proof (eq_trans (eq_sym Hs) Hx) as [= <-]. done.
Qed.

Lemma fold_left_max_ge (l : list Z) (x : Z) : x <= fold_left Z.max l x.
Proof.
  revert x. induction l as [|y l IH]; intros x; simpl; [lia|].
  specialize (IH (Z.max x y)). lia.
Qed.

Lemma fold_left_max_seq (n : nat) (x : Z) (k : nat) :
  x < Z.of_nat k ->
  fold_left Z.max (map Z.of_nat (seq k n)) x
  = if decide (n = 0%nat) then x else Z.of_nat (k + n - 1).
Proof.
  revert x k. induction n as [|n IH]; intros x k Hx; [done|].
  simpl. rewrite (IH _ (S k)) by lia.
  destruct n; simpl; [lia|]. f_equal. lia.
Qed.

Lemma py_max_seq (n : nat) : py_max (map Z.of_nat (seq 0 n)) (-1) + 1 = Z.of_nat n.
Proof.
  destruct n as [|n]; [done|].
  change (py_max (map Z.of_nat (seq 0 (S n))) (-1))
    with (fold_left Z.max (map Z.of_nat (seq 1 n)) (Z.of_nat 0)).
  rewrite (fold_left_max_seq n (Z.of_nat 0) 1) by lia.
  destruct (decide (n = 0%nat)); lia.
Qed.

Lemma imap_seq_index {A} (g : A -> Z) (h : nat -> A -> A) (l : list A) (k : nat) :
  (forall i a, g (h i a) = Z.of_nat (k + i)) ->
  map g (imap h l) = map Z.of_nat (seq k (length l)).
Proof.
  revert k h. induction l as [|a l IH]; intros k h Hg; [done|].
  simpl. rewrite Hg, Nat.add_0_r. f_equal.
  apply (IH (S k)). intros i x. unfold compose. rewrite Hg. f_equal. lia.
Qed.

Lemma function_locals_indices d :
  map b_index (function_locals d)
  = map Z.of_nat (seq 0 (length (function_locals d))).
Proof.
  unfold function_locals, param_bindings, bindings_from.
  rewrite map_app, length_app, seq_app, map_app, !length_imap. f_equal.
  - induction (params d) as [|p ps IH] using rev_ind; [done|].
    rewrite imap_app, map_app, length_app, seq_app, map_app, IH. simpl.
    by rewrite Nat.add_0_r.
  - generalize (block_decls (fd_body d)). intros ds.
    induction ds as [|x ds IH] using rev_ind; [done|].
    rewrite imap_app, map_app, length_app, seq_app, map_app, IH. simpl.
    rewrite Nat.add_0_r. do 2 f_equal. unfold len. lia.
Qed.

Lemma resolve_function_walk_spec f function r r' :
  _functions r !! f = Some function ->
  locals function = [] ->
  resolve_function_walk f function r = (inr tt, r') ->
  _functions r'
  = <[f := mkFunctionSymbol (fs_name function) (fs_index function) (fs_arity function)
             (fs_decl function) (function_locals (fs_decl function))
             (len (function_locals (fs_decl function)))]> (_functions r)
  /\ _globals r' = _globals r.
Proof.
  intros Hf Hloc H. unfold resolve_function_walk in H.
  apply bind_inr in H as (r0 & r1 & [-> ->]%get_inr & H).
  apply bind_inr in H as (? & r2 & H2 & H). ks_inv H2 Hf2 Hg2.
  apply bind_inr in H as (? & r3 & H3 & H). ks_inv H3 Hf3 Hg3.
  apply bind_inr in H as ([] & r4 & H4 & H). apply declare_params_spec in H4 as [Hf4 Hg4].
  apply bind_inr in H as (c5 & r5 & H5 & H). apply resolve_block_spec in H5 as (Hf5 & Hg5 & _).
  apply bind_inr in H as (? & r6 & H6 & H). ks_inv H6 Hf6 Hg6.
  apply bind_inr in H as (function' & r7 & [-> Hs]%deref_inr & H).
  apply set_max_locals_spec in H as [Hf7 Hg7].
  split; [|congruence].
  assert (Hall : _functions r6
                 = alter (add_locals (function_locals (fs_decl function))) f (_functions r)).
  { rewrite Hf6, Hf5, Hf4, Hf3, Hf2. simpl. by rewrite alter_add_locals_app. }
  assert (Hfn' : function' = add_locals (function_locals (fs_decl function)) function).
  { pose proof Hs as Hs'. rewrite Hall in Hs'.
    rewrite list_lookup_alter_eq in Hs'.
    pose proof (eq_trans (eq_sym (f_equal (fmap _) Hf)) Hs') as [= <-]. done. }
  rewrite Hf7, Hall, list_alter_alter_eq, list_insert_alter.
  apply list_alter_ext; [|done]. intros y Hx.
  pose proof (eq_trans (eq_sym Hf) Hx) as [= <-].
  unfold compose. rewrite Hfn'. unfold with_max_locals, add_locals. simpl.
  rewrite Hloc. simpl. f_equal.
  rewrite function_locals_indices, py_max_seq. done.
Qed.

Lemma declare_global_spec d r r' :
  declare_global d r = (inr tt, r') ->
  _functions r' = _functions r
  /\ _globals r' = _globals r ++ [declared_global (length (_globals r)) d].
Proof.
  unfold declare_global. intros H.
  apply bind_inr in H as (r0 & r1 & [-> ->]%get_inr & H).
  destruct (_ || _); [done|].
  apply bind_inr in H as ([] & r2 & [= <-] & H).
  apply bind_inr in H as ([] & r3 & [= <-] & H).
  unfold record_binding in H.
  apply bind_inr in H as (r4 & r5 & [-> ->]%get_inr & H).
  injection H as <-. done.
Qed.

Lemma declare_function_spec d r r' :
  declare_function d r = (inr tt, r') ->
  _functions r' = _functions r ++ [declared_symbol (length (_functions r)) d]
  /\ _globals r' = _globals r.
Proof.
  unfold declare_function. intros H.
  apply bind_inr in H as (r0 & r1 & [-> ->]%get_inr & H).
  destruct (_ || _); [done|].
  apply bind_inr in H as ([] & r2 & [= <-] & H).
  injection H as <-. done.
Qed.

Lemma declare_top_level_from (decls : list Declaration) : forall r r',
  for_each (fun decl => match decl with
                        | DVar d => declare_global d
                        | DFun d => declare_function d
                        end) decls r = (inr tt, r') ->
  _functions r'
  = _functions r
    ++ imap (fun i d => declared_symbol (length (_functions r) + i) d)
            (function_decls (mkProgram decls))
  /\ _globals r'
     = _globals r
       ++ imap (fun i d => declared_global (length (_globals r) + i) d)
               (var_decls (mkProgram decls)).
Proof.
  unfold function_decls, var_decls. simpl.
  induction decls as [|[d|d] decls IH]; intros r r' H.
  - injection H as <-. simpl. by rewrite !app_nil_r.
  - rewrite for_each_cons in H. apply bind_inr in H as ([] & r1 & H1 & H).
    apply declare_global_spec in H1 as [Hf1 Hg1]. apply IH in H as [Hf Hg].
    rewrite Hf, Hg, Hf1, Hg1. simpl. split; [done|].
    rewrite <- app_assoc. simpl. rewrite Nat.add_0_r. do 2 f_equal.
    apply imap_ext. intros i x _. simpl. rewrite length_app. simpl. f_equal. lia.
  - rewrite for_each_cons in H. apply bind_inr in H as ([] & r1 & H1 & H).
    apply declare_function_spec in H1 as [Hf1 Hg1]. apply IH in H as [Hf Hg].
    rewrite Hf, Hg, Hf1, Hg1. simpl. split; [|done].
    rewrite <- app_assoc. simpl. rewrite Nat.add_0_r. do 2 f_equal.
    apply imap_ext. intros i x _. simpl. rewrite length_app. simpl. f_equal. lia.
Qed.

Lemma declare_top_level_spec p r' :
  declare_top_level p Resolver_init = (inr tt, r') ->
  _functions r' = imap declared_symbol (function_decls p)
  /\ _globals r' = imap declared_global (var_decls p).
Proof.
  intros H. destruct p as [decls]. by apply declare_top_level_from in H.
Qed.

Lemma resolve_function_spec f r r' function :
  _functions r !! f = Some function ->
  locals function = [] ->
  resolve_function f r = (inr tt, r') ->
  _functions r'
  = <[f := mkFunctionSymbol (fs_name function) (fs_index function) (fs_arity function)
             (fs_decl function) (function_locals (fs_decl function))
             (len (function_locals (fs_decl function)))]> (_functions r)
  /\ _globals r' = _globals r.
Proof.
  intros Hf Hloc H. unfold resolve_function in H.
  apply bind_inr in H as (fn & r1 & [-> Hs]%deref_inr & H).
  pose proof (eq_trans (eq_sym Hf) Hs) as [= <-].
  apply bind_inr in H as ([] & r2 & H2 & H).
  pose proof (resolve_function_walk_spec _ _ _ _ Hf Hloc H2) as Hw.
  destruct (negb _); [done|]. by injection H as <-.
Qed.

Lemma resolve_functions_loop fds (k : nat) : forall r r' g,
  (k <= length fds)%nat ->
  _functions r = partly_resolved 0 fds -> _globals r = g ->
  for_each resolve_function (seq 0 k) r = (inr tt, r') ->
  _functions r' = partly_resolved k fds /\ _globals r' = g.
Proof.
  induction k as [|k IH]; intros r r' g Hk Hf Hg H.
  - by injection H as <-.
  - rewrite seq_S, for_each_app in H. change (0 + k)%nat with k in H.
    apply bind_inr in H as ([] & r1 & H1 & H).
    apply (IH _ _ g) in H1 as [Hf1 Hg1]; [|lia|done|done].
    rewrite for_each_cons in H. apply bind_inr in H as ([] & r2 & H2 & H).
    injection H as <-.
    destruct (lookup_lt_is_Some_2 fds k ltac:(lia)) as [d Hd].
    assert (Hk1 : _functions r1 !! k = Some (declared_symbol k d)).
    { rewrite Hf1. unfold partly_resolved. rewrite list_lookup_imap, Hd. simpl.
      destruct (decide (k < k)%nat); [lia|done]. }
    destruct (resolve_function_spec _ _ _ _ Hk1 eq_refl H2) as [Hf2 Hg2].
    split; [|congruence]. rewrite Hf2, Hf1. simpl.
    apply list_eq. intros i. unfold partly_resolved.
    destruct (decide (i = k)) as [->|Hne].
    + rewrite list_lookup_insert_eq by (rewrite length_imap; lia).
      rewrite list_lookup_imap, Hd. simpl.
      destruct (decide (k < S k)%nat); [done|lia].
    + rewrite list_lookup_insert_ne by done.
      rewrite !list_lookup_imap. destruct (fds !! i); [|done]. simpl.
      destruct (decide (i < k)%nat), (decide (i < S k)%nat); try done; lia.
Qed.

(** The result of a successful resolution, in closed form. *)
Lemma resolve_spec p rp :
  resolve p = inr rp ->
  rp_functions rp = imap resolved_symbol (function_decls p)
  /\ rp_globals rp = imap declared_global (var_decls p).
Proof.
  unfold resolve. destruct (resolve_m p Resolver_init) as [res rfin] eqn:H.
  simpl. intros ->. unfold resolve_m in H.
  apply bind_inr in H as ([] & r1 & H1 & H). apply declare_top_level_spec in H1 as [Hf1 Hg1].
  apply bind_inr in H as (r1' & r2 & [-> ->]%get_inr & H).
  apply bind_inr in H as ([] & r3 & [= <-] & H).
  apply bind_inr in H as ([] & r4 & H4 & H).
  assert (K : keeps_symbols
                (for_each (fun g => resolve_expr (initializer (gv_decl g)) None) (_globals r1))).
  { apply ks_for_each, Forall_forall. intros; ks. }
  apply (keeps_symbols_inr _ _ _ _ K) in H4 as [Hf4 Hg4]. simpl in Hf4, Hg4.
  apply bind_inr in H as ([] & r5 & H5 & H).
  apply bind_inr in H as (r5' & r6 & [-> ->]%get_inr & H).
  injection H as <-. simpl.
  apply (resolve_functions_loop (function_decls p) _ _ _ (imap declared_global (var_decls p)))
    in H5 as [Hf5 Hg5].
  - split; [|done]. rewrite Hf5, Hf1, length_imap. unfold partly_resolved.
    apply imap_ext. intros i d Hi. apply lookup_lt_Some in Hi.
    destruct (decide _); [done|lia].
  - rewrite Hf1, length_imap. lia.
  - rewrite Hf4, Hf1. unfold partly_resolved. apply imap_ext. intros i d _.
    destruct (decide _); [lia|done].
  - congruence.
Qed.

Lemma function_locals_names d :
  map b_name (function_locals d)
  = map param_name (params d) ++ map vd_name (block_decls (fd_body d)).
Proof.
  unfold function_locals, param_bindings, bindings_from. rewrite map_app. f_equal.
  - generalize (params d). intros ps. induction ps as [|pa ps IH] using rev_ind; [done|].
    by rewrite imap_app, !map_app, IH.
  - generalize (block_decls (fd_body d)). intros ds.
    induction ds as [|x ds IH] using rev_ind; [done|].
    by rewrite imap_app, !map_app, IH.
Qed.

Lemma function_locals_length d :
  len (function_locals d) = len (params d) + len (block_decls (fd_body d)).
Proof.
  unfold function_locals, param_bindings, bindings_from, len.
  rewrite length_app, !length_imap. lia.
Qed.

Lemma indices_of_positions (l : list Binding) :
  map b_index l = map Z.of_nat (seq 0 (length l)) ->
  (forall j b, l !! j = Some b -> b_index b = Z.of_nat j)
  /\ NoDup (map b_index l).
Proof.
  intros H. split.
  - intros j b Hb.
    assert (Hj : map b_index l !! j = Some (b_index b)) by (by rewrite list_lookup_fmap, Hb).
    rewrite H, list_lookup_fmap in Hj.
    apply lookup_lt_Some in Hb.
    rewrite lookup_seq_lt in Hj by done. simpl in Hj. by injection Hj as <-.
  - rewrite H. apply NoDup_fmap; [intros ? ?; lia | apply NoDup_seq].
Qed.

(** C7: after a successful resolution the globals are the top-level
    variable declarations in source order and the [i]-th has slot
    [i]; each function symbol belongs to the function declaration at
    its position, its locals are its parameters followed by the
    declarations of its body in source order (nested and sibling
    blocks included), the local at position [j] has slot [j], so the
    parameters have the slots below the arity, no slot is used twice,
    and [max_locals] is the number of locals: one more than the
    largest slot, and the arity plus the number of declarations in
    the body. *)
Theorem slot_indices_dense (p : Program) (rp : ResolvedProgram) :
  resolve p = inr rp ->
  map gv_decl (rp_globals rp) = var_decls p
  /\ (forall i g, rp_globals rp !! i = Some g -> b_index (binding g) = Z.of_nat i)
  /\ forall i f, rp_functions rp !! i = Some f ->
       function_decls p !! i = Some (fs_decl f)
       /\ fs_arity f = len (params (fs_decl f))
       /\ map b_name (locals f)
          = map param_name (params (fs_decl f))
            ++ map vd_name (block_decls (fd_body (fs_decl f)))
       /\ (forall j b, locals f !! j = Some b -> b_index b = Z.of_nat j)
       /\ NoDup (map b_index (locals f))
       /\ max_locals f = len (locals f)
       /\ max_locals f = py_max (map b_index (locals f)) (-1) + 1
       /\ max_locals f = fs_arity f + len (block_decls (fd_body (fs_decl f))).
Proof.
  intros [Hf Hg]%resolve_spec. rewrite Hf, Hg. split; [|split].
  - generalize (var_decls p). intros ds. induction ds as [|x ds IH] using rev_ind; [done|].
    by rewrite imap_app, !map_app, IH.
  - intros i g Hi. rewrite list_lookup_imap in Hi.
    destruct (var_decls p !! i); [|done]. by injection Hi as <-.
  - intros i f Hi. rewrite list_lookup_imap in Hi.
    destruct (function_decls p !! i) as [d|]; [|done]. injection Hi as <-. simpl.
    pose proof (function_locals_indices d) as Hidx.
    destruct (indices_of_positions _ Hidx) as [Hpos Hnd].
    repeat split; try done.
    + apply function_locals_names.
    + rewrite Hidx, py_max_seq. done.
    + apply function_locals_length.
Qed.

(** The slots of the program with one global and one local. *)
Lemma slot_indices_dense_witness :
  let rp := from_inr (mkResolvedProgram prog_loop [] [] ∅ ∅) (resolve prog_loop) in
  resolve prog_loop = inr rp
  /\ map gv_decl (rp_globals rp) = var_decls prog_loop
  /\ (forall i g, rp_globals rp !! i = Some g -> b_index (binding g) = Z.of_nat i)
  /\ forall i f, rp_functions rp !! i = Some f ->
       function_decls prog_loop !! i = Some (fs_decl f)
       /\ fs_arity f = len (params (fs_decl f))
       /\ map b_name (locals f)
          = map param_name (params (fs_decl f))
            ++ map vd_name (block_decls (fd_body (fs_decl f)))
       /\ (forall j b, locals f !! j = Some b -> b_index b = Z.of_nat j)
       /\ NoDup (map b_index (locals f))
       /\ max_locals f = len (locals f)
       /\ max_locals f = py_max (map b_index (locals f)) (-1) + 1
       /\ max_locals f = fs_arity f + len (block_decls (fd_body (fs_decl f))).
Proof.
  intros rp.
  assert (H : resolve prog_loop = inr rp) by (vm_compute; reflexivity).
  split; [exact H | exact (slot_indices_dense prog_loop rp H)].
Defined.

(** ** Compiled chunks: the line array runs parallel to the bytes *)

Section KeepsParallel.
Lemma kp_ret {A} (a : A) : keeps_parallel (ret a).
  Proof. by intros c Hc. Qed.
Lemma kp_raise {A} e : keeps_parallel (@raise Chunk A e).
  Proof. by intros c Hc. Qed.
Lemma kp_bind {A B} (m : compM A) (k : A -> compM B) :
    keeps_parallel m -> (forall a, keeps_parallel (k a)) -> keeps_parallel (bind m k).
  Proof.
    intros Hm Hk c Hc. unfold bind. specialize (Hm c Hc).
    destruct (m c) as [[e|a] c1]; simpl in *; [done|]. by apply Hk.
  Qed.
Lemma kp_for_each {A} (f : A -> compM unit) (l : list A) :
    Forall (fun a => keeps_parallel (f a)) l -> keeps_parallel (for_each f l).
  Proof.
    induction 1 as [|a l Ha _ IH]; [apply kp_ret|].
    rewrite for_each_cons. by apply kp_bind.
  Qed.

Lemma write_parallel c b line : chunk_parallel c -> chunk_parallel (write c b line).
  Proof. unfold chunk_parallel, write. simpl. rewrite !length_app. simpl. lia. Qed.

Lemma kp_current_offset : keeps_parallel current_offset.
  Proof. by intros c Hc. Qed.
Lemma kp_emit_byte b line : keeps_parallel (emit_byte b line).
  Proof. intros c Hc. by apply write_parallel. Qed.
Lemma kp_emit o line : keeps_parallel (emit o line).
  Proof. apply kp_emit_byte. Qed.
Lemma kp_emit_u16 v line : keeps_parallel (emit_u16 v line).
  Proof. intros c Hc. by do 2 apply write_parallel. Qed.

Lemma py_set_length {A} (l l' : list A) i x : py_set l i x = inr l' -> length l' = length l.
  Proof.
    unfold py_set. destruct (py_pos l i); [|done]. intros [= <-]. apply length_insert.
  Qed.

Lemma kp_patch_jump offset : keeps_parallel (patch_jump offset).
  Proof.
    intros c Hc. unfold patch_jump, bind, get, lift, patch_u16, put.
    destruct (py_set (code c) offset _) as [e|c1] eqn:H1; [done|].
    destruct (py_set c1 (offset + 1) _) as [e|c2] eqn:H2; [done|].
    simpl. unfold chunk_parallel in *. simpl.
    apply py_set_length in H1, H2. congruence.
  Qed.

Lemma kp_binding_for_node rp nid : keeps_parallel (binding_for_node rp nid).
  Proof. intros c Hc. unfold binding_for_node. by destruct (_ !! _). Qed.
End KeepsParallel.

Create HintDb parallel discriminated.
#[export] Hint Resolve kp_current_offset kp_emit_byte kp_emit kp_emit_u16 kp_patch_jump
  kp_binding_for_node : parallel.

Ltac kp_step :=
  first [ solve [auto 1 with parallel nocore]
        | apply kp_bind; [|intros ?]
        | apply kp_ret | apply kp_raise ].
Ltac kp := repeat kp_step.

Lemma kp_emit_load_local i line : keeps_parallel (emit_load_local i line).
Proof. unfold emit_load_local. kp. Qed.
Lemma kp_emit_store_local i line : keeps_parallel (emit_store_local i line).
Proof. unfold emit_store_local. kp. Qed.
Lemma kp_emit_load_global i line : keeps_parallel (emit_load_global i line).
Proof. unfold emit_load_global. kp. Qed.
Lemma kp_emit_store_global i line : keeps_parallel (emit_store_global i line).
Proof. unfold emit_store_global. kp. Qed.
Lemma kp_emit_call i n line : keeps_parallel (emit_call i n line).
Proof. unfold emit_call. kp. Qed.
Lemma kp_emit_jump o line : keeps_parallel (emit_jump o line).
Proof. unfold emit_jump. kp. Qed.
Lemma kp_emit_loop s line : keeps_parallel (emit_loop s line).
Proof. unfold emit_loop. kp. Qed.
#[export] Hint Resolve kp_emit_load_local kp_emit_store_local kp_emit_load_global
  kp_emit_store_global kp_emit_call kp_emit_jump kp_emit_loop : parallel.

Lemma kp_compile_expr rp e : keeps_parallel (compile_expr rp e).
Proof.
  induction e as [line v|nid line n|nid line n v IH|line l op r IHl IHr|nid line c args IH]
    using Expr_nested_ind; simpl.
  - intros c Hc. unfold bind, get, put. simpl.
    do 3 apply write_parallel. exact Hc.
  - kp. destruct a as [b|b]; kp.
  - kp. destruct a as [b|b]; kp.
  - kp. destruct (op_map op); kp.
  - destruct (call_targets rp !! nid); kp.
    destruct (rp_functions rp !! _); kp. by apply kp_for_each.
Qed.
#[export] Hint Resolve kp_compile_expr : parallel.

Lemma kp_compile_stmt rp s : keeps_parallel (compile_stmt rp s).
Proof.
  induction s as [d|statements IH|line expr|line expr|line c t e IHt IHe|line c b IHb|line v]
    using Stmt_nested_ind; simpl.
  - unfold compile_var_decl. kp. destruct a as [b|b]; kp.
  - by apply kp_for_each.
  - kp.
  - kp.
  - kp. destruct e as [e|]; kp. by apply IHe.
  - kp.
  - kp.
Qed.
#[export] Hint Resolve kp_compile_stmt : parallel.

Lemma kp_compile_block rp ss : keeps_parallel (compile_block rp ss).
Proof. apply kp_for_each, Forall_forall. intros; kp. Qed.

Lemma kp_compile_entry_body rp : keeps_parallel (compile_entry_body rp).
Proof.
  unfold compile_entry_body. kp.
  - apply kp_for_each, Forall_forall. intros; kp.
  - destruct (find _ _); kp.
Qed.

Lemma build_chunk_parallel m c :
  keeps_parallel m -> build_chunk m = inr c -> chunk_parallel c.
Proof.
  intros Hm. unfold build_chunk. specialize (Hm empty_chunk eq_refl).
  destruct (m empty_chunk) as [[e|[]] c']; [done|]. by intros [= <-].
Qed.

Lemma compile_function_parallel rp s f :
  compile_function rp s = inr f -> chunk_parallel (chunk f).
Proof.
  unfold compile_function.
  destruct (build_chunk _) as [e|c] eqn:H; [done|]. intros [= <-]. simpl.
  eapply build_chunk_parallel; [apply kp_compile_block | exact H].
Qed.

Lemma compile_entry_function_parallel rp f :
  compile_entry_function rp = inr f -> chunk_parallel (chunk f).
Proof.
  unfold compile_entry_function.
  destruct (build_chunk _) as [e|c] eqn:H; [done|]. intros [= <-]. simpl.
  eapply build_chunk_parallel; [apply kp_compile_entry_body | exact H].
Qed.

Lemma compile_functions_parallel rp (l : list FunctionSymbol) : forall fns fns',
  Forall (fun o => forall f, o = Some f -> chunk_parallel (chunk f)) fns ->
  for_each (fun symbol =>
              let* compiled := lift (compile_function rp symbol) in
              let* fns := get in
              let* fns' := lift (py_set fns (fs_index symbol) (Some compiled)) in
              put fns') l fns = (inr tt, fns') ->
  Forall (fun o => forall f, o = Some f -> chunk_parallel (chunk f)) fns'.
Proof.
  induction l as [|s l IH]; intros fns fns' Hall H.
  - by injection H as <-.
  - rewrite for_each_cons in H. apply bind_inr in H as ([] & fns1 & H1 & H).
    apply (IH _ _) in H; [done|]. clear IH H.
    apply bind_inr in H1 as (compiled & s1 & Hc & H1).
    unfold lift in Hc. injection Hc as Hc <-.
    apply bind_inr in H1 as (? & s2 & [-> ->]%get_inr & H1).
    apply bind_inr in H1 as (fns2 & s3 & Hs & H1).
    unfold lift in Hs. injection Hs as Hs <-. injection H1 as <-.
    unfold py_set in Hs. destruct (py_pos fns _); [|done]. injection Hs as <-.
    apply Forall_insert; [done|]. intros f [= <-].
    by eapply compile_function_parallel.
Qed.

Lemma compile_parallel rp bp :
  compile rp = inr bp -> Forall (fun f => chunk_parallel (chunk f)) (functions bp).
Proof.
  unfold compile.
  destruct (compile_functions rp _) as [[e|[]] fns] eqn:Hfns; [done|].
  destruct (compile_entry_function rp) as [e|entry] eqn:He; [done|].
  intros [= <-]. simpl.
  apply compile_functions_parallel in Hfns.
  - apply Forall_app. split.
    + rewrite Forall_forall in Hfns. apply Forall_forall. intros f Hf.
      apply list_elem_of_omap in Hf as (o & Ho & Hid). simpl in Hid. subst o.
      by apply (Hfns _ Ho).
    + apply Forall_singleton. by eapply compile_entry_function_parallel.
  - apply Forall_forall. intros o Ho f ->. by apply elem_of_replicate in Ho as [? _].
Qed.

(** ** The disassembler *)

Lemma dis_read_u16_inr c off v off' :
  dis_read_u16 c off = inr (v, off') -> off' = off + 2.
Proof.
  unfold dis_read_u16. destruct (py_get _ off); [done|].
  destruct (py_get _ (off + 1)); [done|]. by intros [= _ <-].
Qed.

Lemma OpCode_of_inr byte o : OpCode_of byte = inr o -> byte = OpCode_value o.
Proof.
  unfold OpCode_of. destruct byte as [|q|q]; [by intros [= <-]| |done].
  repeat (destruct q as [q|q|]; try done; try by intros [= <-]).
Qed.

(** One iteration of the loop of the disassembler: the text it appends
    reports the instruction at the offset it started from, and the new
    offset is the one after the operand bytes of that instruction. *)
Lemma disassemble_instr_spec c p off text off' :
  disassemble_instr c p off = inr (text, off') ->
  reports_line_at c off text
  /\ exists o, py_get (code c) off = inr (OpCode_value o)
               /\ off' = off + 1 + Z.of_nat (operand_bytes o).
Proof.
  unfold disassemble_instr, reports_line_at.
  destruct (py_get (lines c) off) as [|line]; [done|].
  destruct (py_get (code c) off) as [|byte]; [done|].
  destruct (OpCode_of byte) as [|o] eqn:Ho; [done|].
  apply OpCode_of_inr in Ho as ->.
  assert (Hclose : forall tail k,
    off' = off + 1 + Z.of_nat (operand_bytes o) ->
    text = (line_prefix (off' - k) line +:+ OpCode_name o +:+ tail)%string ->
    k = 1 + Z.of_nat (operand_bytes o) ->
    (exists line0 o0 tail0,
        inr line = inr (B := Z) (A := exn) line0
        /\ inr (OpCode_value o) = inr (B := Z) (A := exn) (OpCode_value o0)
        /\ text = (line_prefix off line0 +:+ OpCode_name o0 +:+ tail0)%string)
    /\ exists o0, inr (OpCode_value o) = inr (B := Z) (A := exn) (OpCode_value o0)
                  /\ off' = off + 1 + Z.of_nat (operand_bytes o0)).
  { intros tail k Ho' -> ->. split.
    - exists line, o, tail. split; [done|]. split; [done|].
      by replace (off' - (1 + Z.of_nat (operand_bytes o))) with off by lia.
    - by exists o. }
  destruct o;
    try (intros [= <- <-]; by eapply (Hclose EmptyString 1); [cbn; lia| |]);
    destruct (dis_read_u16 c (off + 1)) as [|[v o2]] eqn:Hr; try done;
    apply dis_read_u16_inr in Hr; subst o2; cbn [fst snd].
  - destruct (py_get (constants c) v); [done|].
    intros [= <- <-]. by eapply (Hclose _ 3); [cbn; lia| |].
  - intros [= <- <-]. by eapply (Hclose _ 3); [cbn; lia| |].
  - intros [= <- <-]. by eapply (Hclose _ 3); [cbn; lia| |].
  - intros [= <- <-]. by eapply (Hclose _ 3); [cbn; lia| |].
  - intros [= <- <-]. by eapply (Hclose _ 3); [cbn; lia| |].
  - intros [= <- <-]. by eapply (Hclose _ 3); [cbn; lia| |].
  - intros [= <- <-]. by eapply (Hclose _ 3); [cbn; lia| |].
  - destruct (py_get (code c) (off + 1 + 2)); [done|].
    destruct (_ && _).
    + destruct (py_get (functions p) v); [done|].
      intros [= <- <-]. by eapply (Hclose _ 4); [cbn; lia| |].
    + intros [= <- <-]. by eapply (Hclose _ 4); [cbn; lia| |].
Qed.

(** The loop lists one text for each instruction from [off] on, in
    order. *)
Lemma disassemble_loop_lists c p fuel : forall off acc texts,
  disassemble_loop fuel c p off acc = Some (inr texts) ->
  exists new,
    texts = acc ++ new
    /\ Forall2 (reports_line_at c) (opcode_offsets fuel (code c) off) new.
Proof.
  induction fuel as [|fuel IH]; intros off acc texts H; simpl in *.
  - destruct (Z.leb_spec (len (code c)) off); [|done].
    injection H as <-. exists []. by rewrite app_nil_r.
  - destruct (Z.leb_spec (len (code c)) off).
    { injection H as <-. exists []. by rewrite app_nil_r. }
    destruct (disassemble_instr c p off) as [e|[text off']] eqn:Hi; [done|].
    apply disassemble_instr_spec in Hi as (Hr & o & Hb & ->).
    rewrite Hb. cbn. rewrite OpCode_of_value.
    apply IH in H as (new & -> & Hnew).
    exists (text :: new). split; [by rewrite <- app_assoc|].
    by constructor.
Qed.

(** The iterations handed to the loop by [disassemble_function]
    suffice. *)
Lemma disassemble_loop_total c p fuel : forall off acc,
  0 <= off -> len (code c) - off <= Z.of_nat fuel ->
  disassemble_loop fuel c p off acc <> None.
Proof.
  induction fuel as [|fuel IH]; intros off acc Hoff Hfuel; simpl.
  - destruct (Z.leb_spec (len (code c)) off); [done|lia].
  - destruct (Z.leb_spec (len (code c)) off); [done|].
    destruct (disassemble_instr c p off) as [e|[text off']] eqn:Hi; [done|].
    apply disassemble_instr_spec in Hi as (_ & o & _ & ->).
    apply IH; lia.
Qed.

Lemma disassemble_function_lists f p texts :
  disassemble_function f p = inr texts ->
  Forall2 (reports_line_at (chunk f)) (instruction_offsets (chunk f)) texts.
Proof.
  unfold disassemble_function, instruction_offsets.
  destruct (disassemble_loop _ _ _ _ _) as [r|] eqn:H.
  - intros ->. by apply disassemble_loop_lists in H as (new & -> & H).
  - by apply disassemble_loop_total in H; [|done|unfold len; lia].
Qed.

(** C6 (as the code has it): in every chunk of a compiled program the
    line array has the length of the code array, one entry for each
    byte, operand bytes included; and the listing of a function has
    one line for each instruction of the chunk, in order, which shows
    the byte offset of the opcode of that instruction, the entry of
    the line array at that offset, and the name of the opcode. *)
Theorem line_table_parallel_to_bytes (rp : ResolvedProgram) (bp : BytecodeProgram)
    (f : BytecodeFunction) :
  compile rp = inr bp ->
  f ∈ functions bp ->
  length (lines (chunk f)) = length (code (chunk f))
  /\ forall texts, disassemble_function f bp = inr texts ->
       Forall2 (reports_line_at (chunk f)) (instruction_offsets (chunk f)) texts.
Proof.
  intros Hc Hf. split.
  - apply compile_parallel in Hc. rewrite Forall_forall in Hc. by apply Hc.
  - intros texts. apply disassemble_function_lists.
Qed.

(** The chunk of [main] in the program with one global and one local,
    and its listing. *)
Lemma line_table_parallel_to_bytes_witness :
  let rp := from_inr (mkResolvedProgram prog_loop [] [] ∅ ∅) (resolve prog_loop) in
  let bp := from_inr (mkBytecodeProgram [] [] 0) (compile rp) in
  let f := from_inr (mkBytecodeFunction "" empty_chunk 0 0) (py_get (functions bp) 0) in
  compile rp = inr bp
  /\ f ∈ functions bp
  /\ length (lines (chunk f)) = length (code (chunk f))
  /\ exists texts,
       disassemble_function f bp = inr texts
       /\ Forall2 (reports_line_at (chunk f)) (instruction_offsets (chunk f)) texts.
Proof.
  intros rp bp f.
  assert (Hc : compile rp = inr bp) by (vm_compute; reflexivity).
  assert (Hf : f ∈ functions bp) by (vm_compute; apply list_elem_of_here).
  split; [exact Hc|]. split; [exact Hf|].
  destruct (line_table_parallel_to_bytes rp bp f Hc Hf) as [Hlen Hlist].
  split; [exact Hlen|].
  destruct (disassemble_function f bp) as [e|texts] eqn:Hd; [by vm_compute in Hd|].
  exists texts. split; [reflexivity|]. by apply Hlist.
Defined.

(** C6, as stated, fails: the chunk compiled for [main] in
    [fn main() { return 0; }] has four line entries (one per byte),
    and two instructions. *)
Lemma line_table_not_per_instruction :
  exists bp f texts,
    compile_program prog_return = inr bp
    /\ f ∈ functions bp
    /\ disassemble_function f bp = inr texts
    /\ length texts = 2%nat
    /\ length (lines (chunk f)) = 4%nat
    /\ length (lines (chunk f)) <> length texts.
Proof.
  eexists _, _, _. split; [vm_compute; reflexivity|].
  split; [apply list_elem_of_here|].
  split; [vm_compute; reflexivity|].
  split; [reflexivity|]. split; [reflexivity|]. simpl. lia.
Qed.

(** ** Assignment is an expression *)

Lemma emit_store_load_local idx line c :
  (let* _ := emit_store_local idx line in emit_load_local idx line) c
  = (inr tt, emitted c [2; hi_byte idx; lo_byte idx; 1; hi_byte idx; lo_byte idx] line).
Proof.
  destruct c as [co li cs]. unfold emitted. cbn. unfold put, write_u16, write. cbn [code lines constants].
  rewrite <- !app_assoc. reflexivity.
Qed.

Lemma emit_store_load_global idx line c :
  (let* _ := emit_store_global idx line in emit_load_global idx line) c
  = (inr tt, emitted c [4; hi_byte idx; lo_byte idx; 3; hi_byte idx; lo_byte idx] line).
Proof.
  destruct c as [co li cs]. unfold emitted. cbn. unfold put, write_u16, write. cbn [code lines constants].
  rewrite <- !app_assoc. reflexivity.
Qed.

Lemma compile_assign_local rp nid line vname value b c c1 :
  var_bindings rp !! nid = Some (LocalBinding b) ->
  compile_expr rp value c = (inr tt, c1) ->
  compile_expr rp (AssignExpr nid line vname value) c
  = (inr tt, emitted c1 [2; hi_byte (b_index b); lo_byte (b_index b);
                         1; hi_byte (b_index b); lo_byte (b_index b)] line).
Proof.
  intros Hb Hv. cbn [compile_expr]. unfold bind at 1, binding_for_node. rewrite Hb.
  unfold ret at 1. unfold bind at 1. rewrite Hv. apply emit_store_load_local.
Qed.

Lemma compile_assign_global rp nid line vname value b c c1 :
  var_bindings rp !! nid = Some (GlobalBinding b) ->
  compile_expr rp value c = (inr tt, c1) ->
  compile_expr rp (AssignExpr nid line vname value) c
  = (inr tt, emitted c1 [4; hi_byte (b_index b); lo_byte (b_index b);
                         3; hi_byte (b_index b); lo_byte (b_index b)] line).
Proof.
  intros Hb Hv. cbn [compile_expr]. unfold bind at 1, binding_for_node. rewrite Hb.
  unfold ret at 1. unfold bind at 1. rewrite Hv. apply emit_store_load_global.
Qed.

(** C8: the code compiled for an assignment is the code of its value
    followed by a store to the slot of the resolved binding and a load
    of the same slot; executed with the value [v] on top of the stack,
    the two instructions write [v] to the slot and leave [v] on top of
    the stack; and the program
    [fn main() { var x = 0; print (x = 5); return 0; }] prints 5. *)
Theorem assignment_stores_then_loads (rp : ResolvedProgram) (nid : N) (line : Z)
    (vname : string) (value : Expr) (b : Binding) (c c1 : Chunk) :
  compile_expr rp value c = (inr tt, c1) ->
  let hi := hi_byte (b_index b) in
  let lo := lo_byte (b_index b) in
  (var_bindings rp !! nid = Some (LocalBinding b) ->
   compile_expr rp (AssignExpr nid line vname value) c
   = (inr tt, emitted c1 [OpCode_value STORE_LOCAL; hi; lo;
                          OpCode_value LOAD_LOCAL; hi; lo] line))
  /\ (var_bindings rp !! nid = Some (GlobalBinding b) ->
      compile_expr rp (AssignExpr nid line vname value) c
      = (inr tt, emitted c1 [OpCode_value STORE_GLOBAL; hi; lo;
                             OpCode_value LOAD_GLOBAL; hi; lo] line))
  /\ (forall (vm : VM) (s : list Z) (v : Z),
        at_code vm [OpCode_value STORE_LOCAL; hi; lo; OpCode_value LOAD_LOCAL; hi; lo] = true ->
        stack vm = s ++ [v] ->
        0 <= cur_base vm + u16 hi lo < len s ->
        two_steps vm
        = (inr tt, with_stack (advance vm 6)
                     (<[Z.to_nat (cur_base vm + u16 hi lo) := v]> s ++ [v])))
  /\ (forall (vm : VM) (s : list Z) (v : Z),
        at_code vm [OpCode_value STORE_GLOBAL; hi; lo; OpCode_value LOAD_GLOBAL; hi; lo] = true ->
        stack vm = s ++ [v] ->
        0 <= u16 hi lo < len (vm_globals vm) ->
        two_steps vm
        = (inr tt, with_globals (with_stack (advance vm 6) (s ++ [v]))
                     (<[Z.to_nat (u16 hi lo) := v]> (vm_globals vm))))
  /\ exists bp, compile_program prog_print_assign = inr bp
                /\ forall fuel, fst (run_program (20 + fuel) bp) = Returned ["5"%string].
Proof.
  intros Hv hi lo. split; [|split; [|split; [|split]]].
  - intros Hb. by apply compile_assign_local.
  - intros Hb. by apply compile_assign_global.
  - intros vm s v. apply store_load_local_steps.
  - intros vm s v. apply store_load_global_steps.
  - eexists. split; [vm_compute; reflexivity|]. intros fuel. vm_compute. reflexivity.
Qed.

(** The code of [x = 5] for a local [x] in slot 0. *)
Lemma assignment_stores_then_loads_witness :
  let rp := mkResolvedProgram prog_print_assign [] []
              {[ 2%N := LocalBinding (mkBinding "x" true 0) ]} ∅ in
  let c1 := mkChunk [0; 0; 0] [1; 1; 1] [5] in
  compile_expr rp (IntLiteral 1 5) empty_chunk = (inr tt, c1)
  /\ compile_expr rp (AssignExpr 2 1 "x" (IntLiteral 1 5)) empty_chunk
     = (inr tt, emitted c1 [2; 0; 0; 1; 0; 0] 1).
Proof.
  intros rp c1.
  assert (H : compile_expr rp (IntLiteral 1 5) empty_chunk = (inr tt, c1)) by reflexivity.
  split; [exact H|].
  destruct (assignment_stores_then_loads rp 2%N 1 "x" (IntLiteral 1 5)
              (mkBinding "x" true 0) empty_chunk c1 H) as [Hl _].
  apply Hl. reflexivity.
Defined.

(** ** The entry function *)

Lemma u16_round_trip (v : Z) : 0 <= v < 65536 -> u16 (hi_byte v) (lo_byte v) = v.
Proof.
  intros Hv. unfold u16, hi_byte, lo_byte.
  change 255 with (Z.ones 8). rewrite !Z.land_ones by lia.
  rewrite Z.shiftr_div_pow2, Z.shiftl_mul_pow2 by lia.
  change (2 ^ 8) with 256.
  rewrite (Z.mod_small (v / 256) 256) by (split; [apply Z.div_pos; lia | apply Z.div_lt_upper_bound; lia]).
  rewrite <- Z.add_nocarry_lor.
  - pose proof (Z.div_mod v 256 ltac:(lia)). lia.
  - apply Z.bits_inj'. intros n Hn. rewrite Z.land_spec, Z.bits_0.
    destruct (Z.ltb_spec n 8).
    + change (v / 256 * 256) with (v / 256 * 2 ^ 8).
      rewrite Z.mul_pow2_bits_low by lia. done.
    + change (v mod 256) with (v mod 2 ^ 8).
      rewrite Z.mod_pow2_bits_high by lia. apply andb_false_r.
Qed.

Lemma compile_functions_from rp (todo : list FunctionSymbol) : forall cs fns',
  (forall j s, todo !! j = Some s -> fs_index s = Z.of_nat (length cs + j)) ->
  for_each (compile_one rp) todo (map Some cs ++ replicate (length todo) None)
  = (inr tt, fns') ->
  exists cs', fns' = map Some (cs ++ cs')
              /\ Forall2 (fun s f => compile_function rp s = inr f) todo cs'.
Proof.
  induction todo as [|s todo IH]; intros cs fns' Hidx H.
  - injection H as <-. exists []. simpl. by rewrite !app_nil_r.
  - rewrite for_each_cons in H. apply bind_inr in H as ([] & fns1 & H1 & H).
    unfold compile_one in H1.
    apply bind_inr in H1 as (f & s1 & Hc & H1). unfold lift in Hc. injection Hc as Hc <-.
    apply bind_inr in H1 as (? & s2 & [-> ->]%get_inr & H1).
    apply bind_inr in H1 as (fns2 & s3 & Hs & H1).
    unfold lift in Hs. injection Hs as Hs <-. injection H1 as <-.
    rewrite (Hidx 0%nat s eq_refl), Nat.add_0_r in Hs.
    rewrite py_set_nonneg in Hs
      by (rewrite len_app; unfold len; rewrite length_map; simpl length; lia).
    injection Hs as <-. rewrite Nat2Z.id in H.
    rewrite insert_app_r_alt in H by (rewrite length_map; lia).
    rewrite length_map, Nat.sub_diag in H. simpl in H.
    replace (map Some cs ++ Some f :: replicate (length todo) None)
      with (map Some (cs ++ [f]) ++ replicate (length todo) None) in H
      by (by rewrite map_app, <- app_assoc).
    apply IH in H as (cs' & -> & Hall).
    + exists (f :: cs'). split; [by rewrite <- app_assoc|]. by constructor.
    + intros j s' Hj. rewrite (Hidx (S j) s' Hj), length_app. simpl. f_equal. lia.
Qed.

Lemma omap_id_Some {A} (l : list A) : omap id (map Some l) = l.
Proof. induction l as [|x l IH]; [done|]. cbn. f_equal. exact IH. Qed.

(** The compiled program in closed form: the functions in the order
    of their symbols, then the entry function. *)
Lemma compile_spec rp bp :
  (forall j s, rp_functions rp !! j = Some s -> fs_index s = Z.of_nat j) ->
  compile rp = inr bp ->
  exists cs entry,
    Forall2 (fun s f => compile_function rp s = inr f) (rp_functions rp) cs
    /\ compile_entry_function rp = inr entry
    /\ bp = mkBytecodeProgram (cs ++ [entry]) (map (fun _ => 0) (rp_globals rp)) (len cs).
Proof.
  intros Hidx. unfold compile, compile_functions.
  destruct (for_each _ _ _) as [[e|[]] fns] eqn:Hfns; [done|].
  destruct (compile_entry_function rp) as [e|entry] eqn:He; [done|].
  intros [= <-].
  apply (compile_functions_from rp (rp_functions rp) []) in Hfns as (cs & -> & Hall); [|done].
  exists cs, entry. split; [done|]. split; [done|].
  change ([] ++ cs) with cs. by rewrite omap_id_Some.
Qed.

(** The chunk of the entry function: the initialisation of the
    globals, then [CALL main argc], [POP], [HALT], where [argc] is the
    number of parameters that [main] declares. *)
Lemma compile_entry_function_spec rp entry :
  compile_entry_function rp = inr entry ->
  exists main c_init,
    find_main rp = Some main
    /\ build_chunk (compile_global_inits rp) = inr c_init
    /\ entry = mkBytecodeFunction "<entry>"
                 (emitted c_init [OpCode_value CALL; hi_byte (fs_index main);
                                  lo_byte (fs_index main); len (params (fs_decl main));
                                  OpCode_value POP; OpCode_value HALT]
                          (fd_line (fs_decl main))) 0 0.
Proof.
  unfold compile_entry_function, build_chunk, compile_entry_body.
  fold (compile_global_inits rp). fold (find_main rp). unfold bind at 1.
  destruct (compile_global_inits rp empty_chunk) as [[e|[]] c_init]; [done|].
  destruct (find_main rp) as [main|]; [|done].
  intros [= <-]. exists main, c_init. split; [done|]. split; [done|].
  f_equal. destruct c_init as [co li cs]. unfold emitted.
  cbn. unfold put, write_u16, write. cbn [code lines constants].
  rewrite <- !app_assoc. reflexivity.
Qed.

Lemma find_lookup {A} (P : A -> bool) (l : list A) x :
  find P l = Some x -> exists i, l !! i = Some x.
Proof.
  induction l as [|y l IH]; [done|]. simpl. destruct (P y).
  - intros [= ->]. by exists 0%nat.
  - intros H. destruct (IH H) as [i Hi]. by exists (S i).
Qed.

Lemma py_get_app_l {A} (l1 l2 : list A) (i : nat) x :
  l1 !! i = Some x -> py_get (l1 ++ l2) (Z.of_nat i) = inr x.
Proof.
  intros H. apply py_get_nonneg; [lia|]. rewrite Nat2Z.id. by apply lookup_app_l_Some.
Qed.

Lemma py_get_app_mid {A} (l1 : list A) x : py_get (l1 ++ [x]) (len l1) = inr x.
Proof.
  apply py_get_nonneg; [apply len_nonneg|]. unfold len. rewrite Nat2Z.id.
  apply list_lookup_middle. done.
Qed.

Lemma call_function_in_range vm i fn :
  0 <= i -> functions (program vm) !! Z.to_nat i = Some fn ->
  forall argc,
    call_function i argc vm
    = (if negb (argc =? arity fn)
       then raise (VMRuntimeError (CallArityMismatch (name fn) (arity fn) argc))
       else
         let base := len (stack vm) - argc in
         if base <? 0 then raise (VMRuntimeError CallStackUnderflow)
         else
           let needed := base + num_locals fn in
           let* _ := set_stack (stack vm ++ replicate (Z.to_nat (needed - len (stack vm))) 0) in
           let* vm' := get in
           set_frames (frames vm' ++ [mkCallFrame fn 0 base])) vm.
Proof.
  intros Hi Hfn argc. unfold call_function, bind at 1, get.
  apply lookup_lt_Some in Hfn as Hlt.
  destruct (Z.ltb_spec i 0); [lia|].
  destruct (Z.leb_spec (len (functions (program vm))) i); [unfold len in *; lia|].
  cbn [orb]. unfold bind at 1, lift. by rewrite (py_get_nonneg _ _ _ Hi Hfn).
Qed.

(** A [CALL] whose argument count is the arity of its target and
    exceeds the height of the stack: the arity check passes and the
    call raises the stack-underflow error. *)
Lemma call_step_underflow vm (i : nat) f argc :
  at_code vm [OpCode_value CALL; hi_byte (Z.of_nat i); lo_byte (Z.of_nat i); argc] = true ->
  functions (program vm) !! i = Some f ->
  arity f = argc -> Z.of_nat i < 65536 -> len (stack vm) < argc ->
  step vm = (inl (VMRuntimeError CallStackUnderflow), advance vm 4).
Proof.
  intros Hcode Hf Ha Hi Hshort.
  pose proof (at_code_opcode vm CALL _ Hcode) as Hop.
  unfold at_code in Hcode.
  apply code_from_cons in Hcode as [C0 Hcode]. apply code_from_cons in Hcode as [C1 Hcode].
  apply code_from_cons in Hcode as [C2 Hcode]. apply code_from_cons in Hcode as [C3 _].
  change (0 + 1) with 1 in *. change (1 + 1) with 2 in *. change (2 + 1) with 3 in *.
  rewrite (step_fetch _ _ Hop). cbn [exec]. unfold bind at 1.
  rewrite (read_u16_at (advance vm 1) (hi_byte (Z.of_nat i)) (lo_byte (Z.of_nat i)))
    by (by rewrite code_at_advance).
  rewrite u16_round_trip by lia. rewrite advance_advance. change (1 + 2) with 3.
  unfold bind at 1. rewrite (read_byte_at _ argc) by (by rewrite code_at_advance).
  rewrite advance_advance. change (3 + 1) with 4.
  assert (Hp : program (advance vm 4) = program vm).
  { unfold advance. by destruct (last (frames vm)). }
  assert (Hfi : functions (program (advance vm 4)) !! Z.to_nat (Z.of_nat i) = Some f).
  { by rewrite Hp, Nat2Z.id. }
  rewrite (call_function_in_range (advance vm 4) (Z.of_nat i) f ltac:(lia) Hfi argc).
  rewrite Ha, Z.eqb_refl. cbn [negb]. cbv zeta. rewrite stack_advance.
  destruct (Z.ltb_spec (len (stack vm) - argc) 0); [|lia]. reflexivity.
Qed.

(** The run of a program whose entry function is exactly
    [CALL i argc; POP; HALT], where function [i] declares [argc >= 1]
    parameters: the arity check passes and the call underflows the
    empty stack. *)
Lemma run_entry_call_underflow cs f (i : nat) argc line g fuel :
  cs !! i = Some f -> arity f = argc -> 1 <= argc -> Z.of_nat i < 65536 ->
  fst (run_program (S fuel)
         (mkBytecodeProgram
            (cs ++ [mkBytecodeFunction "<entry>"
                      (emitted empty_chunk
                         [11; hi_byte (Z.of_nat i); lo_byte (Z.of_nat i); argc; 14; 15] line)
                      0 0])
            g (len cs)))
  = Raised (VMRuntimeError CallStackUnderflow).
Proof.
  intros Hf Ha Hargc Hi.
  set (entry := mkBytecodeFunction _ _ 0 0).
  set (bp := mkBytecodeProgram _ _ _).
  pose proof (len_nonneg cs) as Hnn.
  assert (He : functions bp !! Z.to_nat (len cs) = Some entry).
  { unfold len. rewrite Nat2Z.id. by apply list_lookup_middle. }
  assert (Hfi : functions bp !! Z.to_nat (Z.of_nat i) = Some f).
  { rewrite Nat2Z.id. by apply lookup_app_l_Some. }
  unfold run_program, run.
  change (entry_index (program (VM_init bp))) with (len cs).
  rewrite (call_function_in_range (VM_init bp) (len cs) entry Hnn He 0).
  set (vm0 := mkVM bp [] [mkCallFrame entry 0 0] g []).
  change (fst (run_loop (S fuel) vm0) = Raised (VMRuntimeError CallStackUnderflow)).
  assert (Hop : at_opcode vm0 CALL = true) by reflexivity.
  cbn [run_loop frames vm0]. rewrite (step_fetch _ _ Hop).
  cbn [exec]. unfold bind at 1.
  rewrite (read_u16_at (advance vm0 1) (hi_byte (Z.of_nat i)) (lo_byte (Z.of_nat i)))
    by reflexivity.
  rewrite u16_round_trip by lia.
  unfold bind at 1. rewrite (read_byte_at _ argc) by reflexivity.
  rewrite (call_function_in_range (advance (advance (advance vm0 1) 2) 1)
             (Z.of_nat i) f ltac:(lia) Hfi argc).
  rewrite Ha, Z.eqb_refl. cbn [negb].
  change (len (stack (advance (advance (advance vm0 1) 2) 1))) with 0.
  cbv zeta. destruct (Z.ltb_spec (0 - argc) 0); [|lia]. reflexivity.
Qed.

Lemma compile_function_arity rp s f :
  compile_function rp s = inr f -> arity f = fs_arity s.
Proof.
  unfold compile_function. destruct (build_chunk _); [done|]. by intros [= <-].
Qed.

(** C1 (as the code has it): the entry function of a compiled program
    is the initialisation of the globals followed by [CALL main argc],
    [POP] and [HALT], where [argc] is the number of parameters that
    [main] declares (zero for a [main] without parameters).  When
    [main] declares a parameter, that call, executed on a stack with
    fewer values than [argc], passes the VM's arity check and raises
    the call-time stack-underflow runtime error; in a program without
    globals [run] ends with that error. *)
Theorem entry_calls_main_with_declared_arity (p : Program) (rp : ResolvedProgram)
    (bp : BytecodeProgram) :
  resolve p = inr rp ->
  compile rp = inr bp ->
  exists main entry c_init,
    find_main rp = Some main
    /\ py_get (functions bp) (entry_index bp) = inr entry
    /\ build_chunk (compile_global_inits rp) = inr c_init
    /\ chunk entry
       = emitted c_init [OpCode_value CALL; hi_byte (fs_index main); lo_byte (fs_index main);
                         len (params (fs_decl main)); OpCode_value POP; OpCode_value HALT]
                 (fd_line (fs_decl main))
    /\ (1 <= len (params (fs_decl main)) ->
        len (function_decls p) <= 65536 ->
        (forall vm,
            program vm = bp ->
            at_code vm [OpCode_value CALL; hi_byte (fs_index main); lo_byte (fs_index main);
                        len (params (fs_decl main))] = true ->
            len (stack vm) < len (params (fs_decl main)) ->
            step vm = (inl (VMRuntimeError CallStackUnderflow), advance vm 4))
        /\ (var_decls p = [] ->
            forall fuel,
              fst (run_program (S fuel) bp) = Raised (VMRuntimeError CallStackUnderflow))).
Proof.
  intros Hres Hcomp.
  destruct (resolve_spec _ _ Hres) as [Hfs Hgs].
  assert (Hidx : forall j s, rp_functions rp !! j = Some s -> fs_index s = Z.of_nat j).
  { intros j s Hj. rewrite Hfs, list_lookup_imap in Hj.
    destruct (function_decls p !! j); [|done]. by injection Hj as <-. }
  destruct (compile_spec _ _ Hidx Hcomp) as (cs & entry & Hall & Hentry & ->).
  destruct (compile_entry_function_spec _ _ Hentry) as (main & c_init & Hmain & Hinit & ->).
  eexists main, _, c_init. cbn [functions entry_index chunk].
  split; [done|]. split; [apply py_get_app_mid|]. split; [done|].
  cbn [chunk]. split; [done|].
  intros Hparams Hmany.
  destruct (find_lookup _ _ _ Hmain) as [i Hi].
  pose proof (Hidx _ _ Hi) as Hmi. rewrite Hmi.
  destruct (Forall2_lookup_l _ _ _ _ _ Hall Hi) as (f & Hf & Hcf).
  assert (Hlt : (i < length (function_decls p))%nat).
  { apply lookup_lt_Some in Hi. by rewrite Hfs, length_imap in Hi. }
  assert (Har : fs_arity main = len (params (fs_decl main))).
  { rewrite Hfs, list_lookup_imap in Hi.
    destruct (function_decls p !! i); [|done]. by injection Hi as <-. }
  assert (Haf : arity f = len (params (fs_decl main))).
  { rewrite <- Har. by apply (compile_function_arity rp). }
  split.
  - intros vm Hvm Hcode Hshort.
    apply (call_step_underflow vm i f (len (params (fs_decl main))));
      [done| |done|unfold len in Hmany; lia|done].
    rewrite Hvm. cbn [functions]. by apply lookup_app_l_Some.
  - intros Hno fuel.
    assert (c_init = empty_chunk) as ->.
    { unfold compile_global_inits in Hinit. rewrite Hgs, Hno in Hinit.
      by injection Hinit as <-. }
    apply run_entry_call_underflow with (f := f); [done|done|done|unfold len in Hmany; lia].
Qed.

(** The entry function of [fn main(a) { return 0; }]. *)
Lemma entry_calls_main_with_declared_arity_witness :
  let rp := from_inr (mkResolvedProgram prog_main_param [] [] ∅ ∅) (resolve prog_main_param) in
  let bp := from_inr (mkBytecodeProgram [] [] 0) (compile rp) in
  resolve prog_main_param = inr rp
  /\ compile rp = inr bp
  /\ exists main entry c_init,
      find_main rp = Some main
      /\ py_get (functions bp) (entry_index bp) = inr entry
      /\ build_chunk (compile_global_inits rp) = inr c_init
      /\ chunk entry
         = emitted c_init [OpCode_value CALL; hi_byte (fs_index main); lo_byte (fs_index main);
                           len (params (fs_decl main)); OpCode_value POP; OpCode_value HALT]
                   (fd_line (fs_decl main))
      /\ (1 <= len (params (fs_decl main)) ->
          len (function_decls prog_main_param) <= 65536 ->
          (forall vm,
              program vm = bp ->
              at_code vm [OpCode_value CALL; hi_byte (fs_index main); lo_byte (fs_index main);
                          len (params (fs_decl main))] = true ->
              len (stack vm) < len (params (fs_decl main)) ->
              step vm = (inl (VMRuntimeError CallStackUnderflow), advance vm 4))
          /\ (var_decls prog_main_param = [] ->
              forall fuel,
                fst (run_program (S fuel) bp) = Raised (VMRuntimeError CallStackUnderflow))).
Proof.
  intros rp bp.
  assert (H1 : resolve prog_main_param = inr rp) by (vm_compute; reflexivity).
  assert (H2 : compile rp = inr bp) by (vm_compute; reflexivity).
  split; [exact H1|]. split; [exact H2|].
  exact (entry_calls_main_with_declared_arity prog_main_param rp bp H1 H2).
Defined.

(** C1, as stated, fails on [fn main(a) { return 0; }]: the entry
    function calls [main] with one argument, not zero, and the run
    ends with the stack-underflow error, not with an arity-mismatch
    error. *)
Lemma main_with_parameter_underflows :
  exists bp entry,
    compile_program prog_main_param = inr bp
    /\ py_get (functions bp) (entry_index bp) = inr entry
    /\ code (chunk entry) = [OpCode_value CALL; 0; 0; 1; OpCode_value POP; OpCode_value HALT]
    /\ fst (run_program 10 bp) = Raised (VMRuntimeError CallStackUnderflow)
    /\ forall fname expected got,
        fst (run_program 10 bp) <> Raised (VMRuntimeError (CallArityMismatch fname expected got)).
Proof.
  eexists _, _. split; [vm_compute; reflexivity|].
  split; [vm_compute; reflexivity|].
  split; [reflexivity|]. split; [reflexivity|].
  intros fname expected got. vm_compute. discriminate.
Qed.

(** ** Instances *)

(** [-7 // 2] is [-4], and [5 // 0] aborts. *)
Lemma div_pushes_floor_or_aborts_witness :
  at_opcode (one_op_vm DIV [-7; 2]) DIV = true
  /\ stack (one_op_vm DIV [-7; 2]) = [] ++ [-7; 2]
  /\ step (one_op_vm DIV [-7; 2])
     = (inr tt, with_stack (advance (one_op_vm DIV [-7; 2]) 1) [-4])
  /\ step (one_op_vm DIV [5; 0])
     = (inl (VMRuntimeError DivisionByZero), with_stack (advance (one_op_vm DIV [5; 0]) 1) []).
Proof.
  split; [reflexivity|]. split; [reflexivity|]. split.
  - destruct (div_pushes_floor_or_aborts (one_op_vm DIV [-7; 2]) [] (-7) 2 eq_refl eq_refl)
      as [H _].
    exact (H ltac:(discriminate)).
  - destruct (div_pushes_floor_or_aborts (one_op_vm DIV [5; 0]) [] 5 0 eq_refl eq_refl)
      as [_ H].
    exact (proj1 (H eq_refl)).
Defined.

(** [-3 * 4] is [-12]. *)
Lemma arith_ops_exact_witness :
  stack (one_op_vm MUL [-3; 4]) = [] ++ [-3; 4]
  /\ at_opcode (one_op_vm MUL [-3; 4]) MUL = true
  /\ step (one_op_vm MUL [-3; 4])
     = (inr tt, with_stack (advance (one_op_vm MUL [-3; 4]) 1) [-12]).
Proof.
  split; [reflexivity|]. split; [reflexivity|].
  destruct (arith_ops_exact (one_op_vm MUL [-3; 4]) [] (-3) 4 eq_refl) as (_ & _ & H).
  exact (H eq_refl).
Defined.

(** [fn main() { while (1) { return 0; } }] is rejected with the
    missing-return error. *)
Lemma return_path_analysis_witness :
  let function := declared_symbol 0
                    (mkFunctionDecl 1 "main" []
                       [WhileStmt 1 (IntLiteral 1 1) (BlockStmt [ReturnStmt 1 (IntLiteral 1 0)])]) in
  let r := snd (declare_top_level prog_while_return Resolver_init) in
  let r' := snd (resolve_function_walk 0%nat function r) in
  _functions r !! 0%nat = Some function
  /\ resolve_function_walk 0%nat function r = (inr tt, r')
  /\ resolve_function 0%nat r = (inl (SemanticError (MissingReturn "main")), r').
Proof.
  intros function r r'.
  assert (H1 : _functions r !! 0%nat = Some function) by reflexivity.
  assert (H2 : resolve_function_walk 0%nat function r = (inr tt, r')) by (vm_compute; reflexivity).
  split; [exact H1|]. split; [exact H2|].
  destruct (return_path_analysis 0%nat function r r' H1 H2) as (Hiff & _ & Hrej & _).
  apply Hrej. intros Hb. apply Hiff in Hb. discriminate Hb.
Defined.

(** ** Control flow of the VM *)

Lemma set_ip_jump vm target :
  frames vm <> [] -> set_ip target vm = (inr tt, jump_to vm target).
Proof.
  intros Hne. unfold jump_to.
  destruct (last (frames vm)) as [fr|] eqn:Hl.
  - apply last_Some_snoc in Hl as Hfs. by rewrite (set_ip_top _ _ _ _ Hfs).
  - apply last_None in Hl. done.
Qed.

Lemma jump_to_advance vm k target : jump_to (advance vm k) target = jump_to vm target.
Proof.
  unfold jump_to. rewrite last_frames_advance.
  destruct (last (frames vm)) as [fr|] eqn:Hl; simpl.
  - unfold advance. rewrite Hl. simpl. by rewrite removelast_last.
  - unfold advance. by rewrite Hl.
Qed.

Lemma jump_to_with_stack vm s target :
  jump_to (with_stack vm s) target = with_stack (jump_to vm target) s.
Proof. unfold jump_to, with_stack. simpl. by destruct (last (frames vm)). Qed.

Lemma frames_advance_nonempty vm k : frames vm <> [] -> frames (advance vm k) <> [].
Proof.
  intros Hne. unfold advance. destruct (last (frames vm)); [|done].
  simpl. by destruct (removelast (frames vm)).
Qed.

Lemma at_code_frames vm b bs : at_code vm (b :: bs) = true -> frames vm <> [].
Proof.
  unfold at_code. intros [H _]%code_from_cons.
  destruct (code_at_last _ _ _ H) as [fr Hl]. intros Hnil. by rewrite Hnil in Hl.
Qed.

(** The three bytes of an instruction with a 16-bit operand. *)
Lemma at_code_3 vm b hi lo :
  at_code vm [b; hi; lo] = true ->
  code_at vm 0 = Some b /\ code_at vm 1 = Some hi /\ code_at vm 2 = Some lo.
Proof.
  unfold at_code. intros [C0 H]%code_from_cons.
  apply code_from_cons in H as [C1 H]. apply code_from_cons in H as [C2 _]. done.
Qed.

(** An instruction with a 16-bit operand: the fetch and the decoding
    of the operand. *)
Lemma step_operand vm o hi lo (k : Z -> vmM unit) :
  at_code vm [OpCode_value o; hi; lo] = true ->
  (forall vm', exec (cur_chunk vm) o vm' = (let* x := read_u16 in k x) vm') ->
  step vm = k (u16 hi lo) (advance vm 3).
Proof.
  intros Hcode Hex. pose proof (at_code_opcode _ _ _ Hcode) as Hop.
  apply at_code_3 in Hcode as (C0 & C1 & C2).
  rewrite (step_fetch _ _ Hop), Hex. unfold bind at 1.
  rewrite (read_u16_at (advance vm 1) hi lo) by (by rewrite code_at_advance).
  by rewrite advance_advance.
Qed.

(** X1: [JMP_IF_FALSE] pops one value; when the value is zero the
    instruction pointer becomes the target, otherwise execution falls
    through to the next instruction. *)
Theorem jump_if_false_pops_and_branches (vm : VM) (s : list Z) (v hi lo : Z) :
  at_code vm [OpCode_value JMP_IF_FALSE; hi; lo] = true ->
  stack vm = s ++ [v] ->
  step vm = (inr tt, with_stack (if v =? 0 then jump_to vm (u16 hi lo) else advance vm 3) s).
Proof.
  intros Hcode Hst.
  rewrite (step_operand vm JMP_IF_FALSE hi lo
             (fun target => let* value := pop in
                            if value =? 0 then set_ip target else ret tt) Hcode)
    by done.
  unfold bind at 1. rewrite (pop_snoc _ s v) by (by rewrite stack_advance).
  destruct (v =? 0); [|done].
  rewrite set_ip_jump
    by (apply frames_advance_nonempty; by eapply at_code_frames).
  by rewrite jump_to_with_stack, jump_to_advance.
Qed.

Lemma jump_if_false_pops_and_branches_witness :
  let f := mkBytecodeFunction "f" (mkChunk [10; 0; 7] [1; 1; 1] []) 0 0 in
  let vm := mkVM (mkBytecodeProgram [f] [] 0) [4; 0] [mkCallFrame f 0 0] [] [] in
  at_code vm [OpCode_value JMP_IF_FALSE; 0; 7] = true
  /\ stack vm = [4] ++ [0]
  /\ step vm = (inr tt, with_stack (jump_to vm 7) [4]).
Proof.
  intros f vm. split; [reflexivity|]. split; [reflexivity|].
  exact (jump_if_false_pops_and_branches vm [4] 0 0 7 eq_refl eq_refl).
Defined.

Lemma run_loop_continues vm vm' fuel :
  frames vm <> [] -> step vm = (inr tt, vm') ->
  run_loop (S fuel) vm = run_loop fuel vm'.
Proof.
  intros Hf Hs. simpl. destruct (frames vm); [done|]. by rewrite Hs.
Qed.

Lemma step_ip_out_of_bounds vm fr :
  last (frames vm) = Some fr ->
  len (code (chunk (function fr))) <= ip fr ->
  step vm = (inl (VMRuntimeError IpOutOfBounds), vm).
Proof.
  intros Hl Hip. unfold step, bind at 1. rewrite (cur_frame_last _ _ Hl).
  destruct (Z.leb_spec (len (code (chunk (function fr)))) (ip fr)); [done|lia].
Qed.

(** X2: a [JMP] whose target is at or past the end of the code moves
    the instruction pointer there, and the next iteration of [run]
    raises the instruction-pointer runtime error; nothing else of the
    machine changes. *)
Theorem jump_past_end_aborts (vm : VM) (hi lo : Z) :
  at_code vm [OpCode_value JMP; hi; lo] = true ->
  len (code (cur_chunk vm)) <= u16 hi lo ->
  step vm = (inr tt, jump_to vm (u16 hi lo))
  /\ forall fuel,
      run_loop (S (S fuel)) vm
      = (Raised (VMRuntimeError IpOutOfBounds), jump_to vm (u16 hi lo)).
Proof.
  intros Hcode Hfar.
  pose proof (at_code_frames _ _ _ Hcode) as Hne.
  assert (Hstep : step vm = (inr tt, jump_to vm (u16 hi lo))).
  { rewrite (step_operand vm JMP hi lo (fun target => set_ip target) Hcode) by done.
    rewrite set_ip_jump by (by apply frames_advance_nonempty).
    by rewrite jump_to_advance. }
  split; [exact Hstep|]. intros fuel.
  destruct (last (frames vm)) as [fr|] eqn:Hl; [|by apply last_None in Hl].
  rewrite (run_loop_continues _ _ _ Hne Hstep).
  apply run_loop_raises.
  - unfold jump_to. rewrite Hl. simpl. by destruct (removelast (frames vm)).
  - apply step_ip_out_of_bounds
      with (fr := mkCallFrame (function fr) (u16 hi lo) (stack_base fr)).
    + unfold jump_to. rewrite Hl. simpl. by rewrite last_snoc.
    + simpl. unfold cur_chunk in Hfar. by rewrite Hl in Hfar.
Qed.

Lemma jump_past_end_aborts_witness :
  let f := mkBytecodeFunction "f" (mkChunk [9; 0; 3] [1; 1; 1] []) 0 0 in
  let vm := mkVM (mkBytecodeProgram [f] [] 0) [] [mkCallFrame f 0 0] [] [] in
  at_code vm [OpCode_value JMP; 0; 3] = true
  /\ len (code (cur_chunk vm)) <= u16 0 3
  /\ step vm = (inr tt, jump_to vm (u16 0 3))
  /\ forall fuel,
      run_loop (S (S fuel)) vm = (Raised (VMRuntimeError IpOutOfBounds), jump_to vm (u16 0 3)).
Proof.
  intros f vm. split; [reflexivity|].
  assert (H : len (code (cur_chunk vm)) <= u16 0 3) by (vm_compute; discriminate).
  split; [exact H|].
  exact (jump_past_end_aborts vm 0 3 eq_refl H).
Defined.

(** ** Calls and returns *)

Lemma step_call vm hi lo argc :
  at_code vm [OpCode_value CALL; hi; lo; argc] = true ->
  step vm = call_function (u16 hi lo) argc (advance vm 4).
Proof.
  intros Hcode. pose proof (at_code_opcode _ _ _ Hcode) as Hop.
  unfold at_code in Hcode.
  apply code_from_cons in Hcode as [C0 Hcode]. apply code_from_cons in Hcode as [C1 Hcode].
  apply code_from_cons in Hcode as [C2 Hcode]. apply code_from_cons in Hcode as [C3 _].
  change (0 + 1) with 1 in *. change (1 + 1) with 2 in *. change (2 + 1) with 3 in *.
  rewrite (step_fetch _ _ Hop). cbn [exec]. unfold bind at 1.
  rewrite (read_u16_at (advance vm 1) hi lo) by (by rewrite code_at_advance).
  rewrite advance_advance. change (1 + 2) with 3.
  unfold bind at 1. rewrite (read_byte_at _ argc) by (by rewrite code_at_advance).
  by rewrite advance_advance.
Qed.

Lemma program_advance vm k : program (advance vm k) = program vm.
Proof. unfold advance. by destruct (last (frames vm)). Qed.
Lemma vm_globals_advance vm k : vm_globals (advance vm k) = vm_globals vm.
Proof. unfold advance. by destruct (last (frames vm)). Qed.
Lemma output_advance vm k : output (advance vm k) = output vm.
Proof. unfold advance. by destruct (last (frames vm)). Qed.

Lemma step_call_ok vm hi lo argc fn :
  at_code vm [OpCode_value CALL; hi; lo; argc] = true ->
  0 <= u16 hi lo ->
  functions (program vm) !! Z.to_nat (u16 hi lo) = Some fn ->
  arity fn = argc ->
  argc <= len (stack vm) ->
  step vm
  = (inr tt,
     mkVM (program vm)
          (stack vm ++ replicate (Z.to_nat (num_locals fn - argc)) 0)
          (frames (advance vm 4) ++ [mkCallFrame fn 0 (len (stack vm) - argc)])
          (vm_globals vm) (output vm)).
Proof.
  intros Hcode Hi Hfn Ha Hargs. rewrite (step_call _ _ _ _ Hcode).
  rewrite (call_function_in_range (advance vm 4) (u16 hi lo) fn Hi)
    by (by rewrite program_advance).
  rewrite Ha, Z.eqb_refl. cbn [negb]. cbv zeta. rewrite stack_advance.
  destruct (Z.ltb_spec (len (stack vm) - argc) 0); [lia|].
  unfold bind, set_stack, get, set_frames. simpl.
  rewrite program_advance, vm_globals_advance, output_advance.
  do 4 f_equal. lia.
Qed.

(** X3: a [CALL] of a function in range, with the argument count the
    function declares and that many values on the stack, moves the
    caller past the four bytes of the instruction, pads the stack with
    zeros up to the callee's local count, and pushes a frame for the
    callee with instruction pointer zero and base [len(stack) - argc]:
    the arguments are the first slots of the new frame. *)
Theorem call_pushes_frame (vm : VM) (hi lo argc : Z) (fn : BytecodeFunction) :
  at_code vm [OpCode_value CALL; hi; lo; argc] = true ->
  0 <= u16 hi lo ->
  functions (program vm) !! Z.to_nat (u16 hi lo) = Some fn ->
  arity fn = argc ->
  argc <= len (stack vm) ->
  step vm
  = (inr tt,
     mkVM (program vm)
          (stack vm ++ replicate (Z.to_nat (num_locals fn - argc)) 0)
          (frames (advance vm 4) ++ [mkCallFrame fn 0 (len (stack vm) - argc)])
          (vm_globals vm) (output vm)).
Proof. apply step_call_ok. Qed.

Lemma call_pushes_frame_witness :
  let callee := mkBytecodeFunction "g" (mkChunk [12] [1] []) 1 3 in
  let caller := mkBytecodeFunction "f" (mkChunk [11; 0; 0; 1] [1; 1; 1; 1] []) 0 0 in
  let vm := mkVM (mkBytecodeProgram [callee; caller] [] 1) [8; 9] [mkCallFrame caller 0 0] [] [] in
  at_code vm [OpCode_value CALL; 0; 0; 1] = true
  /\ 0 <= u16 0 0
  /\ functions (program vm) !! Z.to_nat (u16 0 0) = Some callee
  /\ arity callee = 1
  /\ 1 <= len (stack vm)
  /\ step vm = (inr tt, mkVM (program vm) [8; 9; 0; 0]
                          [mkCallFrame caller 4 0; mkCallFrame callee 0 1] [] []).
Proof.
  intros callee caller vm.
  assert (H1 : at_code vm [OpCode_value CALL; 0; 0; 1] = true) by reflexivity.
  assert (H2 : 0 <= u16 0 0) by (vm_compute; discriminate).
  assert (H3 : functions (program vm) !! Z.to_nat (u16 0 0) = Some callee) by reflexivity.
  assert (H4 : arity callee = 1) by reflexivity.
  assert (H5 : 1 <= len (stack vm)) by (vm_compute; discriminate).
  repeat (split; [assumption|]).
  exact (call_pushes_frame vm 0 0 1 callee H1 H2 H3 H4 H5).
Defined.

(** X4: the checks of a [CALL], in their order: a function index
    outside the function table raises the call-target error; then an
    argument count that differs from the arity of the target raises
    the arity error, which carries the name, the arity and the count.
    Either way the caller has moved past the instruction and the stack
    is as it was. *)
Theorem call_checks_target_then_arity (vm : VM) (hi lo argc : Z) :
  at_code vm [OpCode_value CALL; hi; lo; argc] = true ->
  (u16 hi lo < 0 \/ len (functions (program vm)) <= u16 hi lo ->
   step vm = (inl (VMRuntimeError (CallTargetOutOfRange (u16 hi lo))), advance vm 4))
  /\ (forall fn,
        0 <= u16 hi lo ->
        functions (program vm) !! Z.to_nat (u16 hi lo) = Some fn ->
        argc <> arity fn ->
        step vm
        = (inl (VMRuntimeError (CallArityMismatch (name fn) (arity fn) argc)), advance vm 4)).
Proof.
  intros Hcode. rewrite (step_call _ _ _ _ Hcode). split.
  - intros Hout. unfold call_function, bind at 1, get. rewrite program_advance.
    destruct (Z.ltb_spec (u16 hi lo) 0); [done|].
    destruct (Z.leb_spec (len (functions (program vm))) (u16 hi lo)); [done|lia].
  - intros fn Hi Hfn Hne.
    rewrite (call_function_in_range (advance vm 4) (u16 hi lo) fn Hi)
      by (by rewrite program_advance).
    destruct (Z.eqb_spec argc (arity fn)); [done|]. reflexivity.
Qed.

Lemma call_checks_target_then_arity_witness :
  let callee := mkBytecodeFunction "g" (mkChunk [12] [1] []) 2 2 in
  let caller := mkBytecodeFunction "f" (mkChunk [11; 0; 0; 1] [1; 1; 1; 1] []) 0 0 in
  let vm := mkVM (mkBytecodeProgram [callee; caller] [] 1) [8; 9] [mkCallFrame caller 0 0] [] [] in
  at_code vm [OpCode_value CALL; 0; 0; 1] = true
  /\ step vm = (inl (VMRuntimeError (CallArityMismatch "g" 2 1)), advance vm 4).
Proof.
  intros callee caller vm.
  assert (H1 : at_code vm [OpCode_value CALL; 0; 0; 1] = true) by reflexivity.
  split; [exact H1|].
  destruct (call_checks_target_then_arity vm 0 0 1 H1) as [_ H].
  apply (H callee); [vm_compute; discriminate | reflexivity | discriminate].
Defined.

Lemma py_del_from_app {A} (s rest : list A) :
  py_del_from (s ++ rest) (len s) = s.
Proof.
  unfold py_del_from. pose proof (len_nonneg s).
  destruct (Z.leb_spec 0 (len s)); [|lia].
  unfold len. rewrite Nat2Z.id. by rewrite take_app_length.
Qed.

Lemma step_ret vm fs fr s v :
  at_opcode vm RET = true ->
  frames vm = fs ++ [fr] ->
  stack vm = s ++ [v] ->
  step vm
  = (inr tt,
     mkVM (program vm)
          (match fs with
           | [] => []
           | _ => py_del_from s (stack_base fr) ++ [v]
           end)
          fs (vm_globals vm) (output vm)).
Proof.
  intros Hop Hfs Hst. rewrite (step_fetch _ _ Hop). cbn [exec].
  assert (Hadv : advance vm 1 = mkVM (program vm) (stack vm) (fs ++ [moved 1 fr])
                                   (vm_globals vm) (output vm)).
  { unfold advance. by rewrite Hfs, last_snoc, removelast_last. }
  rewrite Hadv. unfold do_return, bind at 1, get. cbn [frames].
  destruct (fs ++ [moved 1 fr]) as [|f0 l0] eqn:E; [by destruct fs|]. rewrite <- E.
  unfold bind at 1, lift. rewrite py_pop_snoc. cbn [fst snd].
  unfold bind at 1, set_frames. cbn [program stack vm_globals output].
  unfold bind at 1. rewrite Hst.
  rewrite (pop_snoc (mkVM (program vm) (s ++ [v]) fs (vm_globals vm) (output vm)) s v) by done.
  unfold bind, get, set_stack, push, with_stack. simpl.
  by destruct fs.
Qed.

(** X5: [RET] pops the return value, removes the top frame, cuts the
    stack back to the base of that frame and pushes the value; when
    the frame was the last one, the stack is cleared instead and [run]
    returns the output. *)
Theorem ret_unwinds_frame (vm : VM) (fs : list CallFrame) (fr : CallFrame)
    (s rest : list Z) (v : Z) :
  at_opcode vm RET = true ->
  frames vm = fs ++ [fr] ->
  stack vm = s ++ rest ++ [v] ->
  stack_base fr = len s ->
  (fs <> [] ->
   step vm = (inr tt, mkVM (program vm) (s ++ [v]) fs (vm_globals vm) (output vm)))
  /\ (fs = [] ->
      step vm = (inr tt, mkVM (program vm) [] [] (vm_globals vm) (output vm))
      /\ forall fuel, fst (run_loop (S fuel) vm) = Returned (output vm)).
Proof.
  intros Hop Hfs Hst Hbase.
  pose proof (step_ret vm fs fr (s ++ rest) v Hop Hfs) as Hstep.
  rewrite Hst, <- app_assoc in Hstep. specialize (Hstep eq_refl).
  rewrite Hbase, py_del_from_app in Hstep. split.
  - intros Hne. rewrite Hstep. by destruct fs.
  - intros ->. split; [exact Hstep|]. intros fuel.
    rewrite (run_loop_continues _ _ _ (at_opcode_frames _ _ Hop) Hstep).
    by destruct fuel.
Qed.

Lemma ret_unwinds_frame_witness :
  let callee := mkBytecodeFunction "g" (mkChunk [12] [1] []) 1 3 in
  let caller := mkBytecodeFunction "f" (mkChunk [11; 0; 0; 1] [1; 1; 1; 1] []) 0 0 in
  let vm := mkVM (mkBytecodeProgram [callee; caller] [] 1) [8; 9; 0; 0; 7]
                 [mkCallFrame caller 4 0; mkCallFrame callee 0 1] [] [] in
  at_opcode vm RET = true
  /\ frames vm = [mkCallFrame caller 4 0] ++ [mkCallFrame callee 0 1]
  /\ stack vm = [8] ++ [9; 0; 0] ++ [7]
  /\ stack_base (mkCallFrame callee 0 1) = len [8]
  /\ step vm = (inr tt, mkVM (program vm) [8; 7] [mkCallFrame caller 4 0] [] []).
Proof.
  intros callee caller vm.
  split; [reflexivity|]. split; [reflexivity|]. split; [reflexivity|]. split; [reflexivity|].
  destruct (ret_unwinds_frame vm [mkCallFrame caller 4 0] (mkCallFrame callee 0 1)
              [8] [9; 0; 0] 7 eq_refl eq_refl eq_refl eq_refl) as [H _].
  apply H. discriminate.
Defined.

(** ** Bounds of slots and of the stack *)

Lemma cur_base_advance vm k : cur_base (advance vm k) = cur_base vm.
Proof.
  unfold cur_base. rewrite last_frames_advance. by destruct (last (frames vm)).
Qed.

Lemma cur_frame_advance vm k fr :
  last (frames vm) = Some fr -> cur_frame (advance vm k) = (inr (moved k fr), advance vm k).
Proof.
  intros Hl. apply cur_frame_last. by rewrite last_frames_advance, Hl.
Qed.

Lemma at_code_last vm b bs :
  at_code vm (b :: bs) = true -> exists fr, last (frames vm) = Some fr.
Proof. unfold at_code. intros [H _]%code_from_cons. by eapply code_at_last. Qed.

(** X6: the three bounds checks of slot accesses.  [LOAD_LOCAL] and
    [STORE_LOCAL] of a slot at or past the end of the stack, and
    [STORE_GLOBAL] of an index at or past the end of the globals,
    raise the VM's runtime error and end [run]; the two stores have
    popped their value before the check. *)
Theorem slot_bounds_checks (vm : VM) (o : OpCode) (hi lo : Z) :
  at_code vm [OpCode_value o; hi; lo] = true ->
  (o = LOAD_LOCAL ->
   len (stack vm) <= cur_base vm + u16 hi lo ->
   step vm = (inl (VMRuntimeError LocalLoadOutOfRange), advance vm 3))
  /\ (forall s v,
        o = STORE_LOCAL ->
        stack vm = s ++ [v] ->
        len s <= cur_base vm + u16 hi lo ->
        step vm = (inl (VMRuntimeError LocalStoreOutOfRange), with_stack (advance vm 3) s))
  /\ (forall s v,
        o = STORE_GLOBAL ->
        stack vm = s ++ [v] ->
        len (vm_globals vm) <= u16 hi lo ->
        step vm = (inl (VMRuntimeError GlobalStoreOutOfRange), with_stack (advance vm 3) s)).
Proof.
  intros Hcode. destruct (at_code_last _ _ _ Hcode) as [fr Hl].
  assert (Hb : cur_base vm = stack_base fr) by (unfold cur_base; by rewrite Hl).
  split; [|split].
  - intros -> Hslot.
    rewrite (step_operand vm LOAD_LOCAL hi lo
               (fun index => let* frame := cur_frame in
                             let* v := load_local frame index in push v) Hcode) by done.
    unfold bind at 1. rewrite (cur_frame_advance _ _ _ Hl).
    unfold bind at 1, load_local, bind at 1, get. rewrite stack_advance. cbn [moved stack_base].
    rewrite <- Hb. destruct (Z.leb_spec (len (stack vm)) (cur_base vm + u16 hi lo)); [done|lia].
  - intros s v -> Hst Hslot.
    rewrite (step_operand vm STORE_LOCAL hi lo
               (fun index => let* frame := cur_frame in store_local frame index) Hcode) by done.
    unfold bind at 1. rewrite (cur_frame_advance _ _ _ Hl).
    unfold store_local, bind at 1.
    rewrite (pop_snoc _ s v) by (by rewrite stack_advance).
    unfold bind at 1, get. cbn [moved stack_base with_stack stack]. rewrite <- Hb.
    destruct (Z.leb_spec (len s) (cur_base vm + u16 hi lo)); [done|lia].
  - intros s v -> Hst Hslot.
    rewrite (step_operand vm STORE_GLOBAL hi lo store_global Hcode) by done.
    unfold store_global, bind at 1.
    rewrite (pop_snoc _ s v) by (by rewrite stack_advance).
    unfold bind at 1, get. cbn [with_stack vm_globals]. rewrite vm_globals_advance.
    destruct (Z.leb_spec (len (vm_globals vm)) (u16 hi lo)); [done|lia].
Qed.

Lemma slot_bounds_checks_witness :
  let f := mkBytecodeFunction "f" (mkChunk [2; 0; 1] [1; 1; 1] []) 0 1 in
  let vm := mkVM (mkBytecodeProgram [f] [] 0) [5; 6] [mkCallFrame f 0 0] [] [] in
  at_code vm [OpCode_value STORE_LOCAL; 0; 1] = true
  /\ step vm = (inl (VMRuntimeError LocalStoreOutOfRange), with_stack (advance vm 3) [5]).
Proof.
  intros f vm.
  assert (H1 : at_code vm [OpCode_value STORE_LOCAL; 0; 1] = true) by reflexivity.
  split; [exact H1|].
  destruct (slot_bounds_checks vm STORE_LOCAL 0 1 H1) as (_ & H & _).
  apply (H [5] 6); [reflexivity | reflexivity | vm_compute; discriminate].
Defined.

(** X7: an instruction that pops finds the stack empty: [POP],
    [PRINT] and the four arithmetic instructions then raise Python's
    IndexError (the [pop] of an empty list), which is not the VM's
    runtime error; [run] ends with it, nothing printed. *)
Theorem pop_of_empty_stack_is_IndexError (vm : VM) (o : OpCode) :
  at_opcode vm o = true ->
  o ∈ [ADD; SUB; MUL; DIV; PRINT; POP] ->
  stack vm = [] ->
  step vm = (inl IndexError, advance vm 1)
  /\ forall fuel, run_loop (S fuel) vm = (Raised IndexError, advance vm 1).
Proof.
  intros Hop Ho Hst.
  assert (Hstep : step vm = (inl IndexError, advance vm 1)).
  { rewrite (step_fetch _ _ Hop).
    assert (Hp : pop (advance vm 1) = (inl IndexError, advance vm 1))
      by (apply pop_empty; by rewrite stack_advance).
    repeat (apply elem_of_cons in Ho as [-> | Ho]);
      try (cbn [exec]; unfold binary, bind at 1; by rewrite Hp).
    by apply elem_of_nil in Ho. }
  split; [exact Hstep|]. intros fuel.
  apply run_loop_raises; [by eapply at_opcode_frames | exact Hstep].
Qed.

Lemma pop_of_empty_stack_is_IndexError_witness :
  run_loop 1 (one_op_vm PRINT []) = (Raised IndexError, advance (one_op_vm PRINT []) 1).
Proof.
  apply (pop_of_empty_stack_is_IndexError (one_op_vm PRINT []) PRINT).
  - reflexivity.
  - repeat constructor.
  - reflexivity.
Defined.

(** ** Invariants of the loop of [run] *)

(** A relation between the state before and the state after that is
    kept by the primitives a step is made of is kept by the steps and
    by [run]. *)
Section Invariant.
Context (R : VM -> VM -> Prop) `{!PreOrder R}.

Lemma vk_ret {A} (a : A) : vm_keeps R (ret a).
  Proof. intros vm. simpl. reflexivity. Qed.

Lemma vk_raise {A} e : vm_keeps R (@raise VM A e).
  Proof. intros vm. simpl. reflexivity. Qed.

Lemma vk_lift {A} (r : exn + A) : vm_keeps R (lift r).
  Proof. intros vm. unfold lift. destruct r; simpl; reflexivity. Qed.

Lemma vk_get : vm_keeps R get.
  Proof. intros vm. simpl. reflexivity. Qed.

Lemma vk_bind {A B} (m : vmM A) (k : A -> vmM B) :
    vm_keeps R m -> (forall a, vm_keeps R (k a)) -> vm_keeps R (bind m k).
  Proof.
    intros Hm Hk vm. unfold bind. specialize (Hm vm).
    destruct (m vm) as [[e|a] vm']; simpl in *; [done|].
    etransitivity; [exact Hm|apply Hk].
  Qed.

Lemma vk_if {A} (c : bool) (m1 m2 : vmM A) :
    vm_keeps R m1 -> vm_keeps R m2 -> vm_keeps R (if c then m1 else m2).
  Proof. by destruct c. Qed.

Hypothesis R_set_stack : forall s, vm_keeps R (set_stack s).
Hypothesis R_set_ip : forall v, vm_keeps R (set_ip v).
Hypothesis R_call_function : forall i n, vm_keeps R (call_function i n).
Hypothesis R_do_return : vm_keeps R do_return.
Hypothesis R_store_global : forall i, vm_keeps R (store_global i).
Hypothesis R_print : forall line, vm_keeps R (let* vm := get in set_output (output vm ++ [line])).
Hypothesis R_halt : vm_keeps R (set_frames []).

Ltac vk_step :=
    first [ apply R_set_stack | apply R_set_ip | apply R_call_function | apply R_do_return
          | apply R_store_global | apply R_print | apply R_halt
          | apply vk_ret | apply vk_raise | apply vk_lift | apply vk_get
          | apply vk_if
          | apply vk_bind; [|intros ?] ].
Ltac vk := repeat vk_step.

Lemma vk_push v : vm_keeps R (push v).
  Proof. unfold push. vk. Qed.
Lemma vk_pop : vm_keeps R pop.
  Proof. unfold pop. vk. Qed.
Lemma vk_cur_frame : vm_keeps R cur_frame.
  Proof. unfold cur_frame. vk. Qed.
Lemma vk_read_u16 : vm_keeps R read_u16.
  Proof. unfold read_u16. vk; apply vk_cur_frame. Qed.
Lemma vk_read_byte : vm_keeps R read_byte.
  Proof. unfold read_byte. vk; apply vk_cur_frame. Qed.
Lemma vk_binary op : vm_keeps R (binary op).
  Proof. unfold binary. vk; first [apply vk_pop | apply vk_push]. Qed.
Lemma vk_load_local f i : vm_keeps R (load_local f i).
  Proof. unfold load_local. vk. Qed.
Lemma vk_store_local f i : vm_keeps R (store_local f i).
  Proof. unfold store_local. vk; apply vk_pop. Qed.

Ltac vk_exec_step :=
    first [ apply vk_read_u16 | apply vk_read_byte | apply vk_cur_frame | apply vk_pop
          | apply vk_push | apply vk_binary | apply vk_load_local | apply vk_store_local
          | vk_step ].

Lemma vk_exec c o : vm_keeps R (exec c o).
  Proof. destruct o; cbn [exec]; repeat vk_exec_step. Qed.

Lemma vk_step_loop : vm_keeps R step.
  Proof.
    unfold step. apply vk_bind; [apply vk_cur_frame|intros fr].
    apply vk_if; [apply vk_raise|].
    apply vk_bind; [apply vk_lift|intros b].
    apply vk_bind; [apply vk_lift|intros o].
    apply vk_bind; [apply R_set_ip|intros _]. apply vk_exec.
  Qed.

Lemma vk_run_loop fuel vm : R vm (snd (run_loop fuel vm)).
  Proof.
    revert vm. induction fuel as [|fuel IH]; intros vm; simpl.
    - destruct (frames vm); simpl; reflexivity.
    - destruct (frames vm); [simpl; reflexivity|].
      pose proof (vk_step_loop vm) as Hs.
      destruct (step vm) as [[e|[]] vm']; simpl in *; [done|].
      etransitivity; [exact Hs|apply IH].
  Qed.

Lemma vk_run fuel vm : R vm (snd (run fuel vm)).
  Proof.
    unfold run. pose proof (R_call_function (entry_index (program vm)) 0 vm) as Hc.
    destruct (call_function _ _ vm) as [[e|[]] vm']; simpl in *; [done|].
    etransitivity; [exact Hc|apply vk_run_loop].
  Qed.
End Invariant.

(** What [run] returns is the output of the machine it leaves. *)
Lemma run_loop_returned fuel vm out :
  fst (run_loop fuel vm) = Returned out -> out = output (snd (run_loop fuel vm)).
Proof.
  revert vm. induction fuel as [|fuel IH]; intros vm; simpl.
  - destruct (frames vm); simpl; [by intros [= <-]|done].
  - destruct (frames vm); simpl; [by intros [= <-]|].
    destruct (step vm) as [[e|[]] vm']; simpl; [done|]. apply IH.
Qed.

Lemma run_returned fuel vm out :
  fst (run fuel vm) = Returned out -> out = output (snd (run fuel vm)).
Proof.
  unfold run. destruct (call_function _ _ vm) as [[e|[]] vm']; simpl; [done|].
  apply run_loop_returned.
Qed.

#[export] Instance output_grows_preorder : PreOrder output_grows.
Proof.
  split.
  - intros vm. exists []. by rewrite app_nil_r.
  - intros a b c [s1 H1] [s2 H2]. exists (s1 ++ s2). by rewrite H2, H1, app_assoc.
Qed.

Lemma output_grows_same vm vm' : output vm' = output vm -> output_grows vm vm'.
Proof. intros H. exists []. by rewrite app_nil_r. Qed.


(** The relations that do not look at the stack or at the frames. *)
Section InvariantOfFields.
Context (R : VM -> VM -> Prop) `{!PreOrder R}.
Hypothesis R_set_stack : forall s, vm_keeps R (set_stack s).
Hypothesis R_set_frames : forall fs, vm_keeps R (set_frames fs).

Ltac vkf :=
    repeat first [ tc_solve | apply R_set_stack | apply R_set_frames
                 | apply vk_ret | apply vk_raise | apply vk_lift | apply vk_get
                 | apply vk_if | apply vk_bind; [| |intros ?] ].

Lemma vkf_set_ip v : vm_keeps R (set_ip v).
  Proof. unfold set_ip. vkf. Qed.

Lemma vkf_call_function i n : vm_keeps R (call_function i n).
  Proof. unfold call_function. vkf. Qed.

Lemma vkf_do_return : vm_keeps R do_return.
  Proof.
    unfold do_return. apply vk_bind; [tc_solve|by apply vk_get|intros vm0].
    destruct (frames vm0); [by apply vk_raise|].
    unfold pop, push. vkf. destruct (frames _); vkf.
  Qed.

Lemma vkf_pop : vm_keeps R pop.
  Proof. unfold pop. vkf. Qed.
End InvariantOfFields.

Lemma output_grows_set_stack s : vm_keeps output_grows (set_stack s).
Proof. intros vm. by apply output_grows_same. Qed.
Lemma output_grows_set_frames fs : vm_keeps output_grows (set_frames fs).
Proof. intros vm. by apply output_grows_same. Qed.
Lemma output_grows_set_globals g : vm_keeps output_grows (set_globals g).
Proof. intros vm. by apply output_grows_same. Qed.

Lemma output_grows_store_global i : vm_keeps output_grows (store_global i).
Proof.
  unfold store_global.
  apply vk_bind; [tc_solve|apply vkf_pop; first [tc_solve | apply output_grows_set_stack
                                                | apply output_grows_set_frames]|intros v].
  apply vk_bind; [tc_solve|apply vk_get; tc_solve|intros vm0].
  apply vk_if; [apply vk_raise; tc_solve|].
  apply vk_bind; [tc_solve|apply vk_lift; tc_solve|intros g]. apply output_grows_set_globals.
Qed.

Lemma output_grows_print line :
  vm_keeps output_grows (let* vm := get in set_output (output vm ++ [line])).
Proof. intros vm. by exists [line]. Qed.

Lemma output_grows_step : vm_keeps output_grows step.
Proof.
  apply vk_step_loop; try tc_solve.
  - apply output_grows_set_stack.
  - apply vkf_set_ip; first [tc_solve | apply output_grows_set_stack | apply output_grows_set_frames].
  - apply vkf_call_function;
      first [tc_solve | apply output_grows_set_stack | apply output_grows_set_frames].
  - apply vkf_do_return;
      first [tc_solve | apply output_grows_set_stack | apply output_grows_set_frames].
  - apply output_grows_store_global.
  - apply output_grows_print.
  - apply output_grows_set_frames.
Qed.

Lemma output_grows_run fuel vm : output_grows vm (snd (run fuel vm)).
Proof.
  apply vk_run; try tc_solve.
  - apply output_grows_set_stack.
  - apply vkf_set_ip; first [tc_solve | apply output_grows_set_stack | apply output_grows_set_frames].
  - apply vkf_call_function;
      first [tc_solve | apply output_grows_set_stack | apply output_grows_set_frames].
  - apply vkf_do_return;
      first [tc_solve | apply output_grows_set_stack | apply output_grows_set_frames].
  - apply output_grows_store_global.
  - apply output_grows_print.
  - apply output_grows_set_frames.
Qed.

(** X8: the output is append-only.  One iteration of the loop leaves
    the lines printed so far in place, whether it returns or raises;
    so does [run], however it ends, and the list that [run] returns is
    the output it started from followed by the lines printed since. *)
Theorem output_is_append_only :
  (forall vm, exists suffix, output (snd (step vm)) = output vm ++ suffix)
  /\ forall fuel vm, exists suffix,
       output (snd (run fuel vm)) = output vm ++ suffix
       /\ forall out, fst (run fuel vm) = Returned out -> out = output vm ++ suffix.
Proof.
  split.
  - intros vm. apply output_grows_step.
  - intros fuel vm. destruct (output_grows_run fuel vm) as [suffix H].
    exists suffix. split; [exact H|]. intros out Hout.
    by rewrite (run_returned _ _ _ Hout).
Qed.

(** ** The globals array and the frames *)

#[export] Instance same_globals_size_preorder : PreOrder same_globals_size.
Proof.
  split.
  - by intros vm.
  - intros a b c H1 H2. unfold same_globals_size in *. by rewrite H2.
Qed.

Lemma same_globals_size_store_global i : vm_keeps same_globals_size (store_global i).
Proof.
  intros vm. unfold same_globals_size, store_global, bind at 1.
  unfold pop, bind, get, lift, set_stack, set_globals.
  destruct (py_pop (stack vm)) as [e|[v s]]; simpl; [done|].
  destruct (len (vm_globals vm) <=? i); simpl; [done|].
  destruct (py_set (vm_globals vm) i v) as [e|g] eqn:Hset; simpl; [done|].
  unfold len. f_equal. by eapply py_set_length.
Qed.

Lemma same_globals_size_run fuel vm : same_globals_size vm (snd (run fuel vm)).
Proof.
  assert (Hs : forall s, vm_keeps same_globals_size (set_stack s)) by done.
  assert (Hf : forall fs, vm_keeps same_globals_size (set_frames fs)) by done.
  apply vk_run; try tc_solve; try done.
  - by apply vkf_set_ip; try tc_solve.
  - by apply vkf_call_function; try tc_solve.
  - by apply vkf_do_return; try tc_solve.
  - apply same_globals_size_store_global.
Qed.

(** X9: the VM never resizes its globals: however [run] ends, the
    machine has as many globals as it started with, which for a fresh
    VM is the number of globals of the program. *)
Theorem globals_never_resized (fuel : nat) :
  (forall vm, len (vm_globals (snd (run fuel vm))) = len (vm_globals vm))
  /\ forall p, len (vm_globals (snd (run_program fuel p))) = len (globals p).
Proof.
  split.
  - intros vm. apply same_globals_size_run.
  - intros p. unfold run_program. by rewrite (same_globals_size_run fuel (VM_init p)).
Qed.

#[export] Instance frames_stay_ok_preorder : PreOrder frames_stay_ok.
Proof.
  split.
  - intros vm H. exact H.
  - intros a b c H1 H2 H. apply H2, H1, H.
Qed.

Lemma frames_ok_set_ip v : vm_keeps frames_stay_ok (set_ip v).
Proof.
  intros vm Hok. unfold set_ip, bind, get, lift, py_pop.
  destruct (last (frames vm)) as [fr|] eqn:Hl; simpl; [|done].
  apply last_Some in Hl as [fs Hfs]. unfold frames_ok in *. simpl. rewrite Hfs in *.
  rewrite removelast_last. apply Forall_app in Hok as [H1 H2].
  apply Forall_app. split; [done|]. by rewrite Forall_singleton in *.
Qed.

Lemma frames_ok_call_function i n : vm_keeps frames_stay_ok (call_function i n).
Proof.
  intros vm Hok. unfold call_function, bind at 1, get.
  destruct (Z.ltb_spec i 0); simpl; [done|].
  destruct (Z.leb_spec (len (functions (program vm))) i); simpl; [done|].
  unfold bind at 1, lift.
  destruct (py_get (functions (program vm)) i) as [e|fn] eqn:Hget; simpl; [done|].
  destruct (negb (n =? arity fn)); simpl; [done|].
  destruct (Z.ltb_spec (len (stack vm) - n) 0); simpl; [done|].
  unfold frames_ok. simpl. apply Forall_app. split; [done|].
  apply Forall_singleton. split; [|done]. simpl.
  unfold py_get in Hget. destruct (py_pos _ _) as [k|]; [|done].
  destruct (functions (program vm) !! k) eqn:Hk; [|done].
  injection Hget as ->. by eapply list_elem_of_lookup_2.
Qed.

Lemma frames_ok_do_return : vm_keeps frames_stay_ok do_return.
Proof.
  intros vm Hok. unfold do_return, bind at 1, get.
  destruct (frames vm) as [|f0 fs0] eqn:Hfs; [done|]. rewrite <- Hfs.
  unfold bind at 1, lift, py_pop.
  destruct (last (frames vm)) as [fr|] eqn:Hl; simpl; [|done].
  assert (Hok' : Forall (frame_ok (program vm)) (removelast (frames vm))).
  { apply last_Some in Hl as [fs Hl]. unfold frames_ok in Hok. rewrite Hl in *.
    rewrite removelast_last. by apply Forall_app in Hok as [H1 _]. }
  unfold bind at 1, set_frames. simpl.
  unfold bind at 1, pop, bind at 1, get, bind at 1, lift. simpl.
  destruct (py_pop (stack vm)) as [e|[v s]]; simpl; [done|].
  destruct (removelast (frames vm)); simpl; done.
Qed.

Lemma frames_ok_store_global i : vm_keeps frames_stay_ok (store_global i).
Proof.
  intros vm Hok. unfold store_global, bind at 1.
  unfold pop, bind, get, lift, set_stack, set_globals.
  destruct (py_pop (stack vm)) as [e|[v s]]; simpl; [done|].
  destruct (len (vm_globals vm) <=? i); simpl; [done|].
  destruct (py_set (vm_globals vm) i v) as [e|g]; simpl; done.
Qed.

Lemma frames_ok_run fuel vm : frames_stay_ok vm (snd (run fuel vm)).
Proof.
  apply vk_run; try tc_solve.
  - by intros s vm' H.
  - apply frames_ok_set_ip.
  - apply frames_ok_call_function.
  - apply frames_ok_do_return.
  - apply frames_ok_store_global.
  - by intros line vm' H.
  - intros vm' _. by apply Forall_nil.
Qed.

Lemma frames_ok_step : vm_keeps frames_stay_ok step.
Proof.
  apply vk_step_loop; try tc_solve.
  - by intros s vm' H.
  - apply frames_ok_set_ip.
  - apply frames_ok_call_function.
  - apply frames_ok_do_return.
  - apply frames_ok_store_global.
  - by intros line vm' H.
  - intros vm' _. by apply Forall_nil.
Qed.

(** X10: the frames stay well formed.  When every frame of the
    machine runs a function of the program from a base that is not
    negative, the same holds after an iteration of the loop and when
    [run] ends, however it ends; a fresh VM has no frames, so it holds
    throughout the run of a program. *)
Theorem frames_stay_well_formed (vm : VM) :
  frames_ok vm ->
  frames_ok (snd (step vm)) /\ forall fuel, frames_ok (snd (run fuel vm)).
Proof.
  intros Hok. split.
  - by apply frames_ok_step.
  - intros fuel. by apply frames_ok_run.
Qed.

Lemma frames_stay_well_formed_witness :
  frames_ok (VM_init (from_inr (mkBytecodeProgram [] [] 0) (compile_program prog_loop)))
  /\ frames_ok (snd (run_program 40
                       (from_inr (mkBytecodeProgram [] [] 0) (compile_program prog_loop)))).
Proof.
  assert (H : frames_ok (VM_init (from_inr (mkBytecodeProgram [] [] 0)
                                           (compile_program prog_loop))))
    by apply Forall_nil_2.
  split; [exact H|].
  exact (proj2 (frames_stay_well_formed _ H) 40%nat).
Defined.

(** ** The stack-effect table *)

Section StackDelta.
Lemma sd_ret {A} (a : A) : stack_delta 0 (ret a).
  Proof. intros vm x vm' [= _ <-]. lia. Qed.

Lemma sd_raise {A} d e : stack_delta d (@raise VM A e).
  Proof. by intros vm x vm'. Qed.

Lemma sd_lift {A} (r : exn + A) : stack_delta 0 (lift r).
  Proof. intros vm x vm'. unfold lift. destruct r; intros [= _ <-]. lia. Qed.

Lemma sd_get : stack_delta 0 get.
  Proof. intros vm x vm' [= _ <-]. lia. Qed.

Lemma sd_bind {A B} d1 d2 d (m : vmM A) (k : A -> vmM B) :
    stack_delta d1 m -> (forall a, stack_delta d2 (k a)) -> d = d1 + d2 ->
    stack_delta d (bind m k).
  Proof.
    intros Hm Hk -> vm x vm'. unfold bind.
    destruct (m vm) as [[e|a] vm1] eqn:E; [done|]. intros H.
    apply Hm in E. apply Hk in H. lia.
  Qed.

Lemma sd_if {A} d (c : bool) (m1 m2 : vmM A) :
    stack_delta d m1 -> stack_delta d m2 -> stack_delta d (if c then m1 else m2).
  Proof. by destruct c. Qed.

Lemma sd_push v : stack_delta 1 (push v).
  Proof. intros vm [] vm' [= <-]. simpl. rewrite len_app. done. Qed.

Lemma sd_pop : stack_delta (-1) pop.
  Proof.
    intros vm x vm'. unfold pop, bind, get, lift, py_pop.
    destruct (last (stack vm)) as [v|] eqn:Hl; [|done].
    intros [= _ <-]. simpl. apply last_Some in Hl as [s Hs]. rewrite Hs.
    rewrite removelast_last, len_app. unfold len. simpl. lia.
  Qed.

Lemma sd_cur_frame : stack_delta 0 cur_frame.
  Proof.
    unfold cur_frame. eapply (sd_bind 0 0); [apply sd_get|intros; apply sd_lift|done].
  Qed.

Lemma sd_set_frames fs : stack_delta 0 (set_frames fs).
  Proof. intros vm [] vm' [= <-]. simpl. lia. Qed.

Lemma sd_set_ip v : stack_delta 0 (set_ip v).
  Proof.
    unfold set_ip. eapply (sd_bind 0 0); [apply sd_get|intros|done].
    eapply (sd_bind 0 0); [apply sd_lift|intros; apply sd_set_frames|done].
  Qed.

Lemma sd_read_u16 : stack_delta 0 read_u16.
  Proof.
    unfold read_u16. eapply (sd_bind 0 0); [apply sd_cur_frame|intros|done].
    eapply (sd_bind 0 0); [apply sd_lift|intros|done].
    eapply (sd_bind 0 0); [apply sd_lift|intros|done].
    eapply (sd_bind 0 0); [apply sd_set_ip|intros; apply sd_ret|done].
  Qed.

  (** An instruction with a 16-bit operand. *)
Lemma sd_operand d (k : Z -> vmM unit) :
    (forall x, stack_delta d (k x)) -> stack_delta d (let* x := read_u16 in k x).
  Proof. intros Hk. eapply (sd_bind 0 d); [apply sd_read_u16|exact Hk|done]. Qed.

Lemma sd_binary op : stack_delta (-1) (binary op).
  Proof.
    unfold binary. eapply (sd_bind (-1) 0); [apply sd_pop|intros|done].
    eapply (sd_bind (-1) 1); [apply sd_pop|intros|done].
    eapply (sd_bind 0 1); [apply sd_lift|intros; apply sd_push|done].
  Qed.

Lemma sd_load_local f i : stack_delta 0 (load_local f i).
  Proof.
    unfold load_local. eapply (sd_bind 0 0); [apply sd_get|intros|done].
    apply sd_if; [apply sd_raise|apply sd_lift].
  Qed.

Lemma sd_store_local f i : stack_delta (-1) (store_local f i).
  Proof.
    unfold store_local. eapply (sd_bind (-1) 0); [apply sd_pop|intros v|done].
    intros vm [] vm'. unfold bind, get, lift, set_stack.
    destruct (len (stack vm) <=? stack_base f + i); [done|].
    destruct (py_set (stack vm) _ v) as [e|s] eqn:Hset; [done|].
    intros [= <-]. simpl. apply py_set_length in Hset. unfold len. lia.
  Qed.

Lemma sd_store_global i : stack_delta (-1) (store_global i).
  Proof.
    unfold store_global. eapply (sd_bind (-1) 0); [apply sd_pop|intros v|done].
    intros vm [] vm'. unfold bind, get, lift, set_globals.
    destruct (len (vm_globals vm) <=? i); [done|].
    destruct (py_set (vm_globals vm) i v) as [e|s]; [done|].
    intros [= <-]. simpl. lia.
  Qed.

Lemma sd_exec c o d :
    STACK_EFFECT o = inl d -> o <> RET -> stack_delta d (exec c o).
  Proof.
    intros Hd Hret. destruct o; try done; injection Hd as <-; cbn [exec];
      try apply sd_binary; try (apply sd_operand; intros x).
    - eapply (sd_bind 0 1); [apply sd_lift|intros; apply sd_push|done].
    - eapply (sd_bind 0 1); [apply sd_cur_frame|intros|done].
      eapply (sd_bind 0 1); [apply sd_load_local|intros; apply sd_push|done].
    - eapply (sd_bind 0 (-1)); [apply sd_cur_frame|intros; apply sd_store_local|done].
    - eapply (sd_bind 0 1); [apply sd_get|intros|done].
      eapply (sd_bind 0 1); [apply sd_lift|intros; apply sd_push|done].
    - apply sd_store_global.
    - apply sd_set_ip.
    - eapply (sd_bind (-1) 0); [apply sd_pop|intros|done].
      apply sd_if; [apply sd_set_ip|apply sd_ret].
    - eapply (sd_bind (-1) 0); [apply sd_pop|intros|done].
      eapply (sd_bind 0 0); [apply sd_get|intros|done].
      intros vm [] vm' [= <-]. simpl. lia.
    - eapply (sd_bind (-1) 0); [apply sd_pop|intros; apply sd_ret|done].
    - apply sd_set_frames.
  Qed.
End StackDelta.

(** X11: the stack-effect table agrees with the machine.  For every
    opcode whose entry in the table is a number, [RET] apart, an
    iteration of the loop that executes the opcode and does not raise
    leaves the stack longer by exactly that number. *)
Theorem stack_effect_table_agrees (vm vm' : VM) (o : OpCode) (d : Z) :
  at_opcode vm o = true ->
  STACK_EFFECT o = inl d ->
  o <> RET ->
  step vm = (inr tt, vm') ->
  len (stack vm') = len (stack vm) + d.
Proof.
  intros Hop Hd Hret Hstep. rewrite (step_fetch _ _ Hop) in Hstep.
  apply (sd_exec _ _ _ Hd Hret) in Hstep. by rewrite stack_advance in Hstep.
Qed.

Lemma stack_effect_table_agrees_witness :
  len (stack (snd (step (one_op_vm MUL [4; 5; 6])))) = len [4; 5; 6] + (-1).
Proof.
  apply (stack_effect_table_agrees (one_op_vm MUL [4; 5; 6]) _ MUL (-1)).
  - reflexivity.
  - reflexivity.
  - discriminate.
  - reflexivity.
Defined.

(** X12: a call and the return from it.  A [CALL] with [argc]
    arguments on top of the caller's values [s] pushes a frame based
    at [len s]; when the callee executes [RET] in that frame, with the
    return value on top and [s] still below the frame, the stack
    becomes [s] and the return value and the caller's frame is back on
    top, past the four bytes of the call: the length of the stack has
    changed by [-argc + 1], the table's entry for [CALL]. *)
Theorem call_then_return_net_effect (vm vm2 : VM) (hi lo argc ip2 : Z)
    (fn : BytecodeFunction) (s args rest : list Z) (v : Z) :
  at_code vm [OpCode_value CALL; hi; lo; argc] = true ->
  0 <= u16 hi lo ->
  functions (program vm) !! Z.to_nat (u16 hi lo) = Some fn ->
  arity fn = argc ->
  stack vm = s ++ args ->
  len args = argc ->
  frames vm2 = frames (advance vm 4) ++ [mkCallFrame fn ip2 (len s)] ->
  at_opcode vm2 RET = true ->
  stack vm2 = s ++ rest ++ [v] ->
  frames (snd (step vm)) = frames (advance vm 4) ++ [mkCallFrame fn 0 (len s)]
  /\ exists vm3,
       step vm2 = (inr tt, vm3)
       /\ stack vm3 = s ++ [v]
       /\ frames vm3 = frames (advance vm 4)
       /\ forall f, STACK_EFFECT CALL = inr f -> len (stack vm3) = len (stack vm) + f argc.
Proof.
  intros Hcode Hi Hfn Ha Hst Hargs Hfs2 Hop2 Hst2. split.
  - rewrite (step_call_ok vm hi lo argc fn Hcode Hi Hfn Ha)
      by (rewrite Hst, len_app; pose proof (len_nonneg s); lia).
    simpl. do 3 f_equal. rewrite Hst, len_app. lia.
  - pose proof (step_ret vm2 _ _ (s ++ rest) v Hop2 Hfs2) as Hstep.
    rewrite Hst2, <- app_assoc in Hstep. specialize (Hstep eq_refl).
    cbn [stack_base] in Hstep. rewrite py_del_from_app in Hstep.
    assert (Hne : frames (advance vm 4) <> [])
      by (apply frames_advance_nonempty; by eapply at_code_frames).
    eexists. split; [exact Hstep|]. simpl.
    destruct (frames (advance vm 4)) eqn:E; [done|].
    split; [done|]. split; [done|].
    intros f [= <-]. rewrite Hst, !len_app. unfold len at 2. simpl. lia.
Qed.

Lemma call_then_return_net_effect_witness :
  let callee := mkBytecodeFunction "g" (mkChunk [12] [1] []) 1 3 in
  let caller := mkBytecodeFunction "f" (mkChunk [11; 0; 0; 1] [1; 1; 1; 1] []) 0 0 in
  let p := mkBytecodeProgram [callee; caller] [] 1 in
  let vm := mkVM p [8; 9] [mkCallFrame caller 0 0] [] [] in
  let vm2 := mkVM p [8; 9; 0; 7] [mkCallFrame caller 4 0; mkCallFrame callee 0 1] [] [] in
  exists vm3,
    step vm2 = (inr tt, vm3)
    /\ stack vm3 = [8; 7]
    /\ frames vm3 = [mkCallFrame caller 4 0]
    /\ forall f, STACK_EFFECT CALL = inr f -> len (stack vm3) = len (stack vm) + f 1.
Proof.
  intros callee caller p vm vm2.
  assert (H1 : at_code vm [OpCode_value CALL; 0; 0; 1] = true) by reflexivity.
  assert (H2 : 0 <= u16 0 0) by (vm_compute; discriminate).
  exact (proj2 (call_then_return_net_effect vm vm2 0 0 1 0 callee [8] [9] [9; 0] 7
                  H1 H2 eq_refl eq_refl eq_refl eq_refl eq_refl eq_refl eq_refl)).
Defined.

(** ** Halting, constants and the start of [run] *)

Lemma frames_advance vm k fr :
  last (frames vm) = Some fr ->
  frames (advance vm k) = removelast (frames vm) ++ [moved k fr].
Proof. intros Hl. unfold advance. by rewrite Hl. Qed.

(** X26: [HALT] ends [run] from any call depth: it drops every frame,
    leaves the stack and the globals as they are, and [run] returns
    the output. *)
Theorem halt_ends_run (vm : VM) :
  at_opcode vm HALT = true ->
  step vm = (inr tt, mkVM (program vm) (stack vm) [] (vm_globals vm) (output vm))
  /\ forall fuel,
       run_loop (S fuel) vm
       = (Returned (output vm), mkVM (program vm) (stack vm) [] (vm_globals vm) (output vm)).
Proof.
  intros Hop.
  assert (Hstep : step vm
                  = (inr tt, mkVM (program vm) (stack vm) [] (vm_globals vm) (output vm))).
  { rewrite (step_fetch _ _ Hop). cbn [exec]. unfold set_frames.
    by rewrite program_advance, stack_advance, vm_globals_advance, output_advance. }
  split; [exact Hstep|]. intros fuel.
  rewrite (run_loop_continues _ _ _ (at_opcode_frames _ _ Hop) Hstep). by destruct fuel.
Qed.

Lemma halt_ends_run_witness :
  run_loop 1 (one_op_vm HALT [1; 2])
  = (Returned [], mkVM (program (one_op_vm HALT [1; 2])) [1; 2] [] [] []).
Proof. apply (halt_ends_run (one_op_vm HALT [1; 2])). reflexivity. Defined.

(** X27: [PUSH_CONST] pushes the constant of the current chunk at the
    index its operand encodes; an index at or past the end of the pool
    is not checked by the VM: the list access raises IndexError, which
    is not the VM's runtime error. *)
Theorem push_const_reads_the_pool (vm : VM) (hi lo : Z) :
  at_code vm [OpCode_value PUSH_CONST; hi; lo] = true ->
  0 <= u16 hi lo ->
  (forall v, constants (cur_chunk vm) !! Z.to_nat (u16 hi lo) = Some v ->
             step vm = (inr tt, with_stack (advance vm 3) (stack vm ++ [v])))
  /\ (len (constants (cur_chunk vm)) <= u16 hi lo ->
      step vm = (inl IndexError, advance vm 3)
      /\ forall fuel, run_loop (S fuel) vm = (Raised IndexError, advance vm 3)).
Proof.
  intros Hcode Hi.
  pose proof (step_operand vm PUSH_CONST hi lo
                (fun const_index => let* value := lift (py_get (constants (cur_chunk vm)) const_index) in
                                    push value) Hcode (fun _ => eq_refl)) as Hstep.
  split.
  - intros v Hv. rewrite Hstep. unfold bind, lift. rewrite (py_get_nonneg _ _ v Hi Hv).
    rewrite push_eq. by rewrite stack_advance.
  - intros Hout.
    assert (Hs : step vm = (inl IndexError, advance vm 3)).
    { rewrite Hstep. unfold bind, lift. by rewrite py_get_ge. }
    split; [exact Hs|]. intros fuel.
    apply run_loop_raises; [by eapply at_code_frames|exact Hs].
Qed.

Lemma push_const_reads_the_pool_witness :
  let f := mkBytecodeFunction "f" (mkChunk [0; 0; 1] [1; 1; 1] [5; 6]) 0 0 in
  let vm := mkVM (mkBytecodeProgram [f] [] 0) [9] [mkCallFrame f 0 0] [] [] in
  step vm = (inr tt, with_stack (advance vm 3) [9; 6]).
Proof.
  intros f vm.
  assert (H1 : at_code vm [OpCode_value PUSH_CONST; 0; 1] = true) by reflexivity.
  assert (H2 : 0 <= u16 0 1) by (vm_compute; discriminate).
  exact (proj1 (push_const_reads_the_pool vm 0 1 H1 H2) 6 eq_refl).
Defined.

(** X28: how [run] starts.  It calls the function at the entry index
    with no arguments: an entry index outside the function table
    raises the call-target error and an entry function that declares
    parameters raises the arity error, in both cases before any
    instruction runs; otherwise the loop starts in a frame of the
    entry function based at the top of the stack, after as many zeros
    as the function has locals. *)
Theorem run_enters_entry_function (vm : VM) (fuel : nat) :
  (entry_index (program vm) < 0 \/ len (functions (program vm)) <= entry_index (program vm) ->
   run fuel vm = (Raised (VMRuntimeError (CallTargetOutOfRange (entry_index (program vm)))), vm))
  /\ forall fn,
       0 <= entry_index (program vm) ->
       functions (program vm) !! Z.to_nat (entry_index (program vm)) = Some fn ->
       (arity fn <> 0 ->
        run fuel vm = (Raised (VMRuntimeError (CallArityMismatch (name fn) (arity fn) 0)), vm))
       /\ (arity fn = 0 ->
           run fuel vm
           = run_loop fuel
               (mkVM (program vm)
                     (stack vm ++ replicate (Z.to_nat (num_locals fn)) 0)
                     (frames vm ++ [mkCallFrame fn 0 (len (stack vm))])
                     (vm_globals vm) (output vm))).
Proof.
  split.
  - intros Hout. unfold run, call_function, bind at 1, get.
    destruct (Z.ltb_spec (entry_index (program vm)) 0); [done|].
    destruct (Z.leb_spec (len (functions (program vm))) (entry_index (program vm)));
      [done|lia].
  - intros fn Hi Hfn. unfold run.
    rewrite (call_function_in_range vm _ fn Hi Hfn 0). split.
    + intros Hne. destruct (Z.eqb_spec 0 (arity fn)); [congruence|]. done.
    + intros Ha. rewrite Ha. cbn [Z.eqb negb]. cbv zeta.
      pose proof (len_nonneg (stack vm)).
      destruct (Z.ltb_spec (len (stack vm) - 0) 0); [lia|].
      unfold bind, set_stack, get, set_frames. simpl.
      do 3 f_equal; [do 2 f_equal; lia|do 2 f_equal; lia].
Qed.

Lemma run_enters_entry_function_witness :
  let f := mkBytecodeFunction "f" (mkChunk [15] [1] []) 2 2 in
  let vm := VM_init (mkBytecodeProgram [f] [] 0) in
  run 5 vm = (Raised (VMRuntimeError (CallArityMismatch "f" 2 0)), vm).
Proof.
  intros f vm.
  apply (proj2 (run_enters_entry_function vm 5) f); [vm_compute; discriminate|reflexivity|].
  discriminate.
Defined.

(** ** chunk.py: operands, constants and patches *)

Lemma byte_range (v : Z) : 0 <= Z.land v 255 < 256.
Proof.
  change 255 with (Z.ones 8). rewrite Z.land_ones by lia.
  change (2 ^ 8) with 256. apply Z.mod_pos_bound. lia.
Qed.

Lemma u16_mod (v : Z) : u16 (hi_byte v) (lo_byte v) = v mod 65536.
Proof.
  unfold u16, hi_byte, lo_byte. change 65536 with (2 ^ 16).
  apply Z.bits_inj'. intros n Hn.
  rewrite Z.lor_spec, Z.shiftl_spec by lia.
  change 255 with (Z.ones 8).
  destruct (Z.ltb_spec n 8).
  - rewrite (Z.testbit_neg_r _ (n - 8)) by lia. rewrite Z.land_spec.
    rewrite Z.ones_spec_low by lia.
    rewrite Z.mod_pow2_bits_low by lia. simpl. by rewrite andb_true_r.
  - rewrite !Z.land_spec.
    rewrite (Z.ones_spec_high 8 n) by lia. rewrite andb_false_r, orb_false_r.
    rewrite Z.shiftr_spec by lia. replace (n - 8 + 8) with n by lia.
    destruct (Z.ltb_spec n 16).
    + rewrite Z.ones_spec_low by lia. rewrite Z.mod_pow2_bits_low by lia.
      by rewrite andb_true_r.
    + rewrite Z.ones_spec_high by lia. rewrite Z.mod_pow2_bits_high by lia.
      by rewrite andb_false_r.
Qed.

(** X13: [write_u16] appends two bytes, each in [0, 255], on the
    given line; decoded as the VM decodes an operand they give the
    value modulo 65536: a value of 65536 or more, or a negative one,
    is not rejected but wraps. *)
Theorem write_u16_wraps_mod_65536 (c : Chunk) (value line : Z) :
  exists hi lo,
    write_u16 c value line
    = mkChunk (code c ++ [hi; lo]) (lines c ++ [line; line]) (constants c)
    /\ 0 <= hi < 256 /\ 0 <= lo < 256
    /\ u16 hi lo = value mod 65536.
Proof.
  exists (hi_byte value), (lo_byte value). split; [|split; [|split]].
  - unfold write_u16, write, hi_byte, lo_byte. simpl. by rewrite <- !app_assoc.
  - apply byte_range.
  - apply byte_range.
  - apply u16_mod.
Qed.

(** X14: [add_constant] appends without looking for the value in the
    pool: it returns the old length of the pool, the constant at that
    index is the value, the constants before it keep their indices,
    and adding the same value again returns the next index. *)
Theorem add_constant_appends (c : Chunk) (value : Z) :
  let (c1, index) := add_constant c value in
  index = len (constants c)
  /\ py_get (constants c1) index = inr value
  /\ (forall i x, py_get (constants c) (Z.of_nat i) = inr x ->
                  py_get (constants c1) (Z.of_nat i) = inr x)
  /\ code c1 = code c /\ lines c1 = lines c
  /\ snd (add_constant c1 value) = index + 1.
Proof.
  unfold add_constant. cbn [fst snd code lines constants].
  split; [rewrite len_app; unfold len; simpl; lia|].
  split.
  { rewrite len_app. replace (len (constants c) + len [value] - 1) with (len (constants c))
      by (unfold len; simpl; lia).
    apply py_get_app_mid. }
  split.
  { intros i x Hx. apply py_get_app_l.
    unfold py_get, py_pos in Hx. pose proof (len_nonneg (constants c)).
    destruct (Z.leb_spec 0 (Z.of_nat i)); [|lia].
    destruct (Z.of_nat i <? len (constants c)); [|done].
    rewrite Nat2Z.id in Hx. by destruct (constants c !! i) eqn:E; [injection Hx as ->|]. }
  split; [done|]. split; [done|].
  rewrite !len_app. unfold len. simpl. lia.
Qed.

Lemma py_set_ok {A} (l : list A) (i : nat) (x : A) :
  (i < length l)%nat -> py_set l (Z.of_nat i) x = inr (<[i := x]> l).
Proof.
  intros Hi. rewrite py_set_nonneg by (unfold len; lia). by rewrite Nat2Z.id.
Qed.

Lemma py_set_ge {A} (l : list A) (i : Z) (x : A) :
  len l <= i -> py_set l i x = inl IndexError.
Proof.
  intros Hi. unfold py_set, py_pos. pose proof (len_nonneg l).
  destruct (Z.leb_spec 0 i); [|lia].
  destruct (Z.ltb_spec i (len l)); [lia|]. reflexivity.
Qed.

Lemma patch_u16_ok (c : Chunk) (offset : nat) (value : Z) :
  (offset + 1 < length (code c))%nat ->
  patch_u16 c (Z.of_nat offset) value
  = inr (mkChunk (<[S offset := lo_byte value]> (<[offset := hi_byte value]> (code c)))
                 (lines c) (constants c)).
Proof.
  intros Hoff. unfold patch_u16.
  rewrite py_set_ok by lia.
  replace (Z.of_nat offset + 1) with (Z.of_nat (S offset)) by lia.
  rewrite py_set_ok by (rewrite length_insert; lia). reflexivity.
Qed.

(** X15: [patch_u16] at an offset whose two bytes are inside the code
    overwrites exactly those two bytes with the encoding of the value:
    the code keeps its length, every other byte, the lines and the
    constants are as before, and the patched operand decodes to the
    value modulo 65536. *)
Theorem patch_u16_overwrites_two_bytes (c : Chunk) (offset : nat) (value : Z) :
  (offset + 1 < length (code c))%nat ->
  exists c1,
    patch_u16 c (Z.of_nat offset) value = inr c1
    /\ length (code c1) = length (code c)
    /\ (exists hi lo, code c1 !! offset = Some hi /\ code c1 !! S offset = Some lo
                      /\ u16 hi lo = value mod 65536)
    /\ (forall i, i <> offset -> i <> S offset -> code c1 !! i = code c !! i)
    /\ lines c1 = lines c /\ constants c1 = constants c.
Proof.
  intros Hoff. eexists. split; [by apply patch_u16_ok|]. cbn [code lines constants].
  split; [by rewrite !length_insert|].
  split.
  { exists (hi_byte value), (lo_byte value). split; [|split].
    - rewrite list_lookup_insert_ne by lia. apply list_lookup_insert_eq. lia.
    - apply list_lookup_insert_eq. rewrite length_insert. lia.
    - apply u16_mod. }
  split; [|done].
  intros i H1 H2. by rewrite !list_lookup_insert_ne.
Qed.

Lemma patch_u16_overwrites_two_bytes_witness :
  exists c1,
    patch_u16 (mkChunk [10; 0; 0; 14] [1; 1; 1; 1] []) (Z.of_nat 1) 300 = inr c1
    /\ length (code c1) = 4%nat
    /\ (exists hi lo, code c1 !! 1%nat = Some hi /\ code c1 !! 2%nat = Some lo
                      /\ u16 hi lo = 300 mod 65536)
    /\ (forall i, i <> 1%nat -> i <> 2%nat -> code c1 !! i = [10; 0; 0; 14] !! i)
    /\ lines c1 = [1; 1; 1; 1] /\ constants c1 = [].
Proof.
  apply (patch_u16_overwrites_two_bytes (mkChunk [10; 0; 0; 14] [1; 1; 1; 1] []) 1 300).
  simpl. lia.
Defined.

(** X16: [patch_u16] at an offset whose second byte is past the end of
    the code raises IndexError. *)
Theorem patch_u16_out_of_range (c : Chunk) (offset value : Z) :
  0 <= offset -> len (code c) <= offset + 1 ->
  patch_u16 c offset value = inl IndexError.
Proof.
  intros H0 Hoff. unfold patch_u16.
  destruct (py_set (code c) offset _) as [e|code1] eqn:H1.
  - unfold py_set in H1. destruct (py_pos _ _); [done|]. by injection H1 as <-.
  - rewrite py_set_ge; [done|]. apply py_set_length in H1. unfold len in *. lia.
Qed.

Lemma patch_u16_out_of_range_witness :
  patch_u16 (mkChunk [9; 0] [1; 1] []) 1 7 = inl IndexError.
Proof. apply patch_u16_out_of_range; vm_compute; discriminate. Defined.

(** ** The compiler: what a chunk holds *)

Lemma chunk_extends_refl c : chunk_extends c c.
Proof. repeat split; exists []; by rewrite app_nil_r. Qed.

Lemma chunk_extends_trans c1 c2 c3 :
  chunk_extends c1 c2 -> chunk_extends c2 c3 -> chunk_extends c1 c3.
Proof.
  intros ([b1 H1] & [l1 H2] & [k1 H3]) ([b2 H4] & [l2 H5] & [k2 H6]).
  repeat split.
  - exists (b1 ++ b2). by rewrite H4, H1, app_assoc.
  - exists (l1 ++ l2). by rewrite H5, H2, app_assoc.
  - exists (k1 ++ k2). by rewrite H6, H3, app_assoc.
Qed.

Lemma chunk_extends_emitted c bs line : chunk_extends c (emitted c bs line).
Proof.
  repeat split; simpl; [by eexists|by eexists|]. exists []. by rewrite app_nil_r.
Qed.

Lemma emitted_emitted c bs bs' line :
  emitted (emitted c bs line) bs' line = emitted c (bs ++ bs') line.
Proof. unfold emitted. simpl. by rewrite map_app, !app_assoc. Qed.

Lemma emit_byte_eq b line c : emit_byte b line c = (inr tt, emitted c [b] line).
Proof. reflexivity. Qed.

Lemma emit_eq o line c : emit o line c = (inr tt, emitted c [OpCode_value o] line).
Proof. reflexivity. Qed.

Lemma emit_u16_eq v line c :
  emit_u16 v line c = (inr tt, emitted c [hi_byte v; lo_byte v] line).
Proof.
  unfold emit_u16, bind, get, put, write_u16, write, emitted. simpl.
  by rewrite <- !app_assoc.
Qed.

(** An opcode and its 16-bit operand. *)
Lemma emit_operand_eq o v line c :
  (let* _ := emit o line in emit_u16 v line) c
  = (inr tt, emitted c [OpCode_value o; hi_byte v; lo_byte v] line).
Proof. unfold bind. rewrite emit_eq, emit_u16_eq. by rewrite emitted_emitted. Qed.

Lemma emit_call_eq i n line c :
  emit_call i n line c = (inr tt, emitted c [OpCode_value CALL; hi_byte i; lo_byte i; n] line).
Proof.
  unfold emit_call, bind. rewrite emit_eq, emit_u16_eq, emit_byte_eq.
  by rewrite !emitted_emitted.
Qed.

Lemma emit_jump_eq o line c :
  emit_jump o line c = (inr (len (code c) + 1), emitted c [OpCode_value o; 0; 0] line).
Proof.
  unfold emit_jump, bind. rewrite emit_eq. unfold current_offset, bind, get, ret.
  rewrite !emit_byte_eq, !emitted_emitted. simpl. rewrite len_app. reflexivity.
Qed.

Lemma emit_loop_eq start line c :
  emit_loop start line c
  = (inr tt, emitted c [OpCode_value JMP; hi_byte start; lo_byte start] line).
Proof. apply emit_operand_eq. Qed.

Section Emits.
Lemma em_ret {A} (a : A) : emits [] (ret a).
  Proof.
    intros c x c' [= _ <-]. split; [apply chunk_extends_refl|by rewrite app_nil_r].
  Qed.

Lemma em_raise {A} ks e : emits ks (@raise Chunk A e).
  Proof. by intros c x c'. Qed.

Lemma em_bind {A B} ks1 ks2 ks (m : compM A) (k : A -> compM B) :
    emits ks1 m -> (forall a, emits ks2 (k a)) -> ks = ks1 ++ ks2 -> emits ks (bind m k).
  Proof.
    intros Hm Hk -> c x c' H. apply bind_inr in H as (a & c1 & H1 & H2).
    apply Hm in H1 as [E1 K1]. apply Hk in H2 as [E2 K2].
    split; [by eapply chunk_extends_trans|]. by rewrite K2, K1, app_assoc.
  Qed.

Lemma em_emitted {A} (m : compM A) bs line a :
    (forall c, m c = (inr a, emitted c bs line)) -> emits [] m.
  Proof.
    intros Hm c x c' H. rewrite Hm in H. injection H as _ <-.
    split; [apply chunk_extends_emitted|]. simpl. by rewrite app_nil_r.
  Qed.

Lemma em_emit o line : emits [] (emit o line).
  Proof. eapply em_emitted. apply emit_eq. Qed.

Lemma em_operand o v line : emits [] (let* _ := emit o line in emit_u16 v line).
  Proof. eapply em_emitted. apply emit_operand_eq. Qed.

Lemma em_emit_call i n line : emits [] (emit_call i n line).
  Proof. eapply em_emitted. apply emit_call_eq. Qed.

Lemma em_binding_for_node rp nid : emits [] (binding_for_node rp nid).
  Proof.
    unfold binding_for_node. destruct (var_bindings rp !! nid); [apply em_ret|apply em_raise].
  Qed.

Lemma em_for_each {A} (f : A -> compM unit) (lit : A -> list Z) (l : list A) :
    Forall (fun a => emits (lit a) (f a)) l -> emits (flat_map lit l) (for_each f l).
  Proof.
    induction 1 as [|a l Ha _ IH]; [apply em_ret|].
    rewrite for_each_cons. simpl. by eapply em_bind.
  Qed.
End Emits.

Lemma em_compile_expr rp e : emits (expr_literals e) (compile_expr rp e).
Proof.
  induction e as [line v|nid line n|nid line n v IH|line l op r IHl IHr|nid line cal args IH]
    using Expr_nested_ind; simpl.
  - intros c x c' H. unfold bind at 1, get in H. unfold bind at 1, put in H.
    rewrite emit_operand_eq in H. injection H as _ <-.
    split; [|done].
    repeat split; simpl; [by eexists|by eexists|by eexists].
  - eapply em_bind; [apply em_binding_for_node|intros [b|b]; apply em_operand|done].
  - eapply (em_bind [] (expr_literals v)); [apply em_binding_for_node|intros b|done].
    eapply (em_bind (expr_literals v) []); [exact IH| |by rewrite app_nil_r].
    intros _. destruct b as [b|b];
      (eapply (em_bind [] []); [apply em_operand|intros; apply em_operand|done]).
  - eapply em_bind; [exact IHl|intros _|reflexivity].
    eapply (em_bind (expr_literals r) []); [exact IHr| |by rewrite app_nil_r].
    intros _. destruct (op_map op); [apply em_emit|apply em_raise].
  - destruct (call_targets rp !! nid); [|apply em_raise].
    destruct (rp_functions rp !! _); [|apply em_raise].
    eapply (em_bind (flat_map expr_literals args) []);
      [by apply em_for_each|intros; apply em_emit_call|by rewrite app_nil_r].
Qed.

Lemma em_compile_var_decl rp d :
  emits (expr_literals (initializer d)) (compile_var_decl rp d).
Proof.
  unfold compile_var_decl.
  eapply (em_bind [] (expr_literals (initializer d))); [apply em_binding_for_node|intros b|done].
  eapply (em_bind (expr_literals (initializer d)) []);
    [apply em_compile_expr| |by rewrite app_nil_r].
  intros _. destruct b as [b|b]; apply em_operand.
Qed.

(** An expression and the opcode after it. *)
Lemma em_expr_then rp e o line :
  emits (expr_literals e) (let* _ := compile_expr rp e in emit o line).
Proof.
  eapply (em_bind (expr_literals e) []);
    [apply em_compile_expr|intros; apply em_emit|by rewrite app_nil_r].
Qed.

Lemma insert_middle {A} (pre post : list A) (a x : A) :
  <[length pre := x]> (pre ++ a :: post) = pre ++ x :: post.
Proof.
  rewrite insert_app_r_alt by lia. by rewrite Nat.sub_diag.
Qed.

Lemma patch_u16_mid c pre a b post v :
  code c = pre ++ [a; b] ++ post ->
  patch_u16 c (len pre) v
  = inr (mkChunk (pre ++ [hi_byte v; lo_byte v] ++ post) (lines c) (constants c)).
Proof.
  intros Hc. unfold len. rewrite patch_u16_ok by (rewrite Hc, !length_app; simpl; lia).
  f_equal. f_equal. rewrite Hc. simpl. rewrite insert_middle.
  replace (S (length pre)) with (length (pre ++ [hi_byte v])) by (rewrite length_app; simpl; lia).
  replace (pre ++ hi_byte v :: b :: post) with ((pre ++ [hi_byte v]) ++ b :: post)
    by (by rewrite <- app_assoc).
  rewrite insert_middle. by rewrite <- app_assoc.
Qed.

(** A patch of a jump whose placeholder starts at [len pre]: the
    target is the length of the code. *)
Lemma patch_jump_mid c pre post :
  code c = pre ++ [0; 0] ++ post ->
  patch_jump (len pre) c
  = (inr tt, mkChunk (pre ++ [hi_byte (len (code c)); lo_byte (len (code c))] ++ post)
                     (lines c) (constants c)).
Proof.
  intros Hc. unfold patch_jump, bind, get, lift, put.
  by rewrite (patch_u16_mid c pre 0 0 post _ Hc).
Qed.

Lemma patch_jump_mid_inv c pre post c' :
  code c = pre ++ [0; 0] ++ post ->
  patch_jump (len pre) c = (inr tt, c') ->
  c' = mkChunk (pre ++ [hi_byte (len (code c)); lo_byte (len (code c))] ++ post)
               (lines c) (constants c).
Proof. intros Hc H. rewrite (patch_jump_mid _ _ _ Hc) in H. by injection H as <-. Qed.

(** ** The compiler: jumps *)

Lemma chunk_extends_code c c' : chunk_extends c c' -> exists bs, code c' = code c ++ bs.
Proof. by intros (H & _ & _). Qed.

Lemma current_offset_eq c : current_offset c = (inr (len (code c)), c).
Proof. reflexivity. Qed.

(** The code of a [while] statement, given what the body emits. *)
Lemma compile_while_layout rp line cond body c c' :
  emits (stmt_literals body) (compile_stmt rp body) ->
  compile_stmt rp (WhileStmt line cond body) c = (inr tt, c') ->
  exists c1 c3 cond_code body_code,
    compile_expr rp cond c = (inr tt, c1)
    /\ code c1 = code c ++ cond_code
    /\ compile_stmt rp body (emitted c1 [OpCode_value JMP_IF_FALSE; 0; 0] line) = (inr tt, c3)
    /\ code c3 = code c1 ++ [OpCode_value JMP_IF_FALSE; 0; 0] ++ body_code
    /\ code c'
       = code c ++ cond_code
         ++ [OpCode_value JMP_IF_FALSE; hi_byte (len (code c')); lo_byte (len (code c'))]
         ++ body_code
         ++ [OpCode_value JMP; hi_byte (len (code c)); lo_byte (len (code c))]
    /\ lines c' = lines c3 ++ [line; line; line]
    /\ constants c' = constants c3.
Proof.
  intros IH H. cbn [compile_stmt] in H.
  apply bind_inr in H as (start & c0 & H0 & H). rewrite current_offset_eq in H0.
  injection H0 as <- <-.
  apply bind_inr in H as ([] & c1 & Hcond & H).
  apply bind_inr in H as (exit_jump & c2 & Hj & H). rewrite emit_jump_eq in Hj.
  injection Hj as <- <-.
  apply bind_inr in H as ([] & c3 & Hbody & H).
  apply bind_inr in H as ([] & c4 & Hloop & H). rewrite emit_loop_eq in Hloop.
  injection Hloop as <-.
  destruct (em_compile_expr rp cond _ _ _ Hcond) as [E1 _].
  destruct (chunk_extends_code _ _ E1) as [cond_code Hc1].
  destruct (IH _ _ _ Hbody) as [E3 _].
  destruct (chunk_extends_code _ _ E3) as [body_code Hc3]. cbn [emitted code] in Hc3.
  set (tail := body_code ++ [OpCode_value JMP; hi_byte (len (code c)); lo_byte (len (code c))]).
  assert (Hc4 : code (emitted c3 [OpCode_value JMP; hi_byte (len (code c));
                                  lo_byte (len (code c))] line)
                = (code c1 ++ [OpCode_value JMP_IF_FALSE]) ++ [0; 0] ++ tail).
  { cbn [emitted code]. rewrite Hc3. subst tail. by rewrite <- !app_assoc. }
  replace (len (code c1) + 1) with (len (code c1 ++ [OpCode_value JMP_IF_FALSE])) in H
    by (rewrite len_app; reflexivity).
  apply (patch_jump_mid_inv _ _ _ _ Hc4) in H. subst c'.
  exists c1, c3, cond_code, body_code.
  split; [done|]. split; [done|]. split; [done|].
  split; [by rewrite Hc3, <- !app_assoc|].
  cbn [code lines constants emitted]. split; [|done].
  assert (Hlen : len ((code c1 ++ [OpCode_value JMP_IF_FALSE])
                      ++ [hi_byte (len (code c3 ++ [OpCode_value JMP; hi_byte (len (code c));
                                                    lo_byte (len (code c))]));
                          lo_byte (len (code c3 ++ [OpCode_value JMP; hi_byte (len (code c));
                                                    lo_byte (len (code c))]))] ++ tail)
                 = len (code c3 ++ [OpCode_value JMP; hi_byte (len (code c));
                                    lo_byte (len (code c))])).
  { rewrite Hc3. subst tail. rewrite !len_app. unfold len. simpl. lia. }
  rewrite Hlen. rewrite Hc1. subst tail. by rewrite <- !app_assoc.
Qed.

Lemma em_compile_while rp line cond body :
  emits (stmt_literals body) (compile_stmt rp body) ->
  emits (expr_literals cond ++ stmt_literals body)
        (compile_stmt rp (WhileStmt line cond body)).
Proof.
  intros IH c [] c' H.
  destruct (compile_while_layout _ _ _ _ _ _ IH H)
    as (c1 & c3 & cb & bb & Hcond & Hc1 & Hbody & Hc3 & Hcode & Hlines & Hconst).
  destruct (em_compile_expr rp cond _ _ _ Hcond) as [(_ & [l1 L1] & _) K1].
  destruct (IH _ _ _ Hbody) as [(_ & [l3 L3] & _) K3].
  cbn [emitted lines constants] in L3, K3.
  split; [repeat split|].
  - eexists. exact Hcode.
  - eexists. rewrite Hlines, L3, L1. by rewrite <- !app_assoc.
  - eexists. by rewrite Hconst, K3, K1, <- app_assoc.
  - by rewrite Hconst, K3, K1, <- app_assoc.
Qed.

(** The code of an [if] statement without [else], and with [else]. *)
Lemma compile_if_layout rp line cond then_branch c c' :
  emits (stmt_literals then_branch) (compile_stmt rp then_branch) ->
  compile_stmt rp (IfStmt line cond then_branch None) c = (inr tt, c') ->
  exists c1 c3 cond_code then_code,
    compile_expr rp cond c = (inr tt, c1)
    /\ code c1 = code c ++ cond_code
    /\ compile_stmt rp then_branch (emitted c1 [OpCode_value JMP_IF_FALSE; 0; 0] line)
       = (inr tt, c3)
    /\ code c3 = code c1 ++ [OpCode_value JMP_IF_FALSE; 0; 0] ++ then_code
    /\ code c'
       = code c ++ cond_code
         ++ [OpCode_value JMP_IF_FALSE; hi_byte (len (code c')); lo_byte (len (code c'))]
         ++ then_code
    /\ lines c' = lines c3
    /\ constants c' = constants c3.
Proof.
  intros IH H. cbn [compile_stmt] in H.
  apply bind_inr in H as ([] & c1 & Hcond & H).
  apply bind_inr in H as (jump_else & c2 & Hj & H). rewrite emit_jump_eq in Hj.
  injection Hj as <- <-.
  apply bind_inr in H as ([] & c3 & Hthen & H).
  destruct (em_compile_expr rp cond _ _ _ Hcond) as [E1 _].
  destruct (chunk_extends_code _ _ E1) as [cond_code Hc1].
  destruct (IH _ _ _ Hthen) as [E3 _].
  destruct (chunk_extends_code _ _ E3) as [then_code Hc3]. cbn [emitted code] in Hc3.
  assert (Hc3' : code c3 = (code c1 ++ [OpCode_value JMP_IF_FALSE]) ++ [0; 0] ++ then_code)
    by (by rewrite Hc3, <- !app_assoc).
  replace (len (code c1) + 1) with (len (code c1 ++ [OpCode_value JMP_IF_FALSE])) in H
    by (rewrite len_app; reflexivity).
  apply (patch_jump_mid_inv _ _ _ _ Hc3') in H. subst c'.
  exists c1, c3, cond_code, then_code.
  split; [done|]. split; [done|]. split; [done|].
  split; [by rewrite Hc3, <- !app_assoc|].
  cbn [code lines constants]. split; [|done].
  assert (Hlen : len ((code c1 ++ [OpCode_value JMP_IF_FALSE])
                      ++ [hi_byte (len (code c3)); lo_byte (len (code c3))] ++ then_code)
                 = len (code c3)).
  { rewrite Hc3. rewrite !len_app. unfold len. simpl. lia. }
  rewrite Hlen, Hc1. by rewrite <- !app_assoc.
Qed.

Lemma compile_if_else_layout rp line cond then_branch else_branch c c' :
  emits (stmt_literals then_branch) (compile_stmt rp then_branch) ->
  emits (stmt_literals else_branch) (compile_stmt rp else_branch) ->
  compile_stmt rp (IfStmt line cond then_branch (Some else_branch)) c = (inr tt, c') ->
  exists c1 c3 c5 c6 cond_code then_code else_code,
    compile_expr rp cond c = (inr tt, c1)
    /\ code c1 = code c ++ cond_code
    /\ compile_stmt rp then_branch (emitted c1 [OpCode_value JMP_IF_FALSE; 0; 0] line)
       = (inr tt, c3)
    /\ code c3 = code c1 ++ [OpCode_value JMP_IF_FALSE; 0; 0] ++ then_code
    /\ code c5
       = code c ++ cond_code
         ++ [OpCode_value JMP_IF_FALSE; hi_byte (len (code c5)); lo_byte (len (code c5))]
         ++ then_code ++ [OpCode_value JMP; 0; 0]
    /\ compile_stmt rp else_branch c5 = (inr tt, c6)
    /\ code c6 = code c5 ++ else_code
    /\ code c'
       = code c ++ cond_code
         ++ [OpCode_value JMP_IF_FALSE; hi_byte (len (code c5)); lo_byte (len (code c5))]
         ++ then_code
         ++ [OpCode_value JMP; hi_byte (len (code c')); lo_byte (len (code c'))]
         ++ else_code
    /\ (exists ls, lines c' = lines c ++ ls)
    /\ constants c'
       = constants c ++ expr_literals cond ++ stmt_literals then_branch
         ++ stmt_literals else_branch
    /\ constants c5 = constants c3
    /\ constants c' = constants c6.
Proof.
  intros IHt IHe H. cbn [compile_stmt] in H.
  apply bind_inr in H as ([] & c1 & Hcond & H).
  apply bind_inr in H as (jump_else & c2 & Hj & H). rewrite emit_jump_eq in Hj.
  injection Hj as <- <-.
  apply bind_inr in H as ([] & c3 & Hthen & H).
  apply bind_inr in H as (jump_end & c4 & Hj & H). rewrite emit_jump_eq in Hj.
  injection Hj as <- <-.
  destruct (em_compile_expr rp cond _ _ _ Hcond) as [(E1 & [l1 L1] & _) K1].
  destruct E1 as [cond_code Hc1].
  destruct (IHt _ _ _ Hthen) as [([then_code Hc3] & [l3 L3] & _) K3].
  cbn [emitted code lines constants] in Hc3, L3, K3.
  apply bind_inr in H as ([] & c5 & Hp & H).
  assert (Hc4 : code (emitted c3 [OpCode_value JMP; 0; 0] line)
                = (code c1 ++ [OpCode_value JMP_IF_FALSE]) ++ [0; 0]
                  ++ (then_code ++ [OpCode_value JMP; 0; 0])).
  { cbn [emitted code]. rewrite Hc3. by rewrite <- !app_assoc. }
  replace (len (code c1) + 1) with (len (code c1 ++ [OpCode_value JMP_IF_FALSE])) in Hp
    by (rewrite len_app; reflexivity).
  apply (patch_jump_mid_inv _ _ _ _ Hc4) in Hp.
  set (else_start := len (code (emitted c3 [OpCode_value JMP; 0; 0] line))) in *.
  assert (Hc5 : code c5
                = code c ++ cond_code
                  ++ [OpCode_value JMP_IF_FALSE; hi_byte else_start; lo_byte else_start]
                  ++ then_code ++ [OpCode_value JMP; 0; 0]).
  { rewrite Hp. cbn [code]. rewrite Hc1. by rewrite <- !app_assoc. }
  assert (Hl5 : len (code c5) = else_start).
  { rewrite Hc5. subst else_start. cbn [emitted code]. rewrite Hc3, Hc1, !len_app.
    unfold len. simpl. lia. }
  assert (L5 : lines c5 = lines c3 ++ [line; line; line]) by (by rewrite Hp).
  assert (K5 : constants c5 = constants c3) by (by rewrite Hp).
  clear Hp Hc4.
  apply bind_inr in H as ([] & c6 & Helse & H).
  destruct (IHe _ _ _ Helse) as [([else_code Hc6] & [l6 L6] & _) K6].
  assert (Hc6' : code c6
                 = (code c ++ cond_code
                    ++ [OpCode_value JMP_IF_FALSE; hi_byte else_start; lo_byte else_start]
                    ++ then_code ++ [OpCode_value JMP])
                   ++ [0; 0] ++ else_code).
  { rewrite Hc6, Hc5. by rewrite <- !app_assoc. }
  replace (len (code c3) + 1)
    with (len (code c ++ cond_code
               ++ [OpCode_value JMP_IF_FALSE; hi_byte else_start; lo_byte else_start]
               ++ then_code ++ [OpCode_value JMP])) in H
    by (rewrite Hc3, Hc1, !len_app; unfold len; simpl; lia).
  apply (patch_jump_mid_inv _ _ _ _ Hc6') in H. subst c'.
  exists c1, c3, c5, c6, cond_code, then_code, else_code.
  rewrite Hl5. cbn [code lines constants].
  split; [done|]. split; [done|]. split; [done|].
  split; [by rewrite Hc3, <- !app_assoc|].
  split; [done|]. split; [done|]. split; [done|].
  split.
  { assert (Hlen : len ((code c ++ cond_code
                         ++ [OpCode_value JMP_IF_FALSE; hi_byte else_start;
                             lo_byte else_start]
                         ++ then_code ++ [OpCode_value JMP])
                        ++ [hi_byte (len (code c6)); lo_byte (len (code c6))] ++ else_code)
                   = len (code c6)).
    { rewrite Hc6'. rewrite !len_app. unfold len. simpl. lia. }
    rewrite Hlen. by rewrite <- !app_assoc. }
  split.
  { eexists. rewrite L6, L5, L3, L1. by rewrite <- !app_assoc. }
  split; [by rewrite K6, K5, K3, K1, <- !app_assoc|]. done.
Qed.

Lemma em_compile_stmt rp s : emits (stmt_literals s) (compile_stmt rp s).
Proof.
  induction s as [d|statements IH|line expr|line expr|line c t e IHt IHe|line c b IHb|line v]
    using Stmt_nested_ind; cbn [stmt_literals].
  - apply em_compile_var_decl.
  - cbn [compile_stmt]. by apply em_for_each.
  - apply em_expr_then.
  - apply em_expr_then.
  - destruct e as [e|].
    + intros c0 [] c' H.
      destruct (compile_if_else_layout _ _ _ _ _ _ _ IHt (IHe e eq_refl) H)
        as (c1 & c3 & c5 & c6 & cb & tb & eb & _ & _ & _ & _ & _ & _ & _
            & Hcode & Hlines & Hconst & _).
      split; [repeat split|done].
      * eexists. exact Hcode.
      * exact Hlines.
      * eexists. exact Hconst.
    + intros c0 [] c' H.
      destruct (compile_if_layout _ _ _ _ _ _ IHt H)
        as (c1 & c3 & cb & tb & Hcond & Hc1 & Hthen & Hc3 & Hcode & Hlines & Hconst).
      destruct (em_compile_expr rp c _ _ _ Hcond) as [(_ & [l1 L1] & _) K1].
      destruct (IHt _ _ _ Hthen) as [(_ & [l3 L3] & _) K3].
      cbn [emitted lines constants] in L3, K3. rewrite app_nil_r.
      split; [repeat split|].
      * eexists. exact Hcode.
      * eexists. rewrite Hlines, L3, L1. by rewrite <- !app_assoc.
      * eexists. by rewrite Hconst, K3, K1, <- app_assoc.
      * by rewrite Hconst, K3, K1, <- app_assoc.
  - by apply em_compile_while.
  - apply em_expr_then.
Qed.

Lemma em_compile_block rp statements :
  emits (flat_map stmt_literals statements) (compile_block rp statements).
Proof. apply em_for_each, Forall_forall. intros; apply em_compile_stmt. Qed.

(** X17: the constant pool of a compiled function is the list of the
    integer literals of its body, in source order, one entry for each
    occurrence: equal literals are not shared and nothing else is put
    in the pool. *)
Theorem constant_pool_is_the_literals (rp : ResolvedProgram) (symbol : FunctionSymbol)
    (f : BytecodeFunction) :
  compile_function rp symbol = inr f ->
  constants (chunk f) = flat_map stmt_literals (fd_body (fs_decl symbol)).
Proof.
  unfold compile_function, build_chunk.
  destruct (compile_block rp _ empty_chunk) as [[e|[]] c] eqn:H; [done|].
  intros [= <-]. cbn [chunk].
  by destruct (em_compile_block _ _ _ _ _ H) as [_ ->].
Qed.

Lemma constant_pool_is_the_literals_witness :
  let rp := from_inr (mkResolvedProgram prog_loop [] [] ∅ ∅) (resolve prog_loop) in
  let symbol := resolved_symbol 0 (mkFunctionDecl 2 "main" []
      [SVarDecl (mkVarDecl 2 3 "i" true (IntLiteral 3 0));
       WhileStmt 4 (BinaryExpr 4 (VarExpr 3 4 "i") "-" (IntLiteral 4 3))
         (BlockStmt
            [ExprStmt 5 (AssignExpr 4 5 "g"
                           (BinaryExpr 5 (VarExpr 5 5 "g") "+" (VarExpr 6 5 "i")));
             ExprStmt 6 (AssignExpr 7 6 "i"
                           (BinaryExpr 6 (VarExpr 8 6 "i") "+" (IntLiteral 6 1)))]);
       PrintStmt 7 (VarExpr 9 7 "g");
       ReturnStmt 8 (VarExpr 10 8 "g")]) in
  let f := from_inr (mkBytecodeFunction "" empty_chunk 0 0) (compile_function rp symbol) in
  compile_function rp symbol = inr f /\ constants (chunk f) = [0; 3; 1].
Proof.
  intros rp symbol f.
  assert (H : compile_function rp symbol = inr f) by (vm_compute; reflexivity).
  split; [exact H|]. exact (constant_pool_is_the_literals rp symbol f H).
Defined.

(** X18: compiling a statement only appends to the chunk.  The bytes,
    the lines and the constants that the chunk held before are still
    there, at the same positions; the patches of the jumps of the
    statement fall inside the bytes that the statement itself
    emitted. *)
Theorem compile_stmt_only_appends (rp : ResolvedProgram) (s : Stmt) (c c' : Chunk) :
  compile_stmt rp s c = (inr tt, c') ->
  (exists bs, code c' = code c ++ bs)
  /\ (exists ls, lines c' = lines c ++ ls)
  /\ constants c' = constants c ++ stmt_literals s.
Proof.
  intros H. destruct (em_compile_stmt _ _ _ _ _ H) as [(Hc & Hl & _) Hk]. done.
Qed.

Lemma compile_stmt_only_appends_witness :
  let rp := mkResolvedProgram (mkProgram []) [] [] ∅ ∅ in
  let s := IfStmt 2 (IntLiteral 2 1) (PrintStmt 2 (IntLiteral 2 7)) None in
  let c := mkChunk [0; 0; 0; 14] [1; 1; 1; 1] [5] in
  let c' := snd (compile_stmt rp s c) in
  (exists bs, code c' = [0; 0; 0; 14] ++ bs)
  /\ (exists ls, lines c' = [1; 1; 1; 1] ++ ls)
  /\ constants c' = [5] ++ [1; 7].
Proof.
  intros rp s c c'.
  apply (compile_stmt_only_appends rp s c c'). vm_compute. reflexivity.
Defined.

(** X19: the code of a [while] statement compiled at offset
    [len (code c)] is the code of the condition, a [JMP_IF_FALSE], the
    code of the body and a [JMP]; the operand of the [JMP] encodes the
    offset of the first byte of the condition, and the operand of the
    [JMP_IF_FALSE] encodes the offset just past the [JMP], the end of
    the chunk at that time. *)
Theorem while_loop_layout (rp : ResolvedProgram) (line : Z) (cond : Expr) (body : Stmt)
    (c c' : Chunk) :
  compile_stmt rp (WhileStmt line cond body) c = (inr tt, c') ->
  exists c1 c3 cond_code body_code,
    compile_expr rp cond c = (inr tt, c1)
    /\ code c1 = code c ++ cond_code
    /\ compile_stmt rp body (emitted c1 [OpCode_value JMP_IF_FALSE; 0; 0] line) = (inr tt, c3)
    /\ code c3 = code c1 ++ [OpCode_value JMP_IF_FALSE; 0; 0] ++ body_code
    /\ code c'
       = code c ++ cond_code
         ++ [OpCode_value JMP_IF_FALSE; hi_byte (len (code c')); lo_byte (len (code c'))]
         ++ body_code
         ++ [OpCode_value JMP; hi_byte (len (code c)); lo_byte (len (code c))].
Proof.
  intros H.
  destruct (compile_while_layout _ _ _ _ _ _ (em_compile_stmt rp body) H)
    as (c1 & c3 & cb & bb & H1 & H2 & H3 & H4 & H5 & _).
  by exists c1, c3, cb, bb.
Qed.

Lemma while_loop_layout_witness :
  let rp := mkResolvedProgram (mkProgram []) [] [] ∅ ∅ in
  let c := mkChunk [0; 0; 0; 14] [1; 1; 1; 1] [5] in
  let c' := snd (compile_stmt rp (WhileStmt 2 (IntLiteral 2 1) (PrintStmt 3 (IntLiteral 3 7))) c) in
  code c' = [0; 0; 0; 14] ++ [0; 0; 1] ++ [10; 0; 17] ++ [0; 0; 2; 13] ++ [9; 0; 4]
  /\ exists c1 c3 cond_code body_code,
    compile_expr rp (IntLiteral 2 1) c = (inr tt, c1)
    /\ code c1 = code c ++ cond_code
    /\ compile_stmt rp (PrintStmt 3 (IntLiteral 3 7))
         (emitted c1 [OpCode_value JMP_IF_FALSE; 0; 0] 2) = (inr tt, c3)
    /\ code c3 = code c1 ++ [OpCode_value JMP_IF_FALSE; 0; 0] ++ body_code
    /\ code c'
       = code c ++ cond_code
         ++ [OpCode_value JMP_IF_FALSE; hi_byte (len (code c')); lo_byte (len (code c'))]
         ++ body_code
         ++ [OpCode_value JMP; hi_byte (len (code c)); lo_byte (len (code c))].
Proof.
  intros rp c c'. split; [vm_compute; reflexivity|].
  apply (while_loop_layout rp 2 (IntLiteral 2 1) (PrintStmt 3 (IntLiteral 3 7)) c c').
  vm_compute. reflexivity.
Defined.

(** X20: the code of an [if] statement is the code of the condition, a
    [JMP_IF_FALSE] and the code of the then-branch; without [else] the
    operand of the [JMP_IF_FALSE] encodes the offset just past the
    then-branch.  With [else], a [JMP] follows the then-branch and the
    code of the else-branch follows the [JMP]: the [JMP_IF_FALSE] leads
    to the first byte of the else-branch and the [JMP] to the offset
    just past it. *)
Theorem if_jump_targets (rp : ResolvedProgram) (line : Z) (cond : Expr)
    (then_branch : Stmt) (else_branch : option Stmt) (c c' : Chunk) :
  compile_stmt rp (IfStmt line cond then_branch else_branch) c = (inr tt, c') ->
  exists c1 c3 cond_code then_code,
    compile_expr rp cond c = (inr tt, c1)
    /\ code c1 = code c ++ cond_code
    /\ compile_stmt rp then_branch (emitted c1 [OpCode_value JMP_IF_FALSE; 0; 0] line)
       = (inr tt, c3)
    /\ code c3 = code c1 ++ [OpCode_value JMP_IF_FALSE; 0; 0] ++ then_code
    /\ match else_branch with
       | None =>
           code c'
           = code c ++ cond_code
             ++ [OpCode_value JMP_IF_FALSE; hi_byte (len (code c')); lo_byte (len (code c'))]
             ++ then_code
       | Some e =>
           exists c5 c6 else_code,
             code c5
             = code c ++ cond_code
               ++ [OpCode_value JMP_IF_FALSE; hi_byte (len (code c5)); lo_byte (len (code c5))]
               ++ then_code ++ [OpCode_value JMP; 0; 0]
             /\ compile_stmt rp e c5 = (inr tt, c6)
             /\ code c6 = code c5 ++ else_code
             /\ code c'
                = code c ++ cond_code
                  ++ [OpCode_value JMP_IF_FALSE; hi_byte (len (code c5));
                      lo_byte (len (code c5))]
                  ++ then_code
                  ++ [OpCode_value JMP; hi_byte (len (code c')); lo_byte (len (code c'))]
                  ++ else_code
       end.
Proof.
  intros H. destruct else_branch as [e|].
  - destruct (compile_if_else_layout _ _ _ _ _ _ _ (em_compile_stmt rp then_branch)
                (em_compile_stmt rp e) H)
      as (c1 & c3 & c5 & c6 & cb & tb & eb & H1 & H2 & H3 & H4 & H5 & H6 & H7 & H8 & _).
    exists c1, c3, cb, tb. repeat (split; [done|]). by exists c5, c6, eb.
  - destruct (compile_if_layout _ _ _ _ _ _ (em_compile_stmt rp then_branch) H)
      as (c1 & c3 & cb & tb & H1 & H2 & H3 & H4 & H5 & _).
    by exists c1, c3, cb, tb.
Qed.

Lemma if_jump_targets_witness :
  let rp := mkResolvedProgram (mkProgram []) [] [] ∅ ∅ in
  let s := IfStmt 2 (IntLiteral 2 1) (PrintStmt 3 (IntLiteral 3 7))
                  (Some (PrintStmt 4 (IntLiteral 4 8))) in
  let c' := snd (compile_stmt rp s empty_chunk) in
  code c' = [0; 0; 0] ++ [10; 0; 13] ++ [0; 0; 1; 13] ++ [9; 0; 17] ++ [0; 0; 2; 13]
  /\ exists c1 c3 cond_code then_code,
       compile_expr rp (IntLiteral 2 1) empty_chunk = (inr tt, c1)
       /\ code c1 = code empty_chunk ++ cond_code
       /\ compile_stmt rp (PrintStmt 3 (IntLiteral 3 7))
            (emitted c1 [OpCode_value JMP_IF_FALSE; 0; 0] 2) = (inr tt, c3)
       /\ code c3 = code c1 ++ [OpCode_value JMP_IF_FALSE; 0; 0] ++ then_code
       /\ exists c5 c6 else_code,
            code c5
            = code empty_chunk ++ cond_code
              ++ [OpCode_value JMP_IF_FALSE; hi_byte (len (code c5)); lo_byte (len (code c5))]
              ++ then_code ++ [OpCode_value JMP; 0; 0]
            /\ compile_stmt rp (PrintStmt 4 (IntLiteral 4 8)) c5 = (inr tt, c6)
            /\ code c6 = code c5 ++ else_code
            /\ code c'
               = code empty_chunk ++ cond_code
                 ++ [OpCode_value JMP_IF_FALSE; hi_byte (len (code c5));
                     lo_byte (len (code c5))]
                 ++ then_code
                 ++ [OpCode_value JMP; hi_byte (len (code c')); lo_byte (len (code c'))]
                 ++ else_code.
Proof.
  intros rp s c'. split; [vm_compute; reflexivity|].
  apply (if_jump_targets rp 2 (IntLiteral 2 1) (PrintStmt 3 (IntLiteral 3 7))
           (Some (PrintStmt 4 (IntLiteral 4 8))) empty_chunk c').
  vm_compute. reflexivity.
Defined.

Lemma Forall2_map_eq {A B C} (f : A -> C) (g : B -> C) (R : A -> B -> Prop) l1 l2 :
  (forall a b, R a b -> f a = g b) -> Forall2 R l1 l2 -> map f l1 = map g l2.
Proof.
  intros HR. induction 1 as [|a b l1 l2 Hab _ IH]; [done|]. simpl. by rewrite (HR _ _ Hab), IH.
Qed.

Lemma map_imap_resolved {C} (g : FunctionSymbol -> C) (h : FunctionDecl -> C)
    (l : list FunctionDecl) :
  (forall i d, g (resolved_symbol i d) = h d) ->
  map g (imap resolved_symbol l) = map h l.
Proof.
  intros Hg. apply list_eq. intros i.
  rewrite !list_lookup_fmap, list_lookup_imap.
  destruct (l !! i); simpl; [by rewrite Hg|done].
Qed.

(** X21: the layout of a compiled program.  Its functions are the
    function declarations of the source in source order, then the
    entry function, and the entry index is the number of declared
    functions; a function has the name and the parameter count of its
    declaration, and as many local slots as it has parameters and
    variable declarations anywhere in its body; the entry function is
    named [<entry>] and has no parameters and no locals; there is one
    global, initially zero, for each top-level variable. *)
Theorem compiled_program_layout (p : Program) (bp : BytecodeProgram) :
  compile_program p = inr bp ->
  map name (functions bp) = map fd_name (function_decls p) ++ ["<entry>"]
  /\ map arity (functions bp) = map (fun d => len (params d)) (function_decls p) ++ [0]
  /\ map num_locals (functions bp)
     = map (fun d => len (params d) + len (block_decls (fd_body d))) (function_decls p) ++ [0]
  /\ entry_index bp = len (function_decls p)
  /\ globals bp = map (fun _ => 0) (var_decls p).
Proof.
  unfold compile_program. destruct (resolve p) as [e|rp] eqn:Hres; [done|]. intros Hcomp.
  destruct (resolve_spec _ _ Hres) as [Hfs Hgs].
  assert (Hidx : forall j s, rp_functions rp !! j = Some s -> fs_index s = Z.of_nat j).
  { intros j s Hj. rewrite Hfs, list_lookup_imap in Hj.
    destruct (function_decls p !! j); [|done]. by injection Hj as <-. }
  destruct (compile_spec _ _ Hidx Hcomp) as (cs & entry & Hall & Hentry & ->).
  cbn [functions entry_index globals].
  assert (He : name entry = "<entry>" /\ arity entry = 0 /\ num_locals entry = 0).
  { unfold compile_entry_function in Hentry. destruct (build_chunk _); [done|].
    by injection Hentry as <-. }
  destruct He as (He1 & He2 & He3).
  assert (Hf : forall s f, compile_function rp s = inr f ->
                 name f = fs_name s /\ arity f = fs_arity s /\ num_locals f = max_locals s).
  { intros s f. unfold compile_function. destruct (build_chunk _); [done|].
    by intros [= <-]. }
  rewrite !map_app. cbn [map]. rewrite He1, He2, He3.
  split; [|split; [|split; [|split]]].
  - f_equal. symmetry.
    rewrite <- (map_imap_resolved fs_name fd_name (function_decls p)) by done.
    rewrite <- Hfs. apply (Forall2_map_eq _ _ _ _ _ (fun s f H => eq_sym (proj1 (Hf s f H))) Hall).
  - f_equal. symmetry.
    rewrite <- (map_imap_resolved fs_arity (fun d => len (params d)) (function_decls p)) by done.
    rewrite <- Hfs.
    apply (Forall2_map_eq _ _ _ _ _ (fun s f H => eq_sym (proj1 (proj2 (Hf s f H)))) Hall).
  - f_equal. symmetry.
    rewrite <- (map_imap_resolved max_locals
                  (fun d => len (params d) + len (block_decls (fd_body d)))
                  (function_decls p))
      by (intros; apply function_locals_length).
    rewrite <- Hfs.
    apply (Forall2_map_eq _ _ _ _ _ (fun s f H => eq_sym (proj2 (proj2 (Hf s f H)))) Hall).
  - apply Forall2_length in Hall. unfold len. rewrite <- Hall, Hfs, length_imap. done.
  - rewrite Hgs. apply list_eq. intros i.
    rewrite !list_lookup_fmap, list_lookup_imap. by destruct (var_decls p !! i).
Qed.

Lemma compiled_program_layout_witness :
  let bp := from_inr (mkBytecodeProgram [] [] 0) (compile_program prog_loop) in
  map name (functions bp) = ["main"; "<entry>"]
  /\ map arity (functions bp) = [0; 0]
  /\ map num_locals (functions bp) = [1; 0]
  /\ entry_index bp = 1
  /\ globals bp = [0].
Proof.
  intros bp. apply (compiled_program_layout prog_loop bp). vm_compute. reflexivity.
Defined.

(** ** The resolver: top-level names *)

Lemma declare_top_level_eq p : declare_top_level p = for_each declare_one (declarations p).
Proof. reflexivity. Qed.

Lemma declare_one_dup d r names :
  top_level_names r names -> decl_name d ∈ names ->
  declare_one d r = (inl (SemanticError (DuplicateDeclaration (decl_name d))), r).
Proof.
  intros Hn Hin. apply Hn in Hin.
  destruct d as [d|d]; simpl in *; unfold declare_global, declare_function, bind, get.
  - destruct (bool_decide (is_Some (_global_scope r !! vd_name d))) eqn:E1; [done|].
    destruct (bool_decide (is_Some (_functions_by_name r !! vd_name d))) eqn:E2; [done|].
    apply bool_decide_eq_false in E1, E2. tauto.
  - destruct (bool_decide (is_Some (_functions_by_name r !! fd_name d))) eqn:E1; [done|].
    destruct (bool_decide (is_Some (_global_scope r !! fd_name d))) eqn:E2; [done|].
    apply bool_decide_eq_false in E1, E2. tauto.
Qed.

Lemma declare_one_fresh d r names :
  top_level_names r names -> decl_name d ∉ names ->
  exists r', declare_one d r = (inr tt, r')
             /\ top_level_names r' (names ++ [decl_name d]).
Proof.
  intros Hn Hnot.
  assert (H1 : ~ is_Some (_global_scope r !! decl_name d)) by (intros H; apply Hnot, Hn; tauto).
  assert (H2 : ~ is_Some (_functions_by_name r !! decl_name d))
    by (intros H; apply Hnot, Hn; tauto).
  destruct d as [d|d]; simpl in *; unfold declare_global, declare_function, bind, get.
  - rewrite (bool_decide_eq_false_2 _ H1), (bool_decide_eq_false_2 _ H2). simpl.
    eexists. split; [reflexivity|]. intros n. simpl.
    rewrite elem_of_app, list_elem_of_singleton, (Hn n).
    destruct (decide (n = vd_name d)) as [->|Hne].
    + rewrite lookup_insert_eq. split; [eauto|]. eauto.
    + rewrite lookup_insert_ne by done. tauto.
  - rewrite (bool_decide_eq_false_2 _ H2), (bool_decide_eq_false_2 _ H1). simpl.
    eexists. split; [reflexivity|]. intros n. simpl.
    rewrite elem_of_app, list_elem_of_singleton, (Hn n).
    destruct (decide (n = fd_name d)) as [->|Hne].
    + rewrite lookup_insert_eq. split; [eauto|]. eauto.
    + rewrite lookup_insert_ne by done. tauto.
Qed.

Lemma declare_all_fresh (ds : list Declaration) : forall r names,
  top_level_names r names ->
  NoDup (names ++ map decl_name ds) ->
  exists r', for_each declare_one ds r = (inr tt, r')
             /\ top_level_names r' (names ++ map decl_name ds).
Proof.
  induction ds as [|d ds IH]; intros r names Hn Hnd.
  - exists r. simpl. by rewrite app_nil_r.
  - simpl in Hnd.
    assert (Hnot : decl_name d ∉ names).
    { apply NoDup_app in Hnd as (_ & Hdis & _). intros Hin. apply (Hdis _ Hin). left. }
    destruct (declare_one_fresh d r names Hn Hnot) as (r1 & H1 & Hn1).
    destruct (IH r1 (names ++ [decl_name d]) Hn1) as (r' & H' & Hn').
    { by rewrite <- app_assoc. }
    exists r'. rewrite for_each_cons. unfold bind. rewrite H1.
    split; [exact H'|]. by rewrite <- app_assoc in Hn'.
Qed.

Lemma declare_first_dup (pre : list Declaration) d post : forall r names,
  top_level_names r names ->
  NoDup (names ++ map decl_name pre) ->
  decl_name d ∈ names ++ map decl_name pre ->
  fst (for_each declare_one (pre ++ d :: post) r)
  = inl (SemanticError (DuplicateDeclaration (decl_name d))).
Proof.
  intros r names Hn Hnd Hin.
  destruct (declare_all_fresh pre r names Hn Hnd) as (r1 & H1 & Hn1).
  rewrite for_each_app. unfold bind. rewrite H1. rewrite for_each_cons. unfold bind.
  by rewrite (declare_one_dup d r1 _ Hn1 Hin).
Qed.

Lemma top_level_names_init : top_level_names Resolver_init [].
Proof.
  intros n. simpl. rewrite !lookup_empty. split.
  - intros H. by apply elem_of_nil in H.
  - intros [[x H]|[x H]]; done.
Qed.

Lemma declare_success_nodup (ds : list Declaration) : forall r names r',
  top_level_names r names -> NoDup names ->
  for_each declare_one ds r = (inr tt, r') ->
  NoDup (names ++ map decl_name ds).
Proof.
  induction ds as [|d ds IH]; intros r names r' Hn Hnd H.
  - simpl. by rewrite app_nil_r.
  - rewrite for_each_cons in H. apply bind_inr in H as ([] & r1 & H1 & H).
    destruct (decide (decl_name d ∈ names)) as [Hin|Hnot].
    + by rewrite (declare_one_dup d r names Hn Hin) in H1.
    + destruct (declare_one_fresh d r names Hn Hnot) as (r1' & H1' & Hn1).
      rewrite H1 in H1'. injection H1' as <-.
      apply (IH _ _ _ Hn1) in H.
      * simpl. by rewrite <- app_assoc in H.
      * apply NoDup_app. split; [done|]. split; [|apply NoDup_singleton].
        intros x Hx ->%list_elem_of_singleton. done.
Qed.

(** X22: top-level names are declared once.  [_declare_top_level]
    succeeds exactly on the programs whose top-level names, of
    variables and of functions together, are pairwise distinct; on a
    program with a repeated name, [resolve] raises the
    duplicate-declaration error for the first declaration that
    repeats the name of an earlier one. *)
Theorem top_level_names_declared_once (p : Program) :
  (NoDup (declared_names p) <-> exists r', declare_top_level p Resolver_init = (inr tt, r'))
  /\ forall pre d post,
       declarations p = pre ++ d :: post ->
       NoDup (map decl_name pre) ->
       decl_name d ∈ map decl_name pre ->
       resolve p = inl (SemanticError (DuplicateDeclaration (decl_name d))).
Proof.
  rewrite declare_top_level_eq. unfold declared_names. split; [split|].
  - intros Hnd.
    destruct (declare_all_fresh (declarations p) Resolver_init [] top_level_names_init Hnd)
      as (r' & H & _). by exists r'.
  - intros [r' H].
    apply (declare_success_nodup _ Resolver_init [] r' top_level_names_init (NoDup_nil_2) H).
  - intros pre d post Hp Hnd Hin.
    pose proof (declare_first_dup pre d post Resolver_init [] top_level_names_init Hnd Hin) as H.
    unfold resolve, resolve_m, bind at 1. rewrite declare_top_level_eq, Hp.
    destruct (for_each declare_one (pre ++ d :: post) Resolver_init) as [[e|[]] r1];
      simpl in *; [|done]. by injection H as ->.
Qed.

Lemma top_level_names_declared_once_witness :
  resolve (mkProgram [DVar (mkVarDecl 1 1 "f" true (IntLiteral 1 0));
                      DFun (mkFunctionDecl 2 "f" [] [ReturnStmt 2 (IntLiteral 2 0)])])
  = inl (SemanticError (DuplicateDeclaration "f")).
Proof.
  apply (proj2 (top_level_names_declared_once _)
           [DVar (mkVarDecl 1 1 "f" true (IntLiteral 1 0))]
           (DFun (mkFunctionDecl 2 "f" [] [ReturnStmt 2 (IntLiteral 2 0)])) []).
  - reflexivity.
  - apply NoDup_singleton.
  - apply list_elem_of_singleton. reflexivity.
Defined.

(** ** The resolver: scopes *)

Section ResKeeps.
Context {T : Type} (proj : Resolver -> T).

Lemma rk_ret {A} (a : A) : res_keeps proj (ret a).
  Proof. done. Qed.
Lemma rk_raise {A} e : res_keeps proj (@raise Resolver A e).
  Proof. done. Qed.
Lemma rk_get : res_keeps proj get.
  Proof. done. Qed.
Lemma rk_bind {A B} (m : resM A) (k : A -> resM B) :
    res_keeps proj m -> (forall a, res_keeps proj (k a)) -> res_keeps proj (bind m k).
  Proof.
    intros Hm Hk r. unfold bind. specialize (Hm r).
    destruct (m r) as [[e|a] r1]; simpl in *; [done|]. by rewrite Hk.
  Qed.
Lemma rk_for_each {A} (f : A -> resM unit) (l : list A) :
    Forall (fun a => res_keeps proj (f a)) l -> res_keeps proj (for_each f l).
  Proof.
    induction 1 as [|a l Ha _ IH]; [apply rk_ret|].
    rewrite for_each_cons. by apply rk_bind.
  Qed.
Lemma rk_inr {A} (m : resM A) r a r' :
    res_keeps proj m -> m r = (inr a, r') -> proj r' = proj r.
  Proof. intros Hm H. specialize (Hm r). by rewrite H in Hm. Qed.
End ResKeeps.

Lemma rk_lookup_name n : res_keeps scoping (lookup_name n).
Proof. intros r. unfold lookup_name, bind, get. by destruct (lookup_scopes _ _). Qed.

Lemma rk_record_binding nid b : res_keeps scoping (record_binding nid b).
Proof. done. Qed.

Lemma rk_deref f : res_keeps scoping (deref f).
Proof. intros r. unfold deref, bind, get. by destruct (_functions r !! f). Qed.

Lemma rk_append_local f b : res_keeps scoping (append_local f b).
Proof.
  intros r. unfold append_local, bind, get, deref, bind, get.
  by destruct (_functions r !! f).
Qed.

Lemma rk_resolve_expr e ctx : res_keeps scoping (resolve_expr e ctx).
Proof.
  induction e as [line v|nid line n|nid line n v IH|line l op r IHl IHr|nid line c args IH]
    using Expr_nested_ind; simpl.
  - apply rk_ret.
  - apply rk_bind; [apply rk_lookup_name|intros [b|]];
      [apply rk_record_binding|apply rk_raise].
  - apply rk_bind; [apply rk_lookup_name|intros [b|]]; [|apply rk_raise].
    destruct (negb (vb_mutable b)); [apply rk_raise|].
    apply rk_bind; [exact IH|intros; apply rk_record_binding].
  - apply rk_bind; [exact IHl|intros; exact IHr].
  - apply rk_bind; [apply rk_get|intros r0].
    destruct (_functions_by_name r0 !! c); [|apply rk_raise].
    apply rk_bind; [apply rk_deref|intros s].
    destruct (negb _); [apply rk_raise|].
    apply rk_bind; [by apply rk_for_each|intros _].
    apply rk_bind; [apply rk_get|intros r1]. done.
Qed.

Lemma same_below_refl {A} (l : list A) : same_below l l.
Proof. done. Qed.

Lemma same_below_trans {A} (l1 l2 l3 : list A) :
  same_below l1 l2 -> same_below l2 l3 -> same_below l1 l3.
Proof. intros [H1 H2] [H3 H4]. split; congruence. Qed.

Lemma same_below_snoc {A} (l l' : list A) (x : A) :
  same_below (l ++ [x]) l' -> exists y, l' = l ++ [y].
Proof.
  intros [H1 H2]. rewrite removelast_last in H1.
  destruct l' as [|z l'] using rev_ind.
  - rewrite length_app in H2. simpl in H2. lia.
  - rewrite removelast_last in H1. subst. by exists z.
Qed.

Lemma declare_local_scopes b r r' :
  declare_local b r = (inr tt, r') ->
  exists pre top,
    _scopes r = pre ++ [top]
    /\ _scopes r' = pre ++ [<[b_name b := LocalBinding b]> top]
    /\ _global_scope r' = _global_scope r.
Proof.
  unfold declare_local, bind, get, lift, py_pop.
  destruct (last (_scopes r)) as [top|] eqn:Hl; [|done].
  intros [= <-]. apply last_Some in Hl as [pre Hpre].
  exists pre, top. simpl. rewrite Hpre, removelast_last. done.
Qed.

(** What [_resolve_local_var] does to the scopes. *)
Lemma resolve_local_var_scopes d ctx ctx' r r' :
  resolve_local_var d ctx r = (inr ctx', r') ->
  exists pre top,
    _scopes r = pre ++ [top]
    /\ _scopes r'
       = pre ++ [<[vd_name d := LocalBinding (mkBinding (vd_name d) (vd_mutable d)
                                                  (next_local_index ctx))]> top]
    /\ _global_scope r' = _global_scope r.
Proof.
  unfold resolve_local_var. intros H.
  apply bind_inr in H as ([] & r1 & H1 & H).
  apply (rk_inr scoping _ _ _ _ (rk_resolve_expr _ _)) in H1. injection H1 as S1 G1.
  apply bind_inr in H as ([] & r2 & H2 & H).
  apply declare_local_scopes in H2 as (pre & top & S2 & S2' & G2). cbn [b_name] in S2'.
  apply bind_inr in H as ([] & r3 & H3 & H).
  apply (rk_inr scoping _ _ _ _ (rk_record_binding _ _)) in H3. injection H3 as S3 G3.
  apply bind_inr in H as ([] & r4 & H4 & H).
  apply (rk_inr scoping _ _ _ _ (rk_append_local _ _)) in H4. injection H4 as S4 G4.
  injection H as _ <-.
  exists pre, top. split; [congruence|]. split; congruence.
Qed.

Lemma push_scope_eq r :
  push_scope r = (inr tt, mkResolver (_global_scope r) (_globals r) (_functions r)
                            (_functions_by_name r) (_var_bindings r) (_call_targets r)
                            (_scopes r ++ [∅])).
Proof. reflexivity. Qed.

Lemma pop_scope_snoc r pre top r' :
  _scopes r = pre ++ [top] -> pop_scope r = (inr tt, r') ->
  _scopes r' = pre /\ _global_scope r' = _global_scope r.
Proof.
  intros Hs. unfold pop_scope, bind, get, lift. rewrite Hs, py_pop_snoc.
  by intros [= <-].
Qed.

Lemma for_each_with_scopes (statements : list Stmt) :
  Forall (fun s => forall ctx ctx' r r',
                     resolve_stmt s ctx r = (inr ctx', r') ->
                     same_below (_scopes r) (_scopes r')
                     /\ _global_scope r' = _global_scope r) statements ->
  forall ctx ctx' r r',
    for_each_with resolve_stmt statements ctx r = (inr ctx', r') ->
    same_below (_scopes r) (_scopes r') /\ _global_scope r' = _global_scope r.
Proof.
  induction 1 as [|s l Hs _ IH]; intros ctx ctx' r r' H.
  - by injection H as _ <-.
  - rewrite for_each_with_cons in H. apply bind_inr in H as (c1 & r1 & H1 & H).
    apply Hs in H1 as [S1 G1]. apply IH in H as [S2 G2].
    split; [by eapply same_below_trans|congruence].
Qed.

(** A block leaves the scope stack as it found it. *)
Lemma block_scopes (statements : list Stmt) ctx ctx' r r' :
  (forall ctx ctx' r r',
      for_each_with resolve_stmt statements ctx r = (inr ctx', r') ->
      same_below (_scopes r) (_scopes r') /\ _global_scope r' = _global_scope r) ->
  resolve_block statements ctx r = (inr ctx', r') ->
  _scopes r' = _scopes r /\ _global_scope r' = _global_scope r.
Proof.
  intros Hloop H. unfold resolve_block in H.
  apply bind_inr in H as ([] & r1 & H1 & H). rewrite push_scope_eq in H1.
  injection H1 as <-.
  apply bind_inr in H as (c1 & r2 & H2 & H).
  apply Hloop in H2 as [S2 G2]. cbn [_scopes _global_scope] in S2, G2.
  apply same_below_snoc in S2 as [y Hy].
  apply bind_inr in H as ([] & r3 & H3 & H).
  apply (pop_scope_snoc _ _ _ _ Hy) in H3 as [S3 G3].
  injection H as _ <-. split; congruence.
Qed.

Lemma resolve_stmt_scopes s : forall ctx ctx' r r',
  resolve_stmt s ctx r = (inr ctx', r') ->
  same_below (_scopes r) (_scopes r') /\ _global_scope r' = _global_scope r.
Proof.
  induction s as [d|statements IH|line expr|line expr|line c t e IHt IHe|line c b IHb|line v]
    using Stmt_nested_ind; intros ctx ctx' r r' H.
  - apply resolve_local_var_scopes in H as (pre & top & S & S' & G).
    split; [|done]. rewrite S, S'. split; [by rewrite !removelast_last|].
    by rewrite !length_app.
  - apply (block_scopes statements) in H as [S G]; [|by apply for_each_with_scopes].
    split; [by rewrite S|done].
  - simpl in H. apply bind_inr in H as ([] & r1 & H1 & H).
    apply (rk_inr scoping _ _ _ _ (rk_resolve_expr _ _)) in H1. injection H1 as S1 G1.
    injection H as _ <-. split; [by rewrite S1|done].
  - simpl in H. apply bind_inr in H as ([] & r1 & H1 & H).
    apply (rk_inr scoping _ _ _ _ (rk_resolve_expr _ _)) in H1. injection H1 as S1 G1.
    injection H as _ <-. split; [by rewrite S1|done].
  - simpl in H. apply bind_inr in H as ([] & r1 & H1 & H).
    apply (rk_inr scoping _ _ _ _ (rk_resolve_expr _ _)) in H1. injection H1 as S1 G1.
    apply bind_inr in H as (c1 & r2 & H2 & H). apply IHt in H2 as [S2 G2].
    rewrite S1 in S2. rewrite G1 in G2.
    destruct e as [e|].
    + apply (IHe e eq_refl) in H as [S3 G3].
      split; [by eapply same_below_trans|congruence].
    + by injection H as _ <-.
  - simpl in H. apply bind_inr in H as ([] & r1 & H1 & H).
    apply (rk_inr scoping _ _ _ _ (rk_resolve_expr _ _)) in H1. injection H1 as S1 G1.
    apply IHb in H as [S2 G2]. rewrite S1 in S2. split; [done|congruence].
  - simpl in H. apply bind_inr in H as ([] & r1 & H1 & H).
    apply (rk_inr scoping _ _ _ _ (rk_resolve_expr _ _)) in H1. injection H1 as S1 G1.
    injection H as _ <-. split; [by rewrite S1|done].
Qed.

(** X23: a block restores the scopes.  When the resolution of a block
    succeeds, the scope stack and the global scope are the ones before
    the block, so every name resolves after the block to what it
    resolved to before it: a variable declared inside a block is not
    visible after the block. *)
Theorem block_restores_scopes (statements : list Stmt) (ctx ctx' : FunctionContext)
    (r r' : Resolver) :
  resolve_block statements ctx r = (inr ctx', r') ->
  _scopes r' = _scopes r
  /\ _global_scope r' = _global_scope r
  /\ forall n, fst (lookup_name n r') = fst (lookup_name n r).
Proof.
  intros H. apply block_scopes in H as [S G].
  - split; [done|]. split; [done|]. intros n.
    unfold lookup_name, bind, get. rewrite S, G.
    by destruct (lookup_scopes n (rev (_scopes r))).
  - apply for_each_with_scopes, Forall_forall. intros s _. apply resolve_stmt_scopes.
Qed.

Lemma block_restores_scopes_witness :
  let r := mkResolver ∅ [] [mkFunctionSymbol "f" 0 0 (mkFunctionDecl 1 "f" [] []) [] 0]
                      ∅ ∅ ∅ [∅; ∅] in
  let ctx := mkFunctionContext 0%nat 0 in
  let ss := [SVarDecl (mkVarDecl 1 2 "x" true (IntLiteral 2 5));
             PrintStmt 3 (VarExpr 2 3 "x")] in
  let r' := snd (resolve_block ss ctx r) in
  _scopes r' = [∅; ∅] /\ fst (lookup_name "x" r') = inr None.
Proof.
  intros r ctx ss r'.
  destruct (block_restores_scopes ss ctx (mkFunctionContext 0%nat 1) r r') as (S & _ & L).
  - vm_compute. reflexivity.
  - split; [exact S|]. exact (L "x").
Defined.

Lemma lookup_scopes_top n (pre : list (gmap string VarBinding)) top b :
  top !! n = Some b -> lookup_scopes n (rev (pre ++ [top])) = Some b.
Proof. intros H. rewrite rev_app_distr. simpl. by rewrite H. Qed.

(** X24: a local declaration shadows.  Right after the resolution of a
    local declaration, its name resolves to the binding of the slot
    just allocated, whatever the name was bound to before: an outer
    variable, a global, or an earlier declaration in the same block,
    which is not an error. *)
Theorem local_declaration_shadows (d : VarDecl) (ctx ctx' : FunctionContext)
    (r r' : Resolver) :
  resolve_local_var d ctx r = (inr ctx', r') ->
  lookup_name (vd_name d) r'
  = (inr (Some (LocalBinding (mkBinding (vd_name d) (vd_mutable d) (next_local_index ctx)))),
     r')
  /\ next_local_index ctx' = next_local_index ctx + 1.
Proof.
  intros H. pose proof H as H'.
  apply resolve_local_var_scopes in H as (pre & top & S & S' & G).
  split.
  - unfold lookup_name, bind, get. rewrite S'.
    erewrite lookup_scopes_top; [done|]. apply lookup_insert_eq.
  - apply resolve_local_var_spec in H' as (_ & _ & ->). simpl. unfold len. simpl. lia.
Qed.

Lemma local_declaration_shadows_witness :
  let r := mkResolver ∅ [] [mkFunctionSymbol "f" 0 0 (mkFunctionDecl 1 "f" [] []) [] 0]
                      ∅ ∅ ∅
                      [∅; {[ "x" := LocalBinding (mkBinding "x" false 0) ]}] in
  let d := mkVarDecl 1 2 "x" true (VarExpr 2 2 "x") in
  let r' := snd (resolve_local_var d (mkFunctionContext 0%nat 1) r) in
  lookup_name "x" r' = (inr (Some (LocalBinding (mkBinding "x" true 1))), r').
Proof.
  intros r d r'.
  apply (local_declaration_shadows d (mkFunctionContext 0%nat 1) (mkFunctionContext 0%nat 2) r r').
  vm_compute. reflexivity.
Defined.

(** ** errors.py: merging spans *)

Lemma loc_le_refl a : loc_le a a = true.
Proof.
  unfold loc_le. rewrite Z.eqb_refl, Z.leb_refl. simpl. apply orb_true_r.
Qed.

Lemma loc_le_total a b : loc_le a b = false -> loc_le b a = true.
Proof.
  unfold loc_le. intros H. apply orb_false_iff in H as [H1 H2].
  apply Z.ltb_ge in H1. apply andb_false_iff in H2.
  apply orb_true_iff.
  destruct (Z.eq_dec (sl_line a) (sl_line b)) as [E|E].
  - right. rewrite E, Z.eqb_refl. simpl. apply Z.leb_le.
    destruct H2 as [H2|H2]; [apply Z.eqb_neq in H2; lia|apply Z.leb_gt in H2; lia].
  - left. apply Z.ltb_lt. lia.
Qed.

Lemma loc_le_antisym a b : loc_le a b = true -> loc_le b a = true -> a = b.
Proof.
  unfold loc_le. intros H1 H2. destruct a as [l1 c1], b as [l2 c2]. simpl in *.
  apply orb_true_iff in H1, H2.
  assert (l1 = l2 /\ c1 = c2) as [-> ->]; [|done].
  destruct H1 as [H1|H1], H2 as [H2|H2];
    repeat match goal with
           | H : (_ <? _) = true |- _ => apply Z.ltb_lt in H
           | H : _ && _ = true |- _ => apply andb_true_iff in H as [? ?]
           | H : (_ =? _) = true |- _ => apply Z.eqb_eq in H
           | H : (_ <=? _) = true |- _ => apply Z.leb_le in H
           end; lia.
Qed.

(** X25: [merge] returns a span that covers both spans and is made of
    their ends: its start is the earlier of the two starts and its end
    is the later of the two ends, in the order of (line, column)
    pairs; the result does not depend on the order of the two spans,
    and merging a span with itself gives the span. *)
Theorem merge_covers_both (a b : SourceSpan) :
  loc_le (span_start (merge a b)) (span_start a) = true
  /\ loc_le (span_start (merge a b)) (span_start b) = true
  /\ loc_le (span_end a) (span_end (merge a b)) = true
  /\ loc_le (span_end b) (span_end (merge a b)) = true
  /\ (span_start (merge a b) = span_start a \/ span_start (merge a b) = span_start b)
  /\ (span_end (merge a b) = span_end a \/ span_end (merge a b) = span_end b)
  /\ merge a b = merge b a
  /\ merge a a = a.
Proof.
  unfold merge. cbn [span_start span_end].
  destruct (loc_le (span_start a) (span_start b)) eqn:Hs,
           (loc_le (span_end b) (span_end a)) eqn:He.
  all: repeat split;
    try apply loc_le_refl; try assumption; try (by apply loc_le_total); auto.
  all: try (destruct a as [sa ea]; cbn [span_start span_end];
            by rewrite !loc_le_refl).
  all: destruct (loc_le (span_start b) (span_start a)) eqn:Hs',
                (loc_le (span_end a) (span_end b)) eqn:He'; f_equal;
    try reflexivity;
    try (by apply loc_le_antisym);
    try (by symmetry; apply loc_le_antisym);
    try (apply loc_le_total in Hs; congruence);
    try (apply loc_le_total in He; congruence).
Qed.

(** ** The resolver fills the side tables *)

Lemma grows_refl nf r : grows nf r r.
Proof. by repeat split. Qed.

Lemma grows_trans nf r1 r2 r3 : grows nf r1 r2 -> grows nf r2 r3 -> grows nf r1 r3.
Proof.
  intros (A1 & B1 & C1 & D1) (A2 & B2 & C2 & D2). repeat split.
  - intros nid H. by apply A2, A1.
  - intros nid H. by apply B2, B1.
  - congruence.
  - congruence.
Qed.

Lemma grows_names_bound nf r r' : grows nf r r' -> names_bound nf r -> names_bound nf r'.
Proof. intros (_ & _ & C & _) H n f Hn. rewrite C in Hn. by eapply H. Qed.

Section ResGrows.
Context (nf : nat).

Lemma rg_ret {A} (a : A) : res_grows nf (ret a).
  Proof. intros r x r' _ [= _ <-]. apply grows_refl. Qed.

Lemma rg_raise {A} e : res_grows nf (@raise Resolver A e).
  Proof. by intros r x r' _. Qed.

Lemma rg_get : res_grows nf get.
  Proof. intros r x r' _ [= _ <-]. apply grows_refl. Qed.

Lemma rg_bind {A B} (m : resM A) (k : A -> resM B) :
    res_grows nf m -> (forall a, res_grows nf (k a)) -> res_grows nf (bind m k).
  Proof.
    intros Hm Hk r b r' Hb H. apply bind_inr in H as (a & r1 & H1 & H2).
    pose proof (Hm _ _ _ Hb H1) as G1.
    eapply grows_trans; [exact G1|]. eapply Hk; [|exact H2].
    by eapply grows_names_bound.
  Qed.

Lemma rg_for_each {A} (f : A -> resM unit) (l : list A) :
    Forall (fun a => res_grows nf (f a)) l -> res_grows nf (for_each f l).
  Proof.
    induction 1 as [|a l Ha _ IH]; [apply rg_ret|].
    rewrite for_each_cons. by apply rg_bind.
  Qed.

Lemma rg_for_each_with {A C} (f : A -> C -> resM C) (l : list A) :
    Forall (fun a => forall c, res_grows nf (f a c)) l ->
    forall c, res_grows nf (for_each_with f l c).
  Proof.
    induction 1 as [|a l Ha _ IH]; intros c; [apply rg_ret|].
    rewrite for_each_with_cons. by apply rg_bind.
  Qed.

  (** A computation that leaves the four fields alone. *)
Lemma rg_same {A} (m : resM A) :
    (forall r a r', m r = (inr a, r') ->
                    _var_bindings r' = _var_bindings r /\ _call_targets r' = _call_targets r
                    /\ _functions_by_name r' = _functions_by_name r
                    /\ length (_functions r') = length (_functions r)) ->
    res_grows nf m.
  Proof.
    intros Hm r a r' _ H. destruct (Hm _ _ _ H) as (E1 & E2 & E3 & E4).
    repeat split; [by rewrite E1|by rewrite E2|done|done].
  Qed.

Lemma rg_lookup_name n : res_grows nf (lookup_name n).
  Proof.
    apply rg_same. intros r a r'. unfold lookup_name, bind, get.
    destruct (lookup_scopes _ _); by intros [= _ <-].
  Qed.

Lemma rg_deref f : res_grows nf (deref f).
  Proof.
    apply rg_same. intros r a r'. unfold deref, bind, get.
    destruct (_functions r !! f); [by intros [= _ <-]|done].
  Qed.

Lemma rg_set_scopes s : res_grows nf (set_scopes s).
  Proof. apply rg_same. by intros r a r' [= _ <-]. Qed.

Lemma rg_push_scope : res_grows nf push_scope.
  Proof. apply rg_same. by intros r a r' [= _ <-]. Qed.

Lemma rg_pop_scope : res_grows nf pop_scope.
  Proof.
    apply rg_same. intros r a r'. unfold pop_scope, bind, get, lift.
    destruct (py_pop _); [done|]. by intros [= _ <-].
  Qed.

Lemma rg_declare_local b : res_grows nf (declare_local b).
  Proof.
    apply rg_same. intros r a r'. unfold declare_local, bind, get, lift.
    destruct (py_pop _); [done|]. by intros [= _ <-].
  Qed.

Lemma rg_append_local f b : res_grows nf (append_local f b).
  Proof.
    apply rg_same. intros r a r'. unfold append_local, bind, get, deref, bind, get.
    destruct (_functions r !! f); [|done]. intros [= _ <-]. simpl.
    by rewrite length_insert.
  Qed.

Lemma rg_set_max_locals f v : res_grows nf (set_max_locals f v).
  Proof.
    apply rg_same. intros r a r'. unfold set_max_locals, bind, get, deref, bind, get.
    destruct (_functions r !! f); [|done]. intros [= _ <-]. simpl.
    by rewrite length_insert.
  Qed.

Lemma bound_insert vb nid b nid' :
    bound vb nid' = true -> bound (<[nid := b]> vb) nid' = true.
  Proof.
    unfold bound. destruct (decide (nid' = nid)) as [->|Hne].
    - by rewrite lookup_insert_eq.
    - by rewrite lookup_insert_ne.
  Qed.

Lemma bound_insert_eq vb nid b : bound (<[nid := b]> vb) nid = true.
  Proof. unfold bound. by rewrite lookup_insert_eq. Qed.

Lemma target_ok_insert ct nid f nid' :
    (f < nf)%nat -> target_ok ct nf nid' = true -> target_ok (<[nid := f]> ct) nf nid' = true.
  Proof.
    intros Hf. unfold target_ok. destruct (decide (nid' = nid)) as [->|Hne].
    - rewrite lookup_insert_eq. intros _. by apply Nat.ltb_lt.
    - by rewrite lookup_insert_ne.
  Qed.

Lemma target_ok_insert_eq ct nid f :
    (f < nf)%nat -> target_ok (<[nid := f]> ct) nf nid = true.
  Proof. intros Hf. unfold target_ok. rewrite lookup_insert_eq. by apply Nat.ltb_lt. Qed.

Lemma rg_record_binding nid b : res_grows nf (record_binding nid b).
  Proof.
    intros r [] r' _ [= <-]. split; [|by split]. intros nid'. apply bound_insert.
  Qed.

Lemma rg_resolve_expr e ctx : res_grows nf (resolve_expr e ctx).
  Proof.
    induction e as [line v|nid line n|nid line n v IH|line l op r IHl IHr|nid line c args IH]
      using Expr_nested_ind; simpl.
    - apply rg_ret.
    - apply rg_bind; [apply rg_lookup_name|intros [b|]];
        [apply rg_record_binding|apply rg_raise].
    - apply rg_bind; [apply rg_lookup_name|intros [b|]]; [|apply rg_raise].
      destruct (negb (vb_mutable b)); [apply rg_raise|].
      apply rg_bind; [exact IH|intros; apply rg_record_binding].
    - apply rg_bind; [exact IHl|intros; exact IHr].
    - intros r0 [] r' Hb H.
      apply bind_inr in H as (r1 & r2 & [-> ->]%get_inr & H).
      destruct (_functions_by_name r0 !! c) as [f|] eqn:Hf; [|done].
      assert (Hlt : (f < nf)%nat) by (by eapply Hb).
      apply bind_inr in H as (symbol & r1 & H1 & H).
      pose proof (rg_deref f _ _ _ Hb H1) as G1.
      destruct (negb _); [done|].
      apply bind_inr in H as ([] & r2 & H2 & H).
      assert (G2 : grows nf r1 r2).
      { eapply (rg_for_each (fun argument => resolve_expr argument ctx) args);
          [| |exact H2].
        - eapply Forall_impl; [exact IH|]. intros e He. exact He.
        - by eapply grows_names_bound. }
      apply bind_inr in H as (r3 & r4 & [-> ->]%get_inr & H). injection H as <-.
      eapply grows_trans; [exact G1|]. eapply grows_trans; [exact G2|].
      split; [done|]. split; [|by split].
      intros nid'. by apply target_ok_insert.
  Qed.
End ResGrows.

Lemma expr_recorded_mono vb ct vb' ct' nf e :
  (forall nid, bound vb nid = true -> bound vb' nid = true) ->
  (forall nid, target_ok ct nf nid = true -> target_ok ct' nf nid = true) ->
  expr_recorded vb ct nf e = true -> expr_recorded vb' ct' nf e = true.
Proof.
  intros Hb Ht.
  induction e as [line v|nid line n|nid line n v IH|line l op r IHl IHr|nid line c args IH]
    using Expr_nested_ind; simpl.
  - done.
  - apply Hb.
  - intros [H1 H2]%andb_true_iff. apply andb_true_iff. split; [by apply Hb|by apply IH].
  - intros [H1 H2]%andb_true_iff. apply andb_true_iff. split; [by apply IHl|by apply IHr].
  - intros [H1 H2]%andb_true_iff. apply andb_true_iff. split; [by apply Ht|].
    apply forallb_forall. intros a Ha.
    rewrite forallb_forall in H2. rewrite List.Forall_forall in IH.
    apply IH; [done|]. by apply H2.
Qed.

Lemma stmt_recorded_mono vb ct vb' ct' nf s :
  (forall nid, bound vb nid = true -> bound vb' nid = true) ->
  (forall nid, target_ok ct nf nid = true -> target_ok ct' nf nid = true) ->
  stmt_recorded vb ct nf s = true -> stmt_recorded vb' ct' nf s = true.
Proof.
  intros Hb Ht.
  induction s as [d|statements IH|line expr|line expr|line c t e IHt IHe|line c b IHb|line v]
    using Stmt_nested_ind; simpl.
  - intros [H1 H2]%andb_true_iff. apply andb_true_iff.
    split; [by apply Hb|by eapply expr_recorded_mono].
  - intros H. apply forallb_forall. intros a Ha.
    rewrite forallb_forall in H. rewrite List.Forall_forall in IH.
    apply IH; [done|]. by apply H.
  - by apply expr_recorded_mono.
  - by apply expr_recorded_mono.
  - intros [[H1 H2]%andb_true_iff H3]%andb_true_iff. rewrite !andb_true_iff.
    split; [split|]; [by eapply expr_recorded_mono|by apply IHt|].
    destruct e as [e|]; [by apply (IHe e eq_refl)|done].
  - intros [H1 H2]%andb_true_iff. apply andb_true_iff.
    split; [by eapply expr_recorded_mono|by apply IHb].
  - by apply expr_recorded_mono.
Qed.

Lemma expr_recorded_grows nf r r' e :
  grows nf r r' ->
  expr_recorded (_var_bindings r) (_call_targets r) nf e = true ->
  expr_recorded (_var_bindings r') (_call_targets r') nf e = true.
Proof. intros (A & B & _). by apply expr_recorded_mono. Qed.

Lemma stmt_recorded_grows nf r r' s :
  grows nf r r' ->
  stmt_recorded (_var_bindings r) (_call_targets r) nf s = true ->
  stmt_recorded (_var_bindings r') (_call_targets r') nf s = true.
Proof. intros (A & B & _). by apply stmt_recorded_mono. Qed.

(** The argument loop of a call. *)
Lemma resolve_arguments_recorded nf ctx (args : list Expr) :
  Forall (fun e => forall r r', names_bound nf r ->
                     resolve_expr e ctx r = (inr tt, r') ->
                     expr_recorded (_var_bindings r') (_call_targets r') nf e = true) args ->
  forall r r', names_bound nf r ->
    for_each (fun argument => resolve_expr argument ctx) args r = (inr tt, r') ->
    forallb (expr_recorded (_var_bindings r') (_call_targets r') nf) args = true.
Proof.
  induction 1 as [|e l He _ IH]; intros r r' Hb H; [done|].
  rewrite for_each_cons in H. apply bind_inr in H as ([] & r1 & H1 & H).
  pose proof (rg_resolve_expr nf e ctx _ _ _ Hb H1) as G1.
  assert (Hb1 : names_bound nf r1) by (by eapply grows_names_bound).
  assert (G2 : grows nf r1 r').
  { eapply (rg_for_each nf (fun argument => resolve_expr argument ctx) l); [|exact Hb1|exact H].
    apply Forall_forall. intros; apply rg_resolve_expr. }
  simpl. apply andb_true_iff. split.
  - eapply expr_recorded_grows; [exact G2|]. eapply He; [exact Hb|exact H1].
  - eapply IH; [exact Hb1|exact H].
Qed.

Lemma resolve_expr_recorded nf e ctx : forall r r',
  names_bound nf r ->
  resolve_expr e ctx r = (inr tt, r') ->
  expr_recorded (_var_bindings r') (_call_targets r') nf e = true.
Proof.
  induction e as [line v|nid line n|nid line n v IH|line l op r IHl IHr|nid line c args IH]
    using Expr_nested_ind; intros r0 r' Hb H; simpl in H |- *.
  - done.
  - apply bind_inr in H as ([b|] & r1 & H1 & H); [|done].
    injection H as <-. simpl. apply bound_insert_eq.
  - apply bind_inr in H as ([b|] & r1 & H1 & H); [|done].
    pose proof (rg_lookup_name nf n _ _ _ Hb H1) as G1.
    destruct (negb (vb_mutable b)); [done|].
    apply bind_inr in H as ([] & r2 & H2 & H).
    apply IH in H2; [|by eapply grows_names_bound].
    injection H as <-. simpl. apply andb_true_iff. split; [apply bound_insert_eq|].
    eapply expr_recorded_mono; [| |exact H2]; [intros nid'; apply bound_insert|done].
  - apply bind_inr in H as ([] & r1 & H1 & H).
    pose proof (rg_resolve_expr nf l ctx _ _ _ Hb H1) as G1.
    assert (Hb1 : names_bound nf r1) by (by eapply grows_names_bound).
    pose proof (rg_resolve_expr nf r ctx _ _ _ Hb1 H) as G2.
    apply andb_true_iff. split.
    + eapply expr_recorded_grows; [exact G2|]. eapply IHl; [exact Hb|exact H1].
    + eapply IHr; [exact Hb1|exact H].
  - apply bind_inr in H as (r1 & r2 & [-> ->]%get_inr & H).
    destruct (_functions_by_name r0 !! c) as [f|] eqn:Hf; [|done].
    assert (Hlt : (f < nf)%nat) by (by eapply Hb).
    apply bind_inr in H as (symbol & r1 & H1 & H).
    pose proof (rg_deref nf f _ _ _ Hb H1) as G1.
    destruct (negb _); [done|].
    apply bind_inr in H as ([] & r2 & H2 & H).
    apply (resolve_arguments_recorded nf ctx args IH) in H2;
      [|by eapply grows_names_bound].
    apply bind_inr in H as (r3 & r4 & [-> ->]%get_inr & H). injection H as <-.
    simpl. apply andb_true_iff. split; [by apply target_ok_insert_eq|].
    apply forallb_forall. intros a Ha. rewrite forallb_forall in H2.
    eapply expr_recorded_mono; [| |by apply H2]; [done|].
    intros nid'. by apply target_ok_insert.
Qed.

Lemma rg_resolve_local_var nf d ctx : res_grows nf (resolve_local_var d ctx).
Proof.
  unfold resolve_local_var.
  apply rg_bind; [apply rg_resolve_expr|intros _].
  apply rg_bind; [apply rg_declare_local|intros _].
  apply rg_bind; [apply rg_record_binding|intros _].
  apply rg_bind; [apply rg_append_local|intros _]. apply rg_ret.
Qed.

Lemma rg_resolve_stmt nf s : forall ctx, res_grows nf (resolve_stmt s ctx).
Proof.
  induction s as [d|statements IH|line expr|line expr|line c t e IHt IHe|line c b IHb|line v]
    using Stmt_nested_ind; intros ctx; simpl.
  - apply rg_resolve_local_var.
  - apply rg_bind; [apply rg_push_scope|intros _].
    apply rg_bind; [by apply rg_for_each_with|intros ctx1].
    apply rg_bind; [apply rg_pop_scope|intros _]. apply rg_ret.
  - apply rg_bind; [apply rg_resolve_expr|intros; apply rg_ret].
  - apply rg_bind; [apply rg_resolve_expr|intros; apply rg_ret].
  - apply rg_bind; [apply rg_resolve_expr|intros _].
    apply rg_bind; [apply IHt|intros ctx1].
    destruct e as [e|]; [by apply (IHe e eq_refl)|apply rg_ret].
  - apply rg_bind; [apply rg_resolve_expr|intros _]. apply IHb.
  - apply rg_bind; [apply rg_resolve_expr|intros; apply rg_ret].
Qed.

(** The statement loop of a block. *)
Lemma resolve_statements_recorded nf (statements : list Stmt) :
  Forall (fun s => forall ctx ctx' r r', names_bound nf r ->
                     resolve_stmt s ctx r = (inr ctx', r') ->
                     stmt_recorded (_var_bindings r') (_call_targets r') nf s = true)
         statements ->
  forall ctx ctx' r r', names_bound nf r ->
    for_each_with resolve_stmt statements ctx r = (inr ctx', r') ->
    forallb (stmt_recorded (_var_bindings r') (_call_targets r') nf) statements = true.
Proof.
  induction 1 as [|s l Hs _ IH]; intros ctx ctx' r r' Hb H; [done|].
  rewrite for_each_with_cons in H. apply bind_inr in H as (c1 & r1 & H1 & H).
  pose proof (rg_resolve_stmt nf s ctx _ _ _ Hb H1) as G1.
  assert (Hb1 : names_bound nf r1) by (by eapply grows_names_bound).
  assert (G2 : grows nf r1 r').
  { eapply (rg_for_each_with nf resolve_stmt l); [|exact Hb1|exact H].
    apply Forall_forall. intros; apply rg_resolve_stmt. }
  simpl. apply andb_true_iff. split.
  - eapply stmt_recorded_grows; [exact G2|]. eapply Hs; [exact Hb|exact H1].
  - eapply IH; [exact Hb1|exact H].
Qed.

Lemma resolve_stmt_recorded nf s : forall ctx ctx' r r',
  names_bound nf r ->
  resolve_stmt s ctx r = (inr ctx', r') ->
  stmt_recorded (_var_bindings r') (_call_targets r') nf s = true.
Proof.
  induction s as [d|statements IH|line expr|line expr|line c t e IHt IHe|line c b IHb|line v]
    using Stmt_nested_ind; intros ctx ctx' r r' Hb H; simpl in H |- *.
  - unfold resolve_local_var in H.
    apply bind_inr in H as ([] & r1 & H1 & H).
    pose proof (rg_resolve_expr nf _ _ _ _ _ Hb H1) as G1.
    apply (resolve_expr_recorded nf _ _ _ _ Hb) in H1.
    apply bind_inr in H as ([] & r2 & H2 & H).
    assert (Hb1 : names_bound nf r1) by (by eapply grows_names_bound).
    pose proof (rg_declare_local nf _ _ _ _ Hb1 H2) as G2.
    assert (Hb2 : names_bound nf r2) by (by eapply grows_names_bound).
    apply bind_inr in H as ([] & r3 & H3 & H).
    pose proof (rg_record_binding nf _ _ _ _ _ Hb2 H3) as G3.
    assert (Hb3 : names_bound nf r3) by (by eapply grows_names_bound).
    apply bind_inr in H as ([] & r4 & H4 & H).
    pose proof (rg_append_local nf _ _ _ _ _ Hb3 H4) as G4.
    injection H as _ <-.
    apply andb_true_iff. split.
    + destruct G4 as (A4 & _). apply A4. injection H3 as <-. simpl. apply bound_insert_eq.
    + eapply expr_recorded_grows; [exact G4|]. eapply expr_recorded_grows; [exact G3|].
      eapply expr_recorded_grows; [exact G2|]. exact H1.
  - apply bind_inr in H as ([] & r1 & H1 & H).
    pose proof (rg_push_scope nf _ _ _ Hb H1) as G1.
    assert (Hb1 : names_bound nf r1) by (by eapply grows_names_bound).
    apply bind_inr in H as (c1 & r2 & H2 & H).
    pose proof (rg_for_each_with nf resolve_stmt statements
                  ltac:(apply Forall_forall; intros; apply rg_resolve_stmt)
                  _ _ _ _ Hb1 H2) as G2.
    apply (resolve_statements_recorded nf statements IH _ _ _ _ Hb1) in H2.
    assert (Hb2 : names_bound nf r2) by (by eapply grows_names_bound).
    apply bind_inr in H as ([] & r3 & H3 & H).
    pose proof (rg_pop_scope nf _ _ _ Hb2 H3) as G3.
    injection H as _ <-.
    apply forallb_forall. intros s Hs. rewrite forallb_forall in H2.
    eapply stmt_recorded_grows; [exact G3|]. by apply H2.
  - apply bind_inr in H as ([] & r1 & H1 & H). injection H as _ <-.
    by eapply resolve_expr_recorded.
  - apply bind_inr in H as ([] & r1 & H1 & H). injection H as _ <-.
    by eapply resolve_expr_recorded.
  - apply bind_inr in H as ([] & r1 & H1 & H).
    pose proof (rg_resolve_expr nf _ _ _ _ _ Hb H1) as G1.
    apply (resolve_expr_recorded nf _ _ _ _ Hb) in H1.
    assert (Hb1 : names_bound nf r1) by (by eapply grows_names_bound).
    apply bind_inr in H as (c1 & r2 & H2 & H).
    pose proof (rg_resolve_stmt nf _ _ _ _ _ Hb1 H2) as G2.
    apply (IHt _ _ _ _ Hb1) in H2.
    assert (Hb2 : names_bound nf r2) by (by eapply grows_names_bound).
    destruct e as [e|].
    + pose proof (rg_resolve_stmt nf _ _ _ _ _ Hb2 H) as G3.
      apply (IHe e eq_refl _ _ _ _ Hb2) in H.
      rewrite !andb_true_iff. split; [split|]; [|by eapply stmt_recorded_grows|done].
      eapply expr_recorded_grows; [exact G3|]. by eapply expr_recorded_grows.
    + injection H as _ <-. rewrite !andb_true_iff.
      split; [split|]; [by eapply expr_recorded_grows|done|done].
  - apply bind_inr in H as ([] & r1 & H1 & H).
    pose proof (rg_resolve_expr nf _ _ _ _ _ Hb H1) as G1.
    apply (resolve_expr_recorded nf _ _ _ _ Hb) in H1.
    assert (Hb1 : names_bound nf r1) by (by eapply grows_names_bound).
    pose proof (rg_resolve_stmt nf _ _ _ _ _ Hb1 H) as G2.
    apply (IHb _ _ _ _ Hb1) in H.
    apply andb_true_iff. split; [by eapply expr_recorded_grows|done].
  - apply bind_inr in H as ([] & r1 & H1 & H). injection H as _ <-.
    by eapply resolve_expr_recorded.
Qed.

Lemma resolve_each_recorded {A} nf ctx (h : A -> Expr) (l : list A) : forall r r',
  names_bound nf r ->
  for_each (fun a => resolve_expr (h a) ctx) l r = (inr tt, r') ->
  grows nf r r'
  /\ forallb (fun a => expr_recorded (_var_bindings r') (_call_targets r') nf (h a)) l = true.
Proof.
  induction l as [|a l IH]; intros r r' Hb H.
  - injection H as <-. split; [apply grows_refl|done].
  - rewrite for_each_cons in H. apply bind_inr in H as ([] & r1 & H1 & H).
    pose proof (rg_resolve_expr nf _ _ _ _ _ Hb H1) as G1.
    assert (Hb1 : names_bound nf r1) by (by eapply grows_names_bound).
    destruct (IH _ _ Hb1 H) as [G2 Hall].
    split; [by eapply grows_trans|]. simpl. apply andb_true_iff. split; [|done].
    eapply expr_recorded_grows; [exact G2|].
    eapply resolve_expr_recorded; [exact Hb|exact H1].
Qed.

Lemma rg_declare_params nf f ps : res_grows nf (declare_params f ps).
Proof.
  unfold declare_params. apply rg_for_each, Forall_forall. intros pp _.
  apply rg_bind; [apply rg_declare_local|intros; apply rg_append_local].
Qed.

Lemma rg_resolve_block nf statements ctx : res_grows nf (resolve_block statements ctx).
Proof. apply (rg_resolve_stmt nf (BlockStmt statements)). Qed.

(** The resolution of one function records the nodes of its body. *)
Lemma resolve_function_recorded nf f function r r' :
  names_bound nf r ->
  _functions r !! f = Some function ->
  resolve_function f r = (inr tt, r') ->
  grows nf r r'
  /\ forallb (stmt_recorded (_var_bindings r') (_call_targets r') nf)
             (fd_body (fs_decl function)) = true.
Proof.
  intros Hb Hf H. unfold resolve_function in H.
  apply bind_inr in H as (fn & r1 & [-> Hs]%deref_inr & H).
  pose proof (eq_trans (eq_sym Hf) Hs) as [= <-].
  apply bind_inr in H as ([] & r2 & H2 & H).
  assert (Hr2 : r2 = r') by (destruct (negb _); [done|by injection H as <-]).
  subst r2. clear H. unfold resolve_function_walk in H2.
  apply bind_inr in H2 as (r0 & r1 & [-> ->]%get_inr & H).
  apply bind_inr in H as ([] & r2 & H2 & H).
  pose proof (rg_set_scopes nf _ _ _ _ Hb H2) as G2.
  assert (Hb2 : names_bound nf r2) by (by eapply grows_names_bound).
  apply bind_inr in H as ([] & r3 & H3 & H).
  pose proof (rg_push_scope nf _ _ _ Hb2 H3) as G3.
  assert (Hb3 : names_bound nf r3) by (by eapply grows_names_bound).
  apply bind_inr in H as ([] & r4 & H4 & H).
  pose proof (rg_declare_params nf _ _ _ _ _ Hb3 H4) as G4.
  assert (Hb4 : names_bound nf r4) by (by eapply grows_names_bound).
  apply bind_inr in H as (c5 & r5 & H5 & H).
  pose proof (rg_resolve_block nf _ _ _ _ _ Hb4 H5) as G5.
  apply (resolve_stmt_recorded nf (BlockStmt (fd_body (fs_decl function))) _ _ _ _ Hb4) in H5.
  assert (Hb5 : names_bound nf r5) by (by eapply grows_names_bound).
  apply bind_inr in H as ([] & r6 & H6 & H).
  pose proof (rg_pop_scope nf _ _ _ Hb5 H6) as G6.
  assert (Hb6 : names_bound nf r6) by (by eapply grows_names_bound).
  apply bind_inr in H as (function' & r7 & H7 & H).
  pose proof (rg_deref nf _ _ _ _ Hb6 H7) as G7.
  assert (Hb7 : names_bound nf r7) by (by eapply grows_names_bound).
  pose proof (rg_set_max_locals nf _ _ _ _ _ Hb7 H) as G8.
  assert (G58 : grows nf r5 r').
  { eapply grows_trans; [exact G6|]. eapply grows_trans; [exact G7|exact G8]. }
  split.
  - eapply grows_trans; [exact G2|]. eapply grows_trans; [exact G3|].
    eapply grows_trans; [exact G4|]. eapply grows_trans; [exact G5|exact G58].
  - simpl in H5. apply forallb_forall. intros s Hs'. rewrite forallb_forall in H5.
    eapply stmt_recorded_grows; [exact G58|]. by apply H5.
Qed.

Lemma resolve_functions_recorded fds nf (k : nat) : forall r r',
  (k <= length fds)%nat ->
  _functions r = partly_resolved 0 fds ->
  names_bound nf r ->
  for_each resolve_function (seq 0 k) r = (inr tt, r') ->
  grows nf r r'
  /\ forall i d, (i < k)%nat -> fds !! i = Some d ->
       forallb (stmt_recorded (_var_bindings r') (_call_targets r') nf) (fd_body d) = true.
Proof.
  induction k as [|k IH]; intros r r' Hk Hf Hb H.
  - injection H as <-. split; [apply grows_refl|]. intros i d Hi. lia.
  - rewrite seq_S, for_each_app in H. change (0 + k)%nat with k in H.
    apply bind_inr in H as ([] & r1 & H1 & H).
    pose proof (resolve_functions_loop fds k _ _ (_globals r) ltac:(lia) Hf eq_refl H1)
      as [Hf1 _].
    destruct (IH _ _ ltac:(lia) Hf Hb H1) as [G1 Hrec].
    assert (Hb1 : names_bound nf r1) by (by eapply grows_names_bound).
    rewrite for_each_cons in H. apply bind_inr in H as ([] & r2 & H2 & H).
    injection H as <-.
    destruct (lookup_lt_is_Some_2 fds k ltac:(lia)) as [d Hd].
    assert (Hk1 : _functions r1 !! k = Some (declared_symbol k d)).
    { rewrite Hf1. unfold partly_resolved. rewrite list_lookup_imap, Hd. simpl.
      destruct (decide (k < k)%nat); [lia|done]. }
    destruct (resolve_function_recorded nf _ _ _ _ Hb1 Hk1 H2) as [G2 Hbody].
    split; [by eapply grows_trans|].
    intros i d' Hi Hd'. destruct (decide (i = k)) as [->|Hne].
    + pose proof (eq_trans (eq_sym Hd) Hd') as [= <-]. exact Hbody.
    + apply forallb_forall. intros s Hs.
      specialize (Hrec i d' ltac:(lia) Hd'). rewrite forallb_forall in Hrec.
      eapply stmt_recorded_grows; [exact G2|]. by apply Hrec.
Qed.

Lemma declare_one_names_bound d r r' :
  names_bound (length (_functions r)) r ->
  declare_one d r = (inr tt, r') ->
  names_bound (length (_functions r')) r'.
Proof.
  intros Hb H. destruct d as [d|d]; simpl in H.
  - unfold declare_global in H.
    apply bind_inr in H as (r0 & r1 & [-> ->]%get_inr & H).
    destruct (_ || _); [done|].
    apply bind_inr in H as ([] & r2 & [= <-] & H).
    apply bind_inr in H as ([] & r3 & [= <-] & H).
    injection H as <-. exact Hb.
  - unfold declare_function in H.
    apply bind_inr in H as (r0 & r1 & [-> ->]%get_inr & H).
    destruct (_ || _); [done|].
    apply bind_inr in H as ([] & r2 & [= <-] & H).
    injection H as <-. intros n f. simpl. rewrite length_app. simpl.
    destruct (decide (n = fd_name d)) as [->|Hne].
    + rewrite lookup_insert_eq. intros [= <-]. lia.
    + rewrite lookup_insert_ne by done. intros Hn. apply Hb in Hn. lia.
Qed.

Lemma declare_all_names_bound (ds : list Declaration) : forall r r',
  names_bound (length (_functions r)) r ->
  for_each declare_one ds r = (inr tt, r') ->
  names_bound (length (_functions r')) r'.
Proof.
  induction ds as [|d ds IH]; intros r r' Hb H.
  - by injection H as <-.
  - rewrite for_each_cons in H. apply bind_inr in H as ([] & r1 & H1 & H).
    eapply IH; [|exact H]. by eapply declare_one_names_bound.
Qed.

(** After a successful [resolve] the side tables of the result hold
    every node of the initialisers of the globals and of the bodies
    of the functions. *)
Lemma resolve_records p rp :
  resolve p = inr rp ->
  (forall v, v ∈ var_decls p ->
     expr_recorded (var_bindings rp) (call_targets rp) (length (function_decls p))
                   (initializer v) = true)
  /\ (forall d, d ∈ function_decls p ->
        forallb (stmt_recorded (var_bindings rp) (call_targets rp)
                               (length (function_decls p)))
                (fd_body d) = true).
Proof.
  unfold resolve. destruct (resolve_m p Resolver_init) as [res rfin] eqn:H.
  simpl. intros ->. unfold resolve_m in H.
  set (nf := length (function_decls p)).
  apply bind_inr in H as ([] & r1 & H1 & H).
  pose proof (declare_top_level_spec _ _ H1) as [Hf1 Hg1].
  assert (Hb1 : names_bound nf r1).
  { rewrite declare_top_level_eq in H1.
    apply declare_all_names_bound in H1; [|by intros n f].
    by rewrite Hf1, length_imap in H1. }
  apply bind_inr in H as (r1' & r2 & [-> ->]%get_inr & H).
  apply bind_inr in H as ([] & r3 & H3 & H).
  pose proof (rg_set_scopes nf _ _ _ _ Hb1 H3) as G3. injection H3 as <-.
  assert (Hb3 : names_bound nf
                  (mkResolver (_global_scope r1) (_globals r1) (_functions r1)
                     (_functions_by_name r1) (_var_bindings r1) (_call_targets r1)
                     [_global_scope r1])) by (by eapply grows_names_bound).
  apply bind_inr in H as ([] & r4 & H4 & H).
  assert (K : keeps_symbols
                (for_each (fun g => resolve_expr (initializer (gv_decl g)) None) (_globals r1))).
  { apply ks_for_each, Forall_forall. intros; ks. }
  pose proof (keeps_symbols_inr _ _ _ _ K H4) as [Hf4 _]. simpl in Hf4.
  destruct (resolve_each_recorded nf None (fun g => initializer (gv_decl g)) _ _ _ Hb3 H4)
    as [G4 Hglob].
  assert (Hb4 : names_bound nf r4) by (by eapply grows_names_bound).
  apply bind_inr in H as ([] & r5 & H5 & H).
  apply bind_inr in H as (r5' & r6 & [-> ->]%get_inr & H).
  injection H as <-. simpl.
  assert (Hlen : length (_functions r1) = nf) by (by rewrite Hf1, length_imap).
  rewrite Hlen in H5.
  destruct (resolve_functions_recorded (function_decls p) nf nf r4 r5 ltac:(done)) as [G5 Hfun];
    [|exact Hb4|exact H5|].
  { rewrite Hf4, Hf1. unfold partly_resolved. apply imap_ext. intros i d _.
    destruct (decide _); [lia|done]. }
  split.
  - intros v Hv. apply list_elem_of_lookup in Hv as [i Hi].
    rewrite forallb_forall in Hglob.
    eapply expr_recorded_grows; [exact G5|].
    apply (Hglob (declared_global i v)). apply list_elem_of_In.
    rewrite Hg1. apply list_elem_of_lookup. exists i. by rewrite list_lookup_imap, Hi.
  - intros d Hd. apply list_elem_of_lookup in Hd as [i Hi].
    apply (Hfun i d); [|done]. apply lookup_lt_Some in Hi. done.
Qed.

(** ** What resolves, compiles *)

Lemma bind_ok {S A B} (m : M S A) (k : A -> M S B) s a s1 :
  m s = (inr a, s1) -> bind m k s = k a s1.
Proof. intros H. unfold bind. by rewrite H. Qed.

Lemma for_each_ok {S A} (f : A -> M S unit) (l : list A) :
  Forall (fun a => forall s, exists s', f a s = (inr tt, s')) l ->
  forall s, exists s', for_each f l s = (inr tt, s').
Proof.
  induction 1 as [|a l Ha _ IH]; intros s; [by exists s|].
  destruct (Ha s) as [s1 H1]. destruct (IH s1) as [s' H'].
  exists s'. rewrite for_each_cons. by rewrite (bind_ok _ _ _ _ _ H1).
Qed.

Lemma bound_Some vb nid : bound vb nid = true -> exists b, vb !! nid = Some b.
Proof. unfold bound. destruct (vb !! nid); [eauto|done]. Qed.

Lemma binding_for_node_ok rp nid c :
  bound (var_bindings rp) nid = true ->
  exists b, binding_for_node rp nid c = (inr b, c).
Proof.
  intros [b Hb]%bound_Some. exists b. unfold binding_for_node. by rewrite Hb.
Qed.

Lemma compile_expr_ok rp e :
  expr_recorded (var_bindings rp) (call_targets rp) (length (rp_functions rp)) e = true ->
  expr_ops_ok e = true ->
  forall c, exists c', compile_expr rp e c = (inr tt, c').
Proof.
  induction e as [line v|nid line n|nid line n v IH|line l op r IHl IHr|nid line cal args IH]
    using Expr_nested_ind; simpl; intros Hrec Hops c.
  - eexists. unfold bind at 1, get. unfold bind at 1, put. apply emit_operand_eq.
  - destruct (binding_for_node_ok rp nid c Hrec) as [b Hb].
    rewrite (bind_ok _ _ _ _ _ Hb). destruct b as [b|b]; eexists; apply emit_operand_eq.
  - apply andb_true_iff in Hrec as [Hn Hv].
    destruct (binding_for_node_ok rp nid c Hn) as [b Hb].
    rewrite (bind_ok _ _ _ _ _ Hb).
    destruct (IH Hv Hops c) as [c1 H1]. rewrite (bind_ok _ _ _ _ _ H1).
    destruct b as [b|b]; eexists;
      [apply emit_store_load_global|apply emit_store_load_local].
  - apply andb_true_iff in Hrec as [Hl Hr].
    apply andb_true_iff in Hops as [[Ol Oo]%andb_true_iff Or].
    destruct (IHl Hl Ol c) as [c1 H1]. rewrite (bind_ok _ _ _ _ _ H1).
    destruct (IHr Hr Or c1) as [c2 H2]. rewrite (bind_ok _ _ _ _ _ H2).
    destruct (op_map op); [|done]. eexists. apply emit_eq.
  - apply andb_true_iff in Hrec as [Ht Hargs].
    unfold target_ok in Ht. destruct (call_targets rp !! nid) as [f|]; [|done].
    apply Nat.ltb_lt in Ht.
    match goal with
    | |- context [match ?x with Some _ => _ | None => raise KeyError end] =>
        destruct x as [symbol|] eqn:Hs
    end; [|apply lookup_ge_None_1 in Hs; lia].
    assert (Hall : Forall (fun a => forall c, exists c', compile_expr rp a c = (inr tt, c'))
                          args).
    { rewrite List.Forall_forall in IH. apply Forall_forall. intros a Ha.
      rewrite forallb_forall in Hargs, Hops. apply list_elem_of_In in Ha.
      apply IH; [done|by apply Hargs|by apply Hops]. }
    destruct (for_each_ok _ _ Hall c) as [c1 H1]. rewrite (bind_ok _ _ _ _ _ H1).
    eexists. apply emit_call_eq.
Qed.

Lemma compile_expr_then_ok rp e o line c :
  expr_recorded (var_bindings rp) (call_targets rp) (length (rp_functions rp)) e = true ->
  expr_ops_ok e = true ->
  exists c', (let* _ := compile_expr rp e in emit o line) c = (inr tt, c').
Proof.
  intros Hrec Hops. destruct (compile_expr_ok rp e Hrec Hops c) as [c1 H1].
  rewrite (bind_ok _ _ _ _ _ H1). eexists. apply emit_eq.
Qed.

Lemma compile_stmt_ok rp s :
  stmt_recorded (var_bindings rp) (call_targets rp) (length (rp_functions rp)) s = true ->
  stmt_ops_ok s = true ->
  forall c, exists c', compile_stmt rp s c = (inr tt, c').
Proof.
  induction s as [d|statements IH|line expr|line expr|line cond t e IHt IHe|line cond b IHb
                 |line v]
    using Stmt_nested_ind; cbn [stmt_recorded stmt_ops_ok compile_stmt]; intros Hrec Hops c.
  - apply andb_true_iff in Hrec as [Hn Hv]. unfold compile_var_decl.
    destruct (binding_for_node_ok rp (vd_nid d) c Hn) as [b Hb].
    rewrite (bind_ok _ _ _ _ _ Hb).
    destruct (compile_expr_ok rp _ Hv Hops c) as [c1 H1]. rewrite (bind_ok _ _ _ _ _ H1).
    destruct b as [b|b]; eexists; apply emit_operand_eq.
  - apply for_each_ok. rewrite List.Forall_forall in IH. apply Forall_forall. intros a Ha.
    rewrite forallb_forall in Hrec, Hops. apply list_elem_of_In in Ha.
    apply IH; [done|by apply Hrec|by apply Hops].
  - by apply compile_expr_then_ok.
  - by apply compile_expr_then_ok.
  - apply andb_true_iff in Hrec as [[Rc Rt]%andb_true_iff Re].
    apply andb_true_iff in Hops as [[Oc Ot]%andb_true_iff Oe].
    destruct (compile_expr_ok rp _ Rc Oc c) as [c1 H1]. rewrite (bind_ok _ _ _ _ _ H1).
    rewrite (bind_ok _ _ _ _ _ (emit_jump_eq _ _ _)).
    destruct (IHt Rt Ot (emitted c1 [OpCode_value JMP_IF_FALSE; 0; 0] line)) as [c3 H3].
    rewrite (bind_ok _ _ _ _ _ H3).
    destruct (em_compile_stmt _ _ _ _ _ H3) as [([tb Hc3] & _) _].
    cbn [emitted code] in Hc3.
    destruct e as [e|].
    + rewrite (bind_ok _ _ _ _ _ (emit_jump_eq _ _ _)).
      assert (Hc4 : code (emitted c3 [OpCode_value JMP; 0; 0] line)
                    = (code c1 ++ [OpCode_value JMP_IF_FALSE]) ++ [0; 0]
                      ++ (tb ++ [OpCode_value JMP; 0; 0])).
      { cbn [emitted code]. rewrite Hc3. by rewrite <- !app_assoc. }
      replace (len (code c1) + 1) with (len (code c1 ++ [OpCode_value JMP_IF_FALSE]))
        by (rewrite len_app; reflexivity).
      rewrite (bind_ok _ _ _ _ _ (patch_jump_mid _ _ _ Hc4)).
      match goal with
      | |- exists c', (let* _ := compile_stmt rp e in _) ?c5 = _ =>
          destruct (IHe e eq_refl Re Oe c5) as [c6 H6];
          destruct (em_compile_stmt _ _ _ _ _ H6) as [([eb Hc6] & _) _]
      end.
      rewrite (bind_ok _ _ _ _ _ H6). cbn [code] in Hc6.
      assert (Hc6' : code c6
                     = (code c1 ++ [OpCode_value JMP_IF_FALSE;
                                    hi_byte (len (code (emitted c3 [OpCode_value JMP; 0; 0] line)));
                                    lo_byte (len (code (emitted c3 [OpCode_value JMP; 0; 0] line)))]
                        ++ tb ++ [OpCode_value JMP])
                       ++ [0; 0] ++ eb).
      { rewrite Hc6. by rewrite <- !app_assoc. }
      replace (len (code c3) + 1)
        with (len (code c1 ++ [OpCode_value JMP_IF_FALSE;
                               hi_byte (len (code (emitted c3 [OpCode_value JMP; 0; 0] line)));
                               lo_byte (len (code (emitted c3 [OpCode_value JMP; 0; 0] line)))]
                   ++ tb ++ [OpCode_value JMP]))
        by (rewrite Hc3, !len_app; unfold len; simpl; lia).
      eexists. apply (patch_jump_mid _ _ _ Hc6').
    + assert (Hc3' : code c3 = (code c1 ++ [OpCode_value JMP_IF_FALSE]) ++ [0; 0] ++ tb)
        by (by rewrite Hc3, <- !app_assoc).
      replace (len (code c1) + 1) with (len (code c1 ++ [OpCode_value JMP_IF_FALSE]))
        by (rewrite len_app; reflexivity).
      eexists. apply (patch_jump_mid _ _ _ Hc3').
  - apply andb_true_iff in Hrec as [Rc Rb]. apply andb_true_iff in Hops as [Oc Ob].
    rewrite (bind_ok _ _ _ _ _ (current_offset_eq c)).
    destruct (compile_expr_ok rp _ Rc Oc c) as [c1 H1]. rewrite (bind_ok _ _ _ _ _ H1).
    rewrite (bind_ok _ _ _ _ _ (emit_jump_eq _ _ _)).
    destruct (IHb Rb Ob (emitted c1 [OpCode_value JMP_IF_FALSE; 0; 0] line)) as [c3 H3].
    rewrite (bind_ok _ _ _ _ _ H3).
    destruct (em_compile_stmt _ _ _ _ _ H3) as [([bb Hc3] & _) _].
    cbn [emitted code] in Hc3.
    rewrite (bind_ok _ _ _ _ _ (emit_loop_eq _ _ _)).
    assert (Hc4 : code (emitted c3 [OpCode_value JMP; hi_byte (len (code c));
                                    lo_byte (len (code c))] line)
                  = (code c1 ++ [OpCode_value JMP_IF_FALSE]) ++ [0; 0]
                    ++ (bb ++ [OpCode_value JMP; hi_byte (len (code c));
                               lo_byte (len (code c))])).
    { cbn [emitted code]. rewrite Hc3. by rewrite <- !app_assoc. }
    replace (len (code c1) + 1) with (len (code c1 ++ [OpCode_value JMP_IF_FALSE]))
      by (rewrite len_app; reflexivity).
    eexists. apply (patch_jump_mid _ _ _ Hc4).
  - by apply compile_expr_then_ok.
Qed.

Lemma compile_block_ok rp statements :
  forallb (stmt_recorded (var_bindings rp) (call_targets rp) (length (rp_functions rp)))
          statements = true ->
  forallb stmt_ops_ok statements = true ->
  forall c, exists c', compile_block rp statements c = (inr tt, c').
Proof. apply (compile_stmt_ok rp (BlockStmt statements)). Qed.

Lemma compile_function_ok rp symbol :
  forallb (stmt_recorded (var_bindings rp) (call_targets rp) (length (rp_functions rp)))
          (fd_body (fs_decl symbol)) = true ->
  forallb stmt_ops_ok (fd_body (fs_decl symbol)) = true ->
  exists f, compile_function rp symbol = inr f.
Proof.
  intros Hrec Hops. destruct (compile_block_ok rp _ Hrec Hops empty_chunk) as [c H].
  unfold compile_function, build_chunk. rewrite H. by eexists.
Qed.

Lemma compile_functions_ok rp (todo : list FunctionSymbol) : forall cs,
  (forall j s, todo !! j = Some s -> fs_index s = Z.of_nat (length cs + j)) ->
  Forall (fun s => exists f, compile_function rp s = inr f) todo ->
  exists fns', for_each (compile_one rp) todo (map Some cs ++ replicate (length todo) None)
               = (inr tt, fns').
Proof.
  induction todo as [|s todo IH]; intros cs Hidx Hall.
  - by eexists.
  - apply Forall_cons in Hall as [[f Hf] Hall].
    rewrite for_each_cons. unfold bind at 1, compile_one, bind at 1, lift. rewrite Hf.
    unfold bind at 1, get. unfold bind at 1, lift.
    rewrite (Hidx 0%nat s eq_refl), Nat.add_0_r.
    rewrite py_set_nonneg
      by (rewrite len_app; unfold len; rewrite length_map; simpl length; lia).
    unfold put. rewrite Nat2Z.id.
    rewrite insert_app_r_alt by (rewrite length_map; lia).
    rewrite length_map, Nat.sub_diag. simpl.
    replace (map Some cs ++ Some f :: replicate (length todo) None)
      with (map Some (cs ++ [f]) ++ replicate (length todo) None)
      by (by rewrite map_app, <- app_assoc).
    apply IH; [|done].
    intros j s' Hj. rewrite (Hidx (S j) s' Hj), length_app. simpl. f_equal. lia.
Qed.

Lemma compile_global_inits_ok rp :
  Forall (fun g => expr_recorded (var_bindings rp) (call_targets rp)
                     (length (rp_functions rp)) (initializer (gv_decl g)) = true
                   /\ expr_ops_ok (initializer (gv_decl g)) = true) (rp_globals rp) ->
  forall c, exists c', compile_global_inits rp c = (inr tt, c').
Proof.
  intros Hall. unfold compile_global_inits. apply for_each_ok.
  eapply Forall_impl; [exact Hall|]. intros g [Hrec Hops] c.
  destruct (compile_expr_ok rp _ Hrec Hops c) as [c1 H1].
  rewrite (bind_ok _ _ _ _ _ H1). eexists. apply emit_operand_eq.
Qed.

(** The entry function: it compiles when [main] is among the
    functions and raises the missing-main error otherwise. *)
Lemma compile_entry_function_ok rp :
  Forall (fun g => expr_recorded (var_bindings rp) (call_targets rp)
                     (length (rp_functions rp)) (initializer (gv_decl g)) = true
                   /\ expr_ops_ok (initializer (gv_decl g)) = true) (rp_globals rp) ->
  match find_main rp with
  | Some _ => exists entry, compile_entry_function rp = inr entry
  | None => compile_entry_function rp = inl (RuntimeError MissingMain)
  end.
Proof.
  intros Hall. destruct (compile_global_inits_ok rp Hall empty_chunk) as [c1 H1].
  unfold compile_entry_function, build_chunk, compile_entry_body.
  fold (compile_global_inits rp). fold (find_main rp).
  rewrite (bind_ok _ _ _ _ _ H1).
  destruct (find_main rp) as [main|]; [|done].
  unfold bind at 1. rewrite emit_call_eq. unfold bind at 1. rewrite !emit_eq. by eexists.
Qed.

Lemma find_main_Some fds :
  (exists d, d ∈ fds /\ fd_name d = "main") ->
  exists main, find (fun fn => String.eqb (fs_name fn) "main") (imap resolved_symbol fds)
               = Some main.
Proof.
  intros (d & Hd & Hname).
  destruct (find _ _) as [main|] eqn:Hfind; [by eexists|].
  apply list_elem_of_lookup in Hd as [i Hi].
  assert (Hin : In (resolved_symbol i d) (imap resolved_symbol fds)).
  { apply list_elem_of_In, list_elem_of_lookup. exists i. by rewrite list_lookup_imap, Hi. }
  apply (find_none _ _ Hfind) in Hin. simpl in Hin. rewrite Hname in Hin. done.
Qed.

Lemma find_main_None fds :
  (forall d, d ∈ fds -> fd_name d <> "main") ->
  find (fun fn => String.eqb (fs_name fn) "main") (imap resolved_symbol fds) = None.
Proof.
  intros Hno. destruct (find _ _) as [main|] eqn:Hfind; [|done].
  apply find_some in Hfind as [Hin Hname].
  apply list_elem_of_In, list_elem_of_lookup in Hin as [i Hi].
  rewrite list_lookup_imap in Hi. destruct (fds !! i) as [d|] eqn:Hd; [|done].
  injection Hi as <-. simpl in Hname. apply String.eqb_eq in Hname.
  exfalso. apply (Hno d); [by eapply list_elem_of_lookup_2|done].
Qed.

(** The compiler on what the resolver returns, with the recursion of
    [compile_expr] and [compile_stmt] taken as unbounded: when the
    program declares a function [main] the compiler returns a
    program, and when it declares none the compiler raises the
    missing-main RuntimeError. *)
Lemma compile_of_resolved (p : Program) (rp : ResolvedProgram) :
  resolve p = inr rp ->
  program_ops_ok p = true ->
  ((exists d, d ∈ function_decls p /\ fd_name d = "main") ->
   exists bp, compile rp = inr bp /\ compile_program p = inr bp)
  /\ ((forall d, d ∈ function_decls p -> fd_name d <> "main") ->
      compile rp = inl (RuntimeError MissingMain)
      /\ compile_program p = inl (RuntimeError MissingMain)).
Proof.
  intros Hres Hops.
  destruct (resolve_spec _ _ Hres) as [Hfs Hgs].
  destruct (resolve_records _ _ Hres) as [Rg Rf].
  assert (Hnf : length (rp_functions rp) = length (function_decls p))
    by (by rewrite Hfs, length_imap).
  rewrite <- Hnf in Rg, Rf.
  unfold program_ops_ok in Hops. rewrite forallb_forall in Hops.
  assert (Og : forall v, v ∈ var_decls p -> expr_ops_ok (initializer v) = true).
  { intros v Hv. unfold var_decls in Hv. apply list_elem_of_omap in Hv as (d & Hd & Hv).
    destruct d as [v'|]; [|done]. injection Hv as ->.
    apply (Hops (DVar v)). by apply list_elem_of_In. }
  assert (Of : forall d, d ∈ function_decls p -> forallb stmt_ops_ok (fd_body d) = true).
  { intros d Hd. unfold function_decls in Hd. apply list_elem_of_omap in Hd as (x & Hx & Hd).
    destruct x as [|d']; [done|]. injection Hd as ->.
    apply (Hops (DFun d)). by apply list_elem_of_In. }
  assert (Hfuns : exists fns,
             compile_functions rp (replicate (length (rp_functions rp)) None) = (inr tt, fns)).
  { apply (compile_functions_ok rp (rp_functions rp) []).
    - intros j s Hj. rewrite Hfs, list_lookup_imap in Hj.
      destruct (function_decls p !! j); [|done]. by injection Hj as <-.
    - apply Forall_forall. intros s Hs. apply list_elem_of_lookup in Hs as [i Hi].
      rewrite Hfs, list_lookup_imap in Hi.
      destruct (function_decls p !! i) as [d|] eqn:Hd; [|done]. injection Hi as <-.
      apply list_elem_of_lookup_2 in Hd.
      apply compile_function_ok; simpl; [by apply Rf|by apply Of]. }
  destruct Hfuns as [fns Hfuns].
  assert (Hglob : Forall (fun g => expr_recorded (var_bindings rp) (call_targets rp)
                                     (length (rp_functions rp)) (initializer (gv_decl g)) = true
                                   /\ expr_ops_ok (initializer (gv_decl g)) = true)
                         (rp_globals rp)).
  { apply Forall_forall. intros g Hg. apply list_elem_of_lookup in Hg as [i Hi].
    rewrite Hgs, list_lookup_imap in Hi.
    destruct (var_decls p !! i) as [v|] eqn:Hv; [|done]. injection Hi as <-.
    apply list_elem_of_lookup_2 in Hv. simpl. split; [by apply Rg|by apply Og]. }
  pose proof (compile_entry_function_ok rp Hglob) as Hentry.
  unfold compile_program. rewrite Hres. unfold compile. rewrite Hfuns.
  split.
  - intros Hmain. destruct (find_main_Some _ Hmain) as [main Hm].
    unfold find_main in Hentry. rewrite Hfs, Hm in Hentry. destruct Hentry as [entry ->].
    by eexists.
  - intros Hno. unfold find_main in Hentry. rewrite Hfs, (find_main_None _ Hno) in Hentry.
    by rewrite Hentry.
Qed.

(** X29: the lookups of the compiler are covered by the resolver.
    For a program whose binary operators are the four that the parser
    produces, a successful [resolve] has recorded a binding or a
    target for every node that the compiler looks up, and every jump
    the compiler patches lies inside the chunk.  So on the resolved
    program the compiler raises none of the errors of its lookups:
    not the RuntimeError for a missing binding, not a KeyError from
    [call_targets], not an AssertionError, not an IndexError.  It
    raises the missing-main RuntimeError only if no function is named
    [main], and returns a program only if one is.  (The recursion
    limit of the interpreter, which a deeply nested expression
    exhausts, is no part of this model: the statement says which
    errors are not raised, and not that the compiler returns.) *)
Theorem resolved_programs_compile (p : Program) (rp : ResolvedProgram) :
  resolve p = inr rp ->
  program_ops_ok p = true ->
  (forall nid, compile rp <> inl (RuntimeError (NoBinding nid)))
  /\ compile rp <> inl KeyError
  /\ compile rp <> inl AssertionError
  /\ compile rp <> inl IndexError
  /\ (compile rp = inl (RuntimeError MissingMain) ->
      forall d, d ∈ function_decls p -> fd_name d <> "main")
  /\ (forall bp, compile rp = inr bp ->
      exists d, d ∈ function_decls p /\ fd_name d = "main").
Proof.
  intros Hres Hops.
  destruct (compile_of_resolved p rp Hres Hops) as [Hyes Hno].
  destruct (decide (Exists (fun d => fd_name d = "main") (function_decls p)))
    as [Hex|Hnex].
  - apply Exists_exists in Hex as (d & Hd & Hn).
    destruct Hyes as (bp & Hc & _); [by eauto|]. rewrite Hc.
    repeat split; try done. intros _ _. by eauto.
  - assert (Hall : forall d, d ∈ function_decls p -> fd_name d <> "main").
    { intros d Hd Hn. apply Hnex, Exists_exists. by eauto. }
    destruct (Hno Hall) as [Hc _]. rewrite Hc.
    repeat split; done.
Qed.

Lemma resolved_programs_compile_witness :
  let rp := from_inr (mkResolvedProgram prog_loop [] [] ∅ ∅) (resolve prog_loop) in
  compile rp <> inl KeyError
  /\ forall bp, compile rp = inr bp ->
       exists d, d ∈ function_decls prog_loop /\ fd_name d = "main".
Proof.
  intros rp.
  assert (H1 : resolve prog_loop = inr rp) by (vm_compute; reflexivity).
  assert (H2 : program_ops_ok prog_loop = true) by reflexivity.
  pose proof (resolved_programs_compile prog_loop rp H1 H2) as H.
  split; [apply H|apply H].
Defined.

(** ** Compiled code is a sequence of whole instructions *)

Lemma instructions_app n a b : instructions n a -> instructions n b -> instructions n (a ++ b).
Proof.
  induction 1 as [|o ops rest Hlen Hpc _ IH]; intros Hb; [done|].
  simpl. rewrite <- app_assoc. constructor; [done|done|by apply IH].
Qed.

Lemma instructions_mono n n' l : n <= n' -> instructions n l -> instructions n' l.
Proof.
  intros Hn. induction 1 as [|o ops rest Hlen Hpc _ IH]; constructor; [done| |done].
  intros hi lo Ho Hops. specialize (Hpc hi lo Ho Hops). lia.
Qed.

(** One instruction without operands, with a 16-bit operand, and a
    call. *)
Lemma instructions_op0 n o : operand_bytes o = 0%nat -> instructions n [OpCode_value o].
Proof.
  intros Ho. apply (instructions_cons n o [] []); [by rewrite Ho| |constructor].
  intros hi lo ->. done.
Qed.

Lemma instructions_op16 n o hi lo :
  operand_bytes o = 2%nat -> o <> PUSH_CONST -> instructions n [OpCode_value o; hi; lo].
Proof.
  intros Ho Hne. apply (instructions_cons n o [hi; lo] []); [by rewrite Ho| |constructor].
  intros ? ? ->. done.
Qed.

Lemma instructions_call n hi lo argc : instructions n [OpCode_value CALL; hi; lo; argc].
Proof.
  apply (instructions_cons n CALL [hi; lo; argc] []); [done| |constructor]. done.
Qed.

Lemma instructions_push n index :
  0 <= index < n ->
  instructions n [OpCode_value PUSH_CONST; hi_byte index; lo_byte index].
Proof.
  intros Hi.
  apply (instructions_cons n PUSH_CONST [hi_byte index; lo_byte index] []);
    [done| |constructor].
  intros hi lo _ [= <- <-]. rewrite u16_mod.
  pose proof (Z.mod_pos_bound index 65536 ltac:(lia)).
  pose proof (Z.mod_le index 65536 ltac:(lia) ltac:(lia)). lia.
Qed.

Section EmitsInstructions.
Lemma ei_ret {A} (a : A) : emits_instructions (ret a).
  Proof.
    intros c x c' [= _ <-]. split; [exists []; by rewrite app_nil_r|].
    exists []. split; [by rewrite app_nil_r|constructor].
  Qed.

Lemma ei_raise {A} e : emits_instructions (@raise Chunk A e).
  Proof. by intros c x c'. Qed.

Lemma ei_bind {A B} (m : compM A) (k : A -> compM B) :
    emits_instructions m -> (forall a, emits_instructions (k a)) ->
    emits_instructions (bind m k).
  Proof.
    intros Hm Hk c x c' H. apply bind_inr in H as (a & c1 & H1 & H2).
    apply Hm in H1 as ([k1 K1] & b1 & C1 & I1).
    apply Hk in H2 as ([k2 K2] & b2 & C2 & I2).
    split; [exists (k1 ++ k2); by rewrite K2, K1, app_assoc|].
    exists (b1 ++ b2). split; [by rewrite C2, C1, app_assoc|].
    apply instructions_app; [|done].
    eapply instructions_mono; [|exact I1]. rewrite K2, len_app.
    pose proof (len_nonneg k2). lia.
  Qed.

Lemma ei_for_each {A} (f : A -> compM unit) (l : list A) :
    Forall (fun a => emits_instructions (f a)) l -> emits_instructions (for_each f l).
  Proof.
    induction 1 as [|a l Ha _ IH]; [apply ei_ret|].
    rewrite for_each_cons. by apply ei_bind.
  Qed.

  (** A computation that appends the bytes of whole instructions. *)
Lemma ei_emitted {A} (m : compM A) bs line a :
    (forall c, m c = (inr a, emitted c bs line)) ->
    (forall n, instructions n bs) ->
    emits_instructions m.
  Proof.
    intros Hm Hbs c x c' H. rewrite Hm in H. injection H as _ <-.
    split; [exists []; simpl; by rewrite app_nil_r|].
    exists bs. split; [done|apply Hbs].
  Qed.

Lemma ei_emit o line : operand_bytes o = 0%nat -> emits_instructions (emit o line).
  Proof.
    intros Ho. eapply ei_emitted; [apply emit_eq|]. intros n. by apply instructions_op0.
  Qed.

Lemma ei_operand o v line :
    operand_bytes o = 2%nat -> o <> PUSH_CONST ->
    emits_instructions (let* _ := emit o line in emit_u16 v line).
  Proof.
    intros Ho Hne. eapply ei_emitted; [apply emit_operand_eq|].
    intros n. by apply instructions_op16.
  Qed.

Lemma ei_emit_call i n line : emits_instructions (emit_call i n line).
  Proof.
    eapply ei_emitted; [apply emit_call_eq|]. intros m. apply instructions_call.
  Qed.

Lemma ei_binding_for_node rp nid : emits_instructions (binding_for_node rp nid).
  Proof.
    unfold binding_for_node. destruct (var_bindings rp !! nid); [apply ei_ret|apply ei_raise].
  Qed.
End EmitsInstructions.

Lemma ei_compile_expr rp e : emits_instructions (compile_expr rp e).
Proof.
  induction e as [line v|nid line n|nid line n v IH|line l op r IHl IHr|nid line cal args IH]
    using Expr_nested_ind; simpl.
  - intros c x c' H. unfold bind at 1, get in H. unfold bind at 1, put in H.
    rewrite emit_operand_eq in H. injection H as _ <-.
    cbn [emitted add_constant fst snd code constants].
    split; [by eexists|]. eexists. split; [done|].
    rewrite !len_app. apply instructions_push.
    pose proof (len_nonneg (constants c)). unfold len at 2 3 5. simpl. lia.
  - apply ei_bind; [apply ei_binding_for_node|intros [b|b]]; by apply ei_operand.
  - apply ei_bind; [apply ei_binding_for_node|intros b].
    apply ei_bind; [exact IH|intros _].
    destruct b as [b|b]; (apply ei_bind; [|intros _]); by apply ei_operand.
  - apply ei_bind; [exact IHl|intros _]. apply ei_bind; [exact IHr|intros _].
    destruct (op_map op) as [o|] eqn:Ho; [|apply ei_raise].
    apply ei_emit. unfold op_map in Ho.
    repeat match type of Ho with
           | (if ?b then _ else _) = _ => destruct b
           end; first [done | by injection Ho as <-].
  - destruct (call_targets rp !! nid); [|apply ei_raise].
    destruct (rp_functions rp !! _); [|apply ei_raise].
    apply ei_bind; [by apply ei_for_each|intros; apply ei_emit_call].
Qed.

Lemma ei_expr_then rp e o line :
  operand_bytes o = 0%nat ->
  emits_instructions (let* _ := compile_expr rp e in emit o line).
Proof. intros Ho. apply ei_bind; [apply ei_compile_expr|intros; by apply ei_emit]. Qed.

Lemma ei_compile_var_decl rp d : emits_instructions (compile_var_decl rp d).
Proof.
  unfold compile_var_decl. apply ei_bind; [apply ei_binding_for_node|intros b].
  apply ei_bind; [apply ei_compile_expr|intros _]. destruct b as [b|b]; by apply ei_operand.
Qed.

(** The instructions a statement appended, from what it left. *)
Lemma appended_instructions (m : compM unit) c c' bs :
  emits_instructions m -> m c = (inr tt, c') -> code c' = code c ++ bs ->
  instructions (len (constants c')) bs.
Proof.
  intros Hm H Hc. apply Hm in H as (_ & bs' & Hc' & I).
  rewrite Hc in Hc'. by apply app_inv_head in Hc' as ->.
Qed.

Lemma constants_le (m : compM unit) ks c c' :
  emits ks m -> m c = (inr tt, c') -> len (constants c) <= len (constants c').
Proof.
  intros Hm H. apply Hm in H as [_ ->]. rewrite len_app. pose proof (len_nonneg ks). lia.
Qed.

Lemma instructions_jump n o hi lo rest :
  operand_bytes o = 2%nat -> o <> PUSH_CONST -> instructions n rest ->
  instructions n ([OpCode_value o; hi; lo] ++ rest).
Proof. intros Ho Hne Hr. apply instructions_app; [by apply instructions_op16|done]. Qed.

Lemma ei_compile_stmt rp s : emits_instructions (compile_stmt rp s).
Proof.
  induction s as [d|statements IH|line expr|line expr|line cond t e IHt IHe|line cond b IHb
                 |line v]
    using Stmt_nested_ind.
  - apply ei_compile_var_decl.
  - cbn [compile_stmt]. by apply ei_for_each.
  - by apply ei_expr_then.
  - by apply ei_expr_then.
  - intros c [] c' H.
    split; [destruct (em_compile_stmt _ _ _ _ _ H) as [_ ->]; by eexists|].
    destruct e as [e|].
    + destruct (compile_if_else_layout _ _ _ _ _ _ _ (em_compile_stmt rp t)
                  (em_compile_stmt rp e) H)
        as (c1 & c3 & c5 & c6 & cb & tb & eb & H1 & Hc1 & H3 & Hc3 & Hc5 & H6 & Hc6
            & Hcode & _ & _ & K5 & K').
      pose proof (appended_instructions _ _ _ _ (ei_compile_expr rp cond) H1 Hc1) as I1.
      assert (I3 : instructions (len (constants c3)) tb).
      { eapply (appended_instructions _ _ _ _ IHt H3). cbn [emitted code].
        by rewrite Hc3, <- !app_assoc. }
      pose proof (appended_instructions _ _ _ _ (IHe e eq_refl) H6 Hc6) as I6.
      pose proof (constants_le _ _ _ _ (em_compile_stmt rp t) H3) as L3.
      cbn [emitted constants] in L3.
      pose proof (constants_le _ _ _ _ (em_compile_stmt rp e) H6) as L6.
      rewrite K5 in L6. rewrite <- K' in L6, I6.
      eexists. split; [exact Hcode|].
      apply instructions_app; [eapply instructions_mono; [|exact I1]; lia|].
      apply instructions_jump; [done|done|].
      apply instructions_app; [eapply instructions_mono; [|exact I3]; lia|].
      by apply instructions_jump.
    + destruct (compile_if_layout _ _ _ _ _ _ (em_compile_stmt rp t) H)
        as (c1 & c3 & cb & tb & H1 & Hc1 & H3 & Hc3 & Hcode & _ & K').
      pose proof (appended_instructions _ _ _ _ (ei_compile_expr rp cond) H1 Hc1) as I1.
      assert (I3 : instructions (len (constants c3)) tb).
      { eapply (appended_instructions _ _ _ _ IHt H3). cbn [emitted code].
        by rewrite Hc3, <- !app_assoc. }
      pose proof (constants_le _ _ _ _ (em_compile_stmt rp t) H3) as L3.
      cbn [emitted constants] in L3. rewrite <- K' in L3, I3.
      eexists. split; [exact Hcode|].
      apply instructions_app; [eapply instructions_mono; [|exact I1]; lia|].
      by apply instructions_jump.
  - intros c [] c' H.
    split; [destruct (em_compile_stmt _ _ _ _ _ H) as [_ ->]; by eexists|].
    destruct (compile_while_layout _ _ _ _ _ _ (em_compile_stmt rp b) H)
      as (c1 & c3 & cb & bb & H1 & Hc1 & H3 & Hc3 & Hcode & _ & K').
    pose proof (appended_instructions _ _ _ _ (ei_compile_expr rp cond) H1 Hc1) as I1.
    assert (I3 : instructions (len (constants c3)) bb).
    { eapply (appended_instructions _ _ _ _ IHb H3). cbn [emitted code].
      by rewrite Hc3, <- !app_assoc. }
    pose proof (constants_le _ _ _ _ (em_compile_stmt rp b) H3) as L3.
    cbn [emitted constants] in L3. rewrite <- K' in L3, I3.
    eexists. split; [exact Hcode|].
    apply instructions_app; [eapply instructions_mono; [|exact I1]; lia|].
    apply instructions_jump; [done|done|].
    apply instructions_app; [done|]. by apply instructions_op16.
  - by apply ei_expr_then.
Qed.

Lemma ei_compile_block rp statements : emits_instructions (compile_block rp statements).
Proof. apply ei_for_each, Forall_forall. intros; apply ei_compile_stmt. Qed.

Lemma ei_compile_entry_body rp : emits_instructions (compile_entry_body rp).
Proof.
  unfold compile_entry_body. apply ei_bind.
  - apply ei_for_each, Forall_forall. intros g _.
    apply ei_bind; [apply ei_compile_expr|intros _]. by apply ei_operand.
  - intros _. destruct (find _ _); [|apply ei_raise].
    apply ei_bind; [apply ei_emit_call|intros _].
    apply ei_bind; [by apply ei_emit|intros _]. by apply ei_emit.
Qed.

Lemma build_chunk_instructions m c :
  emits_instructions m -> build_chunk m = inr c ->
  instructions (len (constants c)) (code c).
Proof.
  intros Hm. unfold build_chunk.
  destruct (m empty_chunk) as [[e|[]] c'] eqn:H; [done|]. intros [= <-].
  apply Hm in H as (_ & bs & -> & I). done.
Qed.

Lemma compile_function_instructions rp s f :
  compile_function rp s = inr f ->
  instructions (len (constants (chunk f))) (code (chunk f)).
Proof.
  unfold compile_function. destruct (build_chunk _) as [e|c] eqn:H; [done|].
  intros [= <-]. simpl. eapply build_chunk_instructions; [apply ei_compile_block|exact H].
Qed.

Lemma compile_entry_function_instructions rp f :
  compile_entry_function rp = inr f ->
  instructions (len (constants (chunk f))) (code (chunk f)).
Proof.
  unfold compile_entry_function. destruct (build_chunk _) as [e|c] eqn:H; [done|].
  intros [= <-]. simpl. eapply build_chunk_instructions; [apply ei_compile_entry_body|exact H].
Qed.

(** ** The disassembler on compiled code *)

Lemma py_get_middle {A} (pre rest : list A) (x : A) :
  py_get (pre ++ x :: rest) (len pre) = inr x.
Proof.
  apply py_get_nonneg; [apply len_nonneg|]. unfold len. rewrite Nat2Z.id.
  by rewrite list_lookup_middle.
Qed.

Lemma py_get_in_range {A} (l : list A) (i : Z) :
  0 <= i < len l -> exists x, py_get l i = inr x.
Proof.
  intros Hi. destruct (lookup_lt_is_Some_2 l (Z.to_nat i)) as [x Hx]; [unfold len in Hi; lia|].
  exists x. apply py_get_nonneg; [lia|done].
Qed.

(** The bytes of the chunk from offset [len pre] on. *)
Lemma py_get_code_at {A} (l pre : list A) (x : A) (rest : list A) (k : Z) (mid : list A) :
  l = pre ++ mid ++ x :: rest -> k = len pre + len mid -> py_get l k = inr x.
Proof.
  intros -> ->. rewrite app_assoc, <- len_app. apply py_get_middle.
Qed.

Lemma dis_read_u16_at c pre hi lo rest :
  code c = pre ++ hi :: lo :: rest ->
  dis_read_u16 c (len pre) = inr (u16 hi lo, len pre + 2).
Proof.
  intros Hc. unfold dis_read_u16.
  rewrite (py_get_code_at (code c) pre hi (lo :: rest) (len pre) []) by (done || (simpl; unfold len; simpl; lia)).
  rewrite (py_get_code_at (code c) pre lo rest (len pre + 1) [hi]) by done.
  reflexivity.
Qed.

Lemma disassemble_instr_ok c p pre o operands rest :
  chunk_parallel c ->
  code c = pre ++ OpCode_value o :: operands ++ rest ->
  length operands = operand_bytes o ->
  (forall hi lo, o = PUSH_CONST -> operands = [hi; lo] ->
                 0 <= u16 hi lo < len (constants c)) ->
  exists text,
    disassemble_instr c p (len pre) = inr (text, len (pre ++ OpCode_value o :: operands)).
Proof.
  intros Hpar Hc Hlen Hpc. unfold disassemble_instr.
  destruct (py_get_in_range (lines c) (len pre)) as [line ->].
  { split; [apply len_nonneg|]. unfold chunk_parallel in Hpar. unfold len. rewrite Hpar, Hc.
    rewrite length_app. simpl. lia. }
  rewrite Hc, py_get_middle, OpCode_of_value. rewrite <- Hc.
  assert (Hc1 : code c = (pre ++ [OpCode_value o]) ++ operands ++ rest)
    by (by rewrite Hc, <- app_assoc).
  assert (Hl1 : len pre + 1 = len (pre ++ [OpCode_value o])) by (by rewrite len_app).
  assert (Hclose : forall (text : string) (ops : list Z) (k : Z),
             len pre + 1 + len ops = k ->
             exists text', @inr exn _ (text, k)
                           = inr (text', len (pre ++ OpCode_value o :: ops))).
  { intros text ops k <-. exists text. do 2 f_equal. rewrite len_app. unfold len. simpl. lia. }
  destruct o; simpl in Hlen;
    repeat (destruct operands as [|? operands]; simpl in Hlen; try lia);
    try (apply Hclose; unfold len; simpl; lia);
    rewrite Hl1; rewrite (dis_read_u16_at c _ _ _ _ Hc1); cbn [fst snd];
    rewrite <- Hl1;
    try (apply Hclose; unfold len; simpl; lia).
  - match goal with
    | |- context [py_get (constants c) (u16 ?a ?b)] =>
        destruct (py_get_in_range (constants c) (u16 a b)) as [v ->]; [by apply Hpc|]
    end.
    apply Hclose. unfold len. simpl. lia.
  - match type of Hc1 with
    | _ = _ ++ [?a; ?b; ?d] ++ _ =>
        rewrite (py_get_code_at (code c) (pre ++ [OpCode_value CALL]) d rest
                   (len pre + 1 + 2) [a; b])
          by (done || (rewrite len_app; unfold len; simpl; lia));
        destruct (Z.leb_spec 0 (u16 a b)), (Z.ltb_spec (u16 a b) (len (functions p)));
          cbn [andb];
          try (apply Hclose; unfold len; simpl; lia);
        destruct (py_get_in_range (functions p) (u16 a b)) as [fn ->]; [done|];
        apply Hclose; unfold len; simpl; lia
    end.
Qed.

Lemma disassemble_loop_ok c p :
  chunk_parallel c ->
  forall suf, instructions (len (constants c)) suf ->
  forall fuel pre acc,
    code c = pre ++ suf -> (length suf <= fuel)%nat ->
    exists texts, disassemble_loop fuel c p (len pre) acc = Some (inr texts).
Proof.
  intros Hpar suf. induction 1 as [|o ops rest Hlen Hpc Hrest IH]; intros fuel pre acc Hc Hfuel.
  - exists acc. rewrite app_nil_r in Hc.
    destruct fuel; simpl; rewrite Hc;
      (destruct (Z.leb_spec (len pre) (len pre)); [done|lia]).
  - destruct fuel as [|fuel]; [simpl in Hfuel; lia|]. simpl.
    destruct (Z.leb_spec (len (code c)) (len pre)) as [Hle|_].
    { rewrite Hc, len_app in Hle. unfold len in Hle. simpl in Hle. lia. }
    destruct (disassemble_instr_ok c p pre o ops rest Hpar Hc Hlen Hpc) as [text ->].
    apply IH.
    + rewrite Hc. by rewrite <- app_assoc.
    + simpl in Hfuel. rewrite length_app in Hfuel. lia.
Qed.

Lemma disassemble_function_ok f p :
  chunk_parallel (chunk f) ->
  instructions (len (constants (chunk f))) (code (chunk f)) ->
  exists texts, disassemble_function f p = inr texts.
Proof.
  intros Hpar Hi. unfold disassemble_function.
  destruct (disassemble_loop_ok (chunk f) p Hpar _ Hi (length (code (chunk f))) [] [])
    as [texts H]; [done|done|].
  change (len []) with 0 in H. rewrite H. by exists texts.
Qed.

Lemma disassemble_functions_ok p (fs : list BytecodeFunction) :
  Forall (fun f => chunk_parallel (chunk f)
                   /\ instructions (len (constants (chunk f))) (code (chunk f))) fs ->
  forall index, exists ls, disassemble_functions p index fs = inr ls.
Proof.
  induction 1 as [|f fs [Hpar Hi] _ IH]; intros index; [by eexists|].
  simpl. destruct (disassemble_function_ok f p Hpar Hi) as [body ->].
  destruct (IH (S index)) as [rest ->]. by eexists.
Qed.

(** X30: compiled programs disassemble.  The code of every function of
    a compiled program is a sequence of whole instructions whose
    [PUSH_CONST] operands index the function's pool, with one line
    entry for each byte; so the disassembler, which reads operands and
    constants without checking bounds, finds every byte and every
    constant it reads, and returns a listing for a program whose
    constants and line entries are integers that Python converts to a
    string. *)
Theorem compiled_programs_disassemble (p : Program) (bp : BytecodeProgram) :
  compile_program p = inr bp ->
  program_printable bp = true ->
  Forall (fun f => instructions (len (constants (chunk f))) (code (chunk f))) (functions bp)
  /\ exists text, disassemble_program bp = inr text.
Proof.
  unfold compile_program. destruct (resolve p) as [e|rp] eqn:Hres; [done|]. intros Hcomp _.
  destruct (resolve_spec _ _ Hres) as [Hfs Hgs].
  assert (Hidx : forall j s, rp_functions rp !! j = Some s -> fs_index s = Z.of_nat j).
  { intros j s Hj. rewrite Hfs, list_lookup_imap in Hj.
    destruct (function_decls p !! j); [|done]. by injection Hj as <-. }
  pose proof (compile_parallel _ _ Hcomp) as Hpar.
  destruct (compile_spec _ _ Hidx Hcomp) as (cs & entry & Hall & Hentry & ->).
  cbn [functions] in *.
  assert (Hins : Forall (fun f => instructions (len (constants (chunk f))) (code (chunk f)))
                        (cs ++ [entry])).
  { apply Forall_app. split.
    - apply Forall_forall. intros f Hf. apply list_elem_of_lookup in Hf as [i Hi].
      destruct (Forall2_lookup_r _ _ _ _ _ Hall Hi) as (s & _ & Hs).
      by eapply compile_function_instructions.
    - apply Forall_singleton. by eapply compile_entry_function_instructions. }
  split; [exact Hins|].
  unfold disassemble_program. cbn [functions].
  destruct (disassemble_functions_ok
              (mkBytecodeProgram (cs ++ [entry]) (map (fun _ => 0) (rp_globals rp)) (len cs))
              (cs ++ [entry])) with (index := 0%nat) as [ls ->]; [|by eexists].
  apply Forall_forall. intros f Hf. split.
  - rewrite Forall_forall in Hpar. by apply Hpar.
  - rewrite Forall_forall in Hins. by apply Hins.
Qed.

Lemma compiled_programs_disassemble_witness :
  let bp := from_inr (mkBytecodeProgram [] [] 0) (compile_program prog_loop) in
  exists text, disassemble_program bp = inr text.
Proof.
  intros bp. apply (compiled_programs_disassemble prog_loop bp).
  - vm_compute. reflexivity.
  - vm_compute. reflexivity.
Defined.

